(** * XRF interpreter (xrf.c): a shallow embedding and its verification

    The repository holds two revisions of one C file.  Both are embedded
    here, function by function, over an explicit model of the C heap:

    - [Rev1] is the revision whose stack is doubly linked, keeps the
      popped nodes for reuse and counts the live nodes in [stack_size];
    - [Rev2] is the revision whose stack is singly linked and frees each
      popped node.

    A C function becomes a state transformer in the monad [M]; a call of
    [exit] ends the run with its status, and behaviour the C standard
    leaves undefined is an outcome of its own. *)

From Stdlib Require Import ZArith Ascii String DecimalString.
From stdpp Require Import gmap list.

Local Open Scope Z_scope.

(** ** Machine integers *)

(** [unsigned int] is 32 bits wide; arithmetic on it wraps. *)
Definition UINT_MODULUS : Z := 2 ^ 32.

Definition to_unsigned (x : Z) : Z := x mod UINT_MODULUS.

(** Conversion to [int] (two's complement, as on every supported target). *)
Definition to_int (x : Z) : Z :=
  (x + 2 ^ 31) mod UINT_MODULUS - 2 ^ 31.

Definition is_unsigned (x : Z) : Prop := 0 <= x < UINT_MODULUS.

(** [EOF] as <stdio.h> defines it. *)
Definition EOF : Z := -1.

Definition INT_MAX : Z := 2 ^ 31 - 1.
Definition INT_MIN : Z := - 2 ^ 31.

(** [RAND_MAX] as glibc defines it. *)
Definition RAND_MAX : Z := 2 ^ 31 - 1.

Definition COMMANDS_PER_CHUNK : Z := 5.

(** ** Outcomes of a run *)

(** The arrays of the program. *)
Inductive array : Type :=
  | CommandsArray
  | VisitedArray
  | ValuesArray.

(** What the C standard leaves undefined, by cause. *)
Inductive undefined : Type :=
  | NullDereference
  | DanglingPointer
  | OutOfBounds (which : array)
  | DivisionByZero
  | SignedOverflow.

(** The messages the program prints on [stderr] before [exit(1)]. *)
Inductive diagnostic : Type :=
  | PopEmpty
  | SwapTooFew (one_element : bool)
  | DupEmpty
  | UnableToOpen (filename : string)
  | NoFilename
  | OnlyOneFile
  | RotateEmpty
  | UnableToAllocateCode
  | UnknownCharacter (c : ascii)
  | InadequateLength
  | OutputEmpty
  | IncrementEmpty
  | DecrementEmpty
  | AddTooFew (one_value : bool)
  | DiffTooFew (one_value : bool)
  | EmptyAtChunkEnd
  | NoSuchChunk (index : Z).

(** [%u] of [printf]. *)
Definition decimal (v : Z) : string :=
  NilZero.string_of_uint (N.to_uint (Z.to_N v)).

Definition newline : string := String (ascii_of_nat 10) EmptyString.

Inductive outcome (S A : Type) : Type :=
  | Ok (a : A) (s : S)
  | Exit (status : Z) (s : S)
  | Undefined (u : undefined)
  | OutOfFuel.

Arguments Ok {S A} a s.
Arguments Exit {S A} status s.
Arguments Undefined {S A} u.
Arguments OutOfFuel {S A}.

Definition M (S A : Type) : Type := S -> outcome S A.

Definition ret {S A} (a : A) : M S A := fun s => Ok a s.

Definition bind {S A B} (m : M S A) (k : A -> M S B) : M S B :=
  fun s =>
    match m s with
    | Ok a s' => k a s'
    | Exit st s' => Exit st s'
    | Undefined u => Undefined u
    | OutOfFuel => OutOfFuel
    end.

Notation "x <- m ;; k" := (bind m (fun x => k))
  (at level 100, m at next level, right associativity).
Notation "m ;;; k" := (bind m (fun _ => k))
  (at level 100, right associativity).

Definition get {S} : M S S := fun s => Ok s s.
Definition put {S} (s : S) : M S unit := fun _ => Ok tt s.
Definition undefined_behaviour {S A} (u : undefined) : M S A :=
  fun _ => Undefined u.
Definition exit {S A} (status : Z) : M S A := fun s => Exit status s.

(** ** The heap *)

Definition loc : Type := positive.

(** [malloc] returns an address that is not allocated; allocation itself
    is taken to succeed. *)
Definition malloc_addr {V} (h : gmap loc V) : loc := fresh (dom h).


(** ** The process: memory, code and streams *)

(** [struct Code]: the commands read in, one [visited] flag per chunk and
    the number of commands.  An array is the list of its cells; the null
    pointer the arrays start as is the array of no cell. *)
Record Code : Type := mkCode {
  commands : list ascii;
  visited : list bool;
  len : Z
}.

(** The state of the process.  [Mem] is the part that differs between the
    revisions: the heap of stack nodes and the global pointers into it.
    [rand_source] is the sequence [rand] draws from, [rand_calls] how many
    draws were made. *)
Record machine (Mem : Type) : Type := mkMachine {
  mem : Mem;
  code : Code;
  stdin : list ascii;
  stdout : list ascii;
  stderr : list diagnostic;
  rand_source : nat -> Z;
  rand_calls : nat
}.

Arguments mkMachine {Mem}.
Arguments mem {Mem}.
Arguments code {Mem}.
Arguments stdin {Mem}.
Arguments stdout {Mem}.
Arguments stderr {Mem}.
Arguments rand_source {Mem}.
Arguments rand_calls {Mem}.

Section Process.
Context {Mem : Type}.
Implicit Type s : machine Mem.

Definition set_mem (m : Mem) s : machine Mem :=
  mkMachine m (code s) (stdin s) (stdout s) (stderr s)
            (rand_source s) (rand_calls s).

Definition set_code (c : Code) s : machine Mem :=
  mkMachine (mem s) c (stdin s) (stdout s) (stderr s)
            (rand_source s) (rand_calls s).

Definition set_stdin (i : list ascii) s : machine Mem :=
  mkMachine (mem s) (code s) i (stdout s) (stderr s)
            (rand_source s) (rand_calls s).

Definition set_stdout (o : list ascii) s : machine Mem :=
  mkMachine (mem s) (code s) (stdin s) o (stderr s)
            (rand_source s) (rand_calls s).

Definition set_stderr (e : list diagnostic) s : machine Mem :=
  mkMachine (mem s) (code s) (stdin s) (stdout s) e
            (rand_source s) (rand_calls s).

Definition set_rand_calls (n : nat) s : machine Mem :=
  mkMachine (mem s) (code s) (stdin s) (stdout s) (stderr s)
            (rand_source s) n.

Definition get_mem : M (machine Mem) Mem := fun s => Ok (mem s) s.
Definition put_mem (m : Mem) : M (machine Mem) unit :=
  fun s => Ok tt (set_mem m s).
Definition get_code : M (machine Mem) Code := fun s => Ok (code s) s.
Definition put_code (c : Code) : M (machine Mem) unit :=
  fun s => Ok tt (set_code c s).

(** [fprintf(stderr, ...)] with one of the program's messages. *)
Definition fprintf_stderr (d : diagnostic) : M (machine Mem) unit :=
  fun s => Ok tt (set_stderr (stderr s ++ [d]) s).

(** [fprintf(stderr, ...); exit(1);] *)
Definition fatal {A} (d : diagnostic) : M (machine Mem) A :=
  fprintf_stderr d ;;; exit 1.

(** [getchar()]: the next byte of the input as an [int], or [EOF]. *)
Definition getchar : M (machine Mem) Z :=
  fun s =>
    match stdin s with
    | [] => Ok EOF s
    | c :: rest => Ok (Z.of_N (N_of_ascii c)) (set_stdin rest s)
    end.

(** [putchar(c)]: writes [(unsigned char) c]. *)
Definition putchar (c : Z) : M (machine Mem) unit :=
  fun s =>
    Ok tt (set_stdout (stdout s ++ [ascii_of_N (Z.to_N (c mod 256))]) s).

(** [rand()]: the next draw, between 0 and [RAND_MAX]. *)
Definition rand : M (machine Mem) Z :=
  fun s =>
    Ok (rand_source s (rand_calls s) mod (RAND_MAX + 1))
       (set_rand_calls (S (rand_calls s)) s).

(** An array read [a[i]] and an array write [a[i] = x]; outside the
    array both are undefined.  [which] names the array. *)
Definition array_get {A} (which : array) (a : list A) (i : Z)
  : M (machine Mem) A :=
  if i <? 0 then undefined_behaviour (OutOfBounds which)
  else match a !! Z.to_nat i with
       | Some x => ret x
       | None => undefined_behaviour (OutOfBounds which)
       end.

Definition array_set {A} (which : array) (a : list A) (i : Z) (x : A)
  : M (machine Mem) (list A) :=
  if (0 <=? i) && (i <? Z.of_nat (length a))
  then ret (<[Z.to_nat i := x]> a)
  else undefined_behaviour (OutOfBounds which).

(** [x + d] on an [int]; overflow is undefined. *)
Definition int_add (x d : Z) : M (machine Mem) Z :=
  if (INT_MIN <=? x + d) && (x + d <=? INT_MAX) then ret (x + d)
  else undefined_behaviour SignedOverflow.

(** *** read_xrf_file *)

(** [isspace] in the C locale. *)
Definition isspace (c : ascii) : bool :=
  let n := N_of_ascii c in
  ((n =? 32) || ((9 <=? n) && (n <=? 13)))%N.

(** [(c >= '0' && c <= '9') || (c >= 'A' && c <= 'F')] *)
Definition is_command (c : ascii) : bool :=
  let n := N_of_ascii c in
  (((48 <=? n) && (n <=? 57)) || ((65 <=? n) && (n <=? 70)))%N.

(** The body of [if (cur_cmd % COMMANDS_PER_CHUNK == 0)].
    [code.len += COMMANDS_PER_CHUNK] adds as [unsigned int] (the constant
    is one) and converts the sum back to [int].  Both arrays then grow by
    one chunk: [realloc] keeps the old cells, and the new cells of
    [commands] hold no command yet, written here as the zero byte.  A
    negative [code.len] is, as a [size_t], more than an object can have,
    so [realloc] fails on it; any other allocation is taken to succeed.
    Last the new chunk's flag is cleared, at an index worked out as
    [unsigned int]. *)
Definition grow_code : M (machine Mem) unit :=
  cd <- get_code ;;
  let new_len := to_int (to_unsigned (len cd + COMMANDS_PER_CHUNK)) in
  put_code (mkCode (commands cd) (visited cd) new_len) ;;;
  if new_len <? 0 then fatal UnableToAllocateCode
  else
    let new_commands := resize (Z.to_nat new_len) zero (commands cd) in
    let new_visited := resize (Z.to_nat (new_len / 5)) false (visited cd) in
    new_visited <- array_set VisitedArray new_visited
                     (to_unsigned
                        (to_unsigned new_len / COMMANDS_PER_CHUNK - 1))
                     false ;;
    put_code (mkCode new_commands new_visited new_len).

(** The [while ((c = fgetc(file)) != EOF)] loop, by recursion on what is
    left of the file.  [char_c] tells whether [c] is declared [char]
    (as in [Rev2]) rather than [int]: the byte 255 then compares equal
    to [EOF] (plain [char] is signed) and ends the loop.  The remainder
    [cur_cmd % COMMANDS_PER_CHUNK] is taken as [unsigned int]. *)
Fixpoint read_commands (char_c : bool) (file : list ascii) (cur_cmd : Z)
  : M (machine Mem) Z :=
  match file with
  | [] => ret cur_cmd
  | c :: rest =>
      if char_c && (N_of_ascii c =? 255)%N then ret cur_cmd
      else if isspace c then read_commands char_c rest cur_cmd
      else if is_command c then
        (if to_unsigned cur_cmd mod COMMANDS_PER_CHUNK =? 0 then grow_code
         else ret tt) ;;;
        cd <- get_code ;;
        new_commands <- array_set CommandsArray (commands cd) cur_cmd c ;;
        put_code (mkCode new_commands (visited cd) (len cd)) ;;;
        next_cmd <- int_add cur_cmd 1 ;;
        read_commands char_c rest next_cmd
      else fatal (UnknownCharacter c)
  end.

(** [file] is what [fopen(filename, "r")] gives: the bytes of the file,
    or nothing when it cannot be opened. *)
Definition read_xrf_file (char_c : bool) (filename : string)
    (file : option (list ascii)) : M (machine Mem) unit :=
  match file with
  | None => fatal (UnableToOpen filename)
  | Some bytes =>
      put_code (mkCode [] [] 0) ;;;
      cur_cmd <- read_commands char_c bytes 0 ;;
      if negb (to_unsigned cur_cmd mod COMMANDS_PER_CHUNK =? 0)
      then fatal InadequateLength
      else ret tt
  end.

End Process.

(** The loop of [randomize_stack] that shuffles the array of values,
    [for (i = ...; i > 0; i--)], from its current [i]; the two revisions
    have it word for word. *)
Fixpoint shuffle_values {Mem} (fuel : nat) (i : Z) (vals : list Z)
  : M (machine Mem) (list Z) :=
  if 0 <? i then
    match fuel with
    | O => fun _ => OutOfFuel
    | S fuel' =>
        r <- rand ;;
        let divisor := to_unsigned (i + 1) in
        if divisor =? 0 then undefined_behaviour DivisionByZero
        else
          let swap_index := to_unsigned r mod divisor in
          t <- array_get ValuesArray vals swap_index ;;
          let temp := to_int t in
          vi <- array_get ValuesArray vals i ;;
          vals <- array_set ValuesArray vals swap_index vi ;;
          vals <- array_set ValuesArray vals i (to_unsigned temp) ;;
          shuffle_values fuel' (to_unsigned (i - 1)) vals
    end
  else ret vals.

(** How the [for] loop of [execute_chunk] goes on after a command:
    [Break i] leaves the [switch] with the slot index [i], [Return] leaves
    the function. *)
Inductive control : Type :=
  | Break (i : Z)
  | Return.

(** [m] leaves [code] as it is, whether it returns or exits, and does
    not run off [code.commands]. *)
Definition code_safe {Mem A} (m : M (machine Mem) A) : Prop :=
  ∀ s,
    match m s with
    | Ok _ s' | Exit _ s' => code s' = code s
    | Undefined u => u ≠ OutOfBounds CommandsArray
    | OutOfFuel => True
    end.

(** Every flag that is set in [c] is set in [c']. *)
Definition visited_le (c c' : Code) : Prop :=
  ∀ j, visited c !! j = Some true → visited c' !! j = Some true.

(** [P] holds of the state a run ends in, by return or by exit. *)
Definition ends_in {S A} (P : S → Prop) (o : outcome S A) : Prop :=
  match o with
  | Ok _ s | Exit _ s => P s
  | _ => True
  end.

(** [m] keeps the stack a stack: run from a memory that holds a stack, it
    does not run out of fuel, and when it returns, it returns a value
    that [Q] holds of and leaves a memory that holds a stack again. *)
Definition stack_safe {Mem A} (rep : Mem → list Z → Prop) (Q : A → Prop)
    (m : M (machine Mem) A) : Prop :=
  ∀ s l, rep (mem s) l →
    match m s with
    | Ok a s' => Q a ∧ ∃ l', rep (mem s') l'
    | Exit _ _ | Undefined _ => True
    | OutOfFuel => False
    end.

(** Where the loop of [execute_chunk] may be after the command at slot
    [i]: at that slot still, or one further. *)
Definition steps_from (i : Z) (r : control) : Prop :=
  match r with
  | Break k => k = i ∨ k = to_unsigned (i + 1)
  | Return => True
  end.

(** [m], run from a memory that holds a stack, has no undefined
    behaviour but of the kinds [allowed]. *)
Definition faults_only {Mem A} (rep : Mem → list Z → Prop)
    (allowed : undefined → Prop) (m : M (machine Mem) A) : Prop :=
  ∀ s l, rep (mem s) l →
    match m s with
    | Undefined u => allowed u
    | _ => True
    end.

(** The code holds whole chunks: [len] commands and a flag for each
    five of them. *)
Definition whole_chunks (cd : Code) : Prop :=
  0 <= len cd <= INT_MAX ∧ len cd mod COMMANDS_PER_CHUNK = 0 ∧
  Z.of_nat (length (commands cd)) = len cd ∧
  Z.of_nat (length (visited cd)) = len cd / COMMANDS_PER_CHUNK.

(** What [read_xrf_file] keeps true of the code while [cur_cmd] commands
    have been read: room for whole chunks, just enough of them, and
    every flag clear. *)
Definition loading (cd : Code) (cur_cmd : Z) : Prop :=
  0 <= cur_cmd <= len cd ∧ len cd <= INT_MAX ∧
  len cd < cur_cmd + COMMANDS_PER_CHUNK ∧
  len cd mod COMMANDS_PER_CHUNK = 0 ∧
  Z.of_nat (length (commands cd)) = len cd ∧
  visited cd = replicate (Z.to_nat (len cd / COMMANDS_PER_CHUNK)) false.

(** ... and the commands read so far are [read]; the cells after them
    are those [realloc] added. *)
Definition loading_of (cd : Code) (read : list ascii) : Prop :=
  loading cd (Z.of_nat (length read)) ∧
  commands cd =
    read ++ replicate (Z.to_nat (len cd) - length read) zero.

(** The bytes of a file that are not white space. *)
Definition not_space (file : list ascii) : list ascii :=
  List.filter (λ c, negb (isspace c)) file.

(** [s'] comes later in the run than [s]: the output has been added to
    at its end, the input read from its front, the draws of [rand] are
    the same sequence, further on. *)
Definition later_than {Mem} (s s' : machine Mem) : Prop :=
  stdout s `prefix_of` stdout s' ∧ stdin s' `suffix_of` stdin s ∧
  rand_source s' = rand_source s ∧ (rand_calls s ≤ rand_calls s')%nat.

(** [m] goes forward in the streams, and writes to [stderr] only to
    leave: when it returns, and when it exits with status 0, [stderr] is
    as it was; otherwise it exits with status 1 and one message more. *)
Definition io_safe {Mem A} (m : M (machine Mem) A) : Prop :=
  ∀ s,
    match m s with
    | Ok _ s' => later_than s s' ∧ stderr s' = stderr s
    | Exit st s' =>
        later_than s s' ∧
        (st = 0 ∧ stderr s' = stderr s ∨
         st = 1 ∧ ∃ d, stderr s' = stderr s ++ [d])
    | Undefined _ | OutOfFuel => True
    end.

(** The pointer to the first node of the list at [addrs], which is
    followed by [tl]. *)
Definition first_of (addrs : list loc) (tl : option loc) : option loc :=
  match addrs with
  | [] => tl
  | a :: _ => Some a
  end.

(** The pointer to the last node of the list at [addrs], which follows
    [pv]. *)
Definition last_of (addrs : list loc) (pv : option loc) : option loc :=
  match last addrs with
  | Some z => Some z
  | None => pv
  end.

(** [m] done [n] times in a row. *)
Fixpoint repeat_m {S} (n : nat) (m : M S unit) : M S unit :=
  match n with
  | O => ret tt
  | S n' => m ;;; repeat_m n' m
  end.

(** ** The revision with a doubly linked stack and a node count *)

Module Rev1.

(** [struct Stack] *)
Record Stack : Type := mkStack {
  val : Z;
  next : option loc;
  prev : option loc
}.

(** The nodes allocated and the globals [top], [bottom] and
    [stack_size]. *)
Record memory : Type := mkMemory {
  heap : gmap loc Stack;
  top : option loc;
  bottom : option loc;
  stack_size : Z
}.

Definition state : Type := machine memory.

Definition get_top : M state (option loc) :=
  fun s => Ok (top (mem s)) s.
Definition get_bottom : M state (option loc) :=
  fun s => Ok (bottom (mem s)) s.
Definition get_stack_size : M state Z :=
  fun s => Ok (stack_size (mem s)) s.
Definition set_top (p : option loc) : M state unit :=
  m <- get_mem ;; put_mem (mkMemory (heap m) p (bottom m) (stack_size m)).
Definition set_bottom (p : option loc) : M state unit :=
  m <- get_mem ;; put_mem (mkMemory (heap m) (top m) p (stack_size m)).
Definition set_stack_size (n : Z) : M state unit :=
  m <- get_mem ;; put_mem (mkMemory (heap m) (top m) (bottom m) n).

(** [p->]: the node [p] points to. *)
Definition deref (p : option loc) : M state (loc * Stack) :=
  fun s =>
    match p with
    | None => Undefined NullDereference
    | Some a =>
        match heap (mem s) !! a with
        | None => Undefined DanglingPointer
        | Some n => Ok (a, n) s
        end
    end.

Definition load_val (p : option loc) : M state Z :=
  an <- deref p ;; ret (val an.2).
Definition load_next (p : option loc) : M state (option loc) :=
  an <- deref p ;; ret (next an.2).
Definition load_prev (p : option loc) : M state (option loc) :=
  an <- deref p ;; ret (prev an.2).

Definition store (a : loc) (n : Stack) : M state unit :=
  m <- get_mem ;;
  put_mem (mkMemory (<[a := n]> (heap m)) (top m) (bottom m) (stack_size m)).

(** The state with the heap [h] for its own. *)
Definition with_heap (h : gmap loc Stack) (s : state) : state :=
  set_mem (mkMemory h (top (mem s)) (bottom (mem s)) (stack_size (mem s))) s.

(** [p->val = v], with the conversion to [unsigned int]. *)
Definition store_val (p : option loc) (v : Z) : M state unit :=
  an <- deref p ;;
  store an.1 (mkStack (to_unsigned v) (next an.2) (prev an.2)).
(** [p->next = q] *)
Definition store_next (p q : option loc) : M state unit :=
  an <- deref p ;; store an.1 (mkStack (val an.2) q (prev an.2)).
(** [p->prev = q] *)
Definition store_prev (p q : option loc) : M state unit :=
  an <- deref p ;; store an.1 (mkStack (val an.2) (next an.2) q).

(** [malloc(sizeof(struct Stack))]; the fields of the new node are
    indeterminate, here zero and null. *)
Definition malloc : M state (option loc) :=
  m <- get_mem ;;
  let a := malloc_addr (heap m) in
  store a (mkStack 0 None None) ;;;
  ret (Some a).

Definition new_stack_node (v : Z) : M state (option loc) :=
  node <- malloc ;;
  store_next node None ;;;
  store_prev node None ;;;
  store_val node v ;;;
  ret node.

Definition free (p : option loc) : M state unit :=
  match p with
  | None => ret tt
  | Some a =>
      m <- get_mem ;;
      match heap m !! a with
      | None => undefined_behaviour DanglingPointer
      | Some _ =>
          put_mem (mkMemory (delete a (heap m)) (top m) (bottom m)
                            (stack_size m))
      end
  end.

(** [free_stack], which [execute_code] registers with [atexit]: the
    [while (bottom != NULL)] loop. *)
Fixpoint free_stack (fuel : nat) : M state unit :=
  bottom <- get_bottom ;;
  match bottom with
  | None => ret tt
  | Some _ =>
      match fuel with
      | O => fun _ => OutOfFuel
      | S fuel' =>
          let temp := bottom in
          pv <- load_prev bottom ;;
          set_bottom pv ;;;
          free temp ;;;
          free_stack fuel'
      end
  end.

Definition push_stack (v : Z) : M state unit :=
  top <- get_top ;;
  pv <- load_prev top ;;
  match pv with
  | Some _ =>
      set_top pv ;;;
      top <- get_top ;;
      store_val top v
  | None =>
      node <- new_stack_node v ;;
      top <- get_top ;;
      store_prev top node ;;;
      store_next node top ;;;
      set_top node
  end ;;;
  n <- get_stack_size ;;
  n' <- int_add n 1 ;;
  set_stack_size n'.

Definition pop_stack : M state Z :=
  n <- get_stack_size ;;
  if n =? 0 then fatal PopEmpty
  else
    top <- get_top ;;
    v <- load_val top ;;
    let to_return := to_int v in
    nx <- load_next top ;;
    set_top nx ;;;
    n <- get_stack_size ;;
    n' <- int_add n (-1) ;;
    set_stack_size n' ;;;
    ret to_return.

Definition swap_stack : M state unit :=
  n <- get_stack_size ;;
  if n <? 2 then fatal (SwapTooFew (n =? 1))
  else
    top <- get_top ;;
    v <- load_val top ;;
    let temp := to_int v in
    nx <- load_next top ;;
    w <- load_val nx ;;
    store_val top w ;;;
    top <- get_top ;;
    nx <- load_next top ;;
    store_val nx temp.

Definition dup_stack : M state unit :=
  n <- get_stack_size ;;
  if n =? 0 then fatal DupEmpty
  else
    top <- get_top ;;
    v <- load_val top ;;
    push_stack (to_int v).

Definition send_top_to_bottom : M state unit :=
  n <- get_stack_size ;;
  if n =? 0 then fatal RotateEmpty
  else if n =? 1 then ret tt
  else
    temp <- get_top ;;
    nx <- load_next temp ;;
    set_top nx ;;;
    top <- get_top ;;
    pv <- load_prev temp ;;
    store_prev top pv ;;;
    pv <- load_prev temp ;;
    match pv with
    | Some _ => top <- get_top ;; store_next pv top
    | None => ret tt
    end ;;;
    bottom <- get_bottom ;;
    store_next bottom temp ;;;
    bottom <- get_bottom ;;
    store_prev temp bottom ;;;
    set_bottom temp ;;;
    store_next temp None.

(** The first loop of [randomize_stack]. *)
Fixpoint gather_values (fuel : nat) (node : option loc) (i : Z)
    (vals : list Z) : M state (list Z) :=
  match node with
  | None => ret vals
  | Some _ =>
      match fuel with
      | O => fun _ => OutOfFuel
      | S fuel' =>
          v <- load_val node ;;
          vals <- array_set ValuesArray vals i v ;;
          nx <- load_next node ;;
          gather_values fuel' nx (to_unsigned (i + 1)) vals
      end
  end.

(** The last loop of [randomize_stack]. *)
Fixpoint assign_values (fuel : nat) (node : option loc) (i : Z)
    (vals : list Z) : M state unit :=
  match node with
  | None => ret tt
  | Some _ =>
      match fuel with
      | O => fun _ => OutOfFuel
      | S fuel' =>
          v <- array_get ValuesArray vals i ;;
          store_val node v ;;;
          nx <- load_next node ;;
          assign_values fuel' nx (to_unsigned (i + 1)) vals
      end
  end.

(** A loop over the nodes ends within as many rounds as there are nodes
    allocated, or never. *)
Definition node_fuel (s : state) : nat := S (size (heap (mem s))).

(** [vals] is an array of [stack_size] cells, indeterminate (here zero)
    until the first loop fills them. *)
Definition randomize_stack : M state unit :=
  n <- get_stack_size ;;
  if n =? 0 then ret tt
  else
    s <- get ;;
    let vals := replicate (Z.to_nat n) 0 in
    top <- get_top ;;
    vals <- gather_values (node_fuel s) top 0 vals ;;
    n <- get_stack_size ;;
    vals <- shuffle_values (S (length vals)) (to_unsigned (n - 1)) vals ;;
    top <- get_top ;;
    assign_values (node_fuel s) top 0 vals.

(** One round of the [switch] of [execute_chunk], on the command [c] at
    slot [i]. *)
Definition command (c : ascii) (visited : bool) (i : Z) : M state control :=
  match c with
  | "0"%char =>
      ch <- getchar ;;
      let temp_val := to_unsigned ch in
      (if temp_val =? to_unsigned EOF then push_stack 0
       else push_stack (to_int temp_val)) ;;;
      ret (Break i)
  | "1"%char =>
      n <- get_stack_size ;;
      if n =? 0 then fatal OutputEmpty
      else v <- pop_stack ;; putchar v ;;; ret (Break i)
  | "2"%char => pop_stack ;;; ret (Break i)
  | "3"%char => dup_stack ;;; ret (Break i)
  | "4"%char => swap_stack ;;; ret (Break i)
  | "5"%char =>
      n <- get_stack_size ;;
      if n =? 0 then fatal IncrementEmpty
      else
        top <- get_top ;;
        v <- load_val top ;;
        store_val top (v + 1) ;;;
        ret (Break i)
  | "6"%char =>
      n <- get_stack_size ;;
      if n =? 0 then fatal DecrementEmpty
      else
        top <- get_top ;;
        v <- load_val top ;;
        (if 0 <? v then store_val top (v - 1) else ret tt) ;;;
        ret (Break i)
  | "7"%char =>
      n <- get_stack_size ;;
      if n <? 2 then fatal (AddTooFew (negb (n =? 0)))
      else
        top <- get_top ;;
        nx <- load_next top ;;
        w <- load_val nx ;;
        v <- load_val top ;;
        store_val nx (w + v) ;;;
        pop_stack ;;;
        ret (Break i)
  | "8"%char =>
      ret (Break (if negb visited then to_unsigned (i + 1) else i))
  | "9"%char => send_top_to_bottom ;;; ret (Break i)
  | "A"%char => ret Return
  | "B"%char => exit 0
  | "C"%char =>
      ret (Break (if visited then to_unsigned (i + 1) else i))
  | "D"%char => randomize_stack ;;; ret (Break i)
  | "E"%char =>
      n <- get_stack_size ;;
      if n <? 2 then fatal (DiffTooFew (negb (n =? 0)))
      else
        popped <- pop_stack ;;
        let temp_val := to_unsigned popped in
        top <- get_top ;;
        v <- load_val top ;;
        (if temp_val <=? v then store_val top (v - temp_val)
         else store_val top (temp_val - v)) ;;;
        ret (Break i)
  | _ => ret (Break i)
  end.

(** The [for] loop of [execute_chunk] from slot [i] on.  [chunk] points
    into [code.commands]: it is the index of the chunk's first command. *)
Fixpoint execute_slots (fuel : nat) (chunk : Z) (visited : bool) (i : Z)
  : M state unit :=
  if i <? COMMANDS_PER_CHUNK then
    match fuel with
    | O => fun _ => OutOfFuel
    | S fuel' =>
        cd <- get_code ;;
        c <- array_get CommandsArray (commands cd) (chunk + i) ;;
        r <- command c visited i ;;
        match r with
        | Break i' =>
            execute_slots fuel' chunk visited (to_unsigned (i' + 1))
        | Return => ret tt
        end
    end
  else ret tt.

Definition execute_chunk (chunk : Z) (visited : bool) : M state unit :=
  execute_slots (Z.to_nat COMMANDS_PER_CHUNK) chunk visited 0.

(** [code.visited[cur_chunk] = true] *)
Definition mark_visited (cur_chunk : Z) : M state unit :=
  cd <- get_code ;;
  new_visited <- array_set VisitedArray (visited cd) cur_chunk true ;;
  put_code (mkCode (commands cd) new_visited (len cd)).

(** The end of a round of [execute_code], from [if (stack_size == 0)]
    on: the chunk to go to is the value on top of the stack. *)
Definition next_chunk : M state Z :=
  n <- get_stack_size ;;
  if n =? 0 then fatal EmptyAtChunkEnd
  else
    top <- get_top ;;
    cur_chunk <- load_val top ;;
    cd <- get_code ;;
    if to_unsigned (len cd) / COMMANDS_PER_CHUNK <=? cur_chunk then
      v <- load_val top ;; fatal (NoSuchChunk v)
    else ret cur_chunk.

(** One round of the [while (true)] of [execute_code]: runs the chunk
    [cur_chunk] with its flag as it is before the call, sets the flag
    and gives the next chunk. *)
Definition execute_round (cur_chunk : Z) : M state Z :=
  cd <- get_code ;;
  flag <- array_get VisitedArray (visited cd) cur_chunk ;;
  execute_chunk (to_unsigned (cur_chunk * COMMANDS_PER_CHUNK)) flag ;;;
  mark_visited cur_chunk ;;;
  next_chunk.

(** [rounds] rounds of the loop. *)
Fixpoint execute_rounds (rounds : nat) (cur_chunk : Z) : M state Z :=
  match rounds with
  | O => ret cur_chunk
  | S n => next_chunk <- execute_round cur_chunk ;; execute_rounds n next_chunk
  end.

(** What [execute_code] does before its loop. *)
Definition execute_code_init : M state unit :=
  node <- new_stack_node 0 ;;
  set_top node ;;;
  top <- get_top ;;
  set_bottom top.

(** The loop has no exit of its own, so a run that is still going
    after [rounds] rounds is [OutOfFuel]. *)
Definition execute_code (rounds : nat) : M state unit :=
  execute_code_init ;;;
  execute_rounds rounds 0 ;;;
  fun _ => OutOfFuel.

(** [main]; [args] are [argv[1]], [argv[2]], ... and [fopen] the files
    that can be read.  [srand] chooses the sequence of draws, which the
    state holds from the start. *)
Definition main (args : list string) (fopen : string -> option (list ascii))
    (rounds : nat) : M state unit :=
  match args with
  | [] => fatal NoFilename
  | filename :: _ =>
      read_xrf_file false filename (fopen filename) ;;;
      execute_code rounds
  end.

(** The process as it starts: no node allocated, [stack_size] one and
    the other globals zero. *)
Definition initial_state (input : list ascii) (draws : nat -> Z) : state :=
  mkMachine (mkMemory ∅ None None 1) (mkCode [] [] 0) input [] [] draws O.

(** *** The stack a memory holds *)

(** The nodes at [addrs] are allocated, hold [vals] and are linked in
    this order in both directions: the first one back to [pv], the last
    one on to [tl]. *)
Fixpoint seg (h : gmap loc Stack) (pv : option loc) (addrs : list loc)
    (vals : list Z) (tl : option loc) : Prop :=
  match addrs, vals with
  | [], [] => True
  | a :: addrs', v :: vals' =>
      h !! a = Some (mkStack v (first_of addrs' tl) pv) ∧
      seg h (Some a) addrs' vals' tl
  | _, _ => False
  end.

(** [m] holds the stack [l], top first: [stack_size] is its length and,
    unless it is empty, the nodes form one doubly linked list of
    distinct nodes, first the popped nodes kept for reuse ([spare], the
    one popped last next to the top), then from [top] to [bottom] the
    nodes that hold [l].  Of the empty stack only the null [top] and
    the count are left. *)
Definition rep (m : memory) (l : list Z) : Prop :=
  stack_size m = Z.of_nat (length l) ∧ stack_size m <= INT_MAX ∧
  Forall is_unsigned l ∧
  match l with
  | [] => top m = None
  | _ :: _ =>
      ∃ spare svals addrs,
        NoDup (spare ++ addrs) ∧
        seg (heap m) None (spare ++ addrs) (svals ++ l) None ∧
        length spare = length svals ∧
        top m = head addrs ∧ bottom m = last addrs
  end.

(** The text of each message. *)
Definition message (d : diagnostic) : string :=
  match d with
  | PopEmpty => "Error! Can't pop an empty stack!" ++ newline
  | SwapTooFew one =>
      "Error! Can't swap the top two elements on a"
      ++ (if one then " one-element" else "n empty") ++ " stack" ++ newline
  | DupEmpty => "Error! Nothing on the stack to be duplicated!" ++ newline
  | RotateEmpty =>
      "Error! Can't send nonexistent value to the bottom of the stack!"
      ++ newline
  | UnableToOpen filename =>
      "Error! Unable to open " ++ filename ++ "!" ++ newline
  | NoFilename => "Error! No filename given!"
  | OnlyOneFile => "Only one file at a time please!" ++ newline
  | UnableToAllocateCode =>
      "Error! Unable to allocate additional space for the code!" ++ newline
  | UnknownCharacter c =>
      "Error! Unknown character " ++ String c " encountered!" ++ newline
  | InadequateLength => "Error! Inadequate code length!" ++ newline
  | OutputEmpty => "Error! Cannot output nonexistent value!" ++ newline
  | IncrementEmpty => "Error! Cannot increment nonexistent value!" ++ newline
  | DecrementEmpty => "Error! Cannot decrement nonexistent value!" ++ newline
  | AddTooFew one =>
      "Error! Cannot add the top values of a"
      ++ (if one then " one-value stack." else "n empty stack.") ++ newline
  | DiffTooFew one =>
      "Error! Cannot get the difference of the top two values of a"
      ++ (if one then " one-value stack" else "n empty stack")
      ++ "!" ++ newline
  | EmptyAtChunkEnd =>
      "Error! Can't have an empty stack upon reaching the end of a chunk!"
      ++ newline
  | NoSuchChunk index =>
      "Error! Cannot go to nonexistent chunk " ++ decimal index ++ "!"
      ++ newline
  end%string.

End Rev1.

(** ** The revision with a singly linked stack *)

Module Rev2.

(** [struct Stack] *)
Record Stack : Type := mkStack {
  val : Z;
  next : option loc
}.

(** The nodes allocated and the globals [stack] and [bottom]; a pointer
    is an address or null. *)
Record memory : Type := mkMemory {
  heap : gmap loc Stack;
  stack : option loc;
  bottom : option loc
}.

Definition state : Type := machine memory.

Definition get_stack : M state (option loc) :=
  fun s => Ok (stack (mem s)) s.
Definition get_bottom : M state (option loc) :=
  fun s => Ok (bottom (mem s)) s.
Definition set_stack (p : option loc) : M state unit :=
  m <- get_mem ;; put_mem (mkMemory (heap m) p (bottom m)).
Definition set_bottom (p : option loc) : M state unit :=
  m <- get_mem ;; put_mem (mkMemory (heap m) (stack m) p).

(** [p->]: the node [p] points to. *)
Definition deref (p : option loc) : M state (loc * Stack) :=
  fun s =>
    match p with
    | None => Undefined NullDereference
    | Some a =>
        match heap (mem s) !! a with
        | None => Undefined DanglingPointer
        | Some n => Ok (a, n) s
        end
    end.

Definition load_val (p : option loc) : M state Z :=
  an <- deref p ;; ret (val an.2).
Definition load_next (p : option loc) : M state (option loc) :=
  an <- deref p ;; ret (next an.2).

Definition store (a : loc) (n : Stack) : M state unit :=
  m <- get_mem ;; put_mem (mkMemory (<[a := n]> (heap m)) (stack m) (bottom m)).

(** [p->val = v], with the conversion to [unsigned int]. *)
Definition store_val (p : option loc) (v : Z) : M state unit :=
  an <- deref p ;; store an.1 (mkStack (to_unsigned v) (next an.2)).
(** [p->next = q] *)
Definition store_next (p q : option loc) : M state unit :=
  an <- deref p ;; store an.1 (mkStack (val an.2) q).

(** [malloc(sizeof(struct Stack))]; the fields of the new node are
    indeterminate, here zero and null. *)
Definition malloc : M state (option loc) :=
  m <- get_mem ;;
  let a := malloc_addr (heap m) in
  store a (mkStack 0 None) ;;;
  ret (Some a).

Definition free (p : option loc) : M state unit :=
  match p with
  | None => ret tt
  | Some a =>
      m <- get_mem ;;
      match heap m !! a with
      | None => undefined_behaviour DanglingPointer
      | Some _ => put_mem (mkMemory (delete a (heap m)) (stack m) (bottom m))
      end
  end.

Definition new_stack_node (v : Z) : M state (option loc) :=
  node <- malloc ;;
  store_next node None ;;;
  store_val node v ;;;
  ret node.

(** [free_stack], which [execute_code] registers with [atexit]: the
    [while (stack != NULL)] loop. *)
Fixpoint free_stack (fuel : nat) : M state unit :=
  stack <- get_stack ;;
  match stack with
  | None => ret tt
  | Some _ =>
      match fuel with
      | O => fun _ => OutOfFuel
      | S fuel' =>
          let node := stack in
          nx <- load_next stack ;;
          set_stack nx ;;;
          free node ;;;
          free_stack fuel'
      end
  end.

Definition push_stack (v : Z) : M state unit :=
  node <- new_stack_node v ;;
  stack <- get_stack ;;
  store_next node stack ;;;
  set_stack node ;;;
  bottom <- get_bottom ;;
  match bottom with
  | None => stack <- get_stack ;; set_bottom stack
  | Some _ => ret tt
  end.

Definition pop_stack : M state Z :=
  stack <- get_stack ;;
  match stack with
  | None => fatal PopEmpty
  | Some _ =>
      let node := stack in
      v <- load_val stack ;;
      let val := to_int v in
      nx <- load_next stack ;;
      set_stack nx ;;;
      free node ;;;
      stack <- get_stack ;;
      match stack with
      | None => set_bottom stack
      | Some _ => ret tt
      end ;;;
      ret val
  end.

Definition swap_stack : M state unit :=
  stack <- get_stack ;;
  match stack with
  | None => fatal (SwapTooFew false)
  | Some _ =>
      nx <- load_next stack ;;
      match nx with
      | None => fatal (SwapTooFew true)
      | Some _ =>
          v <- load_val stack ;;
          let temp := to_int v in
          w <- load_val nx ;;
          store_val stack w ;;;
          stack <- get_stack ;;
          nx <- load_next stack ;;
          store_val nx temp
      end
  end.

Definition dup_stack : M state unit :=
  stack <- get_stack ;;
  match stack with
  | None => fatal DupEmpty
  | Some _ => v <- load_val stack ;; push_stack (to_int v)
  end.

Definition send_top_to_bottom : M state unit :=
  stack <- get_stack ;;
  match stack with
  | None => fatal RotateEmpty
  | Some _ =>
      nx <- load_next stack ;;
      match nx with
      | None => ret tt
      | Some _ =>
          let node := stack in
          set_stack nx ;;;
          bottom <- get_bottom ;;
          store_next bottom node ;;;
          bottom <- get_bottom ;;
          nx <- load_next bottom ;;
          set_bottom nx ;;;
          bottom <- get_bottom ;;
          store_next bottom None
      end
  end.

(** The first loop of [randomize_stack]: [vals] is the array (as long
    as [num_allocated] says), [realloc] keeps the cells it can and the
    new ones are indeterminate, here zero. *)
Fixpoint gather_values (fuel : nat) (node : option loc) (vals : list Z)
    (num_vals num_allocated : Z) : M state (list Z * Z) :=
  match node with
  | None => ret (vals, num_vals)
  | Some _ =>
      match fuel with
      | O => fun _ => OutOfFuel
      | S fuel' =>
          let grown :=
            if num_vals =? num_allocated then
              let n := to_unsigned (Z.shiftl num_allocated 1) in
              (resize (Z.to_nat n) 0 vals, n)
            else (vals, num_allocated) in
          v <- load_val node ;;
          vals <- array_set ValuesArray grown.1 num_vals v ;;
          nx <- load_next node ;;
          gather_values fuel' nx vals (to_unsigned (num_vals + 1)) grown.2
      end
  end.

(** The last loop of [randomize_stack]. *)
Fixpoint assign_values (fuel : nat) (node : option loc) (i : Z)
    (vals : list Z) : M state unit :=
  match node with
  | None => ret tt
  | Some _ =>
      match fuel with
      | O => fun _ => OutOfFuel
      | S fuel' =>
          v <- array_get ValuesArray vals i ;;
          store_val node v ;;;
          nx <- load_next node ;;
          assign_values fuel' nx (to_unsigned (i + 1)) vals
      end
  end.

(** A loop over the nodes ends within as many rounds as there are nodes
    allocated, or never. *)
Definition node_fuel (s : state) : nat := S (size (heap (mem s))).

Definition randomize_stack : M state unit :=
  s <- get ;;
  stack <- get_stack ;;
  gathered <- gather_values (node_fuel s) stack [0] 0 1 ;;
  let num_vals := gathered.2 in
  vals <- shuffle_values (S (length gathered.1))
            (to_unsigned (num_vals - 1)) gathered.1 ;;
  stack <- get_stack ;;
  assign_values (node_fuel s) stack 0 vals.

(** One round of the [switch] of [execute_chunk], on the command [c] at
    slot [i]. *)
Definition command (c : ascii) (visited : bool) (i : Z) : M state control :=
  match c with
  | "0"%char =>
      ch <- getchar ;;
      let temp_val := to_unsigned ch in
      (if temp_val =? to_unsigned EOF then push_stack 0
       else push_stack (to_int temp_val)) ;;;
      ret (Break i)
  | "1"%char =>
      stack <- get_stack ;;
      match stack with
      | None => fatal OutputEmpty
      | Some _ => v <- pop_stack ;; putchar v ;;; ret (Break i)
      end
  | "2"%char => pop_stack ;;; ret (Break i)
  | "3"%char => dup_stack ;;; ret (Break i)
  | "4"%char => swap_stack ;;; ret (Break i)
  | "5"%char =>
      stack <- get_stack ;;
      match stack with
      | None => fatal IncrementEmpty
      | Some _ =>
          v <- load_val stack ;;
          store_val stack (v + 1) ;;;
          ret (Break i)
      end
  | "6"%char =>
      stack <- get_stack ;;
      match stack with
      | None => fatal DecrementEmpty
      | Some _ =>
          v <- load_val stack ;;
          (if 0 <? v then store_val stack (v - 1) else ret tt) ;;;
          ret (Break i)
      end
  | "7"%char =>
      stack <- get_stack ;;
      match stack with
      | None => fatal (AddTooFew false)
      | Some _ =>
          nx <- load_next stack ;;
          match nx with
          | None => fatal (AddTooFew true)
          | Some _ =>
              w <- load_val nx ;;
              v <- load_val stack ;;
              store_val nx (w + v) ;;;
              temp <- get_stack ;;
              nx <- load_next temp ;;
              set_stack nx ;;;
              free temp ;;;
              ret (Break i)
          end
      end
  | "8"%char =>
      ret (Break (if negb visited then to_unsigned (i + 1) else i))
  | "9"%char => send_top_to_bottom ;;; ret (Break i)
  | "A"%char => ret Return
  | "B"%char => exit 0
  | "C"%char =>
      ret (Break (if visited then to_unsigned (i + 1) else i))
  | "D"%char => randomize_stack ;;; ret (Break i)
  | "E"%char =>
      stack <- get_stack ;;
      match stack with
      | None => fatal (DiffTooFew false)
      | Some _ =>
          nx <- load_next stack ;;
          match nx with
          | None => fatal (DiffTooFew true)
          | Some _ =>
              popped <- pop_stack ;;
              let temp_val := to_unsigned popped in
              stack <- get_stack ;;
              v <- load_val stack ;;
              (if temp_val <=? v then store_val stack (v - temp_val)
               else store_val stack (temp_val - v)) ;;;
              ret (Break i)
          end
      end
  | _ => ret (Break i)
  end.

(** The [for] loop of [execute_chunk] from slot [i] on.  [chunk] points
    into [code.commands]: it is the index of the chunk's first command. *)
Fixpoint execute_slots (fuel : nat) (chunk : Z) (visited : bool) (i : Z)
  : M state unit :=
  if i <? COMMANDS_PER_CHUNK then
    match fuel with
    | O => fun _ => OutOfFuel
    | S fuel' =>
        cd <- get_code ;;
        c <- array_get CommandsArray (commands cd) (chunk + i) ;;
        r <- command c visited i ;;
        match r with
        | Break i' =>
            execute_slots fuel' chunk visited (to_unsigned (i' + 1))
        | Return => ret tt
        end
    end
  else ret tt.

Definition execute_chunk (chunk : Z) (visited : bool) : M state unit :=
  execute_slots (Z.to_nat COMMANDS_PER_CHUNK) chunk visited 0.

(** [code.visited[cur_chunk] = true] *)
Definition mark_visited (cur_chunk : Z) : M state unit :=
  cd <- get_code ;;
  new_visited <- array_set VisitedArray (visited cd) cur_chunk true ;;
  put_code (mkCode (commands cd) new_visited (len cd)).

(** The end of a round of [execute_code], from [if (stack == NULL)] on:
    the chunk to go to is the value on top of the stack. *)
Definition next_chunk : M state Z :=
  stack <- get_stack ;;
  match stack with
  | None => fatal EmptyAtChunkEnd
  | Some _ =>
      cur_chunk <- load_val stack ;;
      cd <- get_code ;;
      if to_unsigned (len cd) / COMMANDS_PER_CHUNK <=? cur_chunk then
        v <- load_val stack ;; fatal (NoSuchChunk v)
      else ret cur_chunk
  end.

(** One round of the [while (true)] of [execute_code]: runs the chunk
    [cur_chunk] with its flag as it is before the call, sets the flag
    and gives the next chunk. *)
Definition execute_round (cur_chunk : Z) : M state Z :=
  cd <- get_code ;;
  flag <- array_get VisitedArray (visited cd) cur_chunk ;;
  execute_chunk (to_unsigned (cur_chunk * COMMANDS_PER_CHUNK)) flag ;;;
  mark_visited cur_chunk ;;;
  next_chunk.

(** [rounds] rounds of the loop. *)
Fixpoint execute_rounds (rounds : nat) (cur_chunk : Z) : M state Z :=
  match rounds with
  | O => ret cur_chunk
  | S n => next_chunk <- execute_round cur_chunk ;; execute_rounds n next_chunk
  end.

(** What [execute_code] does before its loop. *)
Definition execute_code_init : M state unit :=
  node <- new_stack_node 0 ;;
  set_stack node ;;;
  stack <- get_stack ;;
  set_bottom stack.

(** The loop has no exit of its own, so a run that is still going
    after [rounds] rounds is [OutOfFuel]. *)
Definition execute_code (rounds : nat) : M state unit :=
  execute_code_init ;;;
  execute_rounds rounds 0 ;;;
  fun _ => OutOfFuel.

(** The [for] loop of [main] over the arguments. *)
Fixpoint find_filename (args : list string) (filename : option string)
  : M state (option string) :=
  match args with
  | [] => ret filename
  | arg :: rest =>
      if negb (String.prefix "-" arg) then
        match filename with
        | Some _ => fatal OnlyOneFile
        | None => find_filename rest (Some arg)
        end
      else find_filename rest filename
  end.

(** [main]; [args] are [argv[1]], [argv[2]], ... and [fopen] the files
    that can be read.  [srand] chooses the sequence of draws, which the
    state holds from the start. *)
Definition main (args : list string) (fopen : string -> option (list ascii))
    (rounds : nat) : M state unit :=
  found <- find_filename args None ;;
  match found with
  | None => fatal NoFilename
  | Some filename =>
      read_xrf_file true filename (fopen filename) ;;;
      execute_code rounds
  end.

(** The process as it starts: no node allocated, the globals zero. *)
Definition initial_state (input : list ascii) (draws : nat -> Z) : state :=
  mkMachine (mkMemory ∅ None None) (mkCode [] [] 0) input [] [] draws O.

(** *** The stack a memory holds *)

(** The nodes at [addrs] are allocated, hold [vals] and are linked in
    this order, the last one to [tl]. *)
Fixpoint seg (h : gmap loc Stack) (addrs : list loc) (vals : list Z)
    (tl : option loc) : Prop :=
  match addrs, vals with
  | [], [] => True
  | a :: addrs', v :: vals' =>
      h !! a = Some (mkStack v (first_of addrs' tl)) ∧ seg h addrs' vals' tl
  | _, _ => False
  end.

(** [m] holds the stack [l], top first: [stack] points to a list of
    distinct nodes that holds [l] and ends in null, and [bottom] to its
    last node. *)
Definition rep (m : memory) (l : list Z) : Prop :=
  ∃ addrs, NoDup addrs ∧ seg (heap m) addrs l None ∧
    stack m = head addrs ∧ bottom m = last addrs ∧ Forall is_unsigned l.

(** The text of each message. *)
Definition message (d : diagnostic) : string :=
  match d with
  | PopEmpty => "Error! Unable to pop empty stack!" ++ newline
  | SwapTooFew one =>
      "Error! Can't swap the top two elements on a"
      ++ (if one then " one-element" else "n empty") ++ " stack" ++ newline
  | DupEmpty => "Error! Nothing on the stack to be duplicated!" ++ newline
  | RotateEmpty =>
      "Error! Can't send nonexistent value to the bottom of the stack!"
      ++ newline
  | UnableToOpen filename =>
      "Error! Unable to open " ++ filename ++ "!" ++ newline
  | NoFilename => "Error! No filename given!" ++ newline
  | OnlyOneFile => "Only one file at a time please!" ++ newline
  | UnableToAllocateCode =>
      "Error! Unable to allocate additional space for the code!" ++ newline
  | UnknownCharacter c =>
      "Error! Unknown character " ++ String c " encountered!" ++ newline
  | InadequateLength => "Error! Inadequate code length!" ++ newline
  | OutputEmpty => "Error! Cannot output nonexistent value!" ++ newline
  | IncrementEmpty => "Error! Cannot increment nonexistent value!" ++ newline
  | DecrementEmpty => "Error! Cannot decrement nonexistent value!" ++ newline
  | AddTooFew one =>
      "Error! Cannot add the top values of a"
      ++ (if one then "one-value stack." else "n empty stack.") ++ newline
  | DiffTooFew one =>
      "Error! Cannot get the difference of the top two values of a"
      ++ (if one then " one-value stack" else "n empty stack")
      ++ "!" ++ newline
  | EmptyAtChunkEnd =>
      "Error! Can't have an empty stack upon reaching the end of a chunk!"
      ++ newline
  | NoSuchChunk index =>
      "Error! Cannot go to nonexistent chunk " ++ decimal index ++ "!"
      ++ newline
  end%string.

End Rev2.

(** ** The two revisions side by side *)

Inductive revision : Type :=
  | Doubly   (** [Rev1] *)
  | Singly.  (** [Rev2] *)

Module Xrf.

Definition memory (r : revision) : Type :=
  match r with
  | Doubly => Rev1.memory
  | Singly => Rev2.memory
  end.

Definition state (r : revision) : Type := machine (memory r).

Definition rep (r : revision) : memory r → list Z → Prop :=
  match r with
  | Doubly => Rev1.rep
  | Singly => Rev2.rep
  end.

Definition push_stack (r : revision) : Z → M (state r) unit :=
  match r with
  | Doubly => Rev1.push_stack
  | Singly => Rev2.push_stack
  end.

Definition pop_stack (r : revision) : M (state r) Z :=
  match r with
  | Doubly => Rev1.pop_stack
  | Singly => Rev2.pop_stack
  end.

Definition swap_stack (r : revision) : M (state r) unit :=
  match r with
  | Doubly => Rev1.swap_stack
  | Singly => Rev2.swap_stack
  end.

Definition dup_stack (r : revision) : M (state r) unit :=
  match r with
  | Doubly => Rev1.dup_stack
  | Singly => Rev2.dup_stack
  end.

Definition free_stack (r : revision) : nat → M (state r) unit :=
  match r with
  | Doubly => Rev1.free_stack
  | Singly => Rev2.free_stack
  end.

(** The undefined behaviour the stack of a revision can run into: the
    null [top] and the overflow of [stack_size] in the one, the division
    and the array of [randomize_stack] in the other. *)
Definition stack_fault (r : revision) (u : undefined) : Prop :=
  match r with
  | Doubly => u = NullDereference ∨ u = SignedOverflow
  | Singly => u = DivisionByZero ∨ u = OutOfBounds ValuesArray
  end.

Definition send_top_to_bottom (r : revision) : M (state r) unit :=
  match r with
  | Doubly => Rev1.send_top_to_bottom
  | Singly => Rev2.send_top_to_bottom
  end.

Definition randomize_stack (r : revision) : M (state r) unit :=
  match r with
  | Doubly => Rev1.randomize_stack
  | Singly => Rev2.randomize_stack
  end.

Definition command (r : revision)
  : ascii → bool → Z → M (state r) control :=
  match r with
  | Doubly => Rev1.command
  | Singly => Rev2.command
  end.

Definition execute_slots (r : revision)
  : nat → Z → bool → Z → M (state r) unit :=
  match r with
  | Doubly => Rev1.execute_slots
  | Singly => Rev2.execute_slots
  end.

Definition execute_chunk (r : revision) : Z → bool → M (state r) unit :=
  match r with
  | Doubly => Rev1.execute_chunk
  | Singly => Rev2.execute_chunk
  end.

Definition mark_visited (r : revision) : Z → M (state r) unit :=
  match r with
  | Doubly => Rev1.mark_visited
  | Singly => Rev2.mark_visited
  end.

Definition next_chunk (r : revision) : M (state r) Z :=
  match r with
  | Doubly => Rev1.next_chunk
  | Singly => Rev2.next_chunk
  end.

Definition execute_round (r : revision) : Z → M (state r) Z :=
  match r with
  | Doubly => Rev1.execute_round
  | Singly => Rev2.execute_round
  end.

Definition execute_code_init (r : revision) : M (state r) unit :=
  match r with
  | Doubly => Rev1.execute_code_init
  | Singly => Rev2.execute_code_init
  end.

Definition execute_rounds (r : revision) : nat → Z → M (state r) Z :=
  match r with
  | Doubly => Rev1.execute_rounds
  | Singly => Rev2.execute_rounds
  end.

Definition message (r : revision) : diagnostic → string :=
  match r with
  | Doubly => Rev1.message
  | Singly => Rev2.message
  end.

(** [read_xrf_file], where the revisions differ in the type of [c]. *)
Definition read_xrf_file (r : revision)
  : string → option (list ascii) → M (state r) unit :=
  read_xrf_file (match r with Doubly => false | Singly => true end).

Definition main (r : revision)
  : list string → (string → option (list ascii)) → nat → M (state r) unit :=
  match r with
  | Doubly => Rev1.main
  | Singly => Rev2.main
  end.

Definition initial_state (r : revision)
  : list ascii → (nat → Z) → state r :=
  match r with
  | Doubly => Rev1.initial_state
  | Singly => Rev2.initial_state
  end.

End Xrf.

(** ** States used as examples *)

Module Examples.

Definition draws : nat → Z := λ n, 7919 * Z.of_nat n + 3.

(** The code of [program], loaded, with [flags] for flags. *)
Definition code_of (program : string) (flags : list bool) : Code :=
  mkCode (list_ascii_of_string program) flags
         (Z.of_nat (String.length program)).

(** The first revision holding the stack [l] in nodes 2, 3, ..., with
    node 1 popped and kept for reuse. *)
Fixpoint dll_nodes (a : positive) (pv : option loc) (l : list Z)
  : gmap loc Rev1.Stack :=
  match l with
  | [] => ∅
  | v :: l' =>
      <[a := Rev1.mkStack v
               (match l' with [] => None | _ => Some (Pos.succ a) end) pv]>
        (dll_nodes (Pos.succ a) (Some a) l')
  end.

Definition dll_state (l : list Z) (cd : Code) : Rev1.state :=
  mkMachine
    (Rev1.mkMemory
       (<[1%positive := Rev1.mkStack 9 (Some 2%positive) None]>
          (dll_nodes 2 (Some 1%positive) l))
       (match l with [] => None | _ => Some 2%positive end)
       (match l with
        | [] => None
        | _ => Some (Pos.of_nat (S (length l)))
        end)
       (Z.of_nat (length l)))
    cd [] [] [] draws O.

(** The second revision holding the stack [l] in nodes 1, 2, ... *)
Fixpoint sll_nodes (a : positive) (l : list Z) : gmap loc Rev2.Stack :=
  match l with
  | [] => ∅
  | v :: l' =>
      <[a := Rev2.mkStack v
               (match l' with [] => None | _ => Some (Pos.succ a) end)]>
        (sll_nodes (Pos.succ a) l')
  end.

Definition sll_state (l : list Z) (cd : Code) : Rev2.state :=
  mkMachine
    (Rev2.mkMemory (sll_nodes 1 l)
       (match l with [] => None | _ => Some 1%positive end)
       (match l with [] => None | _ => Some (Pos.of_nat (length l)) end))
    cd [] [] [] draws O.

(** Either revision holding the stack [l]. *)
Definition holding (r : revision) (l : list Z) (cd : Code) : Xrf.state r :=
  match r with
  | Doubly => dll_state l cd
  | Singly => sll_state l cd
  end.

(** The state [read_xrf_file] leaves on [program]. *)
Definition loaded (r : revision) (program : string) : Xrf.state r :=
  match Xrf.read_xrf_file r "example"
          (Some (list_ascii_of_string program))
          (Xrf.initial_state r [] draws) with
  | Ok _ s => s
  | _ => Xrf.initial_state r [] draws
  end.

(** The state in which [execute_code] enters its loop on [program]. *)
Definition booted (r : revision) (program : string) : Xrf.state r :=
  match Xrf.execute_code_init r (loaded r program) with
  | Ok _ s => s
  | _ => loaded r program
  end.

(** The state [n] rounds after [s], from chunk 0. *)
Definition after (r : revision) (n : nat) (s : Xrf.state r) : Xrf.state r :=
  match Xrf.execute_rounds r n 0 s with
  | Ok _ s' => s'
  | _ => s
  end.

End Examples.

(** * Verification *)

(** ** Machine integers *)

Lemma to_unsigned_is_unsigned v : is_unsigned (to_unsigned v).
Proof.
  unfold is_unsigned, to_unsigned, UINT_MODULUS. apply Z.mod_pos_bound. lia.
Qed.

Lemma to_unsigned_id v : is_unsigned v → to_unsigned v = v.
Proof. unfold is_unsigned, to_unsigned. intros. by apply Z.mod_small. Qed.

Lemma to_unsigned_to_int v : to_unsigned (to_int v) = to_unsigned v.
Proof.
  unfold to_unsigned, to_int, UINT_MODULUS.
  rewrite Zminus_mod_idemp_l. f_equal. lia.
Qed.

Lemma to_unsigned_to_int_id v : is_unsigned v → to_unsigned (to_int v) = v.
Proof. intros. rewrite to_unsigned_to_int. by apply to_unsigned_id. Qed.

Lemma fmap_to_unsigned_id l : Forall is_unsigned l → to_unsigned <$> l = l.
Proof.
  induction 1 as [|v l Hv _ IH]; [done|].
  rewrite fmap_cons. by rewrite IH, to_unsigned_id.
Qed.

Lemma malloc_addr_fresh {V} (h : gmap loc V) : h !! malloc_addr h = None.
Proof. apply not_elem_of_dom, is_fresh. Qed.

Lemma last_None_nil {A} (l : list A) : last l = None → l = [].
Proof.
  destruct l as [|x xs _] using rev_ind; [done|]. by rewrite last_snoc.
Qed.

Lemma snoc_decompose {A} (l : list A) : l ≠ [] → ∃ xs z, l = xs ++ [z].
Proof. destruct l as [|z xs _] using rev_ind; [done|]. eauto. Qed.

Lemma last_of_cons a addrs pv : last_of (a :: addrs) pv = last_of addrs (Some a).
Proof.
  unfold last_of. destruct addrs as [|b addrs]; [done|].
  change (last (a :: b :: addrs)) with (last (b :: addrs)).
  destruct (last (b :: addrs)) eqn:Hlast; [done|].
  by apply last_None_nil in Hlast.
Qed.

Lemma last_of_snoc addrs z pv : last_of (addrs ++ [z]) pv = Some z.
Proof. unfold last_of. by rewrite last_snoc. Qed.

Lemma first_of_app xs ys tl : first_of (xs ++ ys) tl = first_of xs (first_of ys tl).
Proof. by destruct xs. Qed.

Lemma last_of_app xs ys pv : last_of (xs ++ ys) pv = last_of ys (last_of xs pv).
Proof.
  revert pv. induction xs as [|a xs IH]; intros pv; [done|].
  simpl. by rewrite !last_of_cons, IH.
Qed.

Ltac unfold_monad :=
  unfold fatal, fprintf_stderr, exit, undefined_behaviour,
    get_mem, put_mem, get_code, put_code, get, put, bind, ret.

(** Rewrites the heap lookups of the goal that the hypotheses decide. *)
Ltac heap_simpl :=
  repeat (simpl;
    first [ rewrite lookup_insert_eq
          | rewrite lookup_insert_ne by congruence
          | rewrite insert_insert_eq
          | match goal with
            | H : ?h !! ?a = Some _ |- context [?h !! ?a] => rewrite H
            end ]);
  simpl.

(** ** The monad *)

Lemma bind_Ok {S A B} (m : M S A) (k : A → M S B) s a s' :
  m s = Ok a s' → (x <- m ;; k x) s = k a s'.
Proof. unfold bind. by intros ->. Qed.

Lemma bind_Ok_inv {S A B} (m : M S A) (k : A → M S B) s b s'' :
  (x <- m ;; k x) s = Ok b s'' → ∃ a s', m s = Ok a s' ∧ k a s' = Ok b s''.
Proof. unfold bind. destruct (m s); try done. eauto. Qed.

Section ProcessFacts.
Context {Mem : Type}.
Implicit Type s : machine Mem.

Lemma set_rand_calls_same s : set_rand_calls (rand_calls s) s = s.
Proof. by destruct s. Qed.

Lemma set_mem_same s : set_mem (mem s) s = s.
Proof. by destruct s. Qed.

Lemma array_get_Ok {A} which (a : list A) i x s :
  0 <= i → a !! Z.to_nat i = Some x → array_get which a i s = Ok x s.
Proof.
  intros Hi Hx. unfold array_get.
  destruct (Z.ltb_spec i 0); [lia|]. by rewrite Hx.
Qed.

Lemma array_set_Ok {A} which (a : list A) i x s :
  0 <= i < Z.of_nat (length a) →
  array_set which a i x s = Ok (<[Z.to_nat i := x]> a) s.
Proof.
  intros Hi. unfold array_set.
  destruct (Z.leb_spec 0 i); [|lia].
  destruct (Z.ltb_spec i (Z.of_nat (length a))); [done|lia].
Qed.

Lemma int_add_Ok x d s :
  INT_MIN <= x + d <= INT_MAX → int_add x d s = Ok (x + d) s.
Proof.
  intros [H1 H2]. unfold int_add.
  destruct (Z.leb_spec INT_MIN (x + d)); [|lia].
  by destruct (Z.leb_spec (x + d) INT_MAX); [|lia].
Qed.

Lemma shuffle_values_done fuel i vals s :
  i <= 0 → shuffle_values fuel i vals s = Ok vals s.
Proof.
  intros Hi. destruct fuel; simpl; by destruct (Z.ltb_spec 0 i); try lia.
Qed.

End ProcessFacts.

Lemma ends_in_bind {S A B} (m : M S A) (k : A → M S B) s (P Q : S → Prop) :
  ends_in Q (m s) → (∀ s1, Q s1 → P s1) →
  (∀ a s1, Q s1 → ends_in P (k a s1)) →
  ends_in P ((x <- m ;; k x) s).
Proof.
  unfold bind. destruct (m s) as [a s1|st s1| |]; simpl; auto.
Qed.

Lemma ends_in_weaken {S A} (P Q : S → Prop) (o : outcome S A) :
  (∀ s, P s → Q s) → ends_in P o → ends_in Q o.
Proof. destruct o; simpl; auto. Qed.

(** ** The flags only get set *)

Lemma visited_le_refl c : visited_le c c.
Proof. by intros j. Qed.

Lemma visited_le_trans c1 c2 c3 :
  visited_le c1 c2 → visited_le c2 c3 → visited_le c1 c3.
Proof. intros H1 H2 j Hj. auto. Qed.

Lemma visited_le_same c c' : visited c' = visited c → visited_le c c'.
Proof. intros H j. by rewrite H. Qed.

Lemma visited_le_insert c c' k :
  visited c' = <[k := true]> (visited c) → visited_le c c'.
Proof.
  intros H j Hj. rewrite H. destruct (decide (k = j)) as [->|Hne].
  - apply list_lookup_insert_eq. by eapply lookup_lt_Some.
  - by rewrite list_lookup_insert_ne.
Qed.

Section ArrayFacts.
Context {Mem : Type}.
Implicit Type s : machine Mem.

Lemma array_get_inv {A} which (a : list A) i x s s' :
  array_get which a i s = Ok x s' →
  s' = s ∧ 0 <= i ∧ a !! Z.to_nat i = Some x.
Proof.
  unfold array_get. destruct (Z.ltb_spec i 0); [done|].
  destruct (a !! Z.to_nat i) eqn:Hx; [|done].
  unfold ret. intros [= -> ->]. auto.
Qed.

Lemma array_get_ends {A} which (a : list A) i s :
  match array_get which a i s with
  | Ok x s' => s' = s ∧ 0 <= i ∧ a !! Z.to_nat i = Some x
  | Exit _ _ | OutOfFuel => False
  | Undefined _ => True
  end.
Proof.
  destruct (array_get which a i s) eqn:Hget; try done.
  - by eapply array_get_inv.
  - unfold array_get in Hget. destruct (i <? 0); [done|].
    by destruct (a !! Z.to_nat i).
  - unfold array_get in Hget. destruct (i <? 0); [done|].
    by destruct (a !! Z.to_nat i).
Qed.

End ArrayFacts.

(** ** Loading *)

Section LoaderFacts.
Context {Mem : Type}.
Implicit Type s : machine Mem.

Lemma int_add_inv x d s y s' :
  int_add x d s = Ok y s' → s' = s ∧ y = x + d ∧ x + d <= INT_MAX.
Proof.
  unfold int_add. destruct (Z.leb_spec INT_MIN (x + d)); [|done].
  destruct (Z.leb_spec (x + d) INT_MAX); [|done].
  unfold ret. by intros [= <- <-].
Qed.

Lemma array_set_inv {A} which (a : list A) i x s b s' :
  array_set which a i x s = Ok b s' →
  s' = s ∧ b = <[Z.to_nat i := x]> a ∧ 0 <= i < Z.of_nat (length a).
Proof.
  unfold array_set. destruct (Z.leb_spec 0 i); [|done].
  destruct (Z.ltb_spec i (Z.of_nat (length a))); [|done].
  unfold ret. by intros [= <- <-].
Qed.

(** [code.len += COMMANDS_PER_CHUNK] while the sum is an [int]. *)
Lemma len_grows x :
  0 <= x <= INT_MAX →
  0 <= to_int (to_unsigned (x + COMMANDS_PER_CHUNK)) →
  to_int (to_unsigned (x + COMMANDS_PER_CHUNK)) = x + COMMANDS_PER_CHUNK ∧
  x + COMMANDS_PER_CHUNK <= INT_MAX.
Proof.
  unfold to_int, to_unsigned, UINT_MODULUS, INT_MAX, COMMANDS_PER_CHUNK.
  change (2 ^ 32) with 4294967296. change (2 ^ 31) with 2147483648.
  intros Hx Hy. Z.div_mod_to_equations. lia.
Qed.

Lemma grow_code_inv s s' :
  grow_code s = Ok tt s' → loading (code s) (len (code s)) →
  len (code s') = len (code s) + COMMANDS_PER_CHUNK ∧
  len (code s') <= INT_MAX ∧
  len (code s') mod COMMANDS_PER_CHUNK = 0 ∧
  Z.of_nat (length (commands (code s'))) = len (code s') ∧
  visited (code s') =
    replicate (Z.to_nat (len (code s') / COMMANDS_PER_CHUNK)) false.
Proof.
  intros Hrun (Hcur & Hmax & _ & Hmod & Hlen & Hvis).
  unfold grow_code in Hrun. erewrite bind_Ok in Hrun; [|reflexivity].
  erewrite bind_Ok in Hrun; [|reflexivity].
  destruct (Z.ltb_spec (to_int (to_unsigned (len (code s) + COMMANDS_PER_CHUNK)))
              0) as [|Hpos]; [done|].
  destruct (len_grows (len (code s))) as [Hnew Hfits]; [lia | done |].
  rewrite Hnew in Hrun. clear Hnew Hpos.
  assert ((len (code s) + 5) mod 5 = 0) as Hmod'.
  { unfold COMMANDS_PER_CHUNK in Hmod. by rewrite <- Zplus_mod_idemp_l, Hmod. }
  assert ((len (code s) + 5) / 5 = len (code s) / 5 + 1) as Hdiv.
  { replace (len (code s) + 5) with (len (code s) + 1 * 5) by lia.
    by rewrite Z.div_add. }
  assert (0 <= len (code s) / 5) by (apply Z.div_pos; lia).
  unfold COMMANDS_PER_CHUNK in *.
  rewrite (to_unsigned_id (len (code s) + 5)) in Hrun
    by (unfold is_unsigned, UINT_MODULUS, INT_MAX in *; lia).
  rewrite Hdiv in Hrun.
  rewrite (to_unsigned_id (len (code s) / 5 + 1 - 1)) in Hrun.
  2: { unfold is_unsigned, UINT_MODULUS, INT_MAX in *.
       split; [lia|]. apply Z.le_lt_trans with (len (code s)); [|lia].
       replace (len (code s) / 5 + 1 - 1) with (len (code s) / 5) by lia.
       apply Z.div_le_upper_bound; lia. }
  apply bind_Ok_inv in Hrun
    as (vis & s0 & (-> & -> & Hin)%array_set_inv & Hrun).
  injection Hrun as <-.
  cbn [code set_code len commands visited].
  split_and!; try lia.
  - rewrite length_resize. lia.
  - rewrite Hdiv, Hvis.
    replace (Z.to_nat (len (code s) / 5 + 1))
      with (Z.to_nat (len (code s) / 5) + 1)%nat by lia.
    rewrite resize_add_eq by (by rewrite length_replicate).
    rewrite <- replicate_add.
    apply list_eq. intros j.
    destruct (decide (j = Z.to_nat (len (code s) / 5 + 1 - 1))) as [->|Hne].
    + rewrite list_lookup_insert_eq by (rewrite length_replicate; lia).
      symmetry. apply lookup_replicate_2. lia.
    + by rewrite list_lookup_insert_ne.
Qed.

Lemma read_commands_inv char_c file : ∀ cur_cmd s n s',
  read_commands char_c file cur_cmd s = Ok n s' →
  loading (code s) cur_cmd → loading (code s') n.
Proof.
  induction file as [|c rest IH]; intros cur_cmd s n s'; simpl.
  - by intros [= <- <-].
  - destruct (char_c && (N_of_ascii c =? 255)%N); [by intros [= <- <-]|].
    destruct (isspace c); [apply IH|].
    destruct (is_command c); [|done].
    intros ([] & s1 & Hgrow & Hrun)%bind_Ok_inv Hload.
    erewrite bind_Ok in Hrun; [|reflexivity].
    apply bind_Ok_inv in Hrun
      as (cmds & s0 & (-> & -> & Hin)%array_set_inv & Hrun).
    erewrite bind_Ok in Hrun; [|reflexivity].
    apply bind_Ok_inv in Hrun
      as (next & s0 & (-> & -> & Hmax)%int_add_inv & Hrun).
    apply IH in Hrun; [done|]. clear Hrun IH.
    cbn [code set_code len commands visited].
    assert (cur_cmd < len (code s1) <= cur_cmd + COMMANDS_PER_CHUNK ∧
            len (code s1) <= INT_MAX ∧
            len (code s1) mod COMMANDS_PER_CHUNK = 0 ∧
            Z.of_nat (length (commands (code s1))) = len (code s1) ∧
            visited (code s1) =
              replicate (Z.to_nat (len (code s1) / COMMANDS_PER_CHUNK)) false)
      as (Hlt & Hfits & Hmod & Hlen & Hvis).
    { pose proof Hload as (Hcur & Hint & Hroom & Hmod & Hlen & Hvis).
      rewrite (to_unsigned_id cur_cmd) in Hgrow
        by (unfold is_unsigned, UINT_MODULUS, INT_MAX in *; lia).
      unfold COMMANDS_PER_CHUNK in *.
      destruct (Z.eqb_spec (cur_cmd mod 5) 0) as [Hz|Hnz].
      - assert (cur_cmd = len (code s)) as ->.
        { apply Z.div_exact in Hz, Hmod; lia. }
        apply grow_code_inv in Hgrow as (-> & ? & ? & ? & ?); [|done].
        unfold COMMANDS_PER_CHUNK in *. split_and!; auto; lia.
      - injection Hgrow as <-.
        assert (cur_cmd ≠ len (code s)) by congruence.
        split_and!; auto; lia. }
    destruct Hload as (Hcur & _).
    unfold loading, COMMANDS_PER_CHUNK in *.
    cbn [code set_code len commands visited].
    split_and!; try lia; try done.
    by rewrite length_insert.
Qed.

(** White space is passed over. *)
Lemma read_commands_spaces char_c bytes cur_cmd s :
  forallb isspace bytes = true →
  read_commands char_c bytes cur_cmd s = Ok cur_cmd s.
Proof.
  induction bytes as [|c rest IH]; [done|]. simpl.
  intros [Hc Hrest]%andb_prop. rewrite Hc.
  assert ((N_of_ascii c =? 255)%N = false) as ->.
  { unfold isspace in Hc.
    destruct (N.eqb_spec (N_of_ascii c) 255) as [Heq|]; [|done].
    by rewrite Heq in Hc. }
  rewrite andb_false_r. auto.
Qed.

(** The code a file gives when it loads: whole chunks, as many
    commands as [len] says, and every flag clear. *)
Lemma read_xrf_file_loaded char_c filename file s s' :
  read_xrf_file char_c filename file s = Ok tt s' →
  len (code s') mod COMMANDS_PER_CHUNK = 0 ∧
  Z.of_nat (length (commands (code s'))) = len (code s') ∧
  visited (code s') =
    replicate (Z.to_nat (len (code s') / COMMANDS_PER_CHUNK)) false.
Proof.
  unfold read_xrf_file. destruct file as [bytes|]; [|done].
  erewrite bind_Ok; [|reflexivity].
  intros (n & s1 & Hread & Hrun)%bind_Ok_inv.
  apply read_commands_inv in Hread as (_ & _ & _ & Hmod & Hlen & Hvis).
  - destruct (negb _); [done|]. by injection Hrun as <-.
  - unfold loading, COMMANDS_PER_CHUNK, INT_MAX. simpl.
    split_and!; lia || done.
Qed.

End LoaderFacts.

(** ** Computations that leave the code alone *)

Create HintDb keeps discriminated.

Section KeepsCode.
Context {Mem : Type}.

Lemma code_safe_ret {A} (a : A) : code_safe (Mem := Mem) (ret a).
Proof. by intros s. Qed.

Lemma code_safe_bind {A B} (m : M (machine Mem) A) (k : A → M (machine Mem) B) :
  code_safe m → (∀ a, code_safe (k a)) → code_safe (x <- m ;; k x).
Proof.
  intros Hm Hk s. unfold bind. specialize (Hm s).
  destruct (m s) as [a s'| | |]; try done.
  specialize (Hk a s'). destruct (k a s'); congruence.
Qed.

Lemma code_safe_ends {A} (m : M (machine Mem) A) s :
  code_safe m → ends_in (λ s', code s' = code s) (m s).
Proof. intros Hm. specialize (Hm s). by destruct (m s). Qed.

Lemma code_safe_get : code_safe (Mem := Mem) get.
Proof. by intros s. Qed.

Lemma code_safe_get_mem : code_safe (Mem := Mem) get_mem.
Proof. by intros s. Qed.

Lemma code_safe_put_mem m : code_safe (Mem := Mem) (put_mem m).
Proof. by intros s. Qed.

Lemma code_safe_get_code : code_safe (Mem := Mem) get_code.
Proof. by intros s. Qed.

Lemma code_safe_exit {A} st : code_safe (Mem := Mem) (A := A) (exit st).
Proof. by intros s. Qed.

Lemma code_safe_fatal {A} d : code_safe (Mem := Mem) (A := A) (fatal d).
Proof. by intros s. Qed.

Lemma code_safe_undefined {A} u :
  u ≠ OutOfBounds CommandsArray →
  code_safe (Mem := Mem) (A := A) (undefined_behaviour u).
Proof. by intros Hu s. Qed.

Lemma code_safe_out_of_fuel {A} :
  code_safe (Mem := Mem) (A := A) (λ _, OutOfFuel).
Proof. by intros s. Qed.

Lemma code_safe_getchar : code_safe (Mem := Mem) getchar.
Proof. intros s. unfold getchar. by destruct (stdin s). Qed.

Lemma code_safe_putchar c : code_safe (Mem := Mem) (putchar c).
Proof. by intros s. Qed.

Lemma code_safe_rand : code_safe (Mem := Mem) rand.
Proof. by intros s. Qed.

Lemma code_safe_array_get {A} which (a : list A) i :
  which ≠ CommandsArray → code_safe (Mem := Mem) (array_get which a i).
Proof.
  intros Hw s. unfold array_get. destruct (i <? 0); [simpl; congruence|].
  destruct (a !! Z.to_nat i); [done|simpl; congruence].
Qed.

Lemma code_safe_array_set {A} which (a : list A) i x :
  which ≠ CommandsArray → code_safe (Mem := Mem) (array_set which a i x).
Proof.
  intros Hw s. unfold array_set.
  destruct (_ && _); [done|simpl; congruence].
Qed.

Lemma code_safe_int_add x d : code_safe (Mem := Mem) (int_add x d).
Proof. intros s. unfold int_add. by destruct (_ && _). Qed.

End KeepsCode.

#[export] Hint Resolve code_safe_ret code_safe_get code_safe_get_mem
  code_safe_put_mem code_safe_get_code code_safe_exit code_safe_fatal
  code_safe_out_of_fuel code_safe_getchar code_safe_putchar code_safe_rand
  code_safe_int_add : keeps.

#[export] Hint Extern 1 (code_safe (undefined_behaviour _)) =>
  apply code_safe_undefined; discriminate : keeps.
#[export] Hint Extern 1 (code_safe (array_get _ _ _)) =>
  apply code_safe_array_get; discriminate : keeps.
#[export] Hint Extern 1 (code_safe (array_set _ _ _ _)) =>
  apply code_safe_array_set; discriminate : keeps.

(** Splits a computation into its steps and closes the goals that the
    hints decide. *)
Ltac code_safe :=
  repeat first
    [ progress intros
    | solve [auto with keeps]
    | apply code_safe_bind
    | match goal with
      | |- code_safe (match ?x with _ => _ end) => destruct x
      end ].

Lemma code_safe_shuffle_values {Mem} fuel : ∀ i vals,
  code_safe (Mem := Mem) (shuffle_values fuel i vals).
Proof.
  induction fuel as [|fuel IH]; intros i vals; simpl; code_safe.
Qed.

#[export] Hint Resolve code_safe_shuffle_values : keeps.

(** ** Swapping two cells of an array *)

Lemma insert_cons_perm {A} (l : list A) j x y :
  l !! j = Some y → y :: <[j := x]> l ≡ₚ x :: l.
Proof.
  revert j. induction l as [|z l IH]; intros [|j] Hj; try done.
  - injection Hj as ->. apply perm_swap.
  - simpl in *. rewrite perm_swap, (IH _ Hj). apply perm_swap.
Qed.

Lemma insert_swap_perm {A} (l : list A) i j x y :
  l !! i = Some x → l !! j = Some y → <[i := y]> (<[j := x]> l) ≡ₚ l.
Proof.
  revert i j. induction l as [|z l IH]; intros [|i] [|j] Hi Hj; try done;
    simpl in *.
  - by simplify_eq.
  - injection Hi as ->. by apply insert_cons_perm.
  - injection Hj as ->. by apply insert_cons_perm.
  - by rewrite IH.
Qed.

Section ShuffleFacts.
Context {Mem : Type}.
Implicit Type s : machine Mem.

(** The shuffling loop ends, draws some numbers and leaves a permutation
    of the array, with the cells above [i] as they were. *)
Lemma shuffle_values_spec (n : nat) : ∀ fuel i vals s,
  Z.to_nat i = n → (n ≤ fuel)%nat →
  0 <= i < Z.of_nat (length vals) → i + 1 < UINT_MODULUS →
  Forall is_unsigned vals →
  ∃ vals' calls,
    shuffle_values fuel i vals s = Ok vals' (set_rand_calls calls s) ∧
    vals' ≡ₚ vals ∧
    drop (S (Z.to_nat i)) vals' = drop (S (Z.to_nat i)) vals.
Proof.
  induction n as [|n IH]; intros fuel i vals s Hn Hfuel Hi Hmax Hu.
  - exists vals, (rand_calls s). rewrite set_rand_calls_same.
    split; [|done]. apply shuffle_values_done. lia.
  - destruct fuel as [|fuel]; [lia|]. simpl.
    destruct (Z.ltb_spec 0 i) as [Hpos|]; [|lia].
    unfold rand at 1. unfold bind at 1.
    set (r := rand_source s (rand_calls s) mod (RAND_MAX + 1)).
    set (s1 := set_rand_calls (S (rand_calls s)) s).
    assert (to_unsigned (i + 1) = i + 1) as ->.
    { apply to_unsigned_id. unfold is_unsigned. lia. }
    destruct (Z.eqb_spec (i + 1) 0) as [|_]; [lia|].
    set (j := to_unsigned r mod (i + 1)).
    assert (0 <= j < i + 1) as Hj by (apply Z.mod_pos_bound; lia).
    clearbody j.
    destruct (lookup_lt_is_Some_2 vals (Z.to_nat j)) as [t Ht]; [lia|].
    destruct (lookup_lt_is_Some_2 vals (Z.to_nat i)) as [vi Hvi]; [lia|].
    rewrite (bind_Ok _ _ _ _ _ (array_get_Ok _ _ _ _ _ (proj1 Hj) Ht)).
    rewrite (bind_Ok _ _ _ _ _ (array_get_Ok _ _ _ _ _ (proj1 Hi) Hvi)).
    erewrite bind_Ok; [|apply array_set_Ok; lia].
    erewrite bind_Ok; [|apply array_set_Ok; rewrite length_insert; lia].
    assert (is_unsigned t) as Hut.
    { eapply Forall_lookup_1; eauto. }
    rewrite (to_unsigned_to_int_id t Hut).
    assert (to_unsigned (i - 1) = i - 1) as ->.
    { apply to_unsigned_id. unfold is_unsigned. lia. }
    set (vals1 := <[Z.to_nat i := t]> (<[Z.to_nat j := vi]> vals)).
    assert (vals1 ≡ₚ vals) as Hperm by by apply insert_swap_perm.
    destruct (IH fuel (i - 1) vals1 s1) as (vals' & calls & Hrun & Hp & Hd).
    + lia.
    + lia.
    + rewrite Hperm. lia.
    + lia.
    + by rewrite Hperm.
    + exists vals', calls. split; [by rewrite Hrun|].
      split; [by rewrite Hp|].
      replace (S (Z.to_nat i)) with (S (Z.to_nat (i - 1)) + 1)%nat by lia.
      rewrite <- !drop_drop, Hd, !drop_drop. unfold vals1.
      rewrite !drop_insert_lt by lia. done.
Qed.

End ShuffleFacts.

(** ** Computations that keep the stack a stack *)

Create HintDb stack discriminated.

Section StackSafe.
Context {Mem : Type} (rep : Mem → list Z → Prop).
Implicit Type s : machine Mem.

Lemma stack_safe_ret {A} (Q : A → Prop) a : Q a → stack_safe rep Q (ret a).
Proof. intros Ha s l Hrep. simpl. eauto. Qed.

Lemma stack_safe_bind_with {A B} (P : A → Prop) (Q : B → Prop)
    (m : M (machine Mem) A) (k : A → M (machine Mem) B) :
  stack_safe rep P m → (∀ a, P a → stack_safe rep Q (k a)) →
  stack_safe rep Q (x <- m ;; k x).
Proof.
  intros Hm Hk s l Hrep. unfold bind. specialize (Hm s l Hrep).
  destruct (m s) as [a s'| | |]; try done.
  destruct Hm as [Ha [l' Hrep']]. apply (Hk a Ha s' l' Hrep').
Qed.

Lemma stack_safe_bind {A B} (Q : B → Prop) (m : M (machine Mem) A)
    (k : A → M (machine Mem) B) :
  stack_safe rep (λ _, True) m → (∀ a, stack_safe rep Q (k a)) →
  stack_safe rep Q (x <- m ;; k x).
Proof. intros Hm Hk. apply (stack_safe_bind_with (λ _, True)); auto. Qed.

Lemma stack_safe_weaken {A} (P Q : A → Prop) (m : M (machine Mem) A) :
  (∀ a, P a → Q a) → stack_safe rep P m → stack_safe rep Q m.
Proof.
  intros HPQ Hm s l Hrep. specialize (Hm s l Hrep).
  destruct (m s) as [a s'| | |]; try done.
  destruct Hm as [Ha Hrep']. auto.
Qed.

(** A computation that leaves the memory alone. *)
Lemma stack_safe_reads {A} (m : M (machine Mem) A) :
  (∀ s, match m s with
        | Ok _ s' => mem s' = mem s
        | OutOfFuel => False
        | _ => True
        end) →
  stack_safe rep (λ _, True) m.
Proof.
  intros Hm s l Hrep. specialize (Hm s).
  destruct (m s) as [a s'| | |]; try done.
  split; [done|]. exists l. by rewrite Hm.
Qed.

Lemma stack_safe_get : stack_safe rep (λ _, True) get.
Proof. by apply stack_safe_reads. Qed.

Lemma stack_safe_get_mem : stack_safe rep (λ _, True) get_mem.
Proof. by apply stack_safe_reads. Qed.

Lemma stack_safe_get_code : stack_safe rep (λ _, True) get_code.
Proof. by apply stack_safe_reads. Qed.

Lemma stack_safe_put_code c : stack_safe rep (λ _, True) (put_code c).
Proof. by apply stack_safe_reads. Qed.

Lemma stack_safe_exit {A} (Q : A → Prop) st : stack_safe rep Q (exit st).
Proof. by intros s l Hrep. Qed.

Lemma stack_safe_fatal {A} (Q : A → Prop) d : stack_safe rep Q (fatal d).
Proof. by intros s l Hrep. Qed.

Lemma stack_safe_undefined {A} (Q : A → Prop) u :
  stack_safe rep Q (undefined_behaviour u).
Proof. by intros s l Hrep. Qed.

Lemma stack_safe_getchar : stack_safe rep (λ _, True) getchar.
Proof.
  apply stack_safe_reads. intros s. unfold getchar. by destruct (stdin s).
Qed.

Lemma stack_safe_putchar c : stack_safe rep (λ _, True) (putchar c).
Proof. by apply stack_safe_reads. Qed.

Lemma stack_safe_array_get {A} which (a : list A) i :
  stack_safe rep (λ _, True) (array_get which a i).
Proof.
  apply stack_safe_reads. intros s. unfold array_get.
  destruct (i <? 0); [done|]. by destruct (a !! Z.to_nat i).
Qed.

Lemma stack_safe_int_add x d : stack_safe rep (λ _, True) (int_add x d).
Proof.
  apply stack_safe_reads. intros s. unfold int_add. by destruct (_ && _).
Qed.

Lemma stack_safe_array_set {A} which (a : list A) i x :
  stack_safe rep (λ _, True) (array_set which a i x).
Proof.
  apply stack_safe_reads. intros s. unfold array_set. by destruct (_ && _).
Qed.

End StackSafe.

#[export] Hint Resolve stack_safe_get stack_safe_get_mem stack_safe_get_code
  stack_safe_put_code stack_safe_exit stack_safe_fatal stack_safe_undefined
  stack_safe_getchar stack_safe_putchar stack_safe_array_get
  stack_safe_array_set stack_safe_int_add : stack.

#[export] Hint Extern 1 (stack_safe _ _ (ret _)) =>
  apply stack_safe_ret; simpl; auto : stack.

(** Splits a computation into its steps and closes the goals that the
    hints decide. *)
Ltac stack_safe :=
  repeat first
    [ progress intros
    | solve [auto with stack]
    | apply stack_safe_bind
    | match goal with
      | |- stack_safe _ _ (match ?x with _ => _ end) => destruct x
      end ].

(** The loader does not touch the memory of the stack. *)
Lemma stack_safe_grow_code {Mem} (rep : Mem → list Z → Prop) :
  stack_safe rep (λ _, True) grow_code.
Proof. unfold grow_code. stack_safe. Qed.

#[export] Hint Resolve stack_safe_grow_code : stack.

Lemma stack_safe_read_commands {Mem} (rep : Mem → list Z → Prop) char_c file :
  ∀ cur_cmd, stack_safe rep (λ _, True) (read_commands char_c file cur_cmd).
Proof. induction file as [|c rest IH]; intros cur_cmd; simpl; stack_safe. Qed.

#[export] Hint Resolve stack_safe_read_commands : stack.

Lemma stack_safe_read_xrf_file {Mem} (rep : Mem → list Z → Prop)
    char_c filename file :
  stack_safe rep (λ _, True) (read_xrf_file char_c filename file).
Proof. unfold read_xrf_file. stack_safe. Qed.

Lemma array_set_outside {Mem A} which (a : list A) i x (s : machine Mem) :
  ¬ (0 <= i < Z.of_nat (length a)) →
  array_set which a i x s = Undefined (OutOfBounds which).
Proof.
  intros Hi. unfold array_set.
  destruct (Z.leb_spec 0 i); [|done].
  destruct (Z.ltb_spec i (Z.of_nat (length a))); [lia|done].
Qed.

(** ** The singly linked stack *)

Module Rev2Facts.
Import Rev2.

Arguments seg : simpl nomatch.

Ltac unfold_ops :=
  unfold push_stack, pop_stack, swap_stack, dup_stack, send_top_to_bottom,
    new_stack_node, malloc, free, store_next, store_val, load_val,
    load_next, store, deref, set_stack, set_bottom, get_stack, get_bottom;
  unfold_monad.

Lemma sll_seg_cons h a addrs v vals tl :
  seg h (a :: addrs) (v :: vals) tl ↔
  h !! a = Some (mkStack v (first_of addrs tl)) ∧ seg h addrs vals tl.
Proof. reflexivity. Qed.

Lemma sll_seg_length h addrs vals tl :
  seg h addrs vals tl → length addrs = length vals.
Proof.
  revert vals.
  induction addrs as [|a addrs IH]; intros [|v vals]; try done.
  intros [_ H]. simpl. f_equal. eauto.
Qed.

Lemma sll_seg_allocated h addrs vals tl a :
  seg h addrs vals tl → a ∈ addrs → is_Some (h !! a).
Proof.
  revert vals.
  induction addrs as [|b addrs IH]; intros [|v vals]; try done.
  - intros _ H. inversion H.
  - intros [Hb Hs] Hin. apply elem_of_cons in Hin as [->|Hin]; eauto.
Qed.

Lemma sll_seg_fresh h addrs vals tl :
  seg h addrs vals tl → malloc_addr h ∉ addrs.
Proof.
  intros Hseg Hin. destruct (sll_seg_allocated _ _ _ _ _ Hseg Hin) as [n Hn].
  by rewrite malloc_addr_fresh in Hn.
Qed.

Lemma sll_seg_insert_frame h addrs vals tl a n :
  a ∉ addrs → seg h addrs vals tl → seg (<[a := n]> h) addrs vals tl.
Proof.
  revert vals.
  induction addrs as [|b addrs IH]; intros [|v vals]; try done.
  intros Hnotin [Hb Hs]. apply not_elem_of_cons in Hnotin as [Hne Hnotin].
  split; [by rewrite lookup_insert_ne | eauto].
Qed.

Lemma sll_seg_delete_frame h addrs vals tl a :
  a ∉ addrs → seg h addrs vals tl → seg (delete a h) addrs vals tl.
Proof.
  revert vals.
  induction addrs as [|b addrs IH]; intros [|v vals]; try done.
  intros Hnotin [Hb Hs]. apply not_elem_of_cons in Hnotin as [Hne Hnotin].
  split; [by rewrite lookup_delete_ne | eauto].
Qed.

(** Linking the last node of a segment to another node. *)
Lemma sll_seg_set_tail h addrs z vals w tl tl' :
  NoDup (addrs ++ [z]) →
  seg h (addrs ++ [z]) (vals ++ [w]) tl →
  seg (<[z := mkStack w tl']> h) (addrs ++ [z]) (vals ++ [w]) tl'.
Proof.
  revert vals. induction addrs as [|a addrs IH]; intros vals Hnd Hseg.
  - destruct vals as [|v vals].
    + split; [|done]. by rewrite lookup_insert_eq.
    + destruct Hseg as [_ Hseg]. by destruct vals.
  - destruct vals as [|v vals].
    { destruct Hseg as [_ Hseg]. by destruct addrs. }
    simpl in Hnd. apply NoDup_cons in Hnd as [Hnotin Hnd].
    destruct Hseg as [Ha Hseg]. split.
    + rewrite lookup_insert_ne; [|set_solver].
      rewrite Ha. by destruct addrs.
    + by apply IH.
Qed.

Lemma sll_rep_nil m : rep m [] → stack m = None ∧ bottom m = None.
Proof.
  intros (addrs & _ & Hseg & -> & -> & _). by destruct addrs.
Qed.

Lemma sll_push_stack s l v :
  rep (mem s) l →
  ∃ m', push_stack v s = Ok tt (set_mem m' s) ∧ rep m' (to_unsigned v :: l).
Proof.
  intros (addrs & Hnd & Hseg & Hst & Hbt & Hu).
  destruct s as [[h st bt] cd i o e rs rc]. simpl in *.
  unfold_ops. heap_simpl.
  pose proof (sll_seg_fresh _ _ _ _ Hseg) as Hfresh.
  destruct bt as [b|] eqn:Hb; simpl; eexists; (split; [reflexivity|]).
  - exists (malloc_addr h :: addrs). repeat split; simpl.
    + by constructor.
    + heap_simpl. rewrite Hst. by destruct addrs.
    + by apply sll_seg_insert_frame.
    + rewrite Hbt. by destruct addrs.
    + constructor; [apply to_unsigned_is_unsigned | done].
  - symmetry in Hbt. apply last_None_nil in Hbt as ->.
    destruct l; [|done]. simpl in *. subst.
    exists [malloc_addr h]. repeat split; simpl; heap_simpl; auto.
    + apply NoDup_singleton.
    + constructor; [apply to_unsigned_is_unsigned | done].
Qed.

Lemma sll_pop_stack s v l :
  rep (mem s) (v :: l) →
  ∃ m', pop_stack s = Ok (to_int v) (set_mem m' s) ∧ rep m' l.
Proof.
  intros (addrs & Hnd & Hseg & Hst & Hbt & Hu).
  destruct s as [[h st bt] cd i o e rs rc]. simpl in *.
  destruct addrs as [|a addrs]; [done|]. destruct Hseg as [Ha Hseg].
  simpl in Hst. subst st. apply NoDup_cons in Hnd as [Hnotin Hnd].
  apply Forall_cons in Hu as [_ Hu].
  unfold_ops. heap_simpl.
  destruct addrs as [|a' addrs]; simpl; eexists; (split; [reflexivity|]).
  - destruct l; [|done]. by exists [].
  - exists (a' :: addrs). repeat split; simpl; auto.
    by apply sll_seg_delete_frame.
Qed.

Lemma sll_pop_stack_empty s :
  rep (mem s) [] →
  pop_stack s = Exit 1 (set_stderr (stderr s ++ [PopEmpty]) s).
Proof.
  intros [Hst _]%sll_rep_nil. unfold_ops. by rewrite Hst.
Qed.

Lemma sll_seg_app_join h xs ys vs ws tl :
  seg h xs vs (first_of ys tl) → seg h ys ws tl →
  seg h (xs ++ ys) (vs ++ ws) tl.
Proof.
  revert vs. induction xs as [|a xs IH]; intros [|v vs]; try done.
  intros [Ha Hs] Hy. split; [|eauto]. rewrite Ha. by destruct xs.
Qed.

(** A segment that is not empty, seen from its last node. *)
Lemma sll_seg_last h addrs vals tl :
  seg h addrs vals tl → addrs ≠ [] →
  ∃ xs z vs w, addrs = xs ++ [z] ∧ vals = vs ++ [w] ∧
    h !! z = Some (mkStack w tl).
Proof.
  revert vals. induction addrs as [|a addrs IH]; intros [|v vals]; try done.
  intros [Ha Hseg] _. destruct addrs as [|b addrs].
  - destruct vals; [|done]. by exists [], a, [], v.
  - destruct (IH _ Hseg) as (xs & z & vs & w & Hx & Hv & Hz); [done|].
    exists (a :: xs), z, (v :: vs), w. by rewrite Hx, Hv.
Qed.

Lemma sll_swap_stack s a b l :
  rep (mem s) (a :: b :: l) →
  ∃ m', swap_stack s = Ok tt (set_mem m' s) ∧ rep m' (b :: a :: l).
Proof.
  intros (addrs & Hnd & Hseg & Hst & Hbt & Hu).
  destruct s as [[h st bt] cd i o e rs rc]. simpl in *.
  destruct addrs as [|x [|y addrs]]; try done.
  { by destruct Hseg as [_ ?]. }
  destruct Hseg as (Hx & Hy & Hseg). simpl in Hst, Hx. subst st.
  apply NoDup_cons in Hnd as [Hx' Hnd]. apply NoDup_cons in Hnd as [Hy' Hnd].
  apply not_elem_of_cons in Hx' as [Hxy Hx'].
  apply Forall_cons in Hu as [Hua Hu]. apply Forall_cons in Hu as [Hub Hu].
  unfold_ops. heap_simpl.
  eexists; split; [reflexivity|].
  exists (x :: y :: addrs). split_and!; simpl; auto.
  - apply NoDup_cons. split; [by apply not_elem_of_cons|].
    by apply NoDup_cons.
  - split_and!.
    + rewrite lookup_insert_ne by done. rewrite lookup_insert_eq.
      by rewrite (to_unsigned_id b).
    + rewrite lookup_insert_eq. by rewrite to_unsigned_to_int_id.
    + apply sll_seg_insert_frame; [done|].
      by apply sll_seg_insert_frame.
Qed.

Lemma sll_swap_stack_short s l :
  rep (mem s) l → (length l < 2)%nat →
  swap_stack s =
    Exit 1 (set_stderr (stderr s ++ [SwapTooFew (bool_decide (l ≠ []))]) s).
Proof.
  intros (addrs & Hnd & Hseg & Hst & Hbt & Hu) Hlen.
  destruct l as [|a [|b l]]; [| |simpl in Hlen; lia].
  - destruct addrs; [|done]. unfold_ops. by rewrite Hst.
  - destruct addrs as [|x [|y addrs]]; try done.
    + destruct Hseg as [Hx _]. unfold_ops. rewrite Hst. simpl.
      by rewrite Hx.
    + by destruct Hseg as [_ ?].
Qed.

Lemma sll_dup_stack s v l :
  rep (mem s) (v :: l) →
  ∃ m', dup_stack s = Ok tt (set_mem m' s) ∧ rep m' (v :: v :: l).
Proof.
  intros Hrep.
  destruct (sll_push_stack s (v :: l) (to_int v) Hrep) as (m' & Hpush & Hrep').
  destruct Hrep as (addrs & Hnd & Hseg & Hst & Hbt & Hu).
  destruct addrs as [|a addrs]; [done|]. destruct Hseg as [Ha _].
  apply Forall_cons in Hu as [Huv _].
  rewrite to_unsigned_to_int_id in Hrep' by done.
  exists m'. split; [|done]. rewrite <- Hpush.
  unfold dup_stack, load_val, deref, get_stack. unfold_monad.
  rewrite Hst. simpl. by rewrite Ha.
Qed.

Lemma sll_dup_stack_empty s :
  rep (mem s) [] →
  dup_stack s = Exit 1 (set_stderr (stderr s ++ [DupEmpty]) s).
Proof.
  intros [Hst _]%sll_rep_nil. unfold_ops. by rewrite Hst.
Qed.

Lemma sll_send_top_to_bottom s v l :
  rep (mem s) (v :: l) → l ≠ [] →
  ∃ m', send_top_to_bottom s = Ok tt (set_mem m' s) ∧ rep m' (l ++ [v]).
Proof.
  intros (addrs & Hnd & Hseg & Hst & Hbt & Hu) Hl.
  destruct s as [[h st bt] cd i o e rs rc]. simpl in *.
  destruct addrs as [|a addrs]; [done|]. destruct Hseg as [Ha Hseg].
  assert (addrs ≠ []) as Hne.
  { intros ->. by destruct l. }
  destruct (sll_seg_last _ _ _ _ Hseg Hne)
    as (xs & z & vs & w & -> & -> & Hz).
  simpl in Hst. subst st.
  assert (bt = Some z) as ->.
  { rewrite Hbt. change (a :: xs ++ [z]) with ((a :: xs) ++ [z]).
    apply last_snoc. }
  apply NoDup_cons in Hnd as [Hnotin Hnd].
  assert (a ≠ z) as Haz by set_solver.
  assert (first_of (xs ++ [z]) None = first_of (xs ++ [z]) (Some a)) as Hfirst.
  { by destruct xs. }
  assert (is_Some (first_of (xs ++ [z]) None)) as [b Hb].
  { by destruct xs. }
  unfold_ops. heap_simpl. rewrite Hb. heap_simpl.
  rewrite <- Hb.
  eexists; split; [reflexivity|].
  exists ((xs ++ [z]) ++ [a]). split_and!; simpl.
  - apply NoDup_app. split_and!; [done | | apply NoDup_singleton].
    intros c Hc ->%list_elem_of_singleton. done.
  - apply sll_seg_app_join.
    + apply sll_seg_insert_frame; [done|].
      by apply (sll_seg_set_tail _ _ _ _ _ None).
    + split; [|done]. by rewrite lookup_insert_eq.
  - rewrite Hb. destruct xs; simpl in *; congruence.
  - by rewrite last_snoc.
  - apply Forall_cons in Hu as [Hv Hu]. apply Forall_app. split; [done|].
    by constructor.
Qed.

Lemma sll_send_top_to_bottom_one s v :
  rep (mem s) [v] → send_top_to_bottom s = Ok tt s.
Proof.
  intros (addrs & Hnd & Hseg & Hst & Hbt & Hu).
  destruct addrs as [|a [|b addrs]]; try done.
  - destruct Hseg as [Ha _]. unfold_ops. rewrite Hst. simpl. by rewrite Ha.
  - by destruct Hseg as [_ ?].
Qed.

Lemma sll_send_top_to_bottom_empty s :
  rep (mem s) [] →
  send_top_to_bottom s =
    Exit 1 (set_stderr (stderr s ++ [RotateEmpty]) s).
Proof.
  intros [Hst _]%sll_rep_nil. unfold_ops. by rewrite Hst.
Qed.

(** *** randomize_stack *)

Lemma sll_load_val s a n :
  heap (mem s) !! a = Some n → load_val (Some a) s = Ok (val n) s.
Proof. intros Ha. unfold load_val, deref. unfold_monad. by rewrite Ha. Qed.

Lemma sll_load_next s a n :
  heap (mem s) !! a = Some n → load_next (Some a) s = Ok (next n) s.
Proof. intros Ha. unfold load_next, deref. unfold_monad. by rewrite Ha. Qed.

Lemma sll_store_val s a n v :
  heap (mem s) !! a = Some n →
  store_val (Some a) v s =
    Ok tt (set_mem (mkMemory (<[a := mkStack (to_unsigned v) (next n)]>
                                (heap (mem s)))
                             (stack (mem s)) (bottom (mem s))) s).
Proof.
  intros Ha. unfold store_val, store, deref. unfold_monad. by rewrite Ha.
Qed.

(** A list of distinct nodes is no longer than the heap is large, so
    [node_fuel] is enough to walk it. *)
Lemma sll_seg_size h addrs vals tl :
  NoDup addrs → seg h addrs vals tl → (length addrs ≤ size h)%nat.
Proof.
  intros Hnd Hseg.
  rewrite <- (size_list_to_set (C := gset loc)) by done.
  rewrite <- size_dom. apply subseteq_size.
  intros a Ha%elem_of_list_to_set. apply elem_of_dom.
  eapply sll_seg_allocated; eauto.
Qed.

Lemma sll_gather_values s : ∀ addrs l fuel buf k cap,
  seg (heap (mem s)) addrs l None →
  (length addrs ≤ fuel)%nat →
  Z.of_nat (length buf) = cap → 0 <= k <= cap → 1 <= cap →
  k + Z.of_nat (length l) <= 2 ^ 31 →
  Forall is_unsigned l → Forall is_unsigned buf →
  ∃ buf',
    gather_values fuel (first_of addrs None) buf k cap s =
      Ok (buf', k + Z.of_nat (length l)) s ∧
    take (Z.to_nat k + length l) buf' = take (Z.to_nat k) buf ++ l ∧
    (Z.to_nat k + length l ≤ length buf')%nat ∧
    Forall is_unsigned buf'.
Proof.
  induction addrs as [|a addrs IH];
    intros [|v l] fuel buf k cap Hseg Hfuel Hlen Hk Hcap Hmax Hul Hub;
    try done.
  - exists buf. destruct fuel; simpl; rewrite Z.add_0_r, Nat.add_0_r.
    all: rewrite app_nil_r; split_and!; auto; lia.
  - destruct Hseg as [Ha Hseg]. destruct fuel as [|fuel]; [simpl in *; lia|].
    apply Forall_cons in Hul as [Huv Hul].
    simpl in Hmax, Hfuel.
    cbn [gather_values first_of].
    set (grown := if k =? cap then _ else _).
    assert (∃ buf1 cap1, grown = (buf1, cap1) ∧
              Z.of_nat (length buf1) = cap1 ∧ k < cap1 ∧
              take (Z.to_nat k) buf1 = take (Z.to_nat k) buf ∧
              Forall is_unsigned buf1)
      as (buf1 & cap1 & -> & Hlen1 & Hk1 & Htake1 & Hub1).
    { unfold grown. destruct (Z.eqb_spec k cap) as [->|Hne].
      - assert (to_unsigned (Z.shiftl cap 1) = 2 * cap) as ->.
        { rewrite Z.shiftl_mul_pow2 by lia.
          rewrite to_unsigned_id; [lia|].
          unfold is_unsigned, UINT_MODULUS. lia. }
        eexists _, _. split; [reflexivity|].
        rewrite length_resize. split_and!; try lia.
        + rewrite resize_ge by lia. rewrite take_app_le by lia. done.
        + rewrite resize_ge by lia. apply Forall_app. split; [done|].
          apply Forall_replicate. unfold is_unsigned, UINT_MODULUS. lia.
      - exists buf, cap. split_and!; auto; lia. }
    cbn [fst snd].
    rewrite (bind_Ok _ _ _ _ _ (sll_load_val _ _ _ Ha)).
    erewrite bind_Ok; [|apply array_set_Ok; lia].
    rewrite (bind_Ok _ _ _ _ _ (sll_load_next _ _ _ Ha)).
    cbn [val next].
    assert (to_unsigned (k + 1) = k + 1) as ->.
    { apply to_unsigned_id. unfold is_unsigned, UINT_MODULUS. lia. }
    destruct (IH l fuel (<[Z.to_nat k := v]> buf1) (k + 1) cap1)
      as (buf' & Hrun & Htake & Hlen' & Hub'); auto; try lia.
    { rewrite length_insert. lia. }
    { by apply Forall_insert. }
    exists buf'. rewrite Hrun. split_and!; auto.
    + do 2 f_equal. simpl length. lia.
    + replace (Z.to_nat k + length (v :: l))%nat
        with (Z.to_nat (k + 1) + length l)%nat by (simpl; lia).
      rewrite Htake. replace (Z.to_nat (k + 1)) with (S (Z.to_nat k)) by lia.
      erewrite take_S_r; [|apply list_lookup_insert_eq; lia].
      rewrite take_insert_ge by lia. rewrite Htake1.
      by rewrite <- app_assoc.
    + simpl. lia.
Qed.

Lemma sll_assign_values : ∀ addrs l fuel i vals s,
  seg (heap (mem s)) addrs l None → NoDup addrs →
  (length addrs ≤ fuel)%nat → 0 <= i →
  i + Z.of_nat (length addrs) <= Z.of_nat (length vals) →
  i + Z.of_nat (length addrs) < UINT_MODULUS →
  ∃ h',
    assign_values fuel (first_of addrs None) i vals s =
      Ok tt (set_mem (mkMemory h' (stack (mem s)) (bottom (mem s))) s) ∧
    seg h' addrs
      (to_unsigned <$> take (length addrs) (drop (Z.to_nat i) vals)) None ∧
    ∀ b, b ∉ addrs → h' !! b = heap (mem s) !! b.
Proof.
  induction addrs as [|a addrs IH];
    intros [|v l] fuel i vals s Hseg Hnd Hfuel Hi Hlen Hmax; try done.
  - exists (heap (mem s)). split_and!; [|done..].
    destruct s as [[] ?]. by destruct fuel.
  - destruct Hseg as [Ha Hseg]. destruct fuel as [|fuel]; [simpl in *; lia|].
    apply NoDup_cons in Hnd as [Hnotin Hnd]. simpl in Hlen, Hmax, Hfuel.
    destruct (lookup_lt_is_Some_2 vals (Z.to_nat i)) as [x Hx]; [lia|].
    cbn [assign_values first_of].
    rewrite (bind_Ok _ _ _ _ _ (array_get_Ok _ _ _ _ _ Hi Hx)).
    rewrite (bind_Ok _ _ _ _ _ (sll_store_val _ _ _ _ Ha)).
    erewrite bind_Ok; [|apply sll_load_next; simpl; apply lookup_insert_eq].
    cbn [val next].
    assert (to_unsigned (i + 1) = i + 1) as ->.
    { apply to_unsigned_id. unfold is_unsigned. lia. }
    match goal with |- context [assign_values _ _ _ _ ?s1] =>
      destruct (IH l fuel (i + 1) vals s1) as (h' & Hrun & Hseg' & Hframe)
    end; auto; try lia.
    { simpl. by apply sll_seg_insert_frame. }
    exists h'. rewrite Hrun. split_and!.
    + done.
    + replace (drop (Z.to_nat i) vals)
        with (x :: drop (Z.to_nat (i + 1)) vals).
      * split; [|done]. rewrite Hframe by done. simpl.
        by rewrite lookup_insert_eq.
      * replace (Z.to_nat (i + 1)) with (S (Z.to_nat i)) by lia.
        by rewrite <- drop_S.
    + intros b [Hne Hb]%not_elem_of_cons. rewrite Hframe by done. simpl.
      by rewrite lookup_insert_ne.
Qed.

(** On a stack that is not empty [randomize_stack] returns, with the
    same nodes holding a permutation of the values. *)
Lemma sll_randomize_stack s l :
  rep (mem s) l → l ≠ [] → Z.of_nat (length l) <= 2 ^ 31 →
  ∃ m' calls l',
    randomize_stack s = Ok tt (set_mem m' (set_rand_calls calls s)) ∧
    rep m' l' ∧ l' ≡ₚ l.
Proof.
  intros (addrs & Hnd & Hseg & Hst & Hbt & Hu) Hne Hmax.
  pose proof (sll_seg_length _ _ _ _ Hseg) as Hlen.
  pose proof (sll_seg_size _ _ _ _ Hnd Hseg) as Hsize.
  assert (stack (mem s) = first_of addrs None) as Hfirst.
  { rewrite Hst. by destruct addrs. }
  destruct (sll_gather_values s addrs l (node_fuel s) [0] 0 1)
    as (buf & Hgather & Htake & Hbuf & Hub); auto; try (simpl; lia).
  { unfold node_fuel. lia. }
  { repeat constructor; unfold UINT_MODULUS; lia. }
  simpl in Htake, Hbuf. rewrite Z.add_0_l in Hgather.
  assert (0 < length l)%nat as Hpos by (destruct l; simpl; [done|lia]).
  destruct (shuffle_values_spec (Z.to_nat (Z.of_nat (length l) - 1))
              (S (length buf)) (Z.of_nat (length l) - 1) buf s)
    as (vals & calls & Hshuffle & Hperm & Hdrop);
    auto; try lia.
  { unfold UINT_MODULUS. lia. }
  replace (S (Z.to_nat (Z.of_nat (length l) - 1))) with (length l)
    in Hdrop by lia.
  assert (take (length l) vals ≡ₚ l) as Hperm'.
  { rewrite <- Htake at 2.
    apply (Permutation_app_inv_r (drop (length l) vals)).
    rewrite Hdrop at 2. by rewrite !take_drop. }
  set (s1 := set_rand_calls calls s) in *.
  destruct (sll_assign_values addrs l (node_fuel s) 0 vals s1)
    as (h' & Hassign & Hseg' & Hframe); auto; try (simpl; lia).
  { unfold node_fuel. lia. }
  { rewrite Hperm. lia. }
  { unfold UINT_MODULUS. lia. }
  assert (Forall is_unsigned (take (length l) vals)) as Hu'.
  { by rewrite Hperm'. }
  exists (mkMemory h' (stack (mem s)) (bottom (mem s))), calls,
    (take (length l) vals).
  split_and!; [|exists addrs; split_and!; auto|done].
  - unfold randomize_stack.
    erewrite bind_Ok; [|reflexivity].
    erewrite bind_Ok; [|reflexivity].
    rewrite Hfirst, (bind_Ok _ _ _ _ _ Hgather). cbn [fst snd].
    assert (to_unsigned (Z.of_nat (length l) - 1) = Z.of_nat (length l) - 1)
      as ->.
    { apply to_unsigned_id. unfold is_unsigned, UINT_MODULUS. lia. }
    rewrite (bind_Ok _ _ _ _ _ Hshuffle).
    erewrite bind_Ok; [|reflexivity].
    change (stack (mem s1)) with (stack (mem s)). rewrite Hfirst.
    rewrite Hassign. unfold s1. simpl. by rewrite Hfirst.
  - rewrite Hlen in Hseg'. change (Z.to_nat 0) with O in Hseg'.
    rewrite drop_0 in Hseg'. by rewrite fmap_to_unsigned_id in Hseg'.
Qed.

(** On the empty stack the shuffling loop starts from [i = UINT_MAX] and
    divides by [i + 1], which is zero. *)
Lemma sll_randomize_stack_empty s :
  rep (mem s) [] → randomize_stack s = Undefined DivisionByZero.
Proof.
  intros [Hst _]%sll_rep_nil. unfold randomize_stack.
  erewrite bind_Ok; [|reflexivity].
  erewrite bind_Ok; [|reflexivity].
  rewrite Hst. reflexivity.
Qed.

(** *** The commands that work on the top of the stack *)

Lemma sll_command_decrement s flag i v l :
  rep (mem s) (v :: l) →
  ∃ m', command "6" flag i s = Ok (Break i) (set_mem m' s) ∧
        rep m' (Z.max 0 (v - 1) :: l).
Proof.
  intros (addrs & Hnd & Hseg & Hst & Hbt & Hu).
  destruct s as [[h st bt] cd inp o e rs rc]. simpl in *.
  destruct addrs as [|a addrs]; [done|]. destruct Hseg as [Ha Hseg].
  simpl in Hst. subst st. apply Forall_cons in Hu as [Hv Hu].
  unfold command. unfold_ops. heap_simpl.
  destruct (Z.ltb_spec 0 v) as [Hpos|Hzero]; heap_simpl.
  - eexists; split; [reflexivity|]. exists (a :: addrs).
    assert (is_unsigned (v - 1)) by (unfold is_unsigned in *; lia).
    rewrite to_unsigned_id by done. rewrite Z.max_r by lia.
    split_and!; simpl; auto.
    split; [by rewrite lookup_insert_eq|].
    apply NoDup_cons in Hnd as [? _]. by apply sll_seg_insert_frame.
  - eexists; split; [reflexivity|]. exists (a :: addrs).
    assert (v = 0) as -> by (unfold is_unsigned in *; lia).
    change (Z.max 0 (0 - 1)) with 0. split_and!; simpl; auto.
Qed.

Lemma sll_command_decrement_empty s flag i :
  rep (mem s) [] →
  command "6" flag i s =
    Exit 1 (set_stderr (stderr s ++ [DecrementEmpty]) s).
Proof.
  intros [Hst _]%sll_rep_nil. unfold command. unfold_ops. by rewrite Hst.
Qed.

Lemma sll_command_diff s flag i a b l :
  rep (mem s) (a :: b :: l) →
  ∃ m', command "E" flag i s = Ok (Break i) (set_mem m' s) ∧
        rep m' (Z.abs (b - a) :: l).
Proof.
  intros Hrep.
  destruct (sll_pop_stack _ _ _ Hrep) as (m1 & Hpop & Hrep1).
  destruct Hrep as (addrs & Hnd & Hseg & Hst & Hbt & Hu).
  destruct addrs as [|x [|y addrs]]; try done.
  { by destruct Hseg as [_ ?]. }
  destruct Hseg as (Hx & _).
  apply Forall_cons in Hu as [Hua Hu]. apply Forall_cons in Hu as [Hub Hu].
  unfold command.
  erewrite bind_Ok; [|reflexivity]. rewrite Hst. cbn [head].
  rewrite (bind_Ok _ _ _ _ _ (sll_load_next _ _ _ Hx)). cbn [next first_of].
  rewrite (bind_Ok _ _ _ _ _ Hpop).
  rewrite (to_unsigned_to_int_id a Hua).
  destruct Hrep1 as (addrs1 & Hnd1 & Hseg1 & Hst1 & Hbt1 & _).
  destruct addrs1 as [|y1 addrs1]; [done|]. destruct Hseg1 as [Hy1 Hseg1].
  apply NoDup_cons in Hnd1 as [Hnotin1 Hnd1].
  erewrite bind_Ok; [|reflexivity]. cbn [stack mem set_mem].
  rewrite Hst1. cbn [head].
  erewrite bind_Ok; [|by apply sll_load_val]. cbn [val].
  set (h1 := heap m1) in *.
  assert (is_unsigned (Z.abs (b - a))) as Habs.
  { unfold is_unsigned in *. lia. }
  exists (mkMemory (<[y1 := mkStack (Z.abs (b - a)) (first_of addrs1 None)]> h1)
                   (stack m1) (bottom m1)).
  split.
  - destruct (Z.leb_spec a b).
    + erewrite bind_Ok; [|by apply sll_store_val].
      cbn [next mem set_mem stack bottom heap].
      rewrite to_unsigned_id, Z.abs_eq by (unfold is_unsigned in *; lia).
      done.
    + erewrite bind_Ok; [|by apply sll_store_val].
      cbn [next mem set_mem stack bottom heap].
      rewrite to_unsigned_id by (unfold is_unsigned in *; lia).
      rewrite Z.abs_neq by lia. replace (- (b - a)) with (a - b) by lia.
      done.
  - exists (y1 :: addrs1). split_and!; simpl; auto.
    + by apply NoDup_cons.
    + split; [by rewrite lookup_insert_eq|].
      by apply sll_seg_insert_frame.
Qed.

Lemma sll_command_diff_short s flag i l :
  rep (mem s) l → (length l < 2)%nat →
  command "E" flag i s =
    Exit 1 (set_stderr (stderr s ++ [DiffTooFew (bool_decide (l ≠ []))]) s).
Proof.
  intros (addrs & Hnd & Hseg & Hst & Hbt & Hu) Hlen.
  destruct l as [|a [|b l]]; [| |simpl in Hlen; lia].
  - destruct addrs; [|done]. unfold command. unfold_ops. by rewrite Hst.
  - destruct addrs as [|x [|y addrs]]; try done.
    + destruct Hseg as [Hx _]. unfold command. unfold_ops. rewrite Hst.
      simpl. by rewrite Hx.
    + by destruct Hseg as [_ ?].
Qed.

(** *** The code is left alone *)

Lemma sll_code_safe_deref p : code_safe (deref p).
Proof.
  intros s. unfold deref. destruct p; [|done].
  by destruct (heap (mem s) !! _).
Qed.

#[local] Hint Resolve sll_code_safe_deref : keeps.

Lemma sll_code_safe_load_val p : code_safe (load_val p).
Proof. unfold load_val. code_safe. Qed.

Lemma sll_code_safe_load_next p : code_safe (load_next p).
Proof. unfold load_next. code_safe. Qed.

Lemma sll_code_safe_store a n : code_safe (store a n).
Proof. unfold store. code_safe. Qed.

#[local] Hint Resolve sll_code_safe_load_val sll_code_safe_load_next
  sll_code_safe_store : keeps.

Lemma sll_code_safe_store_val p v : code_safe (store_val p v).
Proof. unfold store_val. code_safe. Qed.

Lemma sll_code_safe_store_next p q : code_safe (store_next p q).
Proof. unfold store_next. code_safe. Qed.

Lemma sll_code_safe_get_stack : code_safe get_stack.
Proof. by intros s. Qed.

Lemma sll_code_safe_get_bottom : code_safe get_bottom.
Proof. by intros s. Qed.

Lemma sll_code_safe_set_stack p : code_safe (set_stack p).
Proof. unfold set_stack. code_safe. Qed.

Lemma sll_code_safe_set_bottom p : code_safe (set_bottom p).
Proof. unfold set_bottom. code_safe. Qed.

Lemma sll_code_safe_free p : code_safe (free p).
Proof. unfold free. code_safe. Qed.

#[local] Hint Resolve sll_code_safe_store_val sll_code_safe_store_next
  sll_code_safe_get_stack sll_code_safe_get_bottom
  sll_code_safe_set_stack sll_code_safe_set_bottom
  sll_code_safe_free : keeps.

Lemma sll_code_safe_push_stack v : code_safe (push_stack v).
Proof. unfold push_stack, new_stack_node, malloc. code_safe. Qed.

Lemma sll_code_safe_pop_stack : code_safe pop_stack.
Proof. unfold pop_stack. code_safe. Qed.

#[local] Hint Resolve sll_code_safe_push_stack sll_code_safe_pop_stack
  : keeps.

Lemma sll_code_safe_swap_stack : code_safe swap_stack.
Proof. unfold swap_stack. code_safe. Qed.

Lemma sll_code_safe_dup_stack : code_safe dup_stack.
Proof. unfold dup_stack. code_safe. Qed.

Lemma sll_code_safe_send_top_to_bottom : code_safe send_top_to_bottom.
Proof. unfold send_top_to_bottom. code_safe. Qed.

Lemma sll_code_safe_gather_values fuel : ∀ node vals num_vals num_allocated,
  code_safe (gather_values fuel node vals num_vals num_allocated).
Proof.
  induction fuel as [|fuel IH]; intros [a|] ???; simpl; code_safe.
Qed.

Lemma sll_code_safe_assign_values fuel : ∀ node i vals,
  code_safe (assign_values fuel node i vals).
Proof.
  induction fuel as [|fuel IH]; intros [a|] ??; simpl; code_safe.
Qed.

#[local] Hint Resolve sll_code_safe_swap_stack sll_code_safe_dup_stack
  sll_code_safe_send_top_to_bottom sll_code_safe_gather_values
  sll_code_safe_assign_values : keeps.

Lemma sll_code_safe_randomize_stack : code_safe randomize_stack.
Proof. unfold randomize_stack. code_safe. Qed.

#[local] Hint Resolve sll_code_safe_randomize_stack : keeps.

Lemma sll_code_safe_command c flag i : code_safe (command c flag i).
Proof. unfold command. code_safe. Qed.

#[local] Hint Resolve sll_code_safe_command : keeps.

(** However the slots of a chunk end, the code is as it was. *)
Lemma sll_execute_slots_code fuel : ∀ chunk flag i s,
  ends_in (λ s', code s' = code s) (execute_slots fuel chunk flag i s).
Proof.
  induction fuel as [|fuel IH]; intros chunk flag i s; simpl;
    destruct (i <? COMMANDS_PER_CHUNK); try done.
  erewrite bind_Ok; [|reflexivity].
  pose proof (array_get_ends CommandsArray (commands (code s)) (chunk + i) s)
    as Hget.
  unfold bind at 1.
  destruct (array_get CommandsArray (commands (code s)) (chunk + i) s)
    as [c s0| | |]; try done.
  destruct Hget as (-> & _).
  eapply (ends_in_bind _ _ _ _ (λ s1, code s1 = code s)).
  - apply code_safe_ends, sll_code_safe_command.
  - done.
  - intros [i'|] s1 Hcode; [|done].
    eapply ends_in_weaken; [|apply IH]. simpl. congruence.
Qed.

Lemma sll_execute_chunk_code chunk flag s :
  ends_in (λ s', code s' = code s) (execute_chunk chunk flag s).
Proof. apply sll_execute_slots_code. Qed.

(** While the five commands of the chunk are in [code.commands], the
    loop does not read outside that array. *)
Lemma sll_execute_slots_in_chunk fuel : ∀ chunk flag i s,
  0 <= chunk → 0 <= i →
  chunk + COMMANDS_PER_CHUNK <= Z.of_nat (length (commands (code s))) →
  execute_slots fuel chunk flag i s ≠ Undefined (OutOfBounds CommandsArray).
Proof.
  induction fuel as [|fuel IH]; intros chunk flag i s Hchunk Hi Hlen; simpl;
    destruct (Z.ltb_spec i COMMANDS_PER_CHUNK); try done.
  erewrite bind_Ok; [|reflexivity].
  destruct (lookup_lt_is_Some_2 (commands (code s)) (Z.to_nat (chunk + i)))
    as [c Hc]; [lia|].
  erewrite bind_Ok; [|apply array_get_Ok; [lia|done]].
  pose proof (sll_code_safe_command c flag i s) as Hcmd.
  unfold bind.
  destruct (command c flag i s) as [[i'|] s1| | |]; try done.
  - apply IH; [done| |by rewrite Hcmd].
    apply to_unsigned_is_unsigned.
  - congruence.
Qed.

(** *** The loops of execute_chunk and execute_code *)

Lemma sll_execute_slots_end fuel chunk flag i s :
  COMMANDS_PER_CHUNK <= i → execute_slots fuel chunk flag i s = Ok tt s.
Proof.
  intros Hi. destruct fuel; simpl;
    by destruct (Z.ltb_spec i COMMANDS_PER_CHUNK); try lia.
Qed.

Lemma sll_execute_slots_step fuel chunk flag i s c :
  i < COMMANDS_PER_CHUNK → 0 <= chunk + i →
  commands (code s) !! Z.to_nat (chunk + i) = Some c →
  execute_slots (S fuel) chunk flag i s =
    (r <- command c flag i ;;
     match r with
     | Break i' => execute_slots fuel chunk flag (to_unsigned (i' + 1))
     | Return => ret tt
     end) s.
Proof.
  intros Hi Hpos Hc. simpl.
  destruct (Z.ltb_spec i COMMANDS_PER_CHUNK); [|lia].
  erewrite bind_Ok; [|reflexivity].
  by erewrite bind_Ok; [|by apply array_get_Ok].
Qed.

Lemma sll_mark_visited cur s :
  0 <= cur < Z.of_nat (length (visited (code s))) →
  mark_visited cur s =
    Ok tt (set_code (mkCode (commands (code s))
                            (<[Z.to_nat cur := true]> (visited (code s)))
                            (len (code s))) s).
Proof.
  intros Hcur. unfold mark_visited.
  erewrite bind_Ok; [|reflexivity].
  by erewrite bind_Ok; [|by apply array_set_Ok].
Qed.

Lemma sll_code_safe_next_chunk : code_safe next_chunk.
Proof. unfold next_chunk. code_safe. Qed.

(** A round that returns has set the flag of its chunk, and nothing
    else of the code has changed. *)
Lemma sll_execute_round_Ok cur s next s' :
  execute_round cur s = Ok next s' →
  0 <= cur < Z.of_nat (length (visited (code s))) ∧
  code s' = mkCode (commands (code s))
                   (<[Z.to_nat cur := true]> (visited (code s)))
                   (len (code s)).
Proof.
  unfold execute_round. erewrite bind_Ok; [|reflexivity].
  intros (flag & s0 & (-> & Hpos & Hflag)%array_get_inv & Hrun)%bind_Ok_inv.
  apply bind_Ok_inv in Hrun as ([] & s1 & Hchunk & Hrun).
  pose proof (sll_execute_chunk_code
                (to_unsigned (cur * COMMANDS_PER_CHUNK)) flag s) as Hcode.
  rewrite Hchunk in Hcode. simpl in Hcode.
  assert (0 <= cur < Z.of_nat (length (visited (code s)))) as Hcur.
  { apply lookup_lt_Some in Hflag. lia. }
  split; [done|].
  erewrite bind_Ok in Hrun;
    [|apply sll_mark_visited; by rewrite Hcode].
  match type of Hrun with next_chunk ?s2 = _ =>
    pose proof (sll_code_safe_next_chunk s2) as Hnext
  end.
  rewrite Hrun in Hnext. rewrite Hnext. simpl. by rewrite Hcode.
Qed.

(** However a round ends, no flag has been cleared. *)
Lemma sll_execute_round_visited cur s :
  ends_in (λ s', visited_le (code s) (code s')) (execute_round cur s).
Proof.
  unfold execute_round. erewrite bind_Ok; [|reflexivity].
  pose proof (array_get_ends VisitedArray (visited (code s)) cur s) as Hget.
  unfold bind at 1.
  destruct (array_get VisitedArray (visited (code s)) cur s)
    as [flag s0| | |];
    try done.
  destruct Hget as (-> & Hpos & Hflag).
  assert (0 <= cur < Z.of_nat (length (visited (code s)))) as Hcur.
  { apply lookup_lt_Some in Hflag. lia. }
  eapply (ends_in_bind _ _ _ _ (λ s1, code s1 = code s)).
  - apply sll_execute_chunk_code.
  - intros s1 ->. apply visited_le_refl.
  - intros [] s1 Hcode.
    rewrite (bind_Ok _ _ _ _ _ (sll_mark_visited _ _
               ltac:(by rewrite Hcode))).
    eapply ends_in_weaken;
      [|apply code_safe_ends, sll_code_safe_next_chunk].
    intros s' ->. simpl. eapply visited_le_insert. simpl.
    by rewrite Hcode.
Qed.

Lemma sll_execute_rounds_visited n : ∀ cur s,
  ends_in (λ s', visited_le (code s) (code s')) (execute_rounds n cur s).
Proof.
  induction n as [|n IH]; intros cur s; simpl.
  - apply visited_le_refl.
  - eapply ends_in_bind.
    + apply sll_execute_round_visited.
    + done.
    + intros next s1 Hle. eapply ends_in_weaken; [|apply IH].
      intros s'. simpl. by apply visited_le_trans.
Qed.

(** *** The end of a round, and rotating all the way round *)

Lemma sll_next_chunk s v l :
  rep (mem s) (v :: l) →
  next_chunk s =
    if to_unsigned (len (code s)) / COMMANDS_PER_CHUNK <=? v
    then Exit 1 (set_stderr (stderr s ++ [NoSuchChunk v]) s)
    else Ok v s.
Proof.
  intros (addrs & Hnd & Hseg & Hst & Hbt & Hu).
  destruct addrs as [|a addrs]; [done|]. destruct Hseg as [Ha _].
  unfold next_chunk. erewrite bind_Ok; [|reflexivity]. rewrite Hst.
  cbn [head]. rewrite (bind_Ok _ _ _ _ _ (sll_load_val _ _ _ Ha)).
  erewrite bind_Ok; [|reflexivity]. cbn [val].
  destruct (_ <=? v); [|done].
  by rewrite (bind_Ok _ _ _ _ _ (sll_load_val _ _ _ Ha)).
Qed.

Lemma sll_next_chunk_empty s :
  rep (mem s) [] →
  next_chunk s = Exit 1 (set_stderr (stderr s ++ [EmptyAtChunkEnd]) s).
Proof.
  intros [Hst _]%sll_rep_nil. unfold next_chunk.
  erewrite bind_Ok; [|reflexivity]. by rewrite Hst.
Qed.

Lemma sll_rotate s v l :
  rep (mem s) (v :: l) →
  ∃ m', send_top_to_bottom s = Ok tt (set_mem m' s) ∧ rep m' (l ++ [v]).
Proof.
  intros Hrep. destruct l as [|w l].
  - exists (mem s). rewrite set_mem_same. split; [|done].
    by apply sll_send_top_to_bottom_one with v.
  - by apply sll_send_top_to_bottom.
Qed.

Lemma sll_rotate_many k : ∀ l s,
  rep (mem s) l → (k ≤ length l)%nat →
  ∃ m', repeat_m k send_top_to_bottom s = Ok tt (set_mem m' s) ∧
        rep m' (drop k l ++ take k l).
Proof.
  induction k as [|k IH]; intros l s Hrep Hk.
  - exists (mem s). rewrite set_mem_same, drop_0, app_nil_r. by split.
  - destruct l as [|v l]; [simpl in Hk; lia|]. simpl in Hk.
    destruct (sll_rotate _ _ _ Hrep) as (m1 & Hrun1 & Hrep1).
    destruct (IH (l ++ [v]) (set_mem m1 s)) as (m' & Hrun & Hrep');
      [done|rewrite length_app; simpl; lia|].
    exists m'. split.
    + simpl. by rewrite (bind_Ok _ _ _ _ _ Hrun1).
    + rewrite drop_app_le, take_app_le in Hrep' by lia.
      simpl. by rewrite <- app_assoc in Hrep'.
Qed.

(** A command that only moves the slot index: the loop goes on from the
    slot after the one it names. *)
Lemma sll_slot_passes fuel chunk flag i s c k :
  0 <= chunk → 0 <= i < COMMANDS_PER_CHUNK →
  commands (code s) !! Z.to_nat (chunk + i) = Some c →
  command c flag i s = Ok (Break k) s →
  execute_slots (S fuel) chunk flag i s =
    execute_slots fuel chunk flag (to_unsigned (k + 1)) s.
Proof.
  intros Hchunk Hi Hc Hcmd.
  rewrite (sll_execute_slots_step _ _ _ _ _ c) by (done || lia).
  by rewrite (bind_Ok _ _ _ _ _ Hcmd).
Qed.

(** The round after a chunk that returned: the flag is set and the top
    of the stack decides. *)
Lemma sll_execute_round_after cur s flag s1 v l :
  0 <= cur → visited (code s) !! Z.to_nat cur = Some flag →
  execute_chunk (to_unsigned (cur * COMMANDS_PER_CHUNK)) flag s = Ok tt s1 →
  rep (mem s1) (v :: l) →
  execute_round cur s =
    let s2 := set_code (mkCode (commands (code s1))
                          (<[Z.to_nat cur := true]> (visited (code s1)))
                          (len (code s1))) s1 in
    if to_unsigned (len (code s1)) / COMMANDS_PER_CHUNK <=? v
    then Exit 1 (set_stderr (stderr s2 ++ [NoSuchChunk v]) s2)
    else Ok v s2.
Proof.
  intros Hcur Hflag Hchunk Hrep.
  pose proof (sll_execute_chunk_code
                (to_unsigned (cur * COMMANDS_PER_CHUNK)) flag s) as Hcode.
  rewrite Hchunk in Hcode. simpl in Hcode.
  unfold execute_round. erewrite bind_Ok; [|reflexivity].
  erewrite bind_Ok; [|by apply array_get_Ok].
  rewrite (bind_Ok _ _ _ _ _ Hchunk).
  erewrite bind_Ok.
  2: { apply sll_mark_visited. rewrite Hcode.
       apply lookup_lt_Some in Hflag. lia. }
  by erewrite sll_next_chunk.
Qed.

(** *** The stack stays a stack *)

Lemma sll_stack_safe_push_stack v : stack_safe rep (λ _, True) (push_stack v).
Proof.
  intros s l Hrep.
  destruct (sll_push_stack s l v Hrep) as (m' & -> & Hrep'). eauto.
Qed.

Lemma sll_stack_safe_pop_stack : stack_safe rep (λ _, True) pop_stack.
Proof.
  intros s [|v l] Hrep.
  - by rewrite sll_pop_stack_empty.
  - destruct (sll_pop_stack s v l Hrep) as (m' & -> & Hrep'). eauto.
Qed.

Lemma sll_stack_safe_swap_stack : stack_safe rep (λ _, True) swap_stack.
Proof.
  intros s l Hrep. destruct l as [|a [|b l]].
  - by erewrite sll_swap_stack_short; [|done|simpl; lia].
  - by erewrite sll_swap_stack_short; [|done|simpl; lia].
  - destruct (sll_swap_stack s a b l Hrep) as (m' & -> & Hrep'). eauto.
Qed.

Lemma sll_stack_safe_dup_stack : stack_safe rep (λ _, True) dup_stack.
Proof.
  intros s [|v l] Hrep.
  - by rewrite sll_dup_stack_empty.
  - destruct (sll_dup_stack s v l Hrep) as (m' & -> & Hrep'). eauto.
Qed.

Lemma sll_stack_safe_send_top_to_bottom :
  stack_safe rep (λ _, True) send_top_to_bottom.
Proof.
  intros s [|v l] Hrep.
  - by rewrite sll_send_top_to_bottom_empty.
  - destruct (sll_rotate s v l Hrep) as (m' & -> & Hrep'). eauto.
Qed.

(** Past 2^31 values the count of cells allocated wraps to zero, and the
    next value is written outside the array. *)
Lemma sll_gather_values_overflow s : ∀ addrs l fuel buf k cap j,
  seg (heap (mem s)) addrs l None →
  (length addrs ≤ fuel)%nat →
  Z.of_nat (length buf) = cap → 0 <= k <= cap →
  cap = 2 ^ j → 0 <= j <= 31 →
  2 ^ 31 < k + Z.of_nat (length l) →
  gather_values fuel (first_of addrs None) buf k cap s =
    Undefined (OutOfBounds ValuesArray).
Proof.
  induction addrs as [|a addrs IH];
    intros [|v l] fuel buf k cap j Hseg Hfuel Hlen Hk Hcap Hj Hmax;
    try done.
  - assert (2 ^ j <= 2 ^ 31) by (apply Z.pow_le_mono_r; lia).
    simpl in Hmax. lia.
  - destruct Hseg as [Ha Hseg]. destruct fuel as [|fuel]; [simpl in *; lia|].
    simpl in Hmax, Hfuel.
    cbn [gather_values first_of].
    rewrite (bind_Ok _ _ _ _ _ (sll_load_val _ _ _ Ha)).
    destruct (Z.eqb_spec k cap) as [->|Hne].
    + destruct (decide (j = 31)) as [->|Hj'].
      * assert (to_unsigned (Z.shiftl cap 1) = 0) as -> by by rewrite Hcap.
        cbn [fst snd]. unfold bind.
        rewrite array_set_outside; [done|].
        rewrite length_resize. lia.
      * assert (2 ^ (j + 1) <= 2 ^ 31) by (apply Z.pow_le_mono_r; lia).
        assert (0 < 2 ^ j) by (apply Z.pow_pos_nonneg; lia).
        assert (2 ^ (j + 1) = 2 * 2 ^ j) as Hdouble.
        { rewrite Z.pow_add_r by lia. lia. }
        assert (to_unsigned (Z.shiftl cap 1) = 2 ^ (j + 1)) as ->.
        { rewrite Z.shiftl_mul_pow2 by lia.
          rewrite to_unsigned_id; [lia|].
          unfold is_unsigned, UINT_MODULUS. lia. }
        cbn [fst snd].
        erewrite bind_Ok; [|apply array_set_Ok; rewrite length_resize; lia].
        rewrite (bind_Ok _ _ _ _ _ (sll_load_next _ _ _ Ha)).
        cbn [val next].
        assert (to_unsigned (cap + 1) = cap + 1) as ->.
        { apply to_unsigned_id. unfold is_unsigned, UINT_MODULUS. lia. }
        apply (IH l fuel _ _ _ (j + 1)); auto; try lia.
        rewrite length_insert, length_resize. lia.
    + cbn [fst snd].
      erewrite bind_Ok; [|apply array_set_Ok; lia].
      rewrite (bind_Ok _ _ _ _ _ (sll_load_next _ _ _ Ha)).
      cbn [val next].
      assert (2 ^ j <= 2 ^ 31) by (apply Z.pow_le_mono_r; lia).
      assert (to_unsigned (k + 1) = k + 1) as ->.
      { apply to_unsigned_id. unfold is_unsigned, UINT_MODULUS. lia. }
      apply (IH l fuel _ _ _ j); auto; try lia.
      rewrite length_insert. lia.
Qed.

(** On a stack of more than 2^31 values [randomize_stack] runs off its
    array of values. *)
Lemma sll_randomize_stack_overflow s l :
  rep (mem s) l → 2 ^ 31 < Z.of_nat (length l) →
  randomize_stack s = Undefined (OutOfBounds ValuesArray).
Proof.
  intros (addrs & Hnd & Hseg & Hst & Hbt & Hu) Hmax.
  pose proof (sll_seg_size _ _ _ _ Hnd Hseg) as Hsize.
  assert (stack (mem s) = first_of addrs None) as Hfirst.
  { rewrite Hst. by destruct addrs. }
  unfold randomize_stack.
  erewrite bind_Ok; [|reflexivity].
  erewrite bind_Ok; [|reflexivity].
  rewrite Hfirst.
  unfold bind.
  by rewrite (sll_gather_values_overflow s addrs l (node_fuel s) [0] 0 1 0);
    try done; unfold node_fuel; simpl; lia.
Qed.

Lemma sll_stack_safe_randomize_stack :
  stack_safe rep (λ _, True) randomize_stack.
Proof.
  intros s l Hrep.
  destruct (decide (l = [])) as [->|Hne].
  - by rewrite sll_randomize_stack_empty.
  - destruct (Z.le_gt_cases (Z.of_nat (length l)) (2 ^ 31)) as [Hle|Hgt].
    + destruct (sll_randomize_stack s l Hrep Hne Hle)
        as (m' & calls & l' & -> & Hrep' & _). eauto.
    + by erewrite sll_randomize_stack_overflow.
Qed.

Lemma sll_command_increment s flag i v l :
  rep (mem s) (v :: l) →
  ∃ m', command "5" flag i s = Ok (Break i) (set_mem m' s) ∧
        rep m' (to_unsigned (v + 1) :: l).
Proof.
  intros (addrs & Hnd & Hseg & Hst & Hbt & Hu).
  destruct s as [[h st bt] cd inp o e rs rc]. simpl in *.
  destruct addrs as [|a addrs]; [done|]. destruct Hseg as [Ha Hseg].
  simpl in Hst. subst st. apply Forall_cons in Hu as [Hv Hu].
  unfold command. unfold_ops. heap_simpl.
  eexists; split; [reflexivity|]. exists (a :: addrs).
  split_and!; simpl; auto.
  - split; [by rewrite lookup_insert_eq|].
    apply NoDup_cons in Hnd as [? _]. by apply sll_seg_insert_frame.
  - constructor; [apply to_unsigned_is_unsigned | done].
Qed.

Lemma sll_command_increment_empty s flag i :
  rep (mem s) [] →
  command "5" flag i s =
    Exit 1 (set_stderr (stderr s ++ [IncrementEmpty]) s).
Proof.
  intros [Hst _]%sll_rep_nil. unfold command. unfold_ops. by rewrite Hst.
Qed.

Lemma sll_command_add s flag i a b l :
  rep (mem s) (a :: b :: l) →
  ∃ m', command "7" flag i s = Ok (Break i) (set_mem m' s) ∧
        rep m' (to_unsigned (b + a) :: l).
Proof.
  intros (addrs & Hnd & Hseg & Hst & Hbt & Hu).
  destruct s as [[h st bt] cd inp o e rs rc]. simpl in *.
  destruct addrs as [|x [|y addrs]]; try done.
  { by destruct Hseg as [_ ?]. }
  destruct Hseg as (Hx & Hy & Hseg). simpl in Hst, Hx. subst st.
  apply NoDup_cons in Hnd as [Hx' Hnd]. apply NoDup_cons in Hnd as [Hy' Hnd].
  apply not_elem_of_cons in Hx' as [Hxy Hx'].
  apply Forall_cons in Hu as [Hua Hu]. apply Forall_cons in Hu as [Hub Hu].
  unfold command. unfold_ops. heap_simpl.
  eexists; split; [reflexivity|].
  exists (y :: addrs). split_and!; simpl; auto.
  - by apply NoDup_cons.
  - split.
    + rewrite lookup_delete_ne by done. by rewrite lookup_insert_eq.
    + apply sll_seg_delete_frame; [done|]. by apply sll_seg_insert_frame.
  - constructor; [apply to_unsigned_is_unsigned | done].
Qed.

Lemma sll_command_add_short s flag i l :
  rep (mem s) l → (length l < 2)%nat →
  command "7" flag i s =
    Exit 1 (set_stderr (stderr s ++ [AddTooFew (bool_decide (l ≠ []))]) s).
Proof.
  intros (addrs & Hnd & Hseg & Hst & Hbt & Hu) Hlen.
  destruct l as [|a [|b l]]; [| |simpl in Hlen; lia].
  - destruct addrs; [|done]. unfold command. unfold_ops. by rewrite Hst.
  - destruct addrs as [|x [|y addrs]]; try done.
    + destruct Hseg as [Hx _]. unfold command. unfold_ops. rewrite Hst.
      simpl. by rewrite Hx.
    + by destruct Hseg as [_ ?].
Qed.

Lemma sll_stack_safe_get_stack : stack_safe rep (λ _, True) get_stack.
Proof. by apply stack_safe_reads. Qed.

Lemma sll_stack_safe_load_val p : stack_safe rep (λ _, True) (load_val p).
Proof.
  apply stack_safe_reads. intros s. unfold load_val, deref. unfold_monad.
  destruct p; [|done]. by destruct (heap (mem s) !! _).
Qed.

#[local] Hint Resolve sll_stack_safe_push_stack sll_stack_safe_pop_stack
  sll_stack_safe_swap_stack sll_stack_safe_dup_stack
  sll_stack_safe_send_top_to_bottom sll_stack_safe_randomize_stack
  sll_stack_safe_get_stack sll_stack_safe_load_val : stack.

Lemma sll_stack_safe_increment flag i :
  stack_safe rep (steps_from i) (command "5" flag i).
Proof.
  intros s [|v l] Hrep.
  - by rewrite sll_command_increment_empty.
  - destruct (sll_command_increment s flag i v l Hrep) as (m' & -> & Hrep').
    split; [by left|eauto].
Qed.

Lemma sll_stack_safe_decrement flag i :
  stack_safe rep (steps_from i) (command "6" flag i).
Proof.
  intros s [|v l] Hrep.
  - by rewrite sll_command_decrement_empty.
  - destruct (sll_command_decrement s flag i v l Hrep) as (m' & -> & Hrep').
    split; [by left|eauto].
Qed.

Lemma sll_stack_safe_add flag i :
  stack_safe rep (steps_from i) (command "7" flag i).
Proof.
  intros s l Hrep. destruct l as [|a [|b l]].
  - by erewrite sll_command_add_short; [|done|simpl; lia].
  - by erewrite sll_command_add_short; [|done|simpl; lia].
  - destruct (sll_command_add s flag i a b l Hrep) as (m' & -> & Hrep').
    split; [by left|eauto].
Qed.

Lemma sll_stack_safe_diff flag i :
  stack_safe rep (steps_from i) (command "E" flag i).
Proof.
  intros s l Hrep. destruct l as [|a [|b l]].
  - by erewrite sll_command_diff_short; [|done|simpl; lia].
  - by erewrite sll_command_diff_short; [|done|simpl; lia].
  - destruct (sll_command_diff s flag i a b l Hrep) as (m' & -> & Hrep').
    split; [by left|eauto].
Qed.

(** Every command keeps the stack a stack, and leaves the loop at its
    slot or one further. *)
Lemma sll_stack_safe_command c flag i :
  stack_safe rep (steps_from i) (command c flag i).
Proof.
  destruct (ascii_dec c "5") as [->|H5]; [apply sll_stack_safe_increment|].
  destruct (ascii_dec c "6") as [->|H6]; [apply sll_stack_safe_decrement|].
  destruct (ascii_dec c "7") as [->|H7]; [apply sll_stack_safe_add|].
  destruct (ascii_dec c "E") as [->|HE]; [apply sll_stack_safe_diff|].
  unfold command.
  destruct flag, c as [[] [] [] [] [] [] [] []]; try done; stack_safe.
Qed.

(** The loop of [execute_chunk] ends within as many rounds as slots are
    left. *)
Lemma sll_stack_safe_execute_slots fuel : ∀ chunk flag i,
  0 <= i → (Z.to_nat (COMMANDS_PER_CHUNK - i) ≤ fuel)%nat →
  stack_safe rep (λ _, True) (execute_slots fuel chunk flag i).
Proof.
  induction fuel as [|fuel IH]; intros chunk flag i Hi Hfuel; simpl;
    destruct (Z.ltb_spec i COMMANDS_PER_CHUNK);
    try (by apply stack_safe_ret).
  - unfold COMMANDS_PER_CHUNK in *. lia.
  - apply stack_safe_bind; [auto with stack|]. intros cd.
    apply stack_safe_bind; [auto with stack|]. intros c.
    apply (stack_safe_bind_with _ (steps_from i));
      [apply sll_stack_safe_command|].
    intros [k|] Hk; [|by apply stack_safe_ret].
    assert (to_unsigned (i + 1) = i + 1) as Hnext.
    { apply to_unsigned_id.
      unfold is_unsigned, UINT_MODULUS, COMMANDS_PER_CHUNK in *. lia. }
    simpl in Hk. rewrite Hnext in Hk.
    assert (to_unsigned (k + 1) = k + 1) as ->.
    { apply to_unsigned_id.
      unfold is_unsigned, UINT_MODULUS, COMMANDS_PER_CHUNK in *. lia. }
    apply IH; unfold COMMANDS_PER_CHUNK in *; lia.
Qed.

Lemma sll_stack_safe_execute_chunk chunk flag :
  stack_safe rep (λ _, True) (execute_chunk chunk flag).
Proof. by apply sll_stack_safe_execute_slots. Qed.

Lemma sll_stack_safe_mark_visited cur :
  stack_safe rep (λ _, True) (mark_visited cur).
Proof. unfold mark_visited. stack_safe. Qed.

Lemma sll_stack_safe_next_chunk : stack_safe rep (λ _, True) next_chunk.
Proof. unfold next_chunk. stack_safe. Qed.

#[local] Hint Resolve sll_stack_safe_execute_chunk
  sll_stack_safe_mark_visited sll_stack_safe_next_chunk : stack.

Lemma sll_stack_safe_execute_round cur :
  stack_safe rep (λ _, True) (execute_round cur).
Proof. unfold execute_round. stack_safe. Qed.

Lemma sll_stack_safe_execute_rounds n : ∀ cur,
  stack_safe rep (λ _, True) (execute_rounds n cur).
Proof.
  induction n as [|n IH]; intros cur; simpl; [by apply stack_safe_ret|].
  apply stack_safe_bind; [apply sll_stack_safe_execute_round | done].
Qed.

(** [execute_code] starts its loop on the stack that holds a zero. *)
Lemma sll_execute_code_init s :
  ∃ m', execute_code_init s = Ok tt (set_mem m' s) ∧ rep m' [0].
Proof.
  destruct s as [[h st bt] cd inp o e rs rc].
  unfold execute_code_init. unfold_ops. heap_simpl.
  eexists; split; [reflexivity|]. exists [malloc_addr h].
  split_and!; simpl; heap_simpl; auto.
  - apply NoDup_singleton.
  - repeat constructor; unfold UINT_MODULUS; lia.
Qed.

End Rev2Facts.

(** ** The doubly linked stack *)

Module Rev1Facts.
Import Rev1.

Arguments seg : simpl nomatch.

Ltac unfold_ops :=
  unfold push_stack, pop_stack, swap_stack, dup_stack, send_top_to_bottom,
    new_stack_node, malloc, store_next, store_prev, store_val, load_val,
    load_next, load_prev, store, deref, set_top, set_bottom, set_stack_size,
    get_top, get_bottom, get_stack_size, int_add;
  unfold_monad.

Lemma dll_seg_length h pv addrs vals tl :
  seg h pv addrs vals tl → length addrs = length vals.
Proof.
  revert pv vals.
  induction addrs as [|a addrs IH]; intros pv [|v vals]; try done.
  intros [_ H]. simpl. f_equal. eauto.
Qed.

Lemma dll_seg_allocated h pv addrs vals tl a :
  seg h pv addrs vals tl → a ∈ addrs → is_Some (h !! a).
Proof.
  revert pv vals.
  induction addrs as [|b addrs IH]; intros pv [|v vals]; try done.
  - intros _ H. inversion H.
  - intros [Hb Hs] Hin. apply elem_of_cons in Hin as [->|Hin]; eauto.
Qed.

Lemma dll_seg_fresh h pv addrs vals tl :
  seg h pv addrs vals tl → malloc_addr h ∉ addrs.
Proof.
  intros Hseg Hin.
  destruct (dll_seg_allocated _ _ _ _ _ _ Hseg Hin) as [n Hn].
  by rewrite malloc_addr_fresh in Hn.
Qed.

Lemma dll_seg_insert_frame h pv addrs vals tl a n :
  a ∉ addrs → seg h pv addrs vals tl → seg (<[a := n]> h) pv addrs vals tl.
Proof.
  revert pv vals.
  induction addrs as [|b addrs IH]; intros pv [|v vals]; try done.
  intros Hnotin [Hb Hs]. apply not_elem_of_cons in Hnotin as [Hne Hnotin].
  split; [by rewrite lookup_insert_ne | eauto].
Qed.

Lemma dll_seg_app_split h pv xs ys vs ws tl :
  length xs = length vs →
  seg h pv (xs ++ ys) (vs ++ ws) tl →
  seg h pv xs vs (first_of ys tl) ∧ seg h (last_of xs pv) ys ws tl.
Proof.
  revert pv vs. induction xs as [|a xs IH]; intros pv [|v vs] Hlen;
    try done.
  intros [Ha Hseg]. simpl in Hlen.
  destruct (IH (Some a) vs) as [H1 H2]; [lia|done|].
  split; [split|].
  - rewrite Ha. by destruct xs.
  - done.
  - by rewrite last_of_cons.
Qed.

Lemma dll_seg_app_join h pv xs ys vs ws tl :
  seg h pv xs vs (first_of ys tl) → seg h (last_of xs pv) ys ws tl →
  seg h pv (xs ++ ys) (vs ++ ws) tl.
Proof.
  revert pv vs. induction xs as [|a xs IH]; intros pv [|v vs]; try done.
  intros [Ha Hs] Hy. split.
  - rewrite Ha. by destruct xs.
  - apply IH; [done|]. by rewrite last_of_cons in Hy.
Qed.

(** Relinking the first node of a segment backwards. *)
Lemma dll_seg_set_head h pv pv' b addrs vals tl n :
  seg h pv (b :: addrs) vals tl → b ∉ addrs → h !! b = Some n →
  seg (<[b := mkStack (val n) (next n) pv']> h) pv' (b :: addrs) vals tl.
Proof.
  destruct vals as [|v vals]; [done|]. intros [Hb Hseg] Hnotin Hn.
  rewrite Hb in Hn. injection Hn as <-. split.
  - by rewrite lookup_insert_eq.
  - by apply dll_seg_insert_frame.
Qed.

(** Relinking the last node of a segment forwards. *)
Lemma dll_seg_set_tail h pv addrs z vals tl tl' n :
  NoDup (addrs ++ [z]) →
  seg h pv (addrs ++ [z]) vals tl → h !! z = Some n →
  seg (<[z := mkStack (val n) tl' (prev n)]> h) pv (addrs ++ [z]) vals tl'.
Proof.
  revert pv vals. induction addrs as [|a addrs IH]; intros pv vals Hnd Hseg Hn.
  - destruct vals as [|v [|??]]; try done.
    + destruct Hseg as [Hz _]. rewrite Hz in Hn. injection Hn as <-.
      split; [|done]. by rewrite lookup_insert_eq.
    + by destruct Hseg as [_ ?].
  - destruct vals as [|v vals]; [done|].
    simpl in Hnd. apply NoDup_cons in Hnd as [Hnotin Hnd].
    destruct Hseg as [Ha Hseg]. split.
    + rewrite lookup_insert_ne.
      * rewrite Ha. by destruct addrs.
      * intros ->. apply Hnotin, elem_of_app. right. by left.
    + by apply IH.
Qed.

(** Writing the value of the first node of a segment. *)
Lemma dll_seg_set_val h pv a addrs v v' vals tl n :
  seg h pv (a :: addrs) (v :: vals) tl → a ∉ addrs → h !! a = Some n →
  seg (<[a := mkStack v' (next n) (prev n)]> h) pv (a :: addrs) (v' :: vals) tl.
Proof.
  intros [Ha Hseg] Hnotin Hn. rewrite Ha in Hn. injection Hn as <-. split.
  - by rewrite lookup_insert_eq.
  - by apply dll_seg_insert_frame.
Qed.

Lemma dll_load_val s a n :
  heap (mem s) !! a = Some n → load_val (Some a) s = Ok (val n) s.
Proof. intros Ha. unfold load_val, deref. unfold_monad. by rewrite Ha. Qed.

Lemma dll_load_next s a n :
  heap (mem s) !! a = Some n → load_next (Some a) s = Ok (next n) s.
Proof. intros Ha. unfold load_next, deref. unfold_monad. by rewrite Ha. Qed.

Lemma dll_load_prev s a n :
  heap (mem s) !! a = Some n → load_prev (Some a) s = Ok (prev n) s.
Proof. intros Ha. unfold load_prev, deref. unfold_monad. by rewrite Ha. Qed.

Lemma dll_store_val s a n v :
  heap (mem s) !! a = Some n →
  store_val (Some a) v s =
    Ok tt (with_heap (<[a := mkStack (to_unsigned v) (next n) (prev n)]>
                        (heap (mem s))) s).
Proof.
  intros Ha. unfold store_val, store, deref. unfold_monad. by rewrite Ha.
Qed.

Lemma dll_store_next s a n q :
  heap (mem s) !! a = Some n →
  store_next (Some a) q s =
    Ok tt (with_heap (<[a := mkStack (val n) q (prev n)]> (heap (mem s))) s).
Proof.
  intros Ha. unfold store_next, store, deref. unfold_monad. by rewrite Ha.
Qed.

Lemma dll_store_prev s a n q :
  heap (mem s) !! a = Some n →
  store_prev (Some a) q s =
    Ok tt (with_heap (<[a := mkStack (val n) (next n) q]> (heap (mem s))) s).
Proof.
  intros Ha. unfold store_prev, store, deref. unfold_monad. by rewrite Ha.
Qed.

(** What [rep] says of a stack that is not empty, seen from its top
    node. *)
Lemma dll_rep_cons m v l :
  rep m (v :: l) ↔
  ∃ spare svals a addrs,
    NoDup (spare ++ a :: addrs) ∧ length spare = length svals ∧
    seg (heap m) None spare svals (Some a) ∧
    heap m !! a =
      Some (mkStack v (first_of addrs None) (last_of spare None)) ∧
    seg (heap m) (Some a) addrs l None ∧
    top m = Some a ∧ bottom m = last (a :: addrs) ∧
    stack_size m = Z.of_nat (S (length l)) ∧ stack_size m <= INT_MAX ∧
    is_unsigned v ∧ Forall is_unsigned l.
Proof.
  split.
  - intros (Hsize & Hmax & Hu & spare & svals & addrs & Hnd & Hseg & Hlen
            & Htop & Hbot).
    apply Forall_cons in Hu as [Hv Hu].
    apply dll_seg_app_split in Hseg as [Hs1 Hs2]; [|done].
    destruct addrs as [|a addrs]; [done|]. destruct Hs2 as [Ha Hs2].
    by exists spare, svals, a, addrs.
  - intros (spare & svals & a & addrs & Hnd & Hlen & Hs1 & Ha & Hs2 & Htop
            & Hbot & Hsize & Hmax & Hv & Hu).
    split_and!; auto. exists spare, svals, (a :: addrs).
    split_and!; auto. by apply dll_seg_app_join.
Qed.

Lemma dll_rep_nil m :
  rep m [] ↔ stack_size m = 0 ∧ top m = None.
Proof.
  unfold rep, INT_MAX. simpl. split.
  - by intros (? & ? & ? & ?).
  - intros [-> ->]. split_and!; auto. lia.
Qed.

(** Runs the reads and writes that stand first in the goal. *)
Ltac step :=
  first
    [ erewrite bind_Ok; [|reflexivity]
    | erewrite bind_Ok; [|eapply dll_load_val; simpl; eassumption]
    | erewrite bind_Ok; [|eapply dll_load_next; simpl; eassumption]
    | erewrite bind_Ok; [|eapply dll_load_prev; simpl; eassumption]
    | erewrite bind_Ok; [|eapply dll_store_val; simpl; eassumption]
    | erewrite bind_Ok; [|eapply dll_store_next; simpl; eassumption]
    | erewrite bind_Ok; [|eapply dll_store_prev; simpl; eassumption]
    | erewrite bind_Ok;
        [|apply int_add_Ok; unfold INT_MIN, INT_MAX in *; simpl; lia] ];
  cbn [val next prev].

Lemma dll_pop_stack s v l :
  rep (mem s) (v :: l) →
  ∃ m', pop_stack s = Ok (to_int v) (set_mem m' s) ∧ rep m' l.
Proof.
  intros (spare & svals & a & addrs & Hnd & Hlen & Hs1 & Ha & Hs2 & Htop
          & Hbot & Hsize & Hmax & Hv & Hu)%dll_rep_cons.
  exists (mkMemory (heap (mem s)) (first_of addrs None) (bottom (mem s))
                   (Z.of_nat (length l))).
  split.
  - unfold pop_stack. step. rewrite Hsize.
    destruct (Z.eqb_spec (Z.of_nat (S (length l))) 0) as [|_]; [lia|].
    step. rewrite Htop. repeat step.
    cbn [mem set_mem stack_size]. rewrite Hsize. repeat step.
    unfold ret, set_mem. simpl. do 3 f_equal. lia.
  - destruct l as [|w l].
    + apply dll_rep_nil. split; [done|]. simpl. by destruct addrs.
    + destruct addrs as [|a' addrs]; [done|]. destruct Hs2 as [Ha' Hs2].
      apply Forall_cons in Hu as [Hw Hu].
      apply dll_rep_cons. exists (spare ++ [a]), (svals ++ [v]), a', addrs.
      rewrite <- !app_assoc. simpl.
      split_and!; auto.
      * rewrite !length_app. simpl. lia.
      * apply dll_seg_app_join; [done|]. by split.
      * by rewrite last_of_snoc.
      * simpl length in *. lia.
Qed.

Lemma dll_pop_stack_empty s :
  rep (mem s) [] →
  pop_stack s = Exit 1 (set_stderr (stderr s ++ [PopEmpty]) s).
Proof.
  intros [Hsize _]%dll_rep_nil. unfold pop_stack. step. by rewrite Hsize.
Qed.

(** Reading and writing the value on top of a stack that is not
    empty. *)
Lemma dll_top_val s v l x :
  rep (mem s) (v :: l) →
  ∃ a, top (mem s) = Some a ∧ load_val (Some a) s = Ok v s ∧
    ∃ m', store_val (Some a) x s = Ok tt (set_mem m' s) ∧
          rep m' (to_unsigned x :: l).
Proof.
  intros (spare & svals & a & addrs & Hnd & Hlen & Hs1 & Ha & Hs2 & Htop
          & Hbot & Hsize & Hmax & Hv & Hu)%dll_rep_cons.
  exists a. split; [done|]. split; [by rewrite (dll_load_val _ _ _ Ha)|].
  eexists. split; [by apply dll_store_val|].
  apply NoDup_app in Hnd as (Hnd1 & Hdisj & Hnd2).
  apply NoDup_cons in Hnd2 as [Hnotin Hnd2].
  apply dll_rep_cons. exists spare, svals, a, addrs. simpl.
  split_and!; auto.
  - apply NoDup_app. split_and!; auto. by apply NoDup_cons.
  - apply dll_seg_insert_frame; [|done]. intros Hin.
    apply (Hdisj _ Hin). by left.
  - by rewrite lookup_insert_eq.
  - by apply dll_seg_insert_frame.
  - apply to_unsigned_is_unsigned.
Qed.

Lemma dll_command_decrement s flag i v l :
  rep (mem s) (v :: l) →
  ∃ m', command "6" flag i s = Ok (Break i) (set_mem m' s) ∧
        rep m' (Z.max 0 (v - 1) :: l).
Proof.
  intros Hrep.
  destruct (dll_top_val s v l (v - 1) Hrep)
    as (a & Htop & Hload & m' & Hstore & Hrep').
  pose proof Hrep as (Hsize & _ & [Hv _]%Forall_cons & _).
  unfold command. step. rewrite Hsize.
  destruct (Z.eqb_spec (Z.of_nat (length (v :: l))) 0) as [|_]; [done|].
  step. rewrite Htop, (bind_Ok _ _ _ _ _ Hload).
  destruct (Z.ltb_spec 0 v) as [Hpos|Hzero].
  - exists m'. rewrite (bind_Ok _ _ _ _ _ Hstore). split; [done|].
    rewrite to_unsigned_id in Hrep' by (unfold is_unsigned in *; lia).
    by rewrite Z.max_r by lia.
  - exists (mem s). rewrite set_mem_same. split; [done|].
    assert (v = 0) as -> by (unfold is_unsigned in *; lia). done.
Qed.

Lemma dll_command_decrement_empty s flag i :
  rep (mem s) [] →
  command "6" flag i s =
    Exit 1 (set_stderr (stderr s ++ [DecrementEmpty]) s).
Proof.
  intros [Hsize _]%dll_rep_nil. unfold command. step. by rewrite Hsize.
Qed.

Lemma dll_command_diff s flag i a b l :
  rep (mem s) (a :: b :: l) →
  ∃ m', command "E" flag i s = Ok (Break i) (set_mem m' s) ∧
        rep m' (Z.abs (b - a) :: l).
Proof.
  intros Hrep.
  destruct (dll_pop_stack _ _ _ Hrep) as (m1 & Hpop & Hrep1).
  pose proof Hrep
    as (Hsize & _ & [Hua [Hub _]%Forall_cons]%Forall_cons & _).
  set (x := if a <=? b then b - a else a - b).
  destruct (dll_top_val (set_mem m1 s) b l x Hrep1)
    as (y & Htop & Hload & m' & Hstore & Hrep').
  assert (x = Z.abs (b - a)) as Hx.
  { unfold x. destruct (Z.leb_spec a b); lia. }
  rewrite to_unsigned_id in Hrep' by (unfold is_unsigned in *; lia).
  exists m'. split; [|by rewrite <- Hx].
  unfold command. step. rewrite Hsize.
  destruct (Z.ltb_spec (Z.of_nat (length (a :: b :: l))) 2) as [Hl|_];
    [simpl in Hl; lia|].
  rewrite (bind_Ok _ _ _ _ _ Hpop), (to_unsigned_to_int_id a Hua).
  step. rewrite Htop, (bind_Ok _ _ _ _ _ Hload).
  unfold x in Hstore. destruct (a <=? b);
    by rewrite (bind_Ok _ _ _ _ _ Hstore).
Qed.

Lemma dll_command_diff_short s flag i l :
  rep (mem s) l → (length l < 2)%nat →
  command "E" flag i s =
    Exit 1 (set_stderr (stderr s ++ [DiffTooFew (bool_decide (l ≠ []))]) s).
Proof.
  intros (Hsize & _) Hlen. unfold command. step. rewrite Hsize.
  destruct l as [|a [|b l]]; [done|done|simpl in Hlen; lia].
Qed.

(** *** send_top_to_bottom *)

Lemma dll_seg_frame h h' pv addrs vals tl :
  (∀ c, c ∈ addrs → h' !! c = h !! c) →
  seg h pv addrs vals tl → seg h' pv addrs vals tl.
Proof.
  revert pv vals.
  induction addrs as [|b addrs IH]; intros pv [|v vals] Hsame; try done.
  intros [Hb Hs]. split.
  - rewrite Hsame; [done|by left].
  - apply IH; [|done]. intros c Hc. apply Hsame. by right.
Qed.

Lemma dll_relink_head s pv pv' b addrs vals tl :
  seg (heap (mem s)) pv (b :: addrs) vals tl → b ∉ addrs →
  ∃ h', store_prev (Some b) pv' s = Ok tt (with_heap h' s) ∧
        seg h' pv' (b :: addrs) vals tl ∧
        ∀ c, c ≠ b → h' !! c = heap (mem s) !! c.
Proof.
  intros Hseg Hnotin.
  destruct (dll_seg_allocated _ _ _ _ _ b Hseg) as [n Hn]; [by left|].
  eexists. split_and!.
  - by apply dll_store_prev.
  - by eapply dll_seg_set_head.
  - intros c Hc. by rewrite lookup_insert_ne.
Qed.

Lemma dll_relink_tail s pv addrs z vals tl tl' :
  NoDup (addrs ++ [z]) → seg (heap (mem s)) pv (addrs ++ [z]) vals tl →
  ∃ h', store_next (Some z) tl' s = Ok tt (with_heap h' s) ∧
        seg h' pv (addrs ++ [z]) vals tl' ∧
        ∀ c, c ≠ z → h' !! c = heap (mem s) !! c.
Proof.
  intros Hnd Hseg.
  destruct (dll_seg_allocated _ _ _ _ _ z Hseg) as [n Hn].
  { apply elem_of_app. right. by left. }
  eexists. split_and!.
  - by apply dll_store_next.
  - by eapply dll_seg_set_tail.
  - intros c Hc. by rewrite lookup_insert_ne.
Qed.

Lemma dll_send_top_to_bottom s v l :
  rep (mem s) (v :: l) → l ≠ [] →
  ∃ m', send_top_to_bottom s = Ok tt (set_mem m' s) ∧ rep m' (l ++ [v]).
Proof.
  intros (spare & svals & a & addrs & Hnd & Hlen & Hs1 & Ha & Hs2 & Htop
          & Hbot & Hsize & Hmax & Hv & Hu)%dll_rep_cons Hl.
  pose proof (dll_seg_length _ _ _ _ _ Hs2) as Hlen2.
  destruct addrs as [|b rest]; [by destruct l|].
  apply NoDup_app in Hnd as (Hnd1 & Hdisj & Hnd2).
  apply NoDup_cons in Hnd2 as [Ha_rest Hnd2].
  assert (a ∉ spare) as Ha_spare.
  { intros Hin. apply (Hdisj _ Hin). by left. }
  assert (∀ c, c ∈ spare → c ∉ b :: rest) as Hdisj'.
  { intros c Hc Hin. apply (Hdisj _ Hc). by right. }
  destruct (snoc_decompose (b :: rest)) as (xs & z & Hxs); [done|].
  assert (z ∈ b :: rest) as Hz_in.
  { rewrite Hxs. apply elem_of_app. right. by left. }
  assert (a ≠ z) as Haz by (by intros ->).
  assert (a ≠ b) as Hab.
  { intros ->. apply Ha_rest. by left. }
  assert (bottom (mem s) = Some z) as Hbot'.
  { rewrite Hbot. change (a :: b :: rest) with ([a] ++ b :: rest).
    rewrite Hxs, app_assoc. apply last_snoc. }
  (* top->prev = temp->prev *)
  set (s0 := set_mem (mkMemory (heap (mem s)) (Some b) (bottom (mem s))
                               (stack_size (mem s))) s).
  destruct (dll_relink_head s0 (Some a) (last_of spare None) b rest l None)
    as (h1 & Hrun1 & Hseg1 & Hframe1);
    [done|by apply NoDup_cons in Hnd2 as [? ?]|].
  (* temp->prev->next = top *)
  assert (∃ h2, (pv <- load_prev (Some a) ;;
                 match pv with
                 | Some _ => top <- get_top ;; store_next pv top
                 | None => ret tt
                 end) (with_heap h1 s0) = Ok tt (with_heap h2 s0) ∧
                seg h2 None spare svals (Some b) ∧
                ∀ c, c ∉ spare → h2 !! c = h1 !! c)
    as (h2 & Hrun2 & Hseg2 & Hframe2).
  { erewrite bind_Ok; [|eapply dll_load_prev; simpl;
                        rewrite Hframe1 by done; exact Ha].
    cbn [prev]. destruct spare as [|x0 spare0 _] using rev_ind.
    - exists h1. by destruct svals.
    - rewrite last_of_snoc. step.
      destruct (dll_relink_tail (with_heap h1 s0) None spare0 x0 svals
                  (Some a) (Some b)) as (h2 & Hrun & Hseg & Hframe); auto.
      { eapply dll_seg_frame; [|exact Hs1]. intros c Hc. simpl.
        apply Hframe1. intros ->. by apply (Hdisj' b Hc); left. }
      exists h2. split_and!; try done.
      intros c Hc. apply Hframe. intros ->. apply Hc.
      apply elem_of_app. right. by left. }
  (* bottom->next = temp *)
  assert (seg h2 (last_of spare None) (xs ++ [z]) l None) as Hseg2'.
  { rewrite <- Hxs. eapply dll_seg_frame; [|exact Hseg1].
    intros c Hc. apply Hframe2. intros Hin. by apply (Hdisj' c). }
  destruct (dll_relink_tail (with_heap h2 s0) (last_of spare None) xs z l
              None (Some a)) as (h3 & Hrun3 & Hseg3 & Hframe3); auto.
  { by rewrite <- Hxs. }
  assert (h3 !! a = heap (mem s) !! a) as Ha3.
  { rewrite Hframe3 by done. simpl. rewrite Hframe2 by done.
    by rewrite Hframe1. }
  rewrite Ha in Ha3.
  (* temp->prev = bottom; bottom = temp; temp->next = NULL *)
  set (h5 := <[a := mkStack v None (Some z)]> h3).
  exists (mkMemory h5 (Some b) (Some a) (stack_size (mem s))). split.
  - unfold send_top_to_bottom. step. rewrite Hsize.
    destruct (Z.eqb_spec (Z.of_nat (S (length l))) 0) as [|_]; [lia|].
    destruct (Z.eqb_spec (Z.of_nat (S (length l))) 1) as [Hone|_].
    { destruct l; [done|simpl in Hone; lia]. }
    step. rewrite Htop. do 2 step. cbn [first_of]. fold s0.
    step. erewrite bind_Ok;
      [|eapply dll_load_prev; simpl; exact Ha].
    cbn [prev top mem set_mem s0].
    rewrite (bind_Ok _ _ _ _ _ Hrun1).
    unfold bind at 1. unfold bind at 1 in Hrun2. 
    destruct (load_prev (Some a) (with_heap h1 s0)) as [pv s'| | |] eqn:Hpv;
      try done.
    unfold bind at 1. rewrite Hrun2.
    step. cbn [bottom mem with_heap set_mem s0]. rewrite Hbot'.
    rewrite (bind_Ok _ _ _ _ _ Hrun3).
    step. cbn [bottom mem with_heap set_mem s0]. rewrite Hbot'.
    erewrite bind_Ok; [|eapply dll_store_prev; simpl; exact Ha3].
    step.
    erewrite dll_store_next; [|simpl; apply lookup_insert_eq].
    unfold with_heap, set_mem. simpl.
    by rewrite insert_insert_eq, Hsize.
  - assert (z ∉ spare) as Hz_spare.
    { intros Hin. by apply (Hdisj' z). }
    assert (seg h5 None spare svals (Some b)) as Hspare.
    { apply dll_seg_insert_frame; [done|].
      eapply dll_seg_frame; [|exact Hseg2].
      intros c Hc. apply Hframe3. by intros ->. }
    assert (seg h5 (last_of spare None) ((xs ++ [z]) ++ [a]) (l ++ [v]) None)
      as Hlive.
    { apply dll_seg_app_join.
      - apply dll_seg_insert_frame; [by rewrite <- Hxs|done].
      - rewrite last_of_snoc. split; [|done]. apply lookup_insert_eq. }
    split_and!.
    + simpl. rewrite length_app, Hsize. simpl. lia.
    + done.
    + apply Forall_app. split; [done|]. by constructor.
    + destruct l as [|w l]; [done|]. simpl.
      exists spare, svals, ((xs ++ [z]) ++ [a]). split_and!.
      * apply NoDup_app. split_and!; [done| |].
        -- intros c Hc [Hin|Hin%list_elem_of_singleton]%elem_of_app.
           ++ rewrite <- Hxs in Hin. by apply (Hdisj' c).
           ++ by subst.
        -- apply NoDup_app. split_and!.
           ++ by rewrite <- Hxs.
           ++ intros c Hc ->%list_elem_of_singleton.
              rewrite <- Hxs in Hc. done.
           ++ apply NoDup_singleton.
      * apply dll_seg_app_join; [|done].
        rewrite <- Hxs. done.
      * done.
      * by rewrite <- Hxs.
      * by rewrite last_snoc.
Qed.

Lemma dll_send_top_to_bottom_one s v :
  rep (mem s) [v] → send_top_to_bottom s = Ok tt s.
Proof.
  intros (Hsize & _). unfold send_top_to_bottom. step. by rewrite Hsize.
Qed.

Lemma dll_send_top_to_bottom_empty s :
  rep (mem s) [] →
  send_top_to_bottom s =
    Exit 1 (set_stderr (stderr s ++ [RotateEmpty]) s).
Proof.
  intros (Hsize & _). unfold send_top_to_bottom. step. by rewrite Hsize.
Qed.

(** *** randomize_stack *)

(** [rep] of a stack that is not empty, by the two segments. *)
Lemma dll_rep_segments m l :
  l ≠ [] →
  rep m l ↔
  ∃ spare svals addrs,
    NoDup (spare ++ addrs) ∧ length spare = length svals ∧
    seg (heap m) None spare svals (first_of addrs None) ∧
    seg (heap m) (last_of spare None) addrs l None ∧
    top m = head addrs ∧ bottom m = last addrs ∧
    stack_size m = Z.of_nat (length l) ∧ stack_size m <= INT_MAX ∧
    Forall is_unsigned l.
Proof.
  intros Hl. destruct l as [|v l]; [done|]. split.
  - intros (Hsize & Hmax & Hu & spare & svals & addrs & Hnd & Hseg & Hlen
            & Htop & Hbot).
    apply dll_seg_app_split in Hseg as [Hs1 Hs2]; [|done].
    by exists spare, svals, addrs.
  - intros (spare & svals & addrs & Hnd & Hlen & Hs1 & Hs2 & Htop & Hbot
            & Hsize & Hmax & Hu).
    split_and!; auto. exists spare, svals, addrs.
    split_and!; auto. by apply dll_seg_app_join.
Qed.

(** A list of distinct nodes is no longer than the heap is large, so
    [node_fuel] is enough to walk it. *)
Lemma dll_seg_size h pv addrs vals tl :
  NoDup addrs → seg h pv addrs vals tl → (length addrs ≤ size h)%nat.
Proof.
  intros Hnd Hseg.
  rewrite <- (size_list_to_set (C := gset loc)) by done.
  rewrite <- size_dom. apply subseteq_size.
  intros a Ha%elem_of_list_to_set. apply elem_of_dom.
  eapply dll_seg_allocated; eauto.
Qed.

Lemma dll_gather_values s : ∀ addrs pv l fuel i buf,
  seg (heap (mem s)) pv addrs l None →
  (length addrs ≤ fuel)%nat → 0 <= i →
  i + Z.of_nat (length l) <= Z.of_nat (length buf) →
  i + Z.of_nat (length l) < UINT_MODULUS →
  gather_values fuel (first_of addrs None) i buf s =
    Ok (take (Z.to_nat i) buf ++ l ++ drop (Z.to_nat i + length l) buf) s.
Proof.
  induction addrs as [|a addrs IH];
    intros pv [|v l] fuel i buf Hseg Hfuel Hi Hlen Hmax; try done.
  - cbn [length app]. rewrite Nat.add_0_r, take_drop. by destruct fuel.
  - destruct Hseg as [Ha Hseg]. destruct fuel as [|fuel]; [simpl in *; lia|].
    simpl in Hfuel, Hlen, Hmax. cbn [gather_values first_of].
    step. erewrite bind_Ok; [|apply array_set_Ok; lia]. step.
    assert (to_unsigned (i + 1) = i + 1) as ->.
    { apply to_unsigned_id. unfold is_unsigned. lia. }
    erewrite IH; eauto; try lia.
    + f_equal. replace (Z.to_nat (i + 1)) with (S (Z.to_nat i)) by lia.
      erewrite take_S_r; [|apply list_lookup_insert_eq; lia].
      rewrite take_insert_ge by lia. rewrite <- app_assoc. simpl.
      do 3 f_equal. rewrite drop_insert_lt by lia. f_equal. lia.
    + rewrite length_insert. lia.
Qed.

Lemma dll_assign_values : ∀ addrs pv l fuel i vals s,
  seg (heap (mem s)) pv addrs l None → NoDup addrs →
  (length addrs ≤ fuel)%nat → 0 <= i →
  i + Z.of_nat (length addrs) <= Z.of_nat (length vals) →
  i + Z.of_nat (length addrs) < UINT_MODULUS →
  ∃ h',
    assign_values fuel (first_of addrs None) i vals s =
      Ok tt (with_heap h' s) ∧
    seg h' pv addrs
      (to_unsigned <$> take (length addrs) (drop (Z.to_nat i) vals)) None ∧
    ∀ b, b ∉ addrs → h' !! b = heap (mem s) !! b.
Proof.
  induction addrs as [|a addrs IH];
    intros pv [|v l] fuel i vals s Hseg Hnd Hfuel Hi Hlen Hmax; try done.
  - exists (heap (mem s)). split_and!; [|done..].
    destruct s as [[] ?]. by destruct fuel.
  - destruct Hseg as [Ha Hseg]. destruct fuel as [|fuel]; [simpl in *; lia|].
    apply NoDup_cons in Hnd as [Hnotin Hnd]. simpl in Hlen, Hmax, Hfuel.
    destruct (lookup_lt_is_Some_2 vals (Z.to_nat i)) as [x Hx]; [lia|].
    cbn [assign_values first_of].
    rewrite (bind_Ok _ _ _ _ _ (array_get_Ok _ _ _ _ _ Hi Hx)).
    step.
    erewrite bind_Ok; [|apply dll_load_next; simpl; apply lookup_insert_eq].
    cbn [val next prev].
    assert (to_unsigned (i + 1) = i + 1) as ->.
    { apply to_unsigned_id. unfold is_unsigned. lia. }
    match goal with |- context [assign_values _ _ _ _ ?s1] =>
      destruct (IH (Some a) l fuel (i + 1) vals s1)
        as (h' & Hrun & Hseg' & Hframe)
    end; auto; try lia.
    { simpl. by apply dll_seg_insert_frame. }
    exists h'. rewrite Hrun. split_and!.
    + done.
    + replace (drop (Z.to_nat i) vals)
        with (x :: drop (Z.to_nat (i + 1)) vals).
      * split; [|done]. rewrite Hframe by done. simpl.
        by rewrite lookup_insert_eq.
      * replace (Z.to_nat (i + 1)) with (S (Z.to_nat i)) by lia.
        by rewrite <- drop_S.
    + intros b [Hne Hb]%not_elem_of_cons. rewrite Hframe by done. simpl.
      by rewrite lookup_insert_ne.
Qed.

Lemma dll_randomize_stack_empty s :
  rep (mem s) [] → randomize_stack s = Ok tt s.
Proof.
  intros (Hsize & _). unfold randomize_stack. step. by rewrite Hsize.
Qed.

(** [randomize_stack] returns on every stack, with the same nodes
    holding a permutation of the values. *)
Lemma dll_randomize_stack s l :
  rep (mem s) l →
  ∃ m' calls l',
    randomize_stack s = Ok tt (set_mem m' (set_rand_calls calls s)) ∧
    rep m' l' ∧ l' ≡ₚ l.
Proof.
  intros Hrep. destruct (decide (l = [])) as [->|Hne].
  { exists (mem s), (rand_calls s), [].
    rewrite set_rand_calls_same, set_mem_same. split_and!; [|done..].
    destruct Hrep as (Hsize & _). unfold randomize_stack. step.
    by rewrite Hsize. }
  pose proof Hrep as (spare & svals & addrs & Hnd & Hlen & Hs1 & Hs2 & Htop
                      & Hbot & Hsize & Hmax & Hu)%dll_rep_segments; [|done].
  pose proof (dll_seg_length _ _ _ _ _ Hs2) as Hlen2.
  apply NoDup_app in Hnd as (Hnd1 & Hdisj & Hnd2).
  pose proof (dll_seg_size _ _ _ _ _ Hnd2 Hs2) as Hfuel.
  assert (0 < length l)%nat as Hpos by (destruct l; simpl; [done|lia]).
  assert (top (mem s) = first_of addrs None) as Hfirst.
  { rewrite Htop. by destruct addrs. }
  set (n := length l) in *.
  assert (Hgather := dll_gather_values s addrs (last_of spare None) l
                       (node_fuel s) 0 (replicate n 0) Hs2).
  rewrite length_replicate in Hgather. fold n in Hgather.
  change (Z.to_nat 0) with O in Hgather.
  rewrite take_0, Nat.add_0_l in Hgather. cbn [app] in Hgather.
  rewrite drop_ge, app_nil_r in Hgather by (rewrite length_replicate; lia).
  specialize (Hgather ltac:(unfold node_fuel; lia) ltac:(lia) ltac:(lia)
                      ltac:(unfold UINT_MODULUS, INT_MAX in *; lia)).
  destruct (shuffle_values_spec (Z.to_nat (Z.of_nat n - 1))
              (S n) (Z.of_nat n - 1) l s)
    as (vals & calls & Hshuffle & Hperm & _); auto; try lia.
  { unfold UINT_MODULUS, INT_MAX in *. lia. }
  set (s1 := set_rand_calls calls s) in *.
  assert (length vals = n) as Hvals by (by rewrite Hperm).
  destruct (dll_assign_values addrs (last_of spare None) l (node_fuel s) 0
              vals s1)
    as (h' & Hassign & Hseg' & Hframe); auto; try (simpl; lia).
  { unfold node_fuel. lia. }
  { unfold UINT_MODULUS, INT_MAX in *. lia. }
  change (Z.to_nat 0) with O in Hseg'. rewrite drop_0 in Hseg'.
  rewrite take_ge in Hseg' by lia.
  rewrite fmap_to_unsigned_id in Hseg' by (by rewrite Hperm).
  exists (mkMemory h' (top (mem s)) (bottom (mem s)) (stack_size (mem s))),
    calls, vals.
  split_and!; [| |done].
  - unfold randomize_stack. step. rewrite Hsize.
    destruct (Z.eqb_spec (Z.of_nat n) 0) as [|_]; [lia|].
    do 2 step. rewrite Hfirst, Nat2Z.id, (bind_Ok _ _ _ _ _ Hgather).
    step. rewrite Hsize.
    assert (to_unsigned (Z.of_nat n - 1) = Z.of_nat n - 1) as ->.
    { apply to_unsigned_id. unfold is_unsigned, UINT_MODULUS, INT_MAX in *.
      lia. }
    fold n. rewrite (bind_Ok _ _ _ _ _ Hshuffle). step.
    change (top (mem s1)) with (top (mem s)). rewrite Hfirst.
    rewrite Hassign. unfold with_heap, s1. simpl.
    by rewrite Hfirst, Hsize.
  - apply dll_rep_segments.
    { intros ->. simpl in Hvals. lia. }
    exists spare, svals, addrs. simpl. split_and!; auto.
    + by apply NoDup_app.
    + eapply dll_seg_frame; [|exact Hs1]. intros c Hc.
      apply Hframe. by apply Hdisj.
    + by rewrite Hvals.
    + by rewrite Hperm.
Qed.

(** *** The code is left alone *)

Lemma dll_code_safe_deref p : code_safe (deref p).
Proof.
  intros s. unfold deref. destruct p; [|done].
  by destruct (heap (mem s) !! _).
Qed.

#[local] Hint Resolve dll_code_safe_deref : keeps.

Lemma dll_code_safe_load_val p : code_safe (load_val p).
Proof. unfold load_val. code_safe. Qed.

Lemma dll_code_safe_load_next p : code_safe (load_next p).
Proof. unfold load_next. code_safe. Qed.

Lemma dll_code_safe_load_prev p : code_safe (load_prev p).
Proof. unfold load_prev. code_safe. Qed.

Lemma dll_code_safe_store a n : code_safe (store a n).
Proof. unfold store. code_safe. Qed.

#[local] Hint Resolve dll_code_safe_load_val dll_code_safe_load_next
  dll_code_safe_load_prev dll_code_safe_store : keeps.

Lemma dll_code_safe_store_val p v : code_safe (store_val p v).
Proof. unfold store_val. code_safe. Qed.

Lemma dll_code_safe_store_next p q : code_safe (store_next p q).
Proof. unfold store_next. code_safe. Qed.

Lemma dll_code_safe_store_prev p q : code_safe (store_prev p q).
Proof. unfold store_prev. code_safe. Qed.

Lemma dll_code_safe_get_top : code_safe get_top.
Proof. by intros s. Qed.

Lemma dll_code_safe_get_bottom : code_safe get_bottom.
Proof. by intros s. Qed.

Lemma dll_code_safe_get_stack_size : code_safe get_stack_size.
Proof. by intros s. Qed.

Lemma dll_code_safe_set_top p : code_safe (set_top p).
Proof. unfold set_top. code_safe. Qed.

Lemma dll_code_safe_set_bottom p : code_safe (set_bottom p).
Proof. unfold set_bottom. code_safe. Qed.

Lemma dll_code_safe_set_stack_size n : code_safe (set_stack_size n).
Proof. unfold set_stack_size. code_safe. Qed.

#[local] Hint Resolve dll_code_safe_store_val dll_code_safe_store_next
  dll_code_safe_store_prev dll_code_safe_get_top
  dll_code_safe_get_bottom dll_code_safe_get_stack_size
  dll_code_safe_set_top dll_code_safe_set_bottom
  dll_code_safe_set_stack_size : keeps.

Lemma dll_code_safe_push_stack v : code_safe (push_stack v).
Proof. unfold push_stack, new_stack_node, malloc. code_safe. Qed.

Lemma dll_code_safe_pop_stack : code_safe pop_stack.
Proof. unfold pop_stack. code_safe. Qed.

#[local] Hint Resolve dll_code_safe_push_stack dll_code_safe_pop_stack
  : keeps.

Lemma dll_code_safe_swap_stack : code_safe swap_stack.
Proof. unfold swap_stack. code_safe. Qed.

Lemma dll_code_safe_dup_stack : code_safe dup_stack.
Proof. unfold dup_stack. code_safe. Qed.

Lemma dll_code_safe_send_top_to_bottom : code_safe send_top_to_bottom.
Proof. unfold send_top_to_bottom. code_safe. Qed.

Lemma dll_code_safe_gather_values fuel : ∀ node i vals,
  code_safe (gather_values fuel node i vals).
Proof.
  induction fuel as [|fuel IH]; intros [a|] ??; simpl; code_safe.
Qed.

Lemma dll_code_safe_assign_values fuel : ∀ node i vals,
  code_safe (assign_values fuel node i vals).
Proof.
  induction fuel as [|fuel IH]; intros [a|] ??; simpl; code_safe.
Qed.

#[local] Hint Resolve dll_code_safe_swap_stack dll_code_safe_dup_stack
  dll_code_safe_send_top_to_bottom dll_code_safe_gather_values
  dll_code_safe_assign_values : keeps.

Lemma dll_code_safe_randomize_stack : code_safe randomize_stack.
Proof. unfold randomize_stack. code_safe. Qed.

#[local] Hint Resolve dll_code_safe_randomize_stack : keeps.

Lemma dll_code_safe_command c flag i : code_safe (command c flag i).
Proof. unfold command. code_safe. Qed.

#[local] Hint Resolve dll_code_safe_command : keeps.

(** However the slots of a chunk end, the code is as it was. *)
Lemma dll_execute_slots_code fuel : ∀ chunk flag i s,
  ends_in (λ s', code s' = code s) (execute_slots fuel chunk flag i s).
Proof.
  induction fuel as [|fuel IH]; intros chunk flag i s; simpl;
    destruct (i <? COMMANDS_PER_CHUNK); try done.
  erewrite bind_Ok; [|reflexivity].
  pose proof (array_get_ends CommandsArray (commands (code s)) (chunk + i) s)
    as Hget.
  unfold bind at 1.
  destruct (array_get CommandsArray (commands (code s)) (chunk + i) s)
    as [c s0| | |]; try done.
  destruct Hget as (-> & _).
  eapply (ends_in_bind _ _ _ _ (λ s1, code s1 = code s)).
  - apply code_safe_ends, dll_code_safe_command.
  - done.
  - intros [i'|] s1 Hcode; [|done].
    eapply ends_in_weaken; [|apply IH]. simpl. congruence.
Qed.

Lemma dll_execute_chunk_code chunk flag s :
  ends_in (λ s', code s' = code s) (execute_chunk chunk flag s).
Proof. apply dll_execute_slots_code. Qed.

(** While the five commands of the chunk are in [code.commands], the
    loop does not read outside that array. *)
Lemma dll_execute_slots_in_chunk fuel : ∀ chunk flag i s,
  0 <= chunk → 0 <= i →
  chunk + COMMANDS_PER_CHUNK <= Z.of_nat (length (commands (code s))) →
  execute_slots fuel chunk flag i s ≠ Undefined (OutOfBounds CommandsArray).
Proof.
  induction fuel as [|fuel IH]; intros chunk flag i s Hchunk Hi Hlen; simpl;
    destruct (Z.ltb_spec i COMMANDS_PER_CHUNK); try done.
  erewrite bind_Ok; [|reflexivity].
  destruct (lookup_lt_is_Some_2 (commands (code s)) (Z.to_nat (chunk + i)))
    as [c Hc]; [lia|].
  erewrite bind_Ok; [|apply array_get_Ok; [lia|done]].
  pose proof (dll_code_safe_command c flag i s) as Hcmd.
  unfold bind.
  destruct (command c flag i s) as [[i'|] s1| | |]; try done.
  - apply IH; [done| |by rewrite Hcmd].
    apply to_unsigned_is_unsigned.
  - congruence.
Qed.

(** *** The loops of execute_chunk and execute_code *)

Lemma dll_execute_slots_end fuel chunk flag i s :
  COMMANDS_PER_CHUNK <= i → execute_slots fuel chunk flag i s = Ok tt s.
Proof.
  intros Hi. destruct fuel; simpl;
    by destruct (Z.ltb_spec i COMMANDS_PER_CHUNK); try lia.
Qed.

Lemma dll_execute_slots_step fuel chunk flag i s c :
  i < COMMANDS_PER_CHUNK → 0 <= chunk + i →
  commands (code s) !! Z.to_nat (chunk + i) = Some c →
  execute_slots (S fuel) chunk flag i s =
    (r <- command c flag i ;;
     match r with
     | Break i' => execute_slots fuel chunk flag (to_unsigned (i' + 1))
     | Return => ret tt
     end) s.
Proof.
  intros Hi Hpos Hc. simpl.
  destruct (Z.ltb_spec i COMMANDS_PER_CHUNK); [|lia].
  erewrite bind_Ok; [|reflexivity].
  by erewrite bind_Ok; [|by apply array_get_Ok].
Qed.

Lemma dll_mark_visited cur s :
  0 <= cur < Z.of_nat (length (visited (code s))) →
  mark_visited cur s =
    Ok tt (set_code (mkCode (commands (code s))
                            (<[Z.to_nat cur := true]> (visited (code s)))
                            (len (code s))) s).
Proof.
  intros Hcur. unfold mark_visited.
  erewrite bind_Ok; [|reflexivity].
  by erewrite bind_Ok; [|by apply array_set_Ok].
Qed.

Lemma dll_code_safe_next_chunk : code_safe next_chunk.
Proof. unfold next_chunk. code_safe. Qed.

(** A round that returns has set the flag of its chunk, and nothing
    else of the code has changed. *)
Lemma dll_execute_round_Ok cur s next s' :
  execute_round cur s = Ok next s' →
  0 <= cur < Z.of_nat (length (visited (code s))) ∧
  code s' = mkCode (commands (code s))
                   (<[Z.to_nat cur := true]> (visited (code s)))
                   (len (code s)).
Proof.
  unfold execute_round. erewrite bind_Ok; [|reflexivity].
  intros (flag & s0 & (-> & Hpos & Hflag)%array_get_inv & Hrun)%bind_Ok_inv.
  apply bind_Ok_inv in Hrun as ([] & s1 & Hchunk & Hrun).
  pose proof (dll_execute_chunk_code
                (to_unsigned (cur * COMMANDS_PER_CHUNK)) flag s) as Hcode.
  rewrite Hchunk in Hcode. simpl in Hcode.
  assert (0 <= cur < Z.of_nat (length (visited (code s)))) as Hcur.
  { apply lookup_lt_Some in Hflag. lia. }
  split; [done|].
  erewrite bind_Ok in Hrun;
    [|apply dll_mark_visited; by rewrite Hcode].
  match type of Hrun with next_chunk ?s2 = _ =>
    pose proof (dll_code_safe_next_chunk s2) as Hnext
  end.
  rewrite Hrun in Hnext. rewrite Hnext. simpl. by rewrite Hcode.
Qed.

(** However a round ends, no flag has been cleared. *)
Lemma dll_execute_round_visited cur s :
  ends_in (λ s', visited_le (code s) (code s')) (execute_round cur s).
Proof.
  unfold execute_round. erewrite bind_Ok; [|reflexivity].
  pose proof (array_get_ends VisitedArray (visited (code s)) cur s) as Hget.
  unfold bind at 1.
  destruct (array_get VisitedArray (visited (code s)) cur s)
    as [flag s0| | |];
    try done.
  destruct Hget as (-> & Hpos & Hflag).
  assert (0 <= cur < Z.of_nat (length (visited (code s)))) as Hcur.
  { apply lookup_lt_Some in Hflag. lia. }
  eapply (ends_in_bind _ _ _ _ (λ s1, code s1 = code s)).
  - apply dll_execute_chunk_code.
  - intros s1 ->. apply visited_le_refl.
  - intros [] s1 Hcode.
    rewrite (bind_Ok _ _ _ _ _ (dll_mark_visited _ _
               ltac:(by rewrite Hcode))).
    eapply ends_in_weaken;
      [|apply code_safe_ends, dll_code_safe_next_chunk].
    intros s' ->. simpl. eapply visited_le_insert. simpl.
    by rewrite Hcode.
Qed.

Lemma dll_execute_rounds_visited n : ∀ cur s,
  ends_in (λ s', visited_le (code s) (code s')) (execute_rounds n cur s).
Proof.
  induction n as [|n IH]; intros cur s; simpl.
  - apply visited_le_refl.
  - eapply ends_in_bind.
    + apply dll_execute_round_visited.
    + done.
    + intros next s1 Hle. eapply ends_in_weaken; [|apply IH].
      intros s'. simpl. by apply visited_le_trans.
Qed.

(** *** The end of a round, and rotating all the way round *)

Lemma dll_next_chunk s v l :
  rep (mem s) (v :: l) →
  next_chunk s =
    if to_unsigned (len (code s)) / COMMANDS_PER_CHUNK <=? v
    then Exit 1 (set_stderr (stderr s ++ [NoSuchChunk v]) s)
    else Ok v s.
Proof.
  intros Hrep.
  destruct (dll_top_val s v l 0 Hrep) as (a & Htop & Hload & _).
  destruct Hrep as (Hsize & _).
  unfold next_chunk. step. rewrite Hsize.
  destruct (Z.eqb_spec (Z.of_nat (length (v :: l))) 0) as [|_]; [done|].
  step. rewrite Htop, (bind_Ok _ _ _ _ _ Hload). step.
  destruct (_ <=? v); [|done].
  by rewrite (bind_Ok _ _ _ _ _ Hload).
Qed.

Lemma dll_next_chunk_empty s :
  rep (mem s) [] →
  next_chunk s = Exit 1 (set_stderr (stderr s ++ [EmptyAtChunkEnd]) s).
Proof.
  intros (Hsize & _). unfold next_chunk. step. by rewrite Hsize.
Qed.

Lemma dll_rotate s v l :
  rep (mem s) (v :: l) →
  ∃ m', send_top_to_bottom s = Ok tt (set_mem m' s) ∧ rep m' (l ++ [v]).
Proof.
  intros Hrep. destruct l as [|w l].
  - exists (mem s). rewrite set_mem_same. split; [|done].
    by apply dll_send_top_to_bottom_one with v.
  - by apply dll_send_top_to_bottom.
Qed.

Lemma dll_rotate_many k : ∀ l s,
  rep (mem s) l → (k ≤ length l)%nat →
  ∃ m', repeat_m k send_top_to_bottom s = Ok tt (set_mem m' s) ∧
        rep m' (drop k l ++ take k l).
Proof.
  induction k as [|k IH]; intros l s Hrep Hk.
  - exists (mem s). rewrite set_mem_same, drop_0, app_nil_r. by split.
  - destruct l as [|v l]; [simpl in Hk; lia|]. simpl in Hk.
    destruct (dll_rotate _ _ _ Hrep) as (m1 & Hrun1 & Hrep1).
    destruct (IH (l ++ [v]) (set_mem m1 s)) as (m' & Hrun & Hrep');
      [done|rewrite length_app; simpl; lia|].
    exists m'. split.
    + simpl. by rewrite (bind_Ok _ _ _ _ _ Hrun1).
    + rewrite drop_app_le, take_app_le in Hrep' by lia.
      simpl. by rewrite <- app_assoc in Hrep'.
Qed.

(** A command that only moves the slot index: the loop goes on from the
    slot after the one it names. *)
Lemma dll_slot_passes fuel chunk flag i s c k :
  0 <= chunk → 0 <= i < COMMANDS_PER_CHUNK →
  commands (code s) !! Z.to_nat (chunk + i) = Some c →
  command c flag i s = Ok (Break k) s →
  execute_slots (S fuel) chunk flag i s =
    execute_slots fuel chunk flag (to_unsigned (k + 1)) s.
Proof.
  intros Hchunk Hi Hc Hcmd.
  rewrite (dll_execute_slots_step _ _ _ _ _ c) by (done || lia).
  by rewrite (bind_Ok _ _ _ _ _ Hcmd).
Qed.

(** The round after a chunk that returned: the flag is set and the top
    of the stack decides. *)
Lemma dll_execute_round_after cur s flag s1 v l :
  0 <= cur → visited (code s) !! Z.to_nat cur = Some flag →
  execute_chunk (to_unsigned (cur * COMMANDS_PER_CHUNK)) flag s = Ok tt s1 →
  rep (mem s1) (v :: l) →
  execute_round cur s =
    let s2 := set_code (mkCode (commands (code s1))
                          (<[Z.to_nat cur := true]> (visited (code s1)))
                          (len (code s1))) s1 in
    if to_unsigned (len (code s1)) / COMMANDS_PER_CHUNK <=? v
    then Exit 1 (set_stderr (stderr s2 ++ [NoSuchChunk v]) s2)
    else Ok v s2.
Proof.
  intros Hcur Hflag Hchunk Hrep.
  pose proof (dll_execute_chunk_code
                (to_unsigned (cur * COMMANDS_PER_CHUNK)) flag s) as Hcode.
  rewrite Hchunk in Hcode. simpl in Hcode.
  unfold execute_round. erewrite bind_Ok; [|reflexivity].
  erewrite bind_Ok; [|by apply array_get_Ok].
  rewrite (bind_Ok _ _ _ _ _ Hchunk).
  erewrite bind_Ok.
  2: { apply dll_mark_visited. rewrite Hcode.
       apply lookup_lt_Some in Hflag. lia. }
  by erewrite dll_next_chunk.
Qed.

(** *** The stack stays a stack *)

(** Reading and writing the second value of a stack that has one. *)
Lemma dll_second_val s a b l x :
  rep (mem s) (a :: b :: l) →
  ∃ t y, top (mem s) = Some t ∧ load_val (Some t) s = Ok a s ∧
    load_next (Some t) s = Ok (Some y) s ∧ load_val (Some y) s = Ok b s ∧
    ∃ m', store_val (Some y) x s = Ok tt (set_mem m' s) ∧
          rep m' (a :: to_unsigned x :: l).
Proof.
  intros (spare & svals & t & addrs & Hnd & Hlen & Hs1 & Ht & Hs2 & Htop
          & Hbot & Hsize & Hmax & Hv & Hu)%dll_rep_cons.
  destruct addrs as [|y rest]; [done|]. pose proof Hs2 as [Hy Hs2'].
  apply Forall_cons in Hu as [Hb Hu].
  exists t, y. split; [done|].
  split; [by rewrite (dll_load_val _ _ _ Ht)|].
  split; [by rewrite (dll_load_next _ _ _ Ht)|].
  split; [by rewrite (dll_load_val _ _ _ Hy)|].
  eexists. split; [by apply dll_store_val|].
  pose proof Hnd as (Hnd1 & Hdisj & Hnd2)%NoDup_app.
  apply NoDup_cons in Hnd2 as [Ht_rest Hnd2].
  apply NoDup_cons in Hnd2 as [Hy_rest Hnd2].
  assert (t ≠ y) as Hty.
  { intros ->. apply Ht_rest. by left. }
  assert (y ∉ spare) as Hy_spare.
  { intros Hin. apply (Hdisj _ Hin). right. by left. }
  apply dll_rep_cons. exists spare, svals, t, (y :: rest). simpl.
  split_and!; auto.
  - by apply dll_seg_insert_frame.
  - by rewrite lookup_insert_ne.
  - by rewrite lookup_insert_eq.
  - by apply dll_seg_insert_frame.
  - constructor; [apply to_unsigned_is_unsigned | done].
Qed.

Lemma dll_swap_stack s a b l :
  rep (mem s) (a :: b :: l) →
  ∃ m', swap_stack s = Ok tt (set_mem m' s) ∧ rep m' (b :: a :: l).
Proof.
  intros Hrep.
  pose proof Hrep
    as (Hsize & _ & [Hua [Hub _]%Forall_cons]%Forall_cons & _).
  destruct (dll_second_val s a b l 0 Hrep)
    as (t & y & Htop & Hload & Hnext & Hload2 & _).
  destruct (dll_top_val s a (b :: l) b Hrep)
    as (t' & Htop' & _ & m1 & Hstore1 & Hrep1).
  rewrite Htop in Htop'. injection Htop' as <-.
  rewrite (to_unsigned_id b) in Hrep1 by done.
  destruct (dll_second_val (set_mem m1 s) b b l (to_int a) Hrep1)
    as (t1 & y1 & Htop1 & _ & Hnext1 & _ & m' & Hstore2 & Hrep').
  rewrite (to_unsigned_to_int_id a) in Hrep' by done.
  exists m'. split; [|done].
  unfold swap_stack. step. rewrite Hsize.
  destruct (Z.ltb_spec (Z.of_nat (length (a :: b :: l))) 2) as [Hl|_];
    [simpl in Hl; lia|].
  step. rewrite Htop.
  rewrite (bind_Ok _ _ _ _ _ Hload), (bind_Ok _ _ _ _ _ Hnext),
    (bind_Ok _ _ _ _ _ Hload2), (bind_Ok _ _ _ _ _ Hstore1).
  step. rewrite Htop1.
  rewrite (bind_Ok _ _ _ _ _ Hnext1). rewrite Hstore2.
  by destruct s.
Qed.

Lemma dll_swap_stack_short s l :
  rep (mem s) l → (length l < 2)%nat →
  swap_stack s =
    Exit 1 (set_stderr (stderr s ++ [SwapTooFew (bool_decide (l ≠ []))]) s).
Proof.
  intros (Hsize & _) Hlen. unfold swap_stack. step. rewrite Hsize.
  destruct l as [|a [|b l]]; [done|done|simpl in Hlen; lia].
Qed.

Lemma dll_command_increment s flag i v l :
  rep (mem s) (v :: l) →
  ∃ m', command "5" flag i s = Ok (Break i) (set_mem m' s) ∧
        rep m' (to_unsigned (v + 1) :: l).
Proof.
  intros Hrep.
  destruct (dll_top_val s v l (v + 1) Hrep)
    as (a & Htop & Hload & m' & Hstore & Hrep').
  pose proof Hrep as (Hsize & _).
  exists m'. split; [|done].
  unfold command. step. rewrite Hsize.
  destruct (Z.eqb_spec (Z.of_nat (length (v :: l))) 0) as [|_]; [done|].
  step. rewrite Htop, (bind_Ok _ _ _ _ _ Hload).
  by rewrite (bind_Ok _ _ _ _ _ Hstore).
Qed.

Lemma dll_command_increment_empty s flag i :
  rep (mem s) [] →
  command "5" flag i s =
    Exit 1 (set_stderr (stderr s ++ [IncrementEmpty]) s).
Proof.
  intros [Hsize _]%dll_rep_nil. unfold command. step. by rewrite Hsize.
Qed.

Lemma dll_command_add s flag i a b l :
  rep (mem s) (a :: b :: l) →
  ∃ m', command "7" flag i s = Ok (Break i) (set_mem m' s) ∧
        rep m' (to_unsigned (b + a) :: l).
Proof.
  intros Hrep. pose proof Hrep as (Hsize & _).
  destruct (dll_second_val s a b l (b + a) Hrep)
    as (t & y & Htop & Hload & Hnext & Hload2 & m1 & Hstore & Hrep1).
  destruct (dll_pop_stack (set_mem m1 s) _ _ Hrep1) as (m' & Hpop & Hrep').
  exists m'. split; [|done].
  unfold command. step. rewrite Hsize.
  destruct (Z.ltb_spec (Z.of_nat (length (a :: b :: l))) 2) as [Hl|_];
    [simpl in Hl; lia|].
  step. rewrite Htop.
  rewrite (bind_Ok _ _ _ _ _ Hnext), (bind_Ok _ _ _ _ _ Hload2),
    (bind_Ok _ _ _ _ _ Hload), (bind_Ok _ _ _ _ _ Hstore),
    (bind_Ok _ _ _ _ _ Hpop).
  by destruct s.
Qed.

Lemma dll_command_add_short s flag i l :
  rep (mem s) l → (length l < 2)%nat →
  command "7" flag i s =
    Exit 1 (set_stderr (stderr s ++ [AddTooFew (bool_decide (l ≠ []))]) s).
Proof.
  intros (Hsize & _) Hlen. unfold command. step. rewrite Hsize.
  destruct l as [|a [|b l]]; [done|done|simpl in Hlen; lia].
Qed.

(** [push_stack] on the empty stack reads [top->prev] through the null
    [top]. *)
Lemma dll_push_stack_empty s v :
  rep (mem s) [] → push_stack v s = Undefined NullDereference.
Proof.
  intros [_ Htop]%dll_rep_nil. unfold push_stack. step. by rewrite Htop.
Qed.

Lemma dll_push_stack s v v0 l :
  rep (mem s) (v0 :: l) →
  if decide (stack_size (mem s) < INT_MAX)
  then ∃ m', push_stack v s = Ok tt (set_mem m' s) ∧
             rep m' (to_unsigned v :: v0 :: l)
  else push_stack v s = Undefined SignedOverflow.
Proof.
  intros (spare & svals & a & addrs & Hnd & Hlen & Hs1 & Ha & Hs2 & Htop
          & Hbot & Hsize & Hmax & Hv & Hu)%dll_rep_cons.
  destruct s as [[h tp bt sz] cd inp o e rs rc]. simpl in *. subst tp.
  pose proof Hnd as (Hnd1 & Hdisj & Hnd2)%NoDup_app.
  pose proof Hnd2 as [Ha_addrs Hnd2']%NoDup_cons.
  assert ((INT_MIN <=? sz + 1) = true) as Hmin.
  { apply Z.leb_le. unfold INT_MIN. lia. }
  destruct spare as [|x spare0 _] using rev_ind.
  - (* no node to use again: a new one is linked in *)
    destruct svals; [|done].
    pose proof (malloc_addr_fresh h) as Hfresh.
    assert (malloc_addr h ≠ a) as Hna by congruence.
    assert (malloc_addr h ∉ addrs) as Hn_addrs by by eapply dll_seg_fresh.
    unfold_ops. heap_simpl.
    set (n := malloc_addr h) in *. clearbody n.
    rewrite Hmin. simpl andb.
    destruct (decide (sz < INT_MAX)) as [Hlt|Hge].
    + assert ((sz + 1 <=? INT_MAX) = true) as -> by (apply Z.leb_le; lia).
      simpl. eexists; split; [reflexivity|].
      apply dll_rep_cons. exists [], [], n, (a :: addrs). simpl.
      split_and!; auto.
      * apply NoDup_cons. split; [|done]. by apply not_elem_of_cons.
      * by rewrite lookup_insert_eq.
      * rewrite lookup_insert_ne by done. by rewrite lookup_insert_eq.
      * by do 3 (apply dll_seg_insert_frame; [done|]).
      * lia.
      * lia.
      * apply to_unsigned_is_unsigned.
    + by assert ((sz + 1 <=? INT_MAX) = false) as ->
        by (apply Z.leb_gt; lia).
  - (* the node popped last is used again *)
    destruct svals as [|w svals0 _] using rev_ind.
    { rewrite length_app in Hlen. simpl in Hlen. lia. }
    rewrite !length_app in Hlen. simpl in Hlen.
    apply dll_seg_app_split in Hs1 as [Hs0 [Hx _]]; [|lia].
    rewrite last_of_snoc in Ha. simpl in Hx.
    assert (x ≠ a) as Hxa.
    { intros ->. apply (Hdisj a); [|by left].
      apply elem_of_app. right. by left. }
    assert (x ∉ addrs) as Hx_addrs.
    { intros Hin. apply (Hdisj x); [|by right].
      apply elem_of_app. right. by left. }
    assert (x ∉ spare0) as Hx_spare.
    { apply NoDup_app in Hnd1 as (_ & Hd & _). intros Hin.
      apply (Hd _ Hin). by left. }
    unfold_ops. heap_simpl.
    rewrite Hmin. simpl andb.
    destruct (decide (sz < INT_MAX)) as [Hlt|Hge].
    + assert ((sz + 1 <=? INT_MAX) = true) as -> by (apply Z.leb_le; lia).
      simpl. eexists; split; [reflexivity|].
      apply dll_rep_cons. exists spare0, svals0, x, (a :: addrs). simpl.
      split_and!; auto.
      * by rewrite <- app_assoc in Hnd.
      * lia.
      * by apply dll_seg_insert_frame.
      * by rewrite lookup_insert_eq.
      * by rewrite lookup_insert_ne.
      * by apply dll_seg_insert_frame.
      * lia.
      * lia.
      * apply to_unsigned_is_unsigned.
    + by assert ((sz + 1 <=? INT_MAX) = false) as ->
        by (apply Z.leb_gt; lia).
Qed.

Lemma dll_dup_stack s v l :
  rep (mem s) (v :: l) →
  if decide (stack_size (mem s) < INT_MAX)
  then ∃ m', dup_stack s = Ok tt (set_mem m' s) ∧ rep m' (v :: v :: l)
  else dup_stack s = Undefined SignedOverflow.
Proof.
  intros Hrep.
  pose proof (dll_push_stack s (to_int v) v l Hrep) as Hpush.
  destruct (dll_top_val s v l 0 Hrep) as (a & Htop & Hload & _).
  pose proof Hrep as (Hsize & _ & [Hv _]%Forall_cons & _).
  assert (dup_stack s = push_stack (to_int v) s) as ->.
  { unfold dup_stack. step. rewrite Hsize.
    destruct (Z.eqb_spec (Z.of_nat (length (v :: l))) 0) as [|_]; [done|].
    step. rewrite Htop. by rewrite (bind_Ok _ _ _ _ _ Hload). }
  by rewrite (to_unsigned_to_int_id v) in Hpush.
Qed.

Lemma dll_dup_stack_empty s :
  rep (mem s) [] →
  dup_stack s = Exit 1 (set_stderr (stderr s ++ [DupEmpty]) s).
Proof.
  intros [Hsize _]%dll_rep_nil. unfold dup_stack. step. by rewrite Hsize.
Qed.

Lemma dll_stack_safe_push_stack v : stack_safe rep (λ _, True) (push_stack v).
Proof.
  intros s [|v0 l] Hrep.
  - by rewrite dll_push_stack_empty.
  - pose proof (dll_push_stack s v v0 l Hrep) as Hpush.
    destruct (decide _); [|by rewrite Hpush].
    destruct Hpush as (m' & -> & Hrep'). eauto.
Qed.

Lemma dll_stack_safe_pop_stack : stack_safe rep (λ _, True) pop_stack.
Proof.
  intros s [|v l] Hrep.
  - by rewrite dll_pop_stack_empty.
  - destruct (dll_pop_stack s v l Hrep) as (m' & -> & Hrep'). eauto.
Qed.

Lemma dll_stack_safe_swap_stack : stack_safe rep (λ _, True) swap_stack.
Proof.
  intros s l Hrep. destruct l as [|a [|b l]].
  - by erewrite dll_swap_stack_short; [|done|simpl; lia].
  - by erewrite dll_swap_stack_short; [|done|simpl; lia].
  - destruct (dll_swap_stack s a b l Hrep) as (m' & -> & Hrep'). eauto.
Qed.

Lemma dll_stack_safe_dup_stack : stack_safe rep (λ _, True) dup_stack.
Proof.
  intros s [|v l] Hrep.
  - by rewrite dll_dup_stack_empty.
  - pose proof (dll_dup_stack s v l Hrep) as Hdup.
    destruct (decide _); [|by rewrite Hdup].
    destruct Hdup as (m' & -> & Hrep'). eauto.
Qed.

Lemma dll_stack_safe_send_top_to_bottom :
  stack_safe rep (λ _, True) send_top_to_bottom.
Proof.
  intros s [|v l] Hrep.
  - by rewrite dll_send_top_to_bottom_empty.
  - destruct (dll_rotate s v l Hrep) as (m' & -> & Hrep'). eauto.
Qed.

Lemma dll_stack_safe_randomize_stack :
  stack_safe rep (λ _, True) randomize_stack.
Proof.
  intros s l Hrep.
  destruct (dll_randomize_stack s l Hrep)
    as (m' & calls & l' & -> & Hrep' & _). eauto.
Qed.

Lemma dll_stack_safe_get_stack_size :
  stack_safe rep (λ _, True) get_stack_size.
Proof. by apply stack_safe_reads. Qed.

Lemma dll_stack_safe_get_top : stack_safe rep (λ _, True) get_top.
Proof. by apply stack_safe_reads. Qed.

Lemma dll_stack_safe_load_val p : stack_safe rep (λ _, True) (load_val p).
Proof.
  apply stack_safe_reads. intros s. unfold load_val, deref. unfold_monad.
  destruct p; [|done]. by destruct (heap (mem s) !! _).
Qed.

#[local] Hint Resolve dll_stack_safe_push_stack dll_stack_safe_pop_stack
  dll_stack_safe_swap_stack dll_stack_safe_dup_stack
  dll_stack_safe_send_top_to_bottom dll_stack_safe_randomize_stack
  dll_stack_safe_get_stack_size dll_stack_safe_get_top
  dll_stack_safe_load_val : stack.

Lemma dll_stack_safe_increment flag i :
  stack_safe rep (steps_from i) (command "5" flag i).
Proof.
  intros s [|v l] Hrep.
  - by rewrite dll_command_increment_empty.
  - destruct (dll_command_increment s flag i v l Hrep) as (m' & -> & Hrep').
    split; [by left|eauto].
Qed.

Lemma dll_stack_safe_decrement flag i :
  stack_safe rep (steps_from i) (command "6" flag i).
Proof.
  intros s [|v l] Hrep.
  - by rewrite dll_command_decrement_empty.
  - destruct (dll_command_decrement s flag i v l Hrep) as (m' & -> & Hrep').
    split; [by left|eauto].
Qed.

Lemma dll_stack_safe_add flag i :
  stack_safe rep (steps_from i) (command "7" flag i).
Proof.
  intros s l Hrep. destruct l as [|a [|b l]].
  - by erewrite dll_command_add_short; [|done|simpl; lia].
  - by erewrite dll_command_add_short; [|done|simpl; lia].
  - destruct (dll_command_add s flag i a b l Hrep) as (m' & -> & Hrep').
    split; [by left|eauto].
Qed.

Lemma dll_stack_safe_diff flag i :
  stack_safe rep (steps_from i) (command "E" flag i).
Proof.
  intros s l Hrep. destruct l as [|a [|b l]].
  - by erewrite dll_command_diff_short; [|done|simpl; lia].
  - by erewrite dll_command_diff_short; [|done|simpl; lia].
  - destruct (dll_command_diff s flag i a b l Hrep) as (m' & -> & Hrep').
    split; [by left|eauto].
Qed.

(** Every command keeps the stack a stack, and leaves the loop at its
    slot or one further. *)
Lemma dll_stack_safe_command c flag i :
  stack_safe rep (steps_from i) (command c flag i).
Proof.
  destruct (ascii_dec c "5") as [->|H5]; [apply dll_stack_safe_increment|].
  destruct (ascii_dec c "6") as [->|H6]; [apply dll_stack_safe_decrement|].
  destruct (ascii_dec c "7") as [->|H7]; [apply dll_stack_safe_add|].
  destruct (ascii_dec c "E") as [->|HE]; [apply dll_stack_safe_diff|].
  unfold command.
  destruct flag, c as [[] [] [] [] [] [] [] []]; try done; stack_safe.
Qed.

(** The loop of [execute_chunk] ends within as many rounds as slots are
    left. *)
Lemma dll_stack_safe_execute_slots fuel : ∀ chunk flag i,
  0 <= i → (Z.to_nat (COMMANDS_PER_CHUNK - i) ≤ fuel)%nat →
  stack_safe rep (λ _, True) (execute_slots fuel chunk flag i).
Proof.
  induction fuel as [|fuel IH]; intros chunk flag i Hi Hfuel; simpl;
    destruct (Z.ltb_spec i COMMANDS_PER_CHUNK);
    try (by apply stack_safe_ret).
  - unfold COMMANDS_PER_CHUNK in *. lia.
  - apply stack_safe_bind; [auto with stack|]. intros cd.
    apply stack_safe_bind; [auto with stack|]. intros c.
    apply (stack_safe_bind_with _ (steps_from i));
      [apply dll_stack_safe_command|].
    intros [k|] Hk; [|by apply stack_safe_ret].
    assert (to_unsigned (i + 1) = i + 1) as Hnext.
    { apply to_unsigned_id.
      unfold is_unsigned, UINT_MODULUS, COMMANDS_PER_CHUNK in *. lia. }
    simpl in Hk. rewrite Hnext in Hk.
    assert (to_unsigned (k + 1) = k + 1) as ->.
    { apply to_unsigned_id.
      unfold is_unsigned, UINT_MODULUS, COMMANDS_PER_CHUNK in *. lia. }
    apply IH; unfold COMMANDS_PER_CHUNK in *; lia.
Qed.

Lemma dll_stack_safe_execute_chunk chunk flag :
  stack_safe rep (λ _, True) (execute_chunk chunk flag).
Proof. by apply dll_stack_safe_execute_slots. Qed.

Lemma dll_stack_safe_mark_visited cur :
  stack_safe rep (λ _, True) (mark_visited cur).
Proof. unfold mark_visited. stack_safe. Qed.

Lemma dll_stack_safe_next_chunk : stack_safe rep (λ _, True) next_chunk.
Proof. unfold next_chunk. stack_safe. Qed.

#[local] Hint Resolve dll_stack_safe_execute_chunk
  dll_stack_safe_mark_visited dll_stack_safe_next_chunk : stack.

Lemma dll_stack_safe_execute_round cur :
  stack_safe rep (λ _, True) (execute_round cur).
Proof. unfold execute_round. stack_safe. Qed.

Lemma dll_stack_safe_execute_rounds n : ∀ cur,
  stack_safe rep (λ _, True) (execute_rounds n cur).
Proof.
  induction n as [|n IH]; intros cur; simpl; [by apply stack_safe_ret|].
  apply stack_safe_bind; [apply dll_stack_safe_execute_round | done].
Qed.

(** [execute_code] starts its loop on the stack that holds a zero;
    [stack_size] is one from the start. *)
Lemma dll_execute_code_init s :
  stack_size (mem s) = 1 →
  ∃ m', execute_code_init s = Ok tt (set_mem m' s) ∧ rep m' [0].
Proof.
  destruct s as [[h tp bt sz] cd inp o e rs rc]. simpl. intros ->.
  unfold execute_code_init. unfold_ops. heap_simpl.
  eexists; split; [reflexivity|].
  split_and!; simpl; [done|unfold INT_MAX; lia| |].
  - repeat constructor; unfold UINT_MODULUS; lia.
  - exists [], [], [malloc_addr h]. split_and!; simpl; heap_simpl; auto.
    apply NoDup_singleton.
Qed.

End Rev1Facts.

(** ** The run as a whole *)

(** From the start of the process on, through loading and any number of
    rounds of the control loop, the run does not stop for want of fuel,
    and the state in which a round returns holds a stack.  Both
    revisions. *)
Theorem run_keeps_stack (r : revision) (filename : string)
    (file : option (list ascii)) (input : list ascii) (draws : nat → Z)
    (n : nat) :
  match (Xrf.read_xrf_file r filename file ;;;
         Xrf.execute_code_init r ;;;
         Xrf.execute_rounds r n 0) (Xrf.initial_state r input draws) with
  | Ok _ s => ∃ l, Xrf.rep r (mem s) l
  | Exit _ _ | Undefined _ => True
  | OutOfFuel => False
  end.
Proof.
  set (s0 := Xrf.initial_state r input draws).
  pose proof (stack_safe_read_xrf_file (λ m _, m = mem s0)
                (match r with Doubly => false | Singly => true end)
                filename file s0 [] eq_refl) as Hload.
  unfold bind at 1. fold (Xrf.read_xrf_file r filename file s0) in Hload.
  destruct (Xrf.read_xrf_file r filename file s0) as [[] s1| | |];
    try done.
  destruct Hload as [_ [_ Hmem]].
  assert (∃ m', Xrf.execute_code_init r s1 = Ok tt (set_mem m' s1) ∧
                Xrf.rep r m' [0]) as (m' & Hinit & Hrep).
  { destruct r.
    - apply Rev1Facts.dll_execute_code_init.
      exact (f_equal Rev1.stack_size Hmem).
    - apply Rev2Facts.sll_execute_code_init. }
  rewrite (bind_Ok _ _ _ _ _ Hinit).
  assert (stack_safe (Xrf.rep r) (λ _, True) (Xrf.execute_rounds r n 0))
    as Hrounds.
  { destruct r.
    - apply Rev1Facts.dll_stack_safe_execute_rounds.
    - apply Rev2Facts.sll_stack_safe_execute_rounds. }
  specialize (Hrounds (set_mem m' s1) [0] Hrep).
  destruct (Xrf.execute_rounds r n 0 (set_mem m' s1)); try done.
  by destruct Hrounds.
Qed.

(** * The claims *)

Ltac decide_by_computation := by apply (bool_decide_unpack _); vm_compute.

Ltac unsigned_by_computation :=
  repeat first
    [ by (unfold is_unsigned, UINT_MODULUS;
          change (2 ^ 32) with 4294967296; lia)
    | apply Forall_nil
    | apply Forall_cons; split ].

(** Proves [Xrf.rep] of an example state whose stack is in the nodes
    [addrs]. *)
Ltac example_rep addrs :=
  lazymatch goal with
  | |- Xrf.rep Doubly _ [] => by split_and!
  | |- Xrf.rep Doubly _ _ =>
      split_and!; [done | done | unsigned_by_computation |];
      exists [1%positive], [9], addrs;
      split_and!; [decide_by_computation | by split_and! | done..]
  | |- Xrf.rep Singly _ _ =>
      exists addrs;
      split_and!;
      [decide_by_computation | first [done | by split_and!] | done | done
      | unsigned_by_computation]
  end.

Example dll_example_rep :
  Xrf.rep Doubly (mem (Examples.holding Doubly [7; 3] (mkCode [] [] 0))) [7; 3].
Proof. example_rep [2%positive; 3%positive]. Qed.
Example dll_example_rep0 :
  Xrf.rep Doubly (mem (Examples.holding Doubly [] (mkCode [] [] 0))) [].
Proof. example_rep (@nil loc). Qed.
Example sll_example_rep :
  Xrf.rep Singly (mem (Examples.holding Singly [7; 3] (mkCode [] [] 0))) [7; 3].
Proof. example_rep [1%positive; 2%positive]. Qed.
Example sll_example_rep0 :
  Xrf.rep Singly (mem (Examples.holding Singly [] (mkCode [] [] 0))) [].
Proof. example_rep (@nil loc). Qed.

(** C6.  Opcode 6 on a stack that is not empty takes one from the value on
    top unless that value is 0, which stays 0: the new top is
    [max 0 (v - 1)], never below 0, and nothing else of the process
    changes.  On the empty stack it prints its message and exits with
    status 1.  Both revisions. *)
Theorem decrement_top_saturates (r : revision) (s : Xrf.state r)
    (flag : bool) (i : Z) (l : list Z) :
  Xrf.rep r (mem s) l →
  (l = [] →
     Xrf.command r "6" flag i s =
       Exit 1 (set_stderr (stderr s ++ [DecrementEmpty]) s)) ∧
  (∀ v rest, l = v :: rest →
     ∃ m', Xrf.command r "6" flag i s = Ok (Break i) (set_mem m' s) ∧
           Xrf.rep r m' (Z.max 0 (v - 1) :: rest) ∧
           0 <= Z.max 0 (v - 1) ∧
           (v = 0 → Z.max 0 (v - 1) = 0) ∧
           (0 < v → Z.max 0 (v - 1) = v - 1)).
Proof.
  intros Hrep. split.
  - intros ->. destruct r.
    + by apply Rev1Facts.dll_command_decrement_empty.
    + by apply Rev2Facts.sll_command_decrement_empty.
  - intros v rest ->.
    assert (∃ m', Xrf.command r "6" flag i s = Ok (Break i) (set_mem m' s) ∧
                  Xrf.rep r m' (Z.max 0 (v - 1) :: rest)) as (m' & Hrun & Hrep').
    { destruct r.
      - by apply Rev1Facts.dll_command_decrement.
      - by apply Rev2Facts.sll_command_decrement. }
    exists m'. split_and!; auto; lia.
Qed.

Lemma decrement_top_saturates_witness :
  (∃ m', Xrf.command Doubly "6" false 2
           (Examples.holding Doubly [0; 3] (Examples.code_of "66B66" [false])) =
         Ok (Break 2)
            (set_mem m'
               (Examples.holding Doubly [0; 3]
                  (Examples.code_of "66B66" [false]))) ∧
         Xrf.rep Doubly m' [0; 3]) ∧
  (∃ m', Xrf.command Singly "6" true 0
           (Examples.holding Singly [7; 3] (Examples.code_of "66B66" [false])) =
         Ok (Break 0)
            (set_mem m'
               (Examples.holding Singly [7; 3]
                  (Examples.code_of "66B66" [false]))) ∧
         Xrf.rep Singly m' [6; 3]).
Proof.
  split.
  - destruct (decrement_top_saturates Doubly
                (Examples.holding Doubly [0; 3]
                   (Examples.code_of "66B66" [false])) false 2 [0; 3])
      as [_ H].
    { example_rep [2%positive; 3%positive]. }
    destruct (H 0 [3] eq_refl) as (m' & Hrun & Hrep & _).
    exists m'. split; assumption.
  - destruct (decrement_top_saturates Singly
                (Examples.holding Singly [7; 3]
                   (Examples.code_of "66B66" [false])) true 0 [7; 3])
      as [_ H].
    { example_rep [1%positive; 2%positive]. }
    destruct (H 7 [3] eq_refl) as (m' & Hrun & Hrep & _).
    exists m'. split; assumption.
Defined.

(** C5.  Opcode E on a stack with top [a] and second value [b] pops [a]
    and leaves [|b - a|], which is not negative, on top of the rest; on a
    stack of fewer than two values it prints its message and exits with
    status 1.  Both revisions. *)
Theorem abs_diff_of_top_two (r : revision) (s : Xrf.state r)
    (flag : bool) (i : Z) (l : list Z) :
  Xrf.rep r (mem s) l →
  ((length l < 2)%nat →
     Xrf.command r "E" flag i s =
       Exit 1 (set_stderr
                 (stderr s ++ [DiffTooFew (bool_decide (l ≠ []))]) s)) ∧
  (∀ a b rest, l = a :: b :: rest →
     ∃ m', Xrf.command r "E" flag i s = Ok (Break i) (set_mem m' s) ∧
           Xrf.rep r m' (Z.abs (b - a) :: rest) ∧
           0 <= Z.abs (b - a)).
Proof.
  intros Hrep. split.
  - intros Hlen. destruct r.
    + by apply Rev1Facts.dll_command_diff_short.
    + by apply Rev2Facts.sll_command_diff_short.
  - intros a b rest ->.
    assert (∃ m', Xrf.command r "E" flag i s = Ok (Break i) (set_mem m' s) ∧
                  Xrf.rep r m' (Z.abs (b - a) :: rest)) as (m' & Hrun & Hrep').
    { destruct r.
      - by apply Rev1Facts.dll_command_diff.
      - by apply Rev2Facts.sll_command_diff. }
    exists m'. split_and!; auto; lia.
Qed.

Lemma abs_diff_of_top_two_witness :
  (∃ m', Xrf.command Doubly "E" false 0
           (Examples.holding Doubly [7; 3] (Examples.code_of "EEB22" [false])) =
         Ok (Break 0)
            (set_mem m'
               (Examples.holding Doubly [7; 3]
                  (Examples.code_of "EEB22" [false]))) ∧
         Xrf.rep Doubly m' [4]) ∧
  Xrf.command Singly "E" false 1
    (Examples.holding Singly [5] (Examples.code_of "EEB22" [false])) =
  Exit 1 (set_stderr [DiffTooFew true]
            (Examples.holding Singly [5] (Examples.code_of "EEB22" [false]))).
Proof.
  split.
  - destruct (abs_diff_of_top_two Doubly
                (Examples.holding Doubly [7; 3]
                   (Examples.code_of "EEB22" [false])) false 0 [7; 3])
      as [_ H].
    { example_rep [2%positive; 3%positive]. }
    destruct (H 7 3 [] eq_refl) as (m' & Hrun & Hrep & _).
    exists m'. split; assumption.
  - apply (abs_diff_of_top_two Singly
             (Examples.holding Singly [5] (Examples.code_of "EEB22" [false]))
             false 1 [5]).
    + example_rep [1%positive].
    + simpl. lia.
Defined.

(** C7.  Opcode 9 ([send_top_to_bottom]) on a stack that is not empty
    takes the top value off and puts it below all the others, which keep
    their order; on a stack of one value it changes nothing; done as many
    times as the stack has values it gives the stack back as it was; on
    the empty stack it prints its message and exits with status 1.  Both
    revisions. *)
Theorem rotate_top_to_bottom (r : revision) (s : Xrf.state r) (l : list Z) :
  Xrf.rep r (mem s) l →
  (l = [] →
     Xrf.send_top_to_bottom r s =
       Exit 1 (set_stderr (stderr s ++ [RotateEmpty]) s)) ∧
  (∀ v, l = [v] → Xrf.send_top_to_bottom r s = Ok tt s) ∧
  (∀ v rest, l = v :: rest →
     ∃ m', Xrf.send_top_to_bottom r s = Ok tt (set_mem m' s) ∧
           Xrf.rep r m' (rest ++ [v])) ∧
  (∃ m', repeat_m (length l) (Xrf.send_top_to_bottom r) s =
           Ok tt (set_mem m' s) ∧
         Xrf.rep r m' l).
Proof.
  intros Hrep. split_and!.
  - intros ->. destruct r.
    + by apply Rev1Facts.dll_send_top_to_bottom_empty.
    + by apply Rev2Facts.sll_send_top_to_bottom_empty.
  - intros v ->. destruct r.
    + by apply Rev1Facts.dll_send_top_to_bottom_one with v.
    + by apply Rev2Facts.sll_send_top_to_bottom_one with v.
  - intros v rest ->. destruct r.
    + by apply Rev1Facts.dll_rotate.
    + by apply Rev2Facts.sll_rotate.
  - assert (drop (length l) l ++ take (length l) l = l) as Hround.
    { by rewrite drop_all, firstn_all. }
    assert (∃ m', repeat_m (length l) (Xrf.send_top_to_bottom r) s =
                    Ok tt (set_mem m' s) ∧
                  Xrf.rep r m' (drop (length l) l ++ take (length l) l))
      as (m' & Hrun & Hrep').
    { destruct r.
      - by apply Rev1Facts.dll_rotate_many.
      - by apply Rev2Facts.sll_rotate_many. }
    exists m'. by rewrite Hround in Hrep'.
Qed.

Lemma rotate_top_to_bottom_witness :
  (∃ m', Xrf.send_top_to_bottom Doubly
           (Examples.holding Doubly [7; 3; 5] (Examples.code_of "99999" [false])) =
         Ok tt
            (set_mem m'
               (Examples.holding Doubly [7; 3; 5]
                  (Examples.code_of "99999" [false]))) ∧
         Xrf.rep Doubly m' [3; 5; 7]) ∧
  (∃ m', repeat_m 3 (Xrf.send_top_to_bottom Singly)
           (Examples.holding Singly [7; 3; 5] (Examples.code_of "99999" [false])) =
         Ok tt
            (set_mem m'
               (Examples.holding Singly [7; 3; 5]
                  (Examples.code_of "99999" [false]))) ∧
         Xrf.rep Singly m' [7; 3; 5]).
Proof.
  split.
  - destruct (rotate_top_to_bottom Doubly
                (Examples.holding Doubly [7; 3; 5]
                   (Examples.code_of "99999" [false])) [7; 3; 5])
      as (_ & _ & H & _).
    { example_rep [2%positive; 3%positive; 4%positive]. }
    exact (H 7 [3; 5] eq_refl).
  - destruct (rotate_top_to_bottom Singly
                (Examples.holding Singly [7; 3; 5]
                   (Examples.code_of "99999" [false])) [7; 3; 5])
      as (_ & _ & _ & H).
    { example_rep [1%positive; 2%positive; 3%positive]. }
    exact H.
Defined.

(** C3.  When a chunk has returned and the stack is not empty, the round
    sets the chunk's flag and reads the value [v] on top of the stack: if
    [v] is at least the number of chunks ([code.len / 5]) it prints the
    message that names [v] and exits with status 1, otherwise the loop
    goes on with chunk [v].  Both revisions, from any state whose memory
    holds a stack; by [run_keeps_stack] every state the loop reaches is
    one. *)
Theorem jump_out_of_range_is_fatal (r : revision) (s s1 : Xrf.state r)
    (cur : Z) (flag : bool) (v : Z) (rest : list Z) :
  0 <= cur → visited (code s) !! Z.to_nat cur = Some flag →
  Xrf.execute_chunk r (to_unsigned (cur * COMMANDS_PER_CHUNK)) flag s =
    Ok tt s1 →
  Xrf.rep r (mem s1) (v :: rest) →
  let s2 := set_code (mkCode (commands (code s1))
                        (<[Z.to_nat cur := true]> (visited (code s1)))
                        (len (code s1))) s1 in
  let chunks := to_unsigned (len (code s1)) / COMMANDS_PER_CHUNK in
  (chunks <= v →
     Xrf.execute_round r cur s =
       Exit 1 (set_stderr (stderr s2 ++ [NoSuchChunk v]) s2) ∧
     Xrf.message r (NoSuchChunk v) =
       ("Error! Cannot go to nonexistent chunk " ++ decimal v ++ "!"
        ++ newline)%string) ∧
  (v < chunks →
     Xrf.execute_round r cur s = Ok v s2 ∧
     ∀ n, Xrf.execute_rounds r (S n) cur s = Xrf.execute_rounds r n v s2).
Proof.
  intros Hcur Hflag Hchunk Hrep s2 chunks.
  assert (Xrf.execute_round r cur s =
            if chunks <=? v
            then Exit 1 (set_stderr (stderr s2 ++ [NoSuchChunk v]) s2)
            else Ok v s2) as Hround.
  { destruct r.
    - by apply (Rev1Facts.dll_execute_round_after _ _ flag _ _ rest).
    - by apply (Rev2Facts.sll_execute_round_after _ _ flag _ _ rest). }
  split.
  - intros Hv. destruct (Z.leb_spec chunks v); [|lia].
    split; [done|]. by destruct r.
  - intros Hv. destruct (Z.leb_spec chunks v); [lia|].
    split; [done|]. intros n.
    destruct r; simpl in *; by rewrite (bind_Ok _ _ _ _ _ Hround).
Qed.

Lemma jump_out_of_range_is_fatal_witness :
  Xrf.execute_round Singly 0
    (Examples.holding Singly [4] (Examples.code_of "AAAAA" [false])) =
  Exit 1
    (set_stderr [NoSuchChunk 4]
       (Examples.holding Singly [4] (Examples.code_of "AAAAA" [true]))) ∧
  Xrf.execute_round Doubly 0
    (Examples.holding Doubly [0; 4] (Examples.code_of "AAAAA" [false])) =
  Ok 0 (Examples.holding Doubly [0; 4] (Examples.code_of "AAAAA" [true])).
Proof.
  split.
  - apply (jump_out_of_range_is_fatal Singly
             (Examples.holding Singly [4] (Examples.code_of "AAAAA" [false]))
             (Examples.holding Singly [4] (Examples.code_of "AAAAA" [false]))
             0 false 4 []).
    + lia.
    + reflexivity.
    + reflexivity.
    + example_rep [1%positive].
    + by vm_compute.
  - apply (jump_out_of_range_is_fatal Doubly
             (Examples.holding Doubly [0; 4] (Examples.code_of "AAAAA" [false]))
             (Examples.holding Doubly [0; 4] (Examples.code_of "AAAAA" [false]))
             0 false 0 [4]).
    + lia.
    + reflexivity.
    + reflexivity.
    + example_rep [2%positive; 3%positive].
    + by vm_compute.
Defined.

(** C8.  The loader takes [F] for a command, and the dispatcher has no
    case for it: the command changes nothing of the process (stack,
    streams, flags) and the loop goes on with the next slot.  Both
    revisions. *)
Theorem opcode_F_does_nothing (r : revision) (s : Xrf.state r)
    (fuel : nat) (chunk : Z) (flag : bool) (i : Z) :
  0 <= chunk → 0 <= i < COMMANDS_PER_CHUNK →
  commands (code s) !! Z.to_nat (chunk + i) = Some "F"%char →
  is_command "F" = true ∧
  Xrf.command r "F" flag i s = Ok (Break i) s ∧
  Xrf.execute_slots r (S fuel) chunk flag i s =
    Xrf.execute_slots r fuel chunk flag (i + 1) s.
Proof.
  intros Hchunk Hi Hc. split; [done|]. split; [by destruct r|].
  assert (to_unsigned (i + 1) = i + 1) as Hnext.
  { apply to_unsigned_id.
    unfold is_unsigned, UINT_MODULUS, COMMANDS_PER_CHUNK in *. lia. }
  rewrite <- Hnext. destruct r.
  - by apply (Rev1Facts.dll_slot_passes _ _ _ _ _ "F"%char).
  - by apply (Rev2Facts.sll_slot_passes _ _ _ _ _ "F"%char).
Qed.

Lemma opcode_F_does_nothing_witness :
  Xrf.execute_slots Singly 4 0 false 1
    (Examples.holding Singly [7; 3] (Examples.code_of "5F5AB" [false])) =
  Xrf.execute_slots Singly 3 0 false 2
    (Examples.holding Singly [7; 3] (Examples.code_of "5F5AB" [false])).
Proof.
  apply (opcode_F_does_nothing Singly
           (Examples.holding Singly [7; 3] (Examples.code_of "5F5AB" [false]))
           3 0 false 1).
  - lia.
  - unfold COMMANDS_PER_CHUNK. lia.
  - reflexivity.
Defined.

(** C9.  The loop of [execute_chunk] does nothing once the slot index is
    5 or more, so a skip in the last slot (8 in a chunk not yet visited,
    C in a visited one) ends the chunk with the process as it was; and
    while the five commands of the chunk are in [code.commands] the chunk
    never reads outside that array.  Both revisions. *)
Theorem skip_in_last_slot_ends_chunk (r : revision) (s : Xrf.state r)
    (fuel : nat) (chunk : Z) (flag : bool) :
  0 <= chunk →
  (∀ i, COMMANDS_PER_CHUNK <= i →
     Xrf.execute_slots r fuel chunk flag i s = Ok tt s) ∧
  (commands (code s) !! Z.to_nat (chunk + 4) =
     Some (if flag then "C" else "8")%char →
   Xrf.execute_slots r (S fuel) chunk flag 4 s = Ok tt s) ∧
  (chunk + COMMANDS_PER_CHUNK <= Z.of_nat (length (commands (code s))) →
   Xrf.execute_chunk r chunk flag s ≠ Undefined (OutOfBounds CommandsArray)).
Proof.
  intros Hchunk. split_and!.
  - intros i Hi. destruct r.
    + by apply Rev1Facts.dll_execute_slots_end.
    + by apply Rev2Facts.sll_execute_slots_end.
  - intros Hc.
    assert (0 <= 4 < COMMANDS_PER_CHUNK) as Hlast.
    { unfold COMMANDS_PER_CHUNK. lia. }
    destruct r.
    + rewrite (Rev1Facts.dll_slot_passes _ _ _ _ _ _ 5 Hchunk Hlast Hc).
      * by apply Rev1Facts.dll_execute_slots_end.
      * by destruct flag.
    + rewrite (Rev2Facts.sll_slot_passes _ _ _ _ _ _ 5 Hchunk Hlast Hc).
      * by apply Rev2Facts.sll_execute_slots_end.
      * by destruct flag.
  - intros Hlen. destruct r.
    + by apply Rev1Facts.dll_execute_slots_in_chunk.
    + by apply Rev2Facts.sll_execute_slots_in_chunk.
Qed.

Lemma skip_in_last_slot_ends_chunk_witness :
  Xrf.execute_slots Doubly 1 5 false 4
    (Examples.holding Doubly [7; 3] (Examples.code_of "AAAAA55558" [false; false])) =
  Ok tt
    (Examples.holding Doubly [7; 3] (Examples.code_of "AAAAA55558" [false; false])) ∧
  Xrf.execute_chunk Singly 5 true
    (Examples.holding Singly [7; 3] (Examples.code_of "AAAAA5555C" [true; true])) ≠
  Undefined (OutOfBounds CommandsArray).
Proof.
  split.
  - apply (skip_in_last_slot_ends_chunk Doubly
             (Examples.holding Doubly [7; 3]
                (Examples.code_of "AAAAA55558" [false; false])) 0 5 false).
    + lia.
    + reflexivity.
  - apply (skip_in_last_slot_ends_chunk Singly
             (Examples.holding Singly [7; 3]
                (Examples.code_of "AAAAA5555C" [true; true])) 0 5 true).
    + lia.
    + by vm_compute.
Defined.

(** C1.  With the flag that [execute_chunk] is given ([code.visited] of
    the chunk as it is before the call): opcode 8 makes the loop go on
    two slots further when the flag is false and one slot further when it
    is true, and opcode C the other way round, the process unchanged; a
    chunk returns at opcode A and after its last slot; and once a round
    has returned, the flag of its chunk is true in every later round, so
    that running the chunk again gives [execute_chunk] a true flag.  Both
    revisions. *)
Theorem skips_follow_the_visited_flag (r : revision) :
  (∀ (s : Xrf.state r) fuel chunk flag i c,
     0 <= chunk → 0 <= i < COMMANDS_PER_CHUNK →
     commands (code s) !! Z.to_nat (chunk + i) = Some c →
     (c = "8"%char →
        Xrf.command r c flag i s =
          Ok (Break (if flag then i else i + 1)) s ∧
        Xrf.execute_slots r (S fuel) chunk flag i s =
          Xrf.execute_slots r fuel chunk flag
            (if flag then i + 1 else i + 2) s) ∧
     (c = "C"%char →
        Xrf.command r c flag i s =
          Ok (Break (if flag then i + 1 else i)) s ∧
        Xrf.execute_slots r (S fuel) chunk flag i s =
          Xrf.execute_slots r fuel chunk flag
            (if flag then i + 2 else i + 1) s) ∧
     (c = "A"%char →
        Xrf.execute_slots r (S fuel) chunk flag i s = Ok tt s)) ∧
  (∀ (s : Xrf.state r) fuel chunk flag,
     Xrf.execute_slots r fuel chunk flag COMMANDS_PER_CHUNK s = Ok tt s) ∧
  (∀ (s s1 s2 : Xrf.state r) cur next n next',
     Xrf.execute_round r cur s = Ok next s1 →
     Xrf.execute_rounds r n next s1 = Ok next' s2 →
     visited (code s1) !! Z.to_nat cur = Some true ∧
     visited (code s2) !! Z.to_nat cur = Some true ∧
     Xrf.execute_round r cur s2 =
       (Xrf.execute_chunk r (to_unsigned (cur * COMMANDS_PER_CHUNK)) true ;;;
        Xrf.mark_visited r cur ;;;
        Xrf.next_chunk r) s2).
Proof.
  split_and!.
  - intros s fuel chunk flag i c Hchunk Hi Hc.
    assert (to_unsigned (i + 1) = i + 1) as H1.
    { apply to_unsigned_id.
      unfold is_unsigned, UINT_MODULUS, COMMANDS_PER_CHUNK in *. lia. }
    assert (to_unsigned (i + 1 + 1) = i + 2) as H2.
    { rewrite to_unsigned_id; [lia|].
      unfold is_unsigned, UINT_MODULUS, COMMANDS_PER_CHUNK in *. lia. }
    assert (∀ k, Xrf.command r c flag i s = Ok (Break k) s →
              Xrf.execute_slots r (S fuel) chunk flag i s =
                Xrf.execute_slots r fuel chunk flag (to_unsigned (k + 1)) s)
      as Hpass.
    { intros k Hk. destruct r.
      - by apply (Rev1Facts.dll_slot_passes _ _ _ _ _ c).
      - by apply (Rev2Facts.sll_slot_passes _ _ _ _ _ c). }
    split_and!; intros ->.
    + assert (Xrf.command r "8" flag i s =
                Ok (Break (if flag then i else i + 1)) s) as Hcmd.
      { destruct r, flag; simpl; unfold ret; by rewrite ?H1. }
      split; [done|]. rewrite (Hpass _ Hcmd). destruct flag; by rewrite ?H1, ?H2.
    + assert (Xrf.command r "C" flag i s =
                Ok (Break (if flag then i + 1 else i)) s) as Hcmd.
      { destruct r, flag; simpl; unfold ret; by rewrite ?H1. }
      split; [done|]. rewrite (Hpass _ Hcmd). destruct flag; by rewrite ?H1, ?H2.
    + destruct r.
      * rewrite (Rev1Facts.dll_execute_slots_step _ _ _ _ _ "A"%char);
          [done|lia|lia|done].
      * rewrite (Rev2Facts.sll_execute_slots_step _ _ _ _ _ "A"%char);
          [done|lia|lia|done].
  - intros s fuel chunk flag. destruct r.
    + by apply Rev1Facts.dll_execute_slots_end.
    + by apply Rev2Facts.sll_execute_slots_end.
  - intros s s1 s2 cur next n next' Hround Hrounds.
    assert (0 <= cur < Z.of_nat (length (visited (code s))) ∧
            code s1 = mkCode (commands (code s))
                        (<[Z.to_nat cur := true]> (visited (code s)))
                        (len (code s))) as [Hcur Hcode].
    { destruct r.
      - by apply (Rev1Facts.dll_execute_round_Ok _ _ next).
      - by apply (Rev2Facts.sll_execute_round_Ok _ _ next). }
    assert (visited (code s1) !! Z.to_nat cur = Some true) as Hset.
    { rewrite Hcode. simpl. apply list_lookup_insert_eq. lia. }
    assert (visited_le (code s1) (code s2)) as Hle.
    { assert (ends_in (λ s', visited_le (code s1) (code s'))
                (Xrf.execute_rounds r n next s1)) as Hends.
      { destruct r.
        - apply Rev1Facts.dll_execute_rounds_visited.
        - apply Rev2Facts.sll_execute_rounds_visited. }
      by rewrite Hrounds in Hends. }
    pose proof (Hle _ Hset) as Hlater.
    split_and!; [done|done|].
    destruct r; simpl.
    + unfold Rev1.execute_round. erewrite bind_Ok; [|reflexivity].
      by erewrite bind_Ok; [|apply array_get_Ok; [lia|done]].
    + unfold Rev2.execute_round. erewrite bind_Ok; [|reflexivity].
      by erewrite bind_Ok; [|apply array_get_Ok; [lia|done]].
Qed.

Lemma skips_follow_the_visited_flag_witness :
  Xrf.execute_slots Singly 5 0 false 0
    (Examples.holding Singly [7; 3] (Examples.code_of "8B5AC" [false])) =
  Xrf.execute_slots Singly 4 0 false 2
    (Examples.holding Singly [7; 3] (Examples.code_of "8B5AC" [false])) ∧
  visited (code (Examples.after Doubly 3 (Examples.booted Doubly "AAAAA")))
    !! Z.to_nat 0 = Some true.
Proof.
  split.
  - apply (proj1 (skips_follow_the_visited_flag Singly)
             (Examples.holding Singly [7; 3] (Examples.code_of "8B5AC" [false]))
             4%nat 0 false 0 "8"%char).
    + lia.
    + unfold COMMANDS_PER_CHUNK. lia.
    + reflexivity.
    + reflexivity.
  - apply (proj2 (proj2 (skips_follow_the_visited_flag Doubly))
             (Examples.booted Doubly "AAAAA")
             (Examples.after Doubly 1 (Examples.booted Doubly "AAAAA"))
             (Examples.after Doubly 3 (Examples.booted Doubly "AAAAA"))
             0 0 2%nat 0).
    + by vm_compute.
    + by vm_compute.
Defined.

(** C10.  Loading clears every flag, and no round of the control loop
    clears one: whether a round (or any number of rounds) returns or
    exits, each flag that was true before is true after.  Both
    revisions. *)
Theorem visited_flags_only_get_set (r : revision) :
  (∀ filename file (s s' : Xrf.state r),
     Xrf.read_xrf_file r filename file s = Ok tt s' →
     visited (code s') =
       replicate (Z.to_nat (len (code s') / COMMANDS_PER_CHUNK)) false) ∧
  (∀ cur (s : Xrf.state r),
     ends_in (λ s', visited_le (code s) (code s'))
       (Xrf.execute_round r cur s)) ∧
  (∀ n cur (s : Xrf.state r),
     ends_in (λ s', visited_le (code s) (code s'))
       (Xrf.execute_rounds r n cur s)).
Proof.
  split_and!.
  - intros filename file s s' Hload.
    by apply read_xrf_file_loaded in Hload as (_ & _ & Hvis).
  - intros cur s. destruct r.
    + apply Rev1Facts.dll_execute_round_visited.
    + apply Rev2Facts.sll_execute_round_visited.
  - intros n cur s. destruct r.
    + apply Rev1Facts.dll_execute_rounds_visited.
    + apply Rev2Facts.sll_execute_rounds_visited.
Qed.

Lemma visited_flags_only_get_set_witness :
  visited (code (Examples.loaded Singly "5AAAA0A555")) =
    replicate
      (Z.to_nat (len (code (Examples.loaded Singly "5AAAA0A555"))
                 / COMMANDS_PER_CHUNK)) false ∧
  ends_in
    (λ s', visited_le (code (Examples.booted Doubly "5AAAA0A555")) (code s'))
    (Xrf.execute_rounds Doubly 2 0 (Examples.booted Doubly "5AAAA0A555")).
Proof.
  split.
  - apply (proj1 (visited_flags_only_get_set Singly) "example"%string
             (Some (list_ascii_of_string "5AAAA0A555"))
             (Xrf.initial_state Singly [] Examples.draws)).
    by vm_compute.
  - apply (proj2 (proj2 (visited_flags_only_get_set Doubly))).
Defined.

(** C2.  What the code does where the claim says loading fails: a file
    with no command in it (empty, or white space only) loads, leaving no
    chunk and a null [code.visited], and the first round of
    [execute_code] then reads [code.visited[0]], outside the array.
    Both revisions. *)
Theorem file_without_commands_is_loaded (r : revision) (bytes : list ascii)
    (input : list ascii) (draws : nat → Z) (rounds : nat) :
  forallb isspace bytes = true →
  Xrf.read_xrf_file r "empty.xrf" (Some bytes)
    (Xrf.initial_state r input draws) =
    Ok tt (Xrf.initial_state r input draws) ∧
  code (Xrf.initial_state r input draws) = mkCode [] [] 0 ∧
  Xrf.main r ["empty.xrf"%string] (λ _, Some bytes) (S rounds)
    (Xrf.initial_state r input draws) =
    Undefined (OutOfBounds VisitedArray).
Proof.
  intros Hspaces.
  assert (Xrf.read_xrf_file r "empty.xrf" (Some bytes)
            (Xrf.initial_state r input draws) =
          Ok tt (Xrf.initial_state r input draws)) as Hload.
  { unfold Xrf.read_xrf_file, read_xrf_file.
    erewrite bind_Ok; [|reflexivity].
    erewrite bind_Ok; [|by apply read_commands_spaces].
    by destruct r. }
  split; [done|]. split; [by destruct r|].
  destruct r.
  - unfold Xrf.main, Rev1.main. unfold Xrf.read_xrf_file in Hload.
    rewrite (bind_Ok _ _ _ _ _ Hload). by vm_compute.
  - unfold Xrf.main, Rev2.main. unfold Xrf.read_xrf_file in Hload.
    erewrite bind_Ok; [|reflexivity]. cbv beta iota.
    rewrite (bind_Ok _ _ _ _ _ Hload). by vm_compute.
Qed.

Lemma file_without_commands_is_loaded_witness :
  Xrf.main Singly ["empty.xrf"%string]
    (λ _, Some [" "%char; ascii_of_nat 10]) 1
    (Xrf.initial_state Singly [] Examples.draws) =
  Undefined (OutOfBounds VisitedArray).
Proof.
  apply (file_without_commands_is_loaded Singly [" "%char; ascii_of_nat 10]
           [] Examples.draws 0).
  reflexivity.
Defined.

(** C4.  What the code does where the claim says shuffling the empty
    stack is a no-op: in the revision with the singly linked stack
    [randomize_stack] on the empty stack starts its shuffling loop at
    [i = UINT_MAX] and divides by [i + 1], which is zero; the program
    2DB22 gets there.  The other revision returns at once and the same
    program halts with status 0. *)
Theorem shuffle_of_empty_stack_divides_by_zero (input : list ascii)
    (draws : nat → Z) (rounds : nat) :
  (∀ s, Xrf.rep Singly (mem s) [] →
        Xrf.randomize_stack Singly s = Undefined DivisionByZero) ∧
  Xrf.main Singly ["shuffle.xrf"%string]
    (λ _, Some (list_ascii_of_string "2DB22")) (S rounds)
    (Xrf.initial_state Singly input draws) =
    Undefined DivisionByZero ∧
  (∀ s, Xrf.rep Doubly (mem s) [] →
        Xrf.randomize_stack Doubly s = Ok tt s) ∧
  ∃ s', Xrf.main Doubly ["shuffle.xrf"%string]
          (λ _, Some (list_ascii_of_string "2DB22")) (S rounds)
          (Xrf.initial_state Doubly input draws) = Exit 0 s'.
Proof.
  split_and!.
  - intros s. apply Rev2Facts.sll_randomize_stack_empty.
  - by vm_compute.
  - intros s. apply Rev1Facts.dll_randomize_stack_empty.
  - eexists. by vm_compute.
Qed.

Lemma shuffle_of_empty_stack_divides_by_zero_witness :
  Xrf.randomize_stack Singly
    (Examples.holding Singly [] (Examples.code_of "2DB22" [false])) =
  Undefined DivisionByZero.
Proof.
  apply (proj1 (shuffle_of_empty_stack_divides_by_zero [] Examples.draws 0)).
  example_rep (@nil loc).
Defined.

(** Where the stack is not empty (and, in the revision with the singly
    linked stack, has no more than 2^31 values, so that the counters of
    [randomize_stack] do not wrap), opcode D returns with the same nodes
    holding a permutation of the values: the multiset of the values and
    the size of the stack are as they were. *)
Theorem randomize_stack_permutes (r : revision) (s : Xrf.state r)
    (l : list Z) :
  Xrf.rep r (mem s) l →
  (r = Singly → l ≠ [] ∧ Z.of_nat (length l) <= 2 ^ 31) →
  ∃ m' calls l',
    Xrf.randomize_stack r s = Ok tt (set_mem m' (set_rand_calls calls s)) ∧
    Xrf.rep r m' l' ∧ l' ≡ₚ l ∧ length l' = length l.
Proof.
  intros Hrep Hsingly.
  assert (∃ m' calls l',
            Xrf.randomize_stack r s =
              Ok tt (set_mem m' (set_rand_calls calls s)) ∧
            Xrf.rep r m' l' ∧ l' ≡ₚ l) as (m' & calls & l' & Hrun & Hrep' & Hp).
  { destruct r.
    - by apply Rev1Facts.dll_randomize_stack.
    - destruct Hsingly as [Hne Hmax]; [done|].
      by apply Rev2Facts.sll_randomize_stack. }
  exists m', calls, l'. split_and!; auto. by rewrite Hp.
Qed.

Lemma randomize_stack_permutes_witness :
  ∃ m' calls l',
    Xrf.randomize_stack Singly
      (Examples.holding Singly [7; 3; 5] (Examples.code_of "DDDDB" [false])) =
      Ok tt
        (set_mem m'
           (set_rand_calls calls
              (Examples.holding Singly [7; 3; 5]
                 (Examples.code_of "DDDDB" [false])))) ∧
    Xrf.rep Singly m' l' ∧ l' ≡ₚ [7; 3; 5] ∧ length l' = 3%nat.
Proof.
  apply (randomize_stack_permutes Singly
           (Examples.holding Singly [7; 3; 5]
              (Examples.code_of "DDDDB" [false])) [7; 3; 5]).
  - example_rep [1%positive; 2%positive; 3%positive].
  - intros _. split; [done|]. simpl. lia.
Defined.

(** * More of the program *)

(** ** The singly linked stack, further *)

Module Rev2More.
Import Rev2 Rev2Facts.

(** Swapping twice leaves the process as it was, node for node. *)
Lemma sll_swap_swap s a b l :
  rep (mem s) (a :: b :: l) → (swap_stack ;;; swap_stack) s = Ok tt s.
Proof.
  intros (addrs & Hnd & Hseg & Hst & Hbt & Hu).
  destruct s as [[h st bt] cd i o e rs rc]. simpl in *.
  destruct addrs as [|x [|y addrs]]; try done.
  { by destruct Hseg as [_ ?]. }
  destruct Hseg as (Hx & Hy & Hseg). simpl in Hst, Hx. subst st.
  apply NoDup_cons in Hnd as [Hx' Hnd].
  apply not_elem_of_cons in Hx' as [Hxy Hx'].
  apply Forall_cons in Hu as [Hua Hu]. apply Forall_cons in Hu as [Hub Hu].
  unfold_ops. heap_simpl.
  rewrite !(to_unsigned_to_int_id) by (done || apply to_unsigned_is_unsigned).
  rewrite !to_unsigned_id by done.
  unfold set_mem. simpl. do 3 f_equal.
  apply map_eq. intros k.
  destruct (decide (k = y)) as [->|Hky].
  { by rewrite lookup_insert_eq. }
  rewrite lookup_insert_ne by done.
  destruct (decide (k = x)) as [->|Hkx].
  { by rewrite lookup_insert_eq. }
  by rewrite !lookup_insert_ne by done.
Qed.

(** What is pushed is popped again, and the node goes back to the
    allocator: the process is as it was. *)
Lemma sll_push_pop s l v :
  rep (mem s) l →
  (push_stack v ;;; pop_stack) s = Ok (to_int (to_unsigned v)) s.
Proof.
  intros (addrs & Hnd & Hseg & Hst & Hbt & Hu).
  destruct s as [[h st bt] cd i o e rs rc]. simpl in *.
  pose proof (malloc_addr_fresh h) as Hfresh.
  assert (delete (malloc_addr h)
            (<[malloc_addr h := mkStack (to_unsigned v) st]> h) = h) as Hback.
  { rewrite delete_insert_eq. by apply delete_id. }
  unfold_ops. heap_simpl.
  destruct bt as [b|]; heap_simpl; rewrite Hback.
  - destruct addrs as [|t addrs]; [done|]. simpl in Hst. by subst st.
  - symmetry in Hbt. apply last_None_nil in Hbt as ->. simpl in Hst.
    by subst st.
Qed.

(** The value of a byte read is below 256. *)
Lemma byte_is_unsigned (c : ascii) :
  0 <= Z.of_N (N_of_ascii c) < 256.
Proof. pose proof (N_ascii_bounded c). lia. Qed.

(** [putchar] of a value popped writes the value modulo 256, whether
    the [int] it gets is negative or not. *)
Lemma to_int_byte v : to_int v mod 256 = v mod 256.
Proof.
  unfold to_int, UINT_MODULUS.
  change (2 ^ 32) with 4294967296. change (2 ^ 31) with 2147483648.
  Z.div_mod_to_equations. lia.
Qed.

Lemma sll_command_input s flag i l :
  rep (mem s) l →
  ∃ m', command "0" flag i s =
          Ok (Break i) (set_mem m' (set_stdin (tail (stdin s)) s)) ∧
        rep m' (match stdin s with
                | [] => 0
                | c :: _ => Z.of_N (N_of_ascii c)
                end :: l).
Proof.
  intros Hrep. unfold command, getchar. unfold bind at 1.
  destruct (stdin s) as [|c rest] eqn:Hin.
  - assert (set_stdin [] s = s) as Hs.
    { destruct s. simpl in Hin. by subst. }
    simpl tail. rewrite Hs.
    destruct (sll_push_stack s l 0 Hrep) as (m' & Hpush & Hrep').
    exists m'. split; [|done].
    change (to_unsigned EOF =? to_unsigned EOF) with true. cbv iota.
    by rewrite (bind_Ok _ _ _ _ _ Hpush).
  - pose proof (byte_is_unsigned c) as Hc.
    set (n := Z.of_N (N_of_ascii c)) in *.
    assert (to_unsigned n = n) as Hn.
    { apply to_unsigned_id. unfold is_unsigned, UINT_MODULUS. lia. }
    assert (to_int n = n) as Hn'.
    { unfold to_int, UINT_MODULUS. rewrite Z.mod_small; lia. }
    destruct (sll_push_stack (set_stdin rest s) l n Hrep)
      as (m' & Hpush & Hrep').
    rewrite Hn in Hrep'.
    exists m'. split; [|done]. simpl tail. rewrite Hn.
    destruct (Z.eqb_spec n (to_unsigned EOF)) as [Heof|_].
    { change (to_unsigned EOF) with 4294967295 in Heof. lia. }
    rewrite Hn'. by rewrite (bind_Ok _ _ _ _ _ Hpush).
Qed.

Lemma sll_command_output s flag i v l :
  rep (mem s) (v :: l) →
  ∃ m', command "1" flag i s =
          Ok (Break i)
             (set_stdout (stdout s ++ [ascii_of_N (Z.to_N (v mod 256))])
                (set_mem m' s)) ∧
        rep m' l.
Proof.
  intros Hrep.
  destruct (sll_pop_stack s v l Hrep) as (m' & Hpop & Hrep').
  destruct Hrep as (addrs & _ & Hseg & Hst & _).
  destruct addrs as [|a addrs]; [done|].
  exists m'. split; [|done].
  unfold command. erewrite bind_Ok; [|reflexivity]. rewrite Hst. cbn [head].
  rewrite (bind_Ok _ _ _ _ _ Hpop).
  unfold putchar. unfold bind, ret. by rewrite to_int_byte.
Qed.

Lemma sll_command_output_empty s flag i :
  rep (mem s) [] →
  command "1" flag i s = Exit 1 (set_stderr (stderr s ++ [OutputEmpty]) s).
Proof.
  intros [Hst _]%sll_rep_nil. unfold command. unfold_ops. by rewrite Hst.
Qed.

(** [free_stack] frees the nodes of the list one by one and nothing
    else. *)
Lemma sll_free_stack : ∀ addrs l fuel s,
  seg (heap (mem s)) addrs l None → NoDup addrs →
  stack (mem s) = first_of addrs None → (length addrs ≤ fuel)%nat →
  ∃ h', free_stack fuel s =
          Ok tt (set_mem (mkMemory h' None (bottom (mem s))) s) ∧
        (∀ a, a ∈ addrs → h' !! a = None) ∧
        (∀ a, a ∉ addrs → h' !! a = heap (mem s) !! a).
Proof.
  induction addrs as [|a addrs IH]; intros [|v l] fuel s Hseg Hnd Hst Hfuel;
    try done.
  - exists (heap (mem s)). split_and!; [|by intros a Ha; inversion Ha|done].
    destruct s as [[h st bt] ?]. simpl in *. subst st.
    by destruct fuel.
  - destruct Hseg as [Ha Hseg]. apply NoDup_cons in Hnd as [Hnotin Hnd].
    destruct fuel as [|fuel]; [simpl in Hfuel; lia|]. simpl in Hfuel.
    set (s1 := set_mem (mkMemory (delete a (heap (mem s)))
                                 (first_of addrs None) (bottom (mem s))) s).
    destruct (IH l fuel s1) as (h' & Hrun & Hgone & Hkept); auto; try lia.
    { by apply sll_seg_delete_frame. }
    exists h'. split_and!.
    + cbn [free_stack]. erewrite bind_Ok; [|reflexivity]. rewrite Hst.
      cbn [first_of].
      rewrite (bind_Ok _ _ _ _ _ (sll_load_next _ _ _ Ha)). cbn [next].
      erewrite bind_Ok; [|reflexivity].
      assert (free (Some a)
                (set_mem (mkMemory (heap (mem s)) (first_of addrs None)
                                   (bottom (mem s))) s) = Ok tt s1) as Hfree.
      { unfold free. unfold_monad. simpl. by rewrite Ha. }
      rewrite (bind_Ok _ _ _ _ _ Hfree). by rewrite Hrun.
    + intros b [->|Hb]%elem_of_cons; [|by apply Hgone].
      rewrite Hkept by done. simpl. apply lookup_delete_eq.
    + intros b [Hne Hb]%not_elem_of_cons. rewrite Hkept by done. simpl.
      by rewrite lookup_delete_ne.
Qed.

End Rev2More.

(** ** The doubly linked stack, further *)

Module Rev1More.
Import Rev1 Rev1Facts.

Lemma dll_push_stack_room s v v0 l :
  rep (mem s) (v0 :: l) → Z.of_nat (length (v0 :: l)) < INT_MAX →
  ∃ m', push_stack v s = Ok tt (set_mem m' s) ∧
        rep m' (to_unsigned v :: v0 :: l).
Proof.
  intros Hrep Hroom. pose proof (dll_push_stack s v v0 l Hrep) as Hpush.
  destruct Hrep as [Hsize _]. rewrite Hsize in Hpush.
  by destruct (decide _).
Qed.

Lemma dll_dup_stack_room s v l :
  rep (mem s) (v :: l) → Z.of_nat (length (v :: l)) < INT_MAX →
  ∃ m', dup_stack s = Ok tt (set_mem m' s) ∧ rep m' (v :: v :: l).
Proof.
  intros Hrep Hroom. pose proof (dll_dup_stack s v l Hrep) as Hdup.
  destruct Hrep as [Hsize _]. rewrite Hsize in Hdup.
  by destruct (decide _).
Qed.

(** Swapping twice leaves the process as it was, node for node. *)
Lemma dll_swap_swap s a b l :
  rep (mem s) (a :: b :: l) → (swap_stack ;;; swap_stack) s = Ok tt s.
Proof.
  intros (spare & svals & t & addrs & Hnd & Hlen & Hs1 & Ht & Hs2 & Htop
          & Hbot & Hsize & Hmax & Hua & Hu)%dll_rep_cons.
  destruct addrs as [|y rest]; [done|]. destruct Hs2 as [Hy Hs2].
  apply Forall_cons in Hu as [Hub Hu].
  apply NoDup_app in Hnd as (_ & _ & Hnd).
  apply NoDup_cons in Hnd as [Ht_rest _].
  assert (t ≠ y) as Hty.
  { intros ->. apply Ht_rest. by left. }
  destruct s as [[h tp bt sz] cd inp o e rs rc]. simpl in *. subst tp.
  assert ((sz <? 2) = false) as Hlt by (apply Z.ltb_ge; lia).
  unfold_ops. heap_simpl. rewrite Hlt. heap_simpl. rewrite Hlt. heap_simpl.
  rewrite !(to_unsigned_to_int_id) by (done || apply to_unsigned_is_unsigned).
  rewrite !to_unsigned_id by done.
  unfold set_mem. simpl. do 3 f_equal.
  apply map_eq. intros k.
  destruct (decide (k = y)) as [->|Hky].
  { by rewrite lookup_insert_eq. }
  rewrite lookup_insert_ne by done.
  destruct (decide (k = t)) as [->|Hkt].
  { by rewrite lookup_insert_eq. }
  by rewrite !lookup_insert_ne by done.
Qed.

(** What is pushed is popped again; the node stays linked in, for the
    next push to use. *)
Lemma dll_push_pop s v v0 l :
  rep (mem s) (v0 :: l) → Z.of_nat (length (v0 :: l)) < INT_MAX →
  ∃ m', (push_stack v ;;; pop_stack) s =
          Ok (to_int (to_unsigned v)) (set_mem m' s) ∧
        rep m' (v0 :: l).
Proof.
  intros Hrep Hroom.
  destruct (dll_push_stack_room s v v0 l Hrep Hroom) as (m1 & Hpush & Hrep1).
  destruct (dll_pop_stack (set_mem m1 s) _ _ Hrep1) as (m' & Hpop & Hrep').
  exists m'. split; [|done].
  rewrite (bind_Ok _ _ _ _ _ Hpush), Hpop. by destruct s.
Qed.

Lemma dll_command_input s flag i v0 l :
  rep (mem s) (v0 :: l) → Z.of_nat (length (v0 :: l)) < INT_MAX →
  ∃ m', command "0" flag i s =
          Ok (Break i) (set_mem m' (set_stdin (tail (stdin s)) s)) ∧
        rep m' (match stdin s with
                | [] => 0
                | c :: _ => Z.of_N (N_of_ascii c)
                end :: v0 :: l).
Proof.
  intros Hrep Hroom. unfold command, getchar. unfold bind at 1.
  destruct (stdin s) as [|c rest] eqn:Hin.
  - assert (set_stdin [] s = s) as Hs.
    { destruct s. simpl in Hin. by subst. }
    simpl tail. rewrite Hs.
    destruct (dll_push_stack_room s 0 v0 l Hrep Hroom)
      as (m' & Hpush & Hrep').
    exists m'. split; [|done].
    change (to_unsigned EOF =? to_unsigned EOF) with true. cbv iota.
    by rewrite (bind_Ok _ _ _ _ _ Hpush).
  - pose proof (Rev2More.byte_is_unsigned c) as Hc.
    set (n := Z.of_N (N_of_ascii c)) in *.
    assert (to_unsigned n = n) as Hn.
    { apply to_unsigned_id. unfold is_unsigned, UINT_MODULUS. lia. }
    assert (to_int n = n) as Hn'.
    { unfold to_int, UINT_MODULUS. rewrite Z.mod_small; lia. }
    destruct (dll_push_stack_room (set_stdin rest s) n v0 l Hrep Hroom)
      as (m' & Hpush & Hrep').
    rewrite Hn in Hrep'.
    exists m'. split; [|done]. simpl tail. rewrite Hn.
    destruct (Z.eqb_spec n (to_unsigned EOF)) as [Heof|_].
    { change (to_unsigned EOF) with 4294967295 in Heof. lia. }
    rewrite Hn'. by rewrite (bind_Ok _ _ _ _ _ Hpush).
Qed.

Lemma dll_command_input_empty s flag i :
  rep (mem s) [] → command "0" flag i s = Undefined NullDereference.
Proof.
  intros Hrep. unfold command, getchar. unfold bind at 1.
  destruct (stdin s) as [|c rest]; cbv zeta;
    match goal with |- context [if ?b then _ else _] => destruct b end;
    unfold bind; by rewrite dll_push_stack_empty.
Qed.

Lemma dll_command_output s flag i v l :
  rep (mem s) (v :: l) →
  ∃ m', command "1" flag i s =
          Ok (Break i)
             (set_stdout (stdout s ++ [ascii_of_N (Z.to_N (v mod 256))])
                (set_mem m' s)) ∧
        rep m' l.
Proof.
  intros Hrep.
  destruct (dll_pop_stack s v l Hrep) as (m' & Hpop & Hrep').
  pose proof Hrep as (Hsize & _).
  exists m'. split; [|done].
  unfold command. step. rewrite Hsize.
  destruct (Z.eqb_spec (Z.of_nat (length (v :: l))) 0) as [|_]; [done|].
  rewrite (bind_Ok _ _ _ _ _ Hpop).
  unfold putchar. unfold bind, ret. by rewrite Rev2More.to_int_byte.
Qed.

Lemma dll_command_output_empty s flag i :
  rep (mem s) [] →
  command "1" flag i s = Exit 1 (set_stderr (stderr s ++ [OutputEmpty]) s).
Proof.
  intros [Hsize _]%dll_rep_nil. unfold command. step. by rewrite Hsize.
Qed.

(** [free_stack] walks back from [bottom] and frees the nodes of the
    list one by one, those kept for reuse too, and nothing else. *)
Lemma dll_free_stack : ∀ nodes vals fuel s tl,
  seg (heap (mem s)) None nodes vals tl → NoDup nodes →
  bottom (mem s) = last_of nodes None → (length nodes ≤ fuel)%nat →
  ∃ h', free_stack fuel s =
          Ok tt (set_mem (mkMemory h' (top (mem s)) None
                                   (stack_size (mem s))) s) ∧
        (∀ a, a ∈ nodes → h' !! a = None) ∧
        (∀ a, a ∉ nodes → h' !! a = heap (mem s) !! a).
Proof.
  induction nodes as [|z xs IH] using rev_ind;
    intros vals fuel s tl Hseg Hnd Hbot Hfuel.
  - exists (heap (mem s)). split_and!; [|by intros a Ha; inversion Ha|done].
    destruct s as [[h tp bt sz] ?]. simpl in *. subst bt.
    by destruct fuel.
  - destruct vals as [|w vs _] using rev_ind.
    { apply dll_seg_length in Hseg. rewrite length_app in Hseg.
      simpl in Hseg. lia. }
    pose proof (dll_seg_length _ _ _ _ _ Hseg) as Hlen.
    rewrite !length_app in Hlen. simpl in Hlen.
    apply dll_seg_app_split in Hseg as [Hxs [Hz _]]; [|lia].
    simpl in Hz, Hxs.
    apply NoDup_app in Hnd as (Hnd & Hdisj & _).
    assert (z ∉ xs) as Hz_xs.
    { intros Hin. apply (Hdisj _ Hin). by left. }
    rewrite last_of_snoc in Hbot.
    rewrite length_app in Hfuel. simpl in Hfuel.
    destruct fuel as [|fuel]; [lia|].
    set (s1 := set_mem (mkMemory (delete z (heap (mem s))) (top (mem s))
                                 (last_of xs None) (stack_size (mem s))) s).
    destruct (IH vs fuel s1 (Some z)) as (h' & Hrun & Hgone & Hkept);
      auto; try lia.
    { eapply dll_seg_frame; [|exact Hxs]. intros c Hc. simpl.
      apply lookup_delete_ne. by intros ->. }
    exists h'. split_and!.
    + cbn [free_stack]. erewrite bind_Ok; [|reflexivity]. rewrite Hbot.
      rewrite (bind_Ok _ _ _ _ _ (dll_load_prev _ _ _ Hz)). cbn [prev].
      erewrite bind_Ok; [|reflexivity].
      assert (free (Some z)
                (set_mem (mkMemory (heap (mem s)) (top (mem s))
                                   (last_of xs None) (stack_size (mem s))) s)
              = Ok tt s1) as Hfree.
      { unfold free. unfold_monad. simpl. by rewrite Hz. }
      rewrite (bind_Ok _ _ _ _ _ Hfree). by rewrite Hrun.
    + intros b [Hb| ->%list_elem_of_singleton]%elem_of_app;
        [by apply Hgone|].
      rewrite Hkept by done. simpl. apply lookup_delete_eq.
    + intros b Hb. rewrite Hkept.
      * simpl. apply lookup_delete_ne. intros ->. apply Hb.
        apply elem_of_app. right. by left.
      * intros Hin. apply Hb. apply elem_of_app. by left.
Qed.

End Rev1More.

(** ** Both revisions *)

Lemma to_int_to_unsigned_id v :
  INT_MIN <= v <= INT_MAX → to_int (to_unsigned v) = v.
Proof.
  unfold to_int, to_unsigned, UINT_MODULUS, INT_MIN, INT_MAX.
  change (2 ^ 32) with 4294967296. change (2 ^ 31) with 2147483648.
  intros Hv. Z.div_mod_to_equations. lia.
Qed.

Lemma set_mem_set_mem {Mem} (m m' : Mem) (s : machine Mem) :
  set_mem m' (set_mem m s) = set_mem m' s.
Proof. reflexivity. Qed.

(** Opcode 0 on a stack that [push_stack] can push on. *)
Lemma xrf_command_input (r : revision) (s : Xrf.state r) flag i l :
  Xrf.rep r (mem s) l →
  (r = Doubly → l ≠ [] ∧ Z.of_nat (length l) < INT_MAX) →
  ∃ m', Xrf.command r "0" flag i s =
          Ok (Break i) (set_mem m' (set_stdin (tail (stdin s)) s)) ∧
        Xrf.rep r m' (match stdin s with
                      | [] => 0
                      | c :: _ => Z.of_N (N_of_ascii c)
                      end :: l).
Proof.
  intros Hrep Hdoubly. destruct r.
  - destruct Hdoubly as [Hne Hroom]; [done|].
    destruct l as [|v0 l]; [done|].
    by apply Rev1More.dll_command_input.
  - by apply Rev2More.sll_command_input.
Qed.

(** Opcode 1 on a stack that is not empty. *)
Lemma xrf_command_output (r : revision) (s : Xrf.state r) flag i v l :
  Xrf.rep r (mem s) (v :: l) →
  ∃ m', Xrf.command r "1" flag i s =
          Ok (Break i)
             (set_stdout (stdout s ++ [ascii_of_N (Z.to_N (v mod 256))])
                (set_mem m' s)) ∧
        Xrf.rep r m' l.
Proof.
  intros Hrep. destruct r.
  - by apply Rev1More.dll_command_output.
  - by apply Rev2More.sll_command_output.
Qed.

(** ** The operations of the stack *)

(** X1.  [pop_stack], and with it opcode 2, takes the value on top off
    the stack and gives it back as an [int]; on the empty stack it prints
    its message and exits with status 1.  Nothing but the memory of the
    stack changes.  Both revisions. *)
Theorem pop_takes_the_top (r : revision) (s : Xrf.state r) (flag : bool)
    (i : Z) (l : list Z) :
  Xrf.rep r (mem s) l →
  (l = [] →
     Xrf.pop_stack r s = Exit 1 (set_stderr (stderr s ++ [PopEmpty]) s) ∧
     Xrf.command r "2" flag i s =
       Exit 1 (set_stderr (stderr s ++ [PopEmpty]) s)) ∧
  (∀ v rest, l = v :: rest →
     ∃ m', Xrf.pop_stack r s = Ok (to_int v) (set_mem m' s) ∧
           Xrf.command r "2" flag i s = Ok (Break i) (set_mem m' s) ∧
           Xrf.rep r m' rest).
Proof.
  intros Hrep. split.
  - intros ->.
    assert (Xrf.pop_stack r s =
              Exit 1 (set_stderr (stderr s ++ [PopEmpty]) s)) as Hpop.
    { destruct r.
      - by apply Rev1Facts.dll_pop_stack_empty.
      - by apply Rev2Facts.sll_pop_stack_empty. }
    split; [done|]. destruct r; simpl in *; unfold bind; by rewrite Hpop.
  - intros v rest ->.
    assert (∃ m', Xrf.pop_stack r s = Ok (to_int v) (set_mem m' s) ∧
                  Xrf.rep r m' rest) as (m' & Hpop & Hrep').
    { destruct r.
      - by apply Rev1Facts.dll_pop_stack.
      - by apply Rev2Facts.sll_pop_stack. }
    exists m'. split_and!; [done| |done].
    destruct r; simpl in *; by rewrite (bind_Ok _ _ _ _ _ Hpop).
Qed.

Lemma pop_takes_the_top_witness :
  (∃ m', Xrf.pop_stack Doubly
           (Examples.holding Doubly [7; 3] (Examples.code_of "22B22" [false]))
         = Ok 7 (set_mem m'
                   (Examples.holding Doubly [7; 3]
                      (Examples.code_of "22B22" [false]))) ∧
         Xrf.rep Doubly m' [3]) ∧
  Xrf.command Singly "2" false 0
    (Examples.holding Singly [] (Examples.code_of "22B22" [false])) =
  Exit 1 (set_stderr [PopEmpty]
            (Examples.holding Singly [] (Examples.code_of "22B22" [false]))).
Proof.
  split.
  - destruct (pop_takes_the_top Doubly
                (Examples.holding Doubly [7; 3]
                   (Examples.code_of "22B22" [false])) false 0 [7; 3])
      as [_ H].
    { example_rep [2%positive; 3%positive]. }
    destruct (H 7 [3] eq_refl) as (m' & Hpop & _ & Hrep).
    exists m'. split; assumption.
  - apply (pop_takes_the_top Singly
             (Examples.holding Singly [] (Examples.code_of "22B22" [false]))
             false 0 []).
    + example_rep (@nil loc).
    + reflexivity.
Defined.

(** X2.  [push_stack] puts the value, taken modulo 2^32, on top of the
    stack and changes nothing else.  The revision with the singly linked
    stack does so on every stack; the other one on a stack that is not
    empty and has fewer than [INT_MAX] values. *)
Theorem push_puts_on_top (r : revision) (s : Xrf.state r) (v : Z)
    (l : list Z) :
  Xrf.rep r (mem s) l →
  (r = Doubly → l ≠ [] ∧ Z.of_nat (length l) < INT_MAX) →
  ∃ m', Xrf.push_stack r v s = Ok tt (set_mem m' s) ∧
        Xrf.rep r m' (to_unsigned v :: l).
Proof.
  intros Hrep Hdoubly. destruct r.
  - destruct Hdoubly as [Hne Hroom]; [done|].
    destruct l as [|v0 l]; [done|].
    by apply Rev1More.dll_push_stack_room.
  - by apply Rev2Facts.sll_push_stack.
Qed.

Lemma push_puts_on_top_witness :
  (∃ m', Xrf.push_stack Singly (-1)
           (Examples.holding Singly [] (Examples.code_of "00B22" [false]))
         = Ok tt (set_mem m'
                    (Examples.holding Singly []
                       (Examples.code_of "00B22" [false]))) ∧
         Xrf.rep Singly m' [4294967295]) ∧
  (∃ m', Xrf.push_stack Doubly 5
           (Examples.holding Doubly [7; 3] (Examples.code_of "00B22" [false]))
         = Ok tt (set_mem m'
                    (Examples.holding Doubly [7; 3]
                       (Examples.code_of "00B22" [false]))) ∧
         Xrf.rep Doubly m' [5; 7; 3]).
Proof.
  split.
  - apply (push_puts_on_top Singly
             (Examples.holding Singly [] (Examples.code_of "00B22" [false]))
             (-1) []).
    + example_rep (@nil loc).
    + discriminate.
  - apply (push_puts_on_top Doubly
             (Examples.holding Doubly [7; 3]
                (Examples.code_of "00B22" [false])) 5 [7; 3]).
    + example_rep [2%positive; 3%positive].
    + intros _. split; [done|]. unfold INT_MAX. simpl. lia.
Defined.

(** X3.  In the revision with the doubly linked stack [push_stack] reads
    [top->prev] before anything else, so on a stack that was emptied,
    where [top] is null, it dereferences the null pointer; opcode 0, which
    pushes whatever it read, does so with it.  The program 20B22 gets
    there in its first round, whatever its input. *)
Theorem push_on_emptied_stack_is_undefined (s : Xrf.state Doubly) (v : Z)
    (flag : bool) (i : Z) :
  Xrf.rep Doubly (mem s) [] →
  Xrf.push_stack Doubly v s = Undefined NullDereference ∧
  Xrf.command Doubly "0" flag i s = Undefined NullDereference ∧
  ∀ (input : list ascii) (draws : nat → Z) (n : nat),
    Xrf.main Doubly ["prog"%string]
      (λ _, Some (list_ascii_of_string "20B22")) (S n)
      (Xrf.initial_state Doubly input draws) = Undefined NullDereference.
Proof.
  intros Hrep. split_and!.
  - by apply Rev1Facts.dll_push_stack_empty.
  - by apply Rev1More.dll_command_input_empty.
  - intros input draws n.
    destruct input as [|[[] [] [] [] [] [] [] []] input]; reflexivity.
Qed.

Lemma push_on_emptied_stack_is_undefined_witness :
  Xrf.command Doubly "0" false 1
    (Examples.holding Doubly [] (Examples.code_of "20B22" [false])) =
  Undefined NullDereference ∧
  Xrf.main Doubly ["prog"%string]
    (λ _, Some (list_ascii_of_string "20B22")) 1
    (Xrf.initial_state Doubly [] Examples.draws) = Undefined NullDereference.
Proof.
  destruct (push_on_emptied_stack_is_undefined
              (Examples.holding Doubly [] (Examples.code_of "20B22" [false]))
              0 false 1) as (_ & Hcommand & Hmain).
  { example_rep (@nil loc). }
  split; [exact Hcommand|apply Hmain].
Defined.

(** X4.  [swap_stack] exchanges the two values on top and leaves the
    rest; done twice it leaves the whole process as it was.  On a stack of
    fewer than two values it prints its message, which tells the empty
    stack from the stack of one, and exits with status 1.  Both
    revisions. *)
Theorem swap_exchanges_the_top_two (r : revision) (s : Xrf.state r)
    (l : list Z) :
  Xrf.rep r (mem s) l →
  ((length l < 2)%nat →
     Xrf.swap_stack r s =
       Exit 1 (set_stderr
                 (stderr s ++ [SwapTooFew (bool_decide (l ≠ []))]) s)) ∧
  (∀ a b rest, l = a :: b :: rest →
     (∃ m', Xrf.swap_stack r s = Ok tt (set_mem m' s) ∧
            Xrf.rep r m' (b :: a :: rest)) ∧
     (Xrf.swap_stack r ;;; Xrf.swap_stack r) s = Ok tt s).
Proof.
  intros Hrep. split.
  - intros Hlen. destruct r.
    + by apply Rev1Facts.dll_swap_stack_short.
    + by apply Rev2Facts.sll_swap_stack_short.
  - intros a b rest ->. destruct r; split.
    + by apply Rev1Facts.dll_swap_stack.
    + by apply (Rev1More.dll_swap_swap s a b rest).
    + by apply Rev2Facts.sll_swap_stack.
    + by apply (Rev2More.sll_swap_swap s a b rest).
Qed.

Lemma swap_exchanges_the_top_two_witness :
  (∃ m', Xrf.swap_stack Singly
           (Examples.holding Singly [7; 3; 5] (Examples.code_of "44B22" [false]))
         = Ok tt (set_mem m'
                    (Examples.holding Singly [7; 3; 5]
                       (Examples.code_of "44B22" [false]))) ∧
         Xrf.rep Singly m' [3; 7; 5]) ∧
  Xrf.swap_stack Doubly
    (Examples.holding Doubly [7] (Examples.code_of "44B22" [false])) =
  Exit 1 (set_stderr [SwapTooFew true]
            (Examples.holding Doubly [7] (Examples.code_of "44B22" [false]))).
Proof.
  split.
  - destruct (swap_exchanges_the_top_two Singly
                (Examples.holding Singly [7; 3; 5]
                   (Examples.code_of "44B22" [false])) [7; 3; 5])
      as [_ H].
    { example_rep [1%positive; 2%positive; 3%positive]. }
    exact (proj1 (H 7 3 [5] eq_refl)).
  - apply (swap_exchanges_the_top_two Doubly
             (Examples.holding Doubly [7] (Examples.code_of "44B22" [false]))
             [7]).
    + example_rep [2%positive].
    + simpl. lia.
Defined.

(** X5.  [dup_stack] pushes a copy of the value on top; on the empty
    stack it prints its message and exits with status 1.  In the revision
    that counts its nodes the stack must have fewer than [INT_MAX]
    values.  Both revisions. *)
Theorem dup_copies_the_top (r : revision) (s : Xrf.state r) (l : list Z) :
  Xrf.rep r (mem s) l →
  (l = [] →
     Xrf.dup_stack r s = Exit 1 (set_stderr (stderr s ++ [DupEmpty]) s)) ∧
  (∀ v rest, l = v :: rest →
     (r = Doubly → Z.of_nat (length l) < INT_MAX) →
     ∃ m', Xrf.dup_stack r s = Ok tt (set_mem m' s) ∧
           Xrf.rep r m' (v :: v :: rest)).
Proof.
  intros Hrep. split.
  - intros ->. destruct r.
    + by apply Rev1Facts.dll_dup_stack_empty.
    + by apply Rev2Facts.sll_dup_stack_empty.
  - intros v rest -> Hroom. destruct r.
    + apply Rev1More.dll_dup_stack_room; auto.
    + by apply Rev2Facts.sll_dup_stack.
Qed.

Lemma dup_copies_the_top_witness :
  ∃ m', Xrf.dup_stack Doubly
          (Examples.holding Doubly [7; 3] (Examples.code_of "33B22" [false]))
        = Ok tt (set_mem m'
                   (Examples.holding Doubly [7; 3]
                      (Examples.code_of "33B22" [false]))) ∧
        Xrf.rep Doubly m' [7; 7; 3].
Proof.
  destruct (dup_copies_the_top Doubly
              (Examples.holding Doubly [7; 3]
                 (Examples.code_of "33B22" [false])) [7; 3])
    as [_ H].
  { example_rep [2%positive; 3%positive]. }
  apply (H 7 [3] eq_refl). intros _. unfold INT_MAX. simpl. lia.
Defined.

(** ** Input and output *)

(** X6.  Opcode 0 reads one byte of the input and pushes its value, 0 to
    255; at the end of the input it pushes 0 and the input stays at its
    end.  (In the revision with the doubly linked stack, on a stack that
    [push_stack] can push on.) *)
Theorem input_pushes_a_byte (r : revision) (s : Xrf.state r) (flag : bool)
    (i : Z) (l : list Z) :
  Xrf.rep r (mem s) l →
  (r = Doubly → l ≠ [] ∧ Z.of_nat (length l) < INT_MAX) →
  ∃ m', Xrf.command r "0" flag i s =
          Ok (Break i) (set_mem m' (set_stdin (tail (stdin s)) s)) ∧
        Xrf.rep r m' (match stdin s with
                      | [] => 0
                      | c :: _ => Z.of_N (N_of_ascii c)
                      end :: l).
Proof. apply xrf_command_input. Qed.

Lemma input_pushes_a_byte_witness :
  ∃ m', Xrf.command Singly "0" false 0
          (set_stdin ["A"%char; "B"%char]
             (Examples.holding Singly [7] (Examples.code_of "01B22" [false])))
        = Ok (Break 0)
            (set_mem m'
               (set_stdin ["B"%char]
                  (Examples.holding Singly [7]
                     (Examples.code_of "01B22" [false])))) ∧
        Xrf.rep Singly m' [65; 7].
Proof.
  apply (input_pushes_a_byte Singly
           (set_stdin ["A"%char; "B"%char]
              (Examples.holding Singly [7] (Examples.code_of "01B22" [false])))
           false 0 [7]).
  - example_rep [1%positive].
  - discriminate.
Defined.

(** X7.  Opcode 1 pops the value on top and writes it, modulo 256, as
    one byte of the output; on the empty stack it prints its message and
    exits with status 1.  Both revisions. *)
Theorem output_pops_a_byte (r : revision) (s : Xrf.state r) (flag : bool)
    (i : Z) (l : list Z) :
  Xrf.rep r (mem s) l →
  (l = [] →
     Xrf.command r "1" flag i s =
       Exit 1 (set_stderr (stderr s ++ [OutputEmpty]) s)) ∧
  (∀ v rest, l = v :: rest →
     ∃ m', Xrf.command r "1" flag i s =
             Ok (Break i)
                (set_stdout (stdout s ++ [ascii_of_N (Z.to_N (v mod 256))])
                   (set_mem m' s)) ∧
           Xrf.rep r m' rest).
Proof.
  intros Hrep. split.
  - intros ->. destruct r.
    + by apply Rev1More.dll_command_output_empty.
    + by apply Rev2More.sll_command_output_empty.
  - intros v rest ->. by apply xrf_command_output.
Qed.

Lemma output_pops_a_byte_witness :
  ∃ m', Xrf.command Doubly "1" false 0
          (Examples.holding Doubly [321; 3] (Examples.code_of "11B22" [false]))
        = Ok (Break 0)
            (set_stdout ["A"%char]
               (set_mem m'
                  (Examples.holding Doubly [321; 3]
                     (Examples.code_of "11B22" [false])))) ∧
        Xrf.rep Doubly m' [3].
Proof.
  destruct (output_pops_a_byte Doubly
              (Examples.holding Doubly [321; 3]
                 (Examples.code_of "11B22" [false])) false 0 [321; 3])
    as [_ H].
  { example_rep [2%positive; 3%positive]. }
  exact (H 321 [3] eq_refl).
Defined.

(** X8.  Opcode 0 followed by opcode 1 copies one byte from the input to
    the output unchanged and leaves the stack as it was; at the end of the
    input the byte written is the zero byte.  (In the revision with the
    doubly linked stack, on a stack that [push_stack] can push on.) *)
Theorem echo_copies_a_byte (r : revision) (s : Xrf.state r) (flag : bool)
    (i : Z) (l : list Z) :
  Xrf.rep r (mem s) l →
  (r = Doubly → l ≠ [] ∧ Z.of_nat (length l) < INT_MAX) →
  ∃ m', (Xrf.command r "0" flag i ;;; Xrf.command r "1" flag i) s =
          Ok (Break i)
             (set_stdout (stdout s ++ [hd zero (stdin s)])
                (set_mem m' (set_stdin (tail (stdin s)) s))) ∧
        Xrf.rep r m' l.
Proof.
  intros Hrep Hdoubly.
  destruct (xrf_command_input r s flag i l Hrep Hdoubly)
    as (m1 & Hin & Hrep1).
  destruct (xrf_command_output r
              (set_mem m1 (set_stdin (tail (stdin s)) s)) flag i _ l Hrep1)
    as (m' & Hout & Hrep').
  exists m'. split; [|done].
  rewrite (bind_Ok _ _ _ _ _ Hin), Hout. rewrite set_mem_set_mem.
  cbn [stdout set_mem set_stdin]. do 3 f_equal.
  destruct (stdin s) as [|c rest]; [done|]. simpl.
  pose proof (Rev2More.byte_is_unsigned c).
  rewrite Z.mod_small by lia. rewrite N2Z.id. by rewrite ascii_N_embedding.
Qed.

Lemma echo_copies_a_byte_witness :
  ∃ m', (Xrf.command Singly "0" false 0 ;;; Xrf.command Singly "1" false 0)
          (set_stdin ["A"%char; "B"%char]
             (Examples.holding Singly [7] (Examples.code_of "01B22" [false])))
        = Ok (Break 0)
            (set_stdout ["A"%char]
               (set_mem m'
                  (set_stdin ["B"%char]
                     (Examples.holding Singly [7]
                        (Examples.code_of "01B22" [false]))))) ∧
        Xrf.rep Singly m' [7].
Proof.
  apply (echo_copies_a_byte Singly
           (set_stdin ["A"%char; "B"%char]
              (Examples.holding Singly [7] (Examples.code_of "01B22" [false])))
           false 0 [7]).
  - example_rep [1%positive].
  - discriminate.
Defined.

(** ** Arithmetic on the top of the stack *)

(** X9.  Opcode 5 adds one to the value on top, modulo 2^32: the
    largest value goes to 0.  On the empty stack it prints its message and
    exits with status 1.  Both revisions. *)
Theorem increment_wraps_around (r : revision) (s : Xrf.state r)
    (flag : bool) (i : Z) (l : list Z) :
  Xrf.rep r (mem s) l →
  (l = [] →
     Xrf.command r "5" flag i s =
       Exit 1 (set_stderr (stderr s ++ [IncrementEmpty]) s)) ∧
  (∀ v rest, l = v :: rest →
     ∃ m', Xrf.command r "5" flag i s = Ok (Break i) (set_mem m' s) ∧
           Xrf.rep r m' (to_unsigned (v + 1) :: rest) ∧
           (v < UINT_MODULUS - 1 → to_unsigned (v + 1) = v + 1) ∧
           (v = UINT_MODULUS - 1 → to_unsigned (v + 1) = 0)).
Proof.
  intros Hrep. split.
  - intros ->. destruct r.
    + by apply Rev1Facts.dll_command_increment_empty.
    + by apply Rev2Facts.sll_command_increment_empty.
  - intros v rest ->.
    assert (0 <= v) as Hv.
    { assert (Forall is_unsigned (v :: rest)) as Hu.
      { destruct r.
        - by destruct Hrep as (_ & _ & Hu & _).
        - by destruct Hrep as (addrs & _ & _ & _ & _ & Hu). }
      apply Forall_cons in Hu as [Hu _]. apply Hu. }
    assert (∃ m', Xrf.command r "5" flag i s = Ok (Break i) (set_mem m' s) ∧
                  Xrf.rep r m' (to_unsigned (v + 1) :: rest))
      as (m' & Hrun & Hrep').
    { destruct r.
      - by apply Rev1Facts.dll_command_increment.
      - by apply Rev2Facts.sll_command_increment. }
    exists m'. split_and!; auto.
    + intros Hlt. apply to_unsigned_id. unfold is_unsigned. lia.
    + intros ->. unfold to_unsigned.
      replace (UINT_MODULUS - 1 + 1) with UINT_MODULUS by lia.
      apply Z.mod_same. unfold UINT_MODULUS. lia.
Qed.

Lemma increment_wraps_around_witness :
  ∃ m', Xrf.command Singly "5" false 0
          (Examples.holding Singly [4294967295; 3]
             (Examples.code_of "55B22" [false]))
        = Ok (Break 0)
            (set_mem m'
               (Examples.holding Singly [4294967295; 3]
                  (Examples.code_of "55B22" [false]))) ∧
        Xrf.rep Singly m' [0; 3].
Proof.
  destruct (increment_wraps_around Singly
              (Examples.holding Singly [4294967295; 3]
                 (Examples.code_of "55B22" [false])) false 0
              [4294967295; 3])
    as [_ H].
  { example_rep [1%positive; 2%positive]. }
  destruct (H 4294967295 [3] eq_refl) as (m' & Hrun & Hrep & _).
  exists m'. split; assumption.
Defined.

(** X10.  Opcode 7 pops the value on top and adds it to the next one,
    modulo 2^32.  On a stack of fewer than two values it prints its
    message and exits with status 1; the message of the revision with the
    singly linked stack lacks the blank before "one-value".  Both
    revisions. *)
Theorem add_wraps_around (r : revision) (s : Xrf.state r) (flag : bool)
    (i : Z) (l : list Z) :
  Xrf.rep r (mem s) l →
  ((length l < 2)%nat →
     Xrf.command r "7" flag i s =
       Exit 1 (set_stderr
                 (stderr s ++ [AddTooFew (bool_decide (l ≠ []))]) s)) ∧
  (∀ a b rest, l = a :: b :: rest →
     ∃ m', Xrf.command r "7" flag i s = Ok (Break i) (set_mem m' s) ∧
           Xrf.rep r m' (to_unsigned (b + a) :: rest) ∧
           (b + a < UINT_MODULUS → to_unsigned (b + a) = b + a)) ∧
  Xrf.message Doubly (AddTooFew true) =
    ("Error! Cannot add the top values of a one-value stack."
     ++ newline)%string ∧
  Xrf.message Singly (AddTooFew true) =
    ("Error! Cannot add the top values of aone-value stack."
     ++ newline)%string.
Proof.
  intros Hrep. split_and!; [| |done|done].
  - intros Hlen. destruct r.
    + by apply Rev1Facts.dll_command_add_short.
    + by apply Rev2Facts.sll_command_add_short.
  - intros a b rest ->.
    assert (0 <= a ∧ 0 <= b) as [Ha Hb].
    { assert (Forall is_unsigned (a :: b :: rest)) as Hu.
      { destruct r.
        - by destruct Hrep as (_ & _ & Hu & _).
        - by destruct Hrep as (addrs & _ & _ & _ & _ & Hu). }
      apply Forall_cons in Hu as [Hua Hu]. apply Forall_cons in Hu as [Hub _].
      split; [apply Hua|apply Hub]. }
    assert (∃ m', Xrf.command r "7" flag i s = Ok (Break i) (set_mem m' s) ∧
                  Xrf.rep r m' (to_unsigned (b + a) :: rest))
      as (m' & Hrun & Hrep').
    { destruct r.
      - by apply Rev1Facts.dll_command_add.
      - by apply Rev2Facts.sll_command_add. }
    exists m'. split_and!; auto.
    intros Hlt. apply to_unsigned_id. unfold is_unsigned. lia.
Qed.

Lemma add_wraps_around_witness :
  (∃ m', Xrf.command Doubly "7" false 0
           (Examples.holding Doubly [4294967295; 3; 5]
              (Examples.code_of "77B22" [false]))
         = Ok (Break 0)
             (set_mem m'
                (Examples.holding Doubly [4294967295; 3; 5]
                   (Examples.code_of "77B22" [false]))) ∧
         Xrf.rep Doubly m' [2; 5]) ∧
  Xrf.command Singly "7" false 0
    (Examples.holding Singly [7] (Examples.code_of "77B22" [false])) =
  Exit 1 (set_stderr [AddTooFew true]
            (Examples.holding Singly [7] (Examples.code_of "77B22" [false]))).
Proof.
  split.
  - destruct (add_wraps_around Doubly
                (Examples.holding Doubly [4294967295; 3; 5]
                   (Examples.code_of "77B22" [false])) false 0
                [4294967295; 3; 5])
      as (_ & H & _).
    { example_rep [2%positive; 3%positive; 4%positive]. }
    destruct (H 4294967295 3 [5] eq_refl) as (m' & Hrun & Hrep & _).
    exists m'. split; assumption.
  - apply (add_wraps_around Singly
             (Examples.holding Singly [7] (Examples.code_of "77B22" [false]))
             false 0 [7]).
    + example_rep [1%positive].
    + simpl. lia.
Defined.

(** X11.  A push followed by a pop gives back the value pushed, as an
    [int], and the stack as it was.  The revision with the singly linked
    stack frees the node it allocated, so that the whole process is as it
    was; the other one keeps the node linked in for the next push. *)
Theorem push_then_pop_gives_back (r : revision) (s : Xrf.state r) (v : Z)
    (l : list Z) :
  Xrf.rep r (mem s) l →
  (r = Doubly → l ≠ [] ∧ Z.of_nat (length l) < INT_MAX) →
  ∃ m', (Xrf.push_stack r v ;;; Xrf.pop_stack r) s =
          Ok (to_int (to_unsigned v)) (set_mem m' s) ∧
        Xrf.rep r m' l ∧
        (r = Singly → m' = mem s) ∧
        (INT_MIN <= v <= INT_MAX → to_int (to_unsigned v) = v).
Proof.
  intros Hrep Hdoubly. destruct r.
  - destruct Hdoubly as [Hne Hroom]; [done|].
    destruct l as [|v0 l]; [done|].
    destruct (Rev1More.dll_push_pop s v v0 l Hrep Hroom)
      as (m' & Hrun & Hrep').
    exists m'. split_and!; auto using to_int_to_unsigned_id. discriminate.
  - exists (mem s). split_and!; auto using to_int_to_unsigned_id.
    rewrite set_mem_same. by apply (Rev2More.sll_push_pop s l).
Qed.

Lemma push_then_pop_gives_back_witness :
  (Xrf.push_stack Singly 9 ;;; Xrf.pop_stack Singly)
    (Examples.holding Singly [7; 3] (Examples.code_of "02B22" [false])) =
  Ok 9 (Examples.holding Singly [7; 3] (Examples.code_of "02B22" [false])).
Proof.
  destruct (push_then_pop_gives_back Singly
              (Examples.holding Singly [7; 3]
                 (Examples.code_of "02B22" [false])) 9 [7; 3])
    as (m' & Hrun & _ & Hsame & _).
  { example_rep [1%positive; 2%positive]. }
  { discriminate. }
  rewrite (Hsame eq_refl) in Hrun. exact Hrun.
Defined.

(** ** Loading, further *)

Section LoaderMore.
Context {Mem : Type}.
Implicit Type s : machine Mem.

Lemma set_code_same s : set_code (code s) s = s.
Proof. by destruct s. Qed.

(** A command is neither white space nor the byte that a [char] takes
    for [EOF]. *)
Lemma is_command_not_space c :
  is_command c = true →
  isspace c = false ∧ (N_of_ascii c =? 255)%N = false.
Proof.
  unfold is_command, isspace. intros Hc.
  destruct (N.eqb_spec (N_of_ascii c) 32), (N.eqb_spec (N_of_ascii c) 255),
    (N.leb_spec 9 (N_of_ascii c)), (N.leb_spec (N_of_ascii c) 13),
    (N.leb_spec 48 (N_of_ascii c)), (N.leb_spec (N_of_ascii c) 57),
    (N.leb_spec 65 (N_of_ascii c)), (N.leb_spec (N_of_ascii c) 70);
    simpl in *; try done; lia.
Qed.

Lemma isspace_not_255 c :
  isspace c = true → (N_of_ascii c =? 255)%N = false.
Proof.
  unfold isspace. intros Hc.
  destruct (N.eqb_spec (N_of_ascii c) 32), (N.eqb_spec (N_of_ascii c) 255),
    (N.leb_spec 9 (N_of_ascii c)), (N.leb_spec (N_of_ascii c) 13);
    simpl in *; try done; lia.
Qed.

(** [grow_code] where there is room for one more chunk. *)
Lemma grow_code_Ok s :
  loading (code s) (len (code s)) →
  len (code s) + COMMANDS_PER_CHUNK <= INT_MAX →
  ∃ vis,
    grow_code s =
      Ok tt (set_code
               (mkCode (commands (code s) ++ replicate 5 zero) vis
                       (len (code s) + COMMANDS_PER_CHUNK)) s).
Proof.
  intros (Hcur & Hmax & _ & Hmod & Hlen & Hvis) Hroom.
  unfold grow_code. erewrite bind_Ok; [|reflexivity].
  erewrite bind_Ok; [|reflexivity].
  assert (to_int (to_unsigned (len (code s) + COMMANDS_PER_CHUNK)) =
          len (code s) + COMMANDS_PER_CHUNK) as ->.
  { apply to_int_to_unsigned_id.
    unfold INT_MIN, INT_MAX, COMMANDS_PER_CHUNK in *. lia. }
  unfold COMMANDS_PER_CHUNK in *.
  destruct (Z.ltb_spec (len (code s) + 5) 0); [lia|].
  assert ((len (code s) + 5) / 5 = len (code s) / 5 + 1) as Hdiv.
  { replace (len (code s) + 5) with (len (code s) + 1 * 5) by lia.
    by rewrite Z.div_add. }
  assert (0 <= len (code s) / 5) by (apply Z.div_pos; lia).
  assert (len (code s) / 5 <= len (code s)).
  { apply Z.div_le_upper_bound; lia. }
  rewrite (to_unsigned_id (len (code s) + 5))
    by (unfold is_unsigned, UINT_MODULUS, INT_MAX in *; lia).
  rewrite Hdiv.
  rewrite (to_unsigned_id (len (code s) / 5 + 1 - 1))
    by (unfold is_unsigned, UINT_MODULUS, INT_MAX in *; lia).
  erewrite bind_Ok.
  2: { apply array_set_Ok. rewrite length_resize. lia. }
  eexists. unfold put_code, set_code. simpl. do 3 f_equal.
  rewrite resize_ge by lia. f_equal.
  by replace (Z.to_nat (len (code s) + 5) - length (commands (code s)))%nat
    with 5%nat by lia.
Qed.

(** [grow_code] never runs into undefined behaviour: where there is no
    room it exits. *)
Lemma grow_code_safe s :
  loading (code s) (len (code s)) →
  match grow_code s with
  | Ok _ s' =>
      mem s' = mem s ∧ stderr s' = stderr s ∧
      len (code s') = len (code s) + COMMANDS_PER_CHUNK ∧
      len (code s') <= INT_MAX ∧
      len (code s') mod COMMANDS_PER_CHUNK = 0 ∧
      Z.of_nat (length (commands (code s'))) = len (code s') ∧
      visited (code s') =
        replicate (Z.to_nat (len (code s') / COMMANDS_PER_CHUNK)) false
  | Exit st _ => st = 1
  | _ => False
  end.
Proof.
  intros Hload.
  destruct (Z.le_gt_cases (len (code s) + COMMANDS_PER_CHUNK) INT_MAX)
    as [Hroom|Hfull].
  - destruct (grow_code_Ok s Hload Hroom) as (vis & Hrun).
    pose proof (grow_code_inv s _ Hrun Hload) as Hinv.
    by rewrite Hrun in *.
  - unfold grow_code. erewrite bind_Ok; [|reflexivity].
    erewrite bind_Ok; [|reflexivity].
    destruct Hload as (? & ? & _).
    destruct (Z.ltb_spec
                (to_int (to_unsigned (len (code s) + COMMANDS_PER_CHUNK))) 0)
      as [|Hpos]; [done|].
    exfalso. revert Hpos.
    unfold to_int, to_unsigned, UINT_MODULUS, INT_MAX, COMMANDS_PER_CHUNK
      in *.
    change (2 ^ 32) with 4294967296 in *.
    change (2 ^ 31) with 2147483648 in *.
    intros Hpos. Z.div_mod_to_equations. lia.
Qed.

(** Reading one command: the array grows where a chunk begins, and the
    command goes into the next cell. *)
Lemma read_commands_command char_c c rest s read :
  is_command c = true → loading_of (code s) read →
  Z.of_nat (length read) + COMMANDS_PER_CHUNK <= INT_MAX →
  ∃ cd', loading_of cd' (read ++ [c]) ∧
    read_commands char_c (c :: rest) (Z.of_nat (length read)) s =
    read_commands char_c rest (Z.of_nat (length (read ++ [c])))
      (set_code cd' s).
Proof.
  intros Hc [Hload Hcmds] Hroom.
  destruct (is_command_not_space c Hc) as [Hsp H255].
  pose proof Hload as (Hcur & Hmax & Hlt & Hmod & Hlen & Hvis).
  cbn [read_commands]. rewrite H255, andb_false_r, Hsp, Hc.
  set (cur := Z.of_nat (length read)) in *.
  assert (Z.of_nat (length (read ++ [c])) = cur + 1) as ->.
  { rewrite length_app. simpl. lia. }
  rewrite (to_unsigned_id cur)
    by (unfold is_unsigned, UINT_MODULUS, INT_MAX in *; lia).
  unfold COMMANDS_PER_CHUNK in *.
  destruct (Z.eqb_spec (cur mod 5) 0) as [Hz|Hnz].
  - assert (cur = len (code s)) as Hcl.
    { apply Z.div_exact in Hz, Hmod; lia. }
    rewrite Hcl in Hload.
    destruct (grow_code_Ok s Hload) as (vis & Hgrow).
    { unfold COMMANDS_PER_CHUNK. lia. }
    pose proof (grow_code_inv s _ Hgrow Hload) as (_ & ? & ? & Hlen' & Hvis').
    cbn [code set_code len commands visited] in Hlen', Hvis'.
    rewrite (bind_Ok _ _ _ _ _ Hgrow).
    erewrite bind_Ok; [|reflexivity].
    erewrite bind_Ok.
    2: { apply array_set_Ok. cbn [code set_code commands].
         unfold COMMANDS_PER_CHUNK in *. lia. }
    erewrite bind_Ok; [|reflexivity].
    erewrite bind_Ok.
    2: { apply int_add_Ok. unfold INT_MIN, INT_MAX in *. lia. }
    eexists. split; [|reflexivity].
    cbn [code set_code len commands visited].
    unfold COMMANDS_PER_CHUNK in *.
    split.
    + unfold loading, COMMANDS_PER_CHUNK.
      cbn [len commands visited]. rewrite length_app. simpl length.
      rewrite length_insert. fold cur. split_and!; auto; lia.
    + cbn [len commands]. rewrite Hcmds.
      replace (Z.to_nat (len (code s)) - length read)%nat with 0%nat by lia.
      simpl replicate. rewrite app_nil_r.
      replace (Z.to_nat cur) with (length read + 0)%nat by lia.
      rewrite insert_app_r. simpl. rewrite <- app_assoc. simpl.
      do 2 f_equal. rewrite length_app. simpl length.
      by replace (Z.to_nat (len (code s) + 5) - (length read + 1))%nat
        with 4%nat by lia.
  - assert (cur ≠ len (code s)) as Hne by congruence.
    erewrite bind_Ok; [|reflexivity].
    erewrite bind_Ok; [|reflexivity].
    erewrite bind_Ok; [|apply array_set_Ok; lia].
    erewrite bind_Ok; [|reflexivity].
    erewrite bind_Ok.
    2: { apply int_add_Ok. unfold INT_MIN, INT_MAX in *. lia. }
    eexists. split; [|reflexivity].
    cbn [code set_code len commands visited].
    split.
    + unfold loading, COMMANDS_PER_CHUNK.
      cbn [len commands visited]. rewrite length_app. simpl length.
      rewrite length_insert. fold cur. split_and!; auto; lia.
    + cbn [len commands]. rewrite Hcmds.
      replace (Z.to_nat cur) with (length read + 0)%nat by lia.
      rewrite insert_app_r.
      replace (Z.to_nat (len (code s)) - length read)%nat
        with (S (Z.to_nat (len (code s)) - length (read ++ [c])))%nat
        by (rewrite length_app; simpl; lia).
      simpl. by rewrite <- app_assoc.
Qed.

(** Reading a stretch of white space and commands. *)
Lemma read_commands_prefix char_c : ∀ pre rest s read,
  Forall (λ c, isspace c = true ∨ is_command c = true) pre →
  loading_of (code s) read →
  Z.of_nat (length read) + Z.of_nat (length (not_space pre)) + 4
    <= INT_MAX →
  ∃ cd', loading_of cd' (read ++ not_space pre) ∧
    read_commands char_c (pre ++ rest) (Z.of_nat (length read)) s =
    read_commands char_c rest (Z.of_nat (length (read ++ not_space pre)))
      (set_code cd' s).
Proof.
  induction pre as [|c pre IH]; intros rest s read Hok Hload Hroom.
  - exists (code s). simpl. by rewrite app_nil_r, set_code_same.
  - apply Forall_cons in Hok as [Hc Hok].
    destruct (isspace c) eqn:Hsp.
    + assert (not_space (c :: pre) = not_space pre) as Hns.
      { unfold not_space. simpl. by rewrite Hsp. }
      rewrite Hns in *.
      destruct (IH rest s read Hok Hload) as (cd' & Hload' & Hrun); [lia|].
      exists cd'. split; [done|]. simpl.
      by rewrite (isspace_not_255 c Hsp), andb_false_r, Hsp.
    + destruct Hc as [|Hc]; [done|].
      assert (not_space (c :: pre) = c :: not_space pre) as Hns.
      { unfold not_space. simpl. by rewrite Hsp. }
      rewrite Hns in *. simpl length in Hroom.
      destruct (read_commands_command char_c c (pre ++ rest) s read Hc Hload)
        as (cd1 & Hload1 & Hrun1).
      { unfold COMMANDS_PER_CHUNK. lia. }
      destruct (IH rest (set_code cd1 s) (read ++ [c]) Hok Hload1)
        as (cd' & Hload' & Hrun).
      { rewrite length_app. simpl. lia. }
      replace (read ++ c :: not_space pre)
        with ((read ++ [c]) ++ not_space pre) by by rewrite <- app_assoc.
      exists cd'. split; [done|].
      change ((c :: pre) ++ rest) with (c :: pre ++ rest).
      by rewrite Hrun1, Hrun.
Qed.

(** What the loader has made of the code when the commands read fill
    whole chunks. *)
Lemma loading_of_whole cd read :
  loading_of cd read → Z.of_nat (length read) mod COMMANDS_PER_CHUNK = 0 →
  cd = mkCode read
         (replicate (Z.to_nat (Z.of_nat (length read) / COMMANDS_PER_CHUNK))
            false)
         (Z.of_nat (length read)).
Proof.
  intros [(Hcur & Hmax & Hlt & Hmod & Hlen & Hvis) Hcmds] Hwhole.
  unfold COMMANDS_PER_CHUNK in *.
  assert (len cd = Z.of_nat (length read)) as Hl.
  { apply Z.div_exact in Hwhole, Hmod; lia. }
  destruct cd as [cmds vis n]. simpl in *. clear Hlen. subst n.
  rewrite Hcmds, Hvis.
  replace (Z.to_nat (Z.of_nat (length read)) - length read)%nat with 0%nat
    by lia.
  simpl. by rewrite app_nil_r.
Qed.

Lemma loading_of_nil : loading_of (mkCode [] [] 0) [].
Proof.
  split; [|done]. unfold loading, COMMANDS_PER_CHUNK, INT_MAX. simpl.
  split_and!; lia || done.
Qed.

(** [read_xrf_file] on a file that begins with a stretch of white space
    and commands. *)
Lemma read_xrf_file_prefix char_c filename pre rest s :
  Forall (λ c, isspace c = true ∨ is_command c = true) pre →
  Z.of_nat (length (not_space pre)) + 4 <= INT_MAX →
  ∃ cd', loading_of cd' (not_space pre) ∧
    read_xrf_file char_c filename (Some (pre ++ rest)) s =
    (cur_cmd <- read_commands char_c rest
                  (Z.of_nat (length (not_space pre))) ;;
     if negb (to_unsigned cur_cmd mod COMMANDS_PER_CHUNK =? 0)
     then fatal InadequateLength
     else ret tt) (set_code cd' s).
Proof.
  intros Hok Hroom.
  destruct (read_commands_prefix char_c pre rest
              (set_code (mkCode [] [] 0) s) [] Hok loading_of_nil)
    as (cd' & Hload & Hrun); [simpl; lia|].
  exists cd'. split; [done|].
  unfold read_xrf_file. erewrite bind_Ok; [|reflexivity].
  unfold bind at 1. unfold bind at 1.
  change (Z.of_nat (length [])) with 0 in Hrun.
  change (put_code (mkCode [] [] 0) s)
    with (Ok tt (set_code (mkCode [] [] 0) s)).
  cbv iota. by rewrite Hrun.
Qed.

(** In the revision that reads into a [char], the byte 255 is taken for
    the end of the file. *)
Lemma read_commands_byte_255 post : ∀ pre cur s,
  read_commands true (pre ++ ascii_of_N 255 :: post) cur s =
  read_commands (Mem := Mem) true pre cur s.
Proof.
  induction pre as [|c pre IH]; intros cur s; [done|].
  cbn [read_commands app].
  destruct (true && (N_of_ascii c =? 255)%N); [done|].
  destruct (isspace c); [apply IH|].
  destruct (is_command c); [|done].
  unfold bind.
  repeat match goal with
         | |- match ?m with _ => _ end = match ?m with _ => _ end =>
             destruct m as [? ?| | |]; try done
         end.
Qed.

(** The loader has no undefined behaviour, whatever the file holds, and
    leaves the memory of the stack alone. *)
Lemma read_commands_safe char_c : ∀ file cur s,
  loading (code s) cur →
  match read_commands char_c file cur s with
  | Ok n s' => loading (code s') n ∧ mem s' = mem s
  | Exit st _ => st = 1
  | _ => False
  end.
Proof.
  induction file as [|c rest IH]; intros cur s Hload; [done|].
  cbn [read_commands].
  destruct (char_c && (N_of_ascii c =? 255)%N); [done|].
  destruct (isspace c); [by apply IH|].
  destruct (is_command c); [|done].
  pose proof Hload as (Hcur & Hmax & Hlt & Hmod & Hlen & Hvis).
  rewrite (to_unsigned_id cur)
    by (unfold is_unsigned, UINT_MODULUS, INT_MAX in *; lia).
  unfold COMMANDS_PER_CHUNK in *.
  assert (∀ s1, mem s1 = mem s →
            cur < len (code s1) <= cur + 5 → len (code s1) <= INT_MAX →
            len (code s1) mod 5 = 0 →
            Z.of_nat (length (commands (code s1))) = len (code s1) →
            visited (code s1) =
              replicate (Z.to_nat (len (code s1) / 5)) false →
            match
              (cd <- get_code ;;
               new_commands <- array_set CommandsArray (commands cd) cur c ;;
               put_code (mkCode new_commands (visited cd) (len cd)) ;;;
               next_cmd <- int_add cur 1 ;;
               read_commands char_c rest next_cmd) s1
            with
            | Ok n s' => loading (code s') n ∧ mem s' = mem s
            | Exit st _ => st = 1
            | _ => False
            end) as Hstore.
  { intros s1 Hmem1 Hlt1 Hmax1 Hmod1 Hlen1 Hvis1.
    erewrite bind_Ok; [|reflexivity].
    erewrite bind_Ok; [|apply array_set_Ok; lia].
    erewrite bind_Ok; [|reflexivity].
    erewrite bind_Ok.
    2: { apply int_add_Ok. unfold INT_MIN, INT_MAX in *. lia. }
    match goal with |- match read_commands _ _ _ ?s2 with _ => _ end =>
      specialize (IH (cur + 1) s2);
      assert (loading (code s2) (cur + 1)) as Hload2
    end.
    { unfold loading, COMMANDS_PER_CHUNK.
      cbn [code set_code len commands visited].
      rewrite length_insert. split_and!; auto; lia. }
    specialize (IH Hload2).
    destruct (read_commands _ _ _ _) as [n s'| | |]; try done.
    by destruct IH as [? ->]. }
  destruct (Z.eqb_spec (cur mod 5) 0) as [Hz|Hnz].
  - assert (cur = len (code s)) as Hcl.
    { apply Z.div_exact in Hz, Hmod; lia. }
    rewrite Hcl in Hload. pose proof (grow_code_safe s Hload) as Hgrow.
    unfold bind at 1.
    destruct (grow_code s) as [[] s1| | |]; try done.
    destruct Hgrow as (Hmem1 & _ & Hlen1 & ? & ? & ? & ?).
    unfold COMMANDS_PER_CHUNK in *. apply Hstore; auto; lia.
  - assert (cur ≠ len (code s)) as Hne by congruence.
    unfold bind at 1. unfold ret at 1. apply Hstore; auto; lia.
Qed.

Lemma read_xrf_file_safe char_c filename file s :
  match read_xrf_file char_c filename file s with
  | Ok _ s' => whole_chunks (code s') ∧ mem s' = mem s
  | Exit st _ => st = 1
  | _ => False
  end.
Proof.
  unfold read_xrf_file. destruct file as [bytes|]; [|done].
  erewrite bind_Ok; [|reflexivity].
  pose proof (read_commands_safe char_c bytes 0
                (set_code (mkCode [] [] 0) s)) as Hread.
  unfold bind.
  destruct (read_commands _ _ _ _) as [n s1| | |]; try (by apply Hread).
  - destruct Hread as [(Hcur & Hmax & Hlt & Hmod & Hlen & Hvis) Hmem].
    { apply loading_of_nil. }
    rewrite (to_unsigned_id n)
      by (unfold is_unsigned, UINT_MODULUS, INT_MAX in *; lia).
    unfold COMMANDS_PER_CHUNK in *.
    destruct (Z.eqb_spec (n mod 5) 0) as [Hz|Hnz]; [|done].
    simpl. split; [|done].
    assert (0 <= len (code s1) / 5) by (apply Z.div_pos; lia).
    unfold whole_chunks, COMMANDS_PER_CHUNK. split_and!; auto; try lia.
    rewrite Hvis, length_replicate. lia.
Qed.

End LoaderMore.

(** ** The loader *)

Lemma read_commands_unknown {Mem} char_c c post cur (s : machine Mem) :
  isspace c = false → is_command c = false →
  (char_c = true → (N_of_ascii c < 128)%N) →
  read_commands char_c (c :: post) cur s =
    Exit 1 (set_stderr (stderr s ++ [UnknownCharacter c]) s).
Proof.
  intros Hsp Hc Hlow. cbn [read_commands]. rewrite Hsp, Hc.
  destruct char_c; [|done].
  destruct (N.eqb_spec (N_of_ascii c) 255) as [H255|]; [|done].
  specialize (Hlow eq_refl). lia.
Qed.

(** X12.  [read_xrf_file] on a file of white space and commands whose
    commands fill whole chunks: the code holds the commands in the order
    of the file, without the white space, [len] is their number and
    every chunk has its flag cleared; nothing else changes.  The number
    of commands is to leave room for one more chunk below [INT_MAX].
    Both revisions. *)
Theorem loader_keeps_the_commands (r : revision) (s : Xrf.state r)
    (filename : string) (file : list ascii) :
  Forall (λ c, isspace c = true ∨ is_command c = true) file →
  Z.of_nat (length (not_space file)) mod COMMANDS_PER_CHUNK = 0 →
  Z.of_nat (length (not_space file)) + 4 <= INT_MAX →
  Xrf.read_xrf_file r filename (Some file) s =
    Ok tt
      (set_code
         (mkCode (not_space file)
            (replicate
               (Z.to_nat (Z.of_nat (length (not_space file))
                          / COMMANDS_PER_CHUNK)) false)
            (Z.of_nat (length (not_space file)))) s).
Proof.
  intros Hok Hwhole Hroom.
  destruct (read_xrf_file_prefix
              (match r with Doubly => false | Singly => true end)
              filename file [] s Hok Hroom) as (cd' & Hload & Hrun).
  rewrite app_nil_r in Hrun. unfold Xrf.read_xrf_file. rewrite Hrun.
  cbn [read_commands]. unfold bind, ret.
  rewrite to_unsigned_id
    by (unfold is_unsigned, UINT_MODULUS, INT_MAX in *; lia).
  rewrite Hwhole. simpl. by rewrite (loading_of_whole cd' _ Hload Hwhole).
Qed.

Lemma loader_keeps_the_commands_witness :
  Xrf.read_xrf_file Singly "prog"
    (Some (list_ascii_of_string "2 2B 22"))
    (Xrf.initial_state Singly [] Examples.draws) =
  Ok tt
    (set_code (mkCode (list_ascii_of_string "22B22") [false] 5)
       (Xrf.initial_state Singly [] Examples.draws)).
Proof.
  apply (loader_keeps_the_commands Singly
           (Xrf.initial_state Singly [] Examples.draws) "prog"
           (list_ascii_of_string "2 2B 22")).
  - repeat (constructor; [(by left) || (by right)|]). constructor.
  - reflexivity.
  - vm_compute. discriminate.
Defined.

(** X13.  A file whose commands do not fill the last chunk is refused:
    [read_xrf_file] prints "Error! Inadequate code length!" and exits
    with status 1, the stack, the input and the output as they were.
    Both revisions. *)
Theorem loader_refuses_a_partial_chunk (r : revision) (s : Xrf.state r)
    (filename : string) (file : list ascii) :
  Forall (λ c, isspace c = true ∨ is_command c = true) file →
  Z.of_nat (length (not_space file)) mod COMMANDS_PER_CHUNK ≠ 0 →
  Z.of_nat (length (not_space file)) + 4 <= INT_MAX →
  ∃ cd',
    Xrf.read_xrf_file r filename (Some file) s =
      Exit 1 (set_stderr (stderr s ++ [InadequateLength]) (set_code cd' s)) ∧
    Xrf.message r InadequateLength
      = ("Error! Inadequate code length!" ++ newline)%string.
Proof.
  intros Hok Hpart Hroom.
  destruct (read_xrf_file_prefix
              (match r with Doubly => false | Singly => true end)
              filename file [] s Hok Hroom) as (cd' & Hload & Hrun).
  rewrite app_nil_r in Hrun. exists cd'. split; [|by destruct r].
  unfold Xrf.read_xrf_file. rewrite Hrun.
  cbn [read_commands]. unfold bind, ret.
  rewrite to_unsigned_id
    by (unfold is_unsigned, UINT_MODULUS, INT_MAX in *; lia).
  by destruct (Z.eqb_spec
                 (Z.of_nat (length (not_space file)) mod COMMANDS_PER_CHUNK)
                 0).
Qed.

Lemma loader_refuses_a_partial_chunk_witness :
  ∃ cd',
    Xrf.read_xrf_file Doubly "prog"
      (Some (list_ascii_of_string "22B22 0 1"))
      (Xrf.initial_state Doubly [] Examples.draws) =
      Exit 1 (set_stderr [InadequateLength]
                (set_code cd' (Xrf.initial_state Doubly [] Examples.draws))) ∧
    Xrf.message Doubly InadequateLength
      = ("Error! Inadequate code length!" ++ newline)%string.
Proof.
  apply (loader_refuses_a_partial_chunk Doubly
           (Xrf.initial_state Doubly [] Examples.draws) "prog"
           (list_ascii_of_string "22B22 0 1")).
  - repeat (constructor; [(by left) || (by right)|]). constructor.
  - vm_compute. discriminate.
  - vm_compute. discriminate.
Defined.

(** X14.  The first character of the file that is neither white space
    nor one of [0]-[9], [A]-[F] stops the loader: it prints "Error!
    Unknown character", the character and " encountered!", and exits
    with status 1, whatever follows in the file.  In the revision that
    reads into a [char] the character is taken below 128, where a [char]
    is not negative.  Lower-case [a]-[f] are such characters. *)
Theorem loader_refuses_other_characters (r : revision) (s : Xrf.state r)
    (filename : string) (pre post : list ascii) (c : ascii) :
  Forall (λ c, isspace c = true ∨ is_command c = true) pre →
  Z.of_nat (length (not_space pre)) + 4 <= INT_MAX →
  isspace c = false → is_command c = false →
  (r = Singly → (N_of_ascii c < 128)%N) →
  ∃ cd',
    Xrf.read_xrf_file r filename (Some (pre ++ c :: post)) s =
      Exit 1 (set_stderr (stderr s ++ [UnknownCharacter c])
                (set_code cd' s)) ∧
    Xrf.message r (UnknownCharacter c)
      = ("Error! Unknown character " ++ String c " encountered!"
         ++ newline)%string.
Proof.
  intros Hok Hroom Hsp Hc Hlow.
  destruct (read_xrf_file_prefix
              (match r with Doubly => false | Singly => true end)
              filename pre (c :: post) s Hok Hroom) as (cd' & Hload & Hrun).
  exists cd'. split; [|by destruct r].
  unfold Xrf.read_xrf_file. rewrite Hrun. unfold bind.
  rewrite read_commands_unknown; [done..|].
  destruct r; [done|]. intros _. by apply Hlow.
Qed.

Lemma loader_refuses_other_characters_witness :
  ∃ cd',
    Xrf.read_xrf_file Singly "prog"
      (Some (list_ascii_of_string "22b22"))
      (Xrf.initial_state Singly [] Examples.draws) =
      Exit 1 (set_stderr [UnknownCharacter "b"]
                (set_code cd' (Xrf.initial_state Singly [] Examples.draws))) ∧
    Xrf.message Singly (UnknownCharacter "b")
      = ("Error! Unknown character b encountered!" ++ newline)%string.
Proof.
  apply (loader_refuses_other_characters Singly
           (Xrf.initial_state Singly [] Examples.draws) "prog"
           (list_ascii_of_string "22") (list_ascii_of_string "22") "b").
  - repeat (constructor; [(by left) || (by right)|]). constructor.
  - vm_compute. discriminate.
  - reflexivity.
  - reflexivity.
  - intros _. reflexivity.
Defined.

(** X15.  The byte 255 is, in the revision that reads into a [char],
    equal to [EOF] once it is stored in [c]: the file ends there for the
    loader, and what follows the byte is never looked at.  The revision
    that reads into an [int] refuses the byte as an unknown character. *)
Theorem byte_255_ends_the_file (s : Xrf.state Singly) (s' : Xrf.state Doubly)
    (filename : string) (pre post : list ascii) :
  Forall (λ c, isspace c = true ∨ is_command c = true) pre →
  Z.of_nat (length (not_space pre)) + 4 <= INT_MAX →
  Xrf.read_xrf_file Singly filename
    (Some (pre ++ ascii_of_N 255 :: post)) s =
  Xrf.read_xrf_file Singly filename (Some pre) s ∧
  ∃ cd',
    Xrf.read_xrf_file Doubly filename
      (Some (pre ++ ascii_of_N 255 :: post)) s' =
    Exit 1 (set_stderr (stderr s' ++ [UnknownCharacter (ascii_of_N 255)])
              (set_code cd' s')).
Proof.
  intros Hok Hroom. split.
  - unfold Xrf.read_xrf_file, read_xrf_file, bind.
    destruct (put_code _ s) as [[] s1| | |]; try done.
    by rewrite read_commands_byte_255.
  - destruct (read_xrf_file_prefix false filename pre
                (ascii_of_N 255 :: post) s' Hok Hroom)
      as (cd' & Hload & Hrun).
    exists cd'. unfold Xrf.read_xrf_file. rewrite Hrun. unfold bind.
    by rewrite read_commands_unknown.
Qed.

Lemma byte_255_ends_the_file_witness :
  Xrf.read_xrf_file Singly "prog"
    (Some (list_ascii_of_string "22B22" ++
           ascii_of_N 255 :: list_ascii_of_string "b"))
    (Xrf.initial_state Singly [] Examples.draws) =
  Xrf.read_xrf_file Singly "prog" (Some (list_ascii_of_string "22B22"))
    (Xrf.initial_state Singly [] Examples.draws) ∧
  ∃ cd',
    Xrf.read_xrf_file Doubly "prog"
      (Some (list_ascii_of_string "22B22" ++
             ascii_of_N 255 :: list_ascii_of_string "b"))
      (Xrf.initial_state Doubly [] Examples.draws) =
    Exit 1 (set_stderr [UnknownCharacter (ascii_of_N 255)]
              (set_code cd' (Xrf.initial_state Doubly [] Examples.draws))).
Proof.
  apply (byte_255_ends_the_file
           (Xrf.initial_state Singly [] Examples.draws)
           (Xrf.initial_state Doubly [] Examples.draws) "prog"
           (list_ascii_of_string "22B22") (list_ascii_of_string "b")).
  - repeat (constructor; [(by left) || (by right)|]). constructor.
  - vm_compute. discriminate.
Defined.

(** X16.  [read_xrf_file] has no undefined behaviour, whatever the file
    holds and however long it is: it returns or it exits with status 1.
    When it returns, [code.len] is a multiple of five that an [int]
    holds, [code.commands] has [code.len] cells and [code.visited] one
    for each chunk, and the memory of the stack is as it was.  The
    revision that reads into a [char] is given bytes below 128 (a byte
    above is a negative [char], on which the standard does not define
    [isspace]).  [realloc] fails on a negative [code.len] and is taken
    to succeed otherwise. *)
Theorem loader_has_no_undefined_behaviour (r : revision) (s : Xrf.state r)
    (filename : string) (file : option (list ascii)) :
  (r = Singly →
   ∀ bytes, file = Some bytes → Forall (λ c, (N_of_ascii c < 128)%N) bytes) →
  match Xrf.read_xrf_file r filename file s with
  | Ok _ s' => whole_chunks (code s') ∧ mem s' = mem s
  | Exit st _ => st = 1
  | Undefined _ | OutOfFuel => False
  end.
Proof.
  intros _.
  pose proof (read_xrf_file_safe
                (match r with Doubly => false | Singly => true end)
                filename file s) as Hsafe.
  unfold Xrf.read_xrf_file.
  by destruct (read_xrf_file _ _ _ _).
Qed.

Lemma loader_has_no_undefined_behaviour_witness :
  match Xrf.read_xrf_file Singly "prog"
          (Some (list_ascii_of_string "22B22 0z"))
          (Xrf.initial_state Singly [] Examples.draws) with
  | Ok _ s' =>
      whole_chunks (code s') ∧
      mem s' = mem (Xrf.initial_state Singly [] Examples.draws)
  | Exit st _ => st = 1
  | Undefined _ | OutOfFuel => False
  end.
Proof.
  apply (loader_has_no_undefined_behaviour Singly
           (Xrf.initial_state Singly [] Examples.draws) "prog"
           (Some (list_ascii_of_string "22B22 0z"))).
  intros _ bytes [= <-]. repeat (constructor; [reflexivity|]). constructor.
Defined.

(** ** The undefined behaviour a run can meet *)

Create HintDb faults discriminated.

Section FaultsOnly.
Context {Mem : Type} (rep : Mem → list Z → Prop) (allowed : undefined → Prop).

Lemma faults_only_bind_with {A B} (P : A → Prop) (m : M (machine Mem) A)
    (k : A → M (machine Mem) B) :
  stack_safe rep P m → faults_only rep allowed m →
  (∀ a, P a → faults_only rep allowed (k a)) →
  faults_only rep allowed (x <- m ;; k x).
Proof.
  intros Hsafe Hm Hk s l Hrep.
  specialize (Hsafe s l Hrep). specialize (Hm s l Hrep). unfold bind.
  destruct (m s) as [a s1| | |]; try done.
  destruct Hsafe as [Ha [l1 Hrep1]]. by apply (Hk a Ha s1 l1).
Qed.

Lemma faults_only_bind {A B} (m : M (machine Mem) A)
    (k : A → M (machine Mem) B) :
  stack_safe rep (λ _, True) m → faults_only rep allowed m →
  (∀ a, faults_only rep allowed (k a)) →
  faults_only rep allowed (x <- m ;; k x).
Proof. intros Hsafe Hm Hk. apply (faults_only_bind_with (λ _, True)); auto. Qed.

(** A step that is always defined. *)
Lemma faults_only_defined {A} (m : M (machine Mem) A) :
  (∀ s, match m s with Undefined _ => False | _ => True end) →
  faults_only rep allowed m.
Proof. intros Hm s l _. specialize (Hm s). by destruct (m s). Qed.

Lemma faults_only_ret {A} (a : A) : faults_only rep allowed (ret a).
Proof. by apply faults_only_defined. Qed.

Lemma faults_only_exit {A} st : faults_only rep allowed (exit (A := A) st).
Proof. by apply faults_only_defined. Qed.

Lemma faults_only_fatal {A} d : faults_only rep allowed (fatal (A := A) d).
Proof. by apply faults_only_defined. Qed.

Lemma faults_only_getchar : faults_only rep allowed getchar.
Proof.
  apply faults_only_defined. intros s. unfold getchar. by destruct (stdin s).
Qed.

Lemma faults_only_putchar c : faults_only rep allowed (putchar c).
Proof. by apply faults_only_defined. Qed.

End FaultsOnly.

#[export] Hint Resolve faults_only_ret faults_only_exit faults_only_fatal
  faults_only_getchar faults_only_putchar : faults.

(** Splits a computation into its steps, as [stack_safe] does. *)
Ltac faults_only :=
  repeat first
    [ progress intros
    | solve [auto with faults]
    | apply faults_only_bind; [solve [stack_safe] | |]
    | match goal with
      | |- faults_only _ _ (match ?x with _ => _ end) => destruct x
      end ].

Module Rev2Faults.
Import Rev2 Rev2Facts.

#[local] Hint Resolve sll_stack_safe_push_stack sll_stack_safe_pop_stack
  sll_stack_safe_swap_stack sll_stack_safe_dup_stack
  sll_stack_safe_send_top_to_bottom sll_stack_safe_randomize_stack
  sll_stack_safe_get_stack sll_stack_safe_load_val : stack.

Lemma sll_faults_get_stack : faults_only rep (Xrf.stack_fault Singly) get_stack.
Proof. by apply faults_only_defined. Qed.

Lemma sll_faults_push_stack v :
  faults_only rep (Xrf.stack_fault Singly) (push_stack v).
Proof.
  intros s l Hrep. by destruct (sll_push_stack s l v Hrep) as (m' & -> & _).
Qed.

Lemma sll_faults_pop_stack : faults_only rep (Xrf.stack_fault Singly) pop_stack.
Proof.
  intros s [|v l] Hrep.
  - by rewrite sll_pop_stack_empty.
  - by destruct (sll_pop_stack s v l Hrep) as (m' & -> & _).
Qed.

Lemma sll_faults_swap_stack :
  faults_only rep (Xrf.stack_fault Singly) swap_stack.
Proof.
  intros s l Hrep. destruct l as [|a [|b l]].
  - by erewrite sll_swap_stack_short; [|done|simpl; lia].
  - by erewrite sll_swap_stack_short; [|done|simpl; lia].
  - by destruct (sll_swap_stack s a b l Hrep) as (m' & -> & _).
Qed.

Lemma sll_faults_dup_stack : faults_only rep (Xrf.stack_fault Singly) dup_stack.
Proof.
  intros s [|v l] Hrep.
  - by rewrite sll_dup_stack_empty.
  - by destruct (sll_dup_stack s v l Hrep) as (m' & -> & _).
Qed.

Lemma sll_faults_send_top_to_bottom :
  faults_only rep (Xrf.stack_fault Singly) send_top_to_bottom.
Proof.
  intros s [|v l] Hrep.
  - by rewrite sll_send_top_to_bottom_empty.
  - by destruct (sll_rotate s v l Hrep) as (m' & -> & _).
Qed.

Lemma sll_faults_randomize_stack :
  faults_only rep (Xrf.stack_fault Singly) randomize_stack.
Proof.
  intros s l Hrep.
  destruct (decide (l = [])) as [->|Hne].
  - rewrite sll_randomize_stack_empty by done. by left.
  - destruct (Z.le_gt_cases (Z.of_nat (length l)) (2 ^ 31)) as [Hle|Hgt].
    + by destruct (sll_randomize_stack s l Hrep Hne Hle)
        as (m' & calls & l' & -> & _).
    + erewrite sll_randomize_stack_overflow by (done || lia). by right.
Qed.

#[local] Hint Resolve sll_faults_get_stack sll_faults_push_stack
  sll_faults_pop_stack sll_faults_swap_stack sll_faults_dup_stack
  sll_faults_send_top_to_bottom sll_faults_randomize_stack : faults.

(** No command has undefined behaviour but [randomize_stack]'s. *)
Lemma sll_faults_command c flag i :
  faults_only rep (Xrf.stack_fault Singly) (command c flag i).
Proof.
  destruct (ascii_dec c "5") as [->|H5].
  { intros s [|v l] Hrep.
    - by rewrite sll_command_increment_empty.
    - by destruct (sll_command_increment s flag i v l Hrep) as (m' & -> & _). }
  destruct (ascii_dec c "6") as [->|H6].
  { intros s [|v l] Hrep.
    - by rewrite sll_command_decrement_empty.
    - by destruct (sll_command_decrement s flag i v l Hrep) as (m' & -> & _). }
  destruct (ascii_dec c "7") as [->|H7].
  { intros s l Hrep. destruct l as [|a [|b l]].
    - by erewrite sll_command_add_short; [|done|simpl; lia].
    - by erewrite sll_command_add_short; [|done|simpl; lia].
    - by destruct (sll_command_add s flag i a b l Hrep) as (m' & -> & _). }
  destruct (ascii_dec c "E") as [->|HE].
  { intros s l Hrep. destruct l as [|a [|b l]].
    - by erewrite sll_command_diff_short; [|done|simpl; lia].
    - by erewrite sll_command_diff_short; [|done|simpl; lia].
    - by destruct (sll_command_diff s flag i a b l Hrep) as (m' & -> & _). }
  unfold command.
  destruct flag, c as [[] [] [] [] [] [] [] []]; try done; faults_only.
Qed.

(** A chunk whose five commands lie in [code.commands] runs without
    other undefined behaviour either. *)
Lemma sll_faults_execute_slots fuel : ∀ chunk flag i s l,
  rep (mem s) l → 0 <= chunk → 0 <= i →
  chunk + COMMANDS_PER_CHUNK <= Z.of_nat (length (commands (code s))) →
  match execute_slots fuel chunk flag i s with
  | Undefined u => Xrf.stack_fault Singly u
  | _ => True
  end.
Proof.
  induction fuel as [|fuel IH]; intros chunk flag i s l Hrep Hchunk Hi Hlen;
    simpl; destruct (Z.ltb_spec i COMMANDS_PER_CHUNK); try done.
  erewrite bind_Ok; [|reflexivity].
  destruct (lookup_lt_is_Some_2 (commands (code s)) (Z.to_nat (chunk + i)))
    as [c Hc].
  { unfold COMMANDS_PER_CHUNK in *. lia. }
  erewrite bind_Ok; [|apply array_get_Ok; [lia|exact Hc]].
  pose proof (sll_stack_safe_command c flag i s l Hrep) as Hsafe.
  pose proof (sll_faults_command c flag i s l Hrep) as Hfault.
  pose proof (sll_code_safe_command c flag i s) as Hcode.
  unfold bind. destruct (command c flag i s) as [[k|] s1| | |]; try done.
  destruct Hsafe as [Hk [l1 Hrep1]].
  apply (IH _ _ _ s1 l1); try done.
  - apply to_unsigned_is_unsigned.
  - by rewrite Hcode.
Qed.

(** One round of the control loop, on a chunk that the code has: the
    round keeps the stack a stack and the code whole, and the chunk it
    goes on with is one that the code has. *)
Lemma sll_execute_round_sound cur s l :
  rep (mem s) l → whole_chunks (code s) →
  0 <= cur < len (code s) / COMMANDS_PER_CHUNK →
  match execute_round cur s with
  | Ok next s' =>
      (∃ l', rep (mem s') l') ∧ whole_chunks (code s') ∧
      0 <= next < len (code s') / COMMANDS_PER_CHUNK
  | Exit _ _ => True
  | Undefined u => Xrf.stack_fault Singly u
  | OutOfFuel => False
  end.
Proof.
  intros Hrep (Hlen & Hmod & Hcmds & Hvis) Hcur.
  unfold execute_round, execute_chunk. unfold COMMANDS_PER_CHUNK in *.
  assert (len (code s) = 5 * (len (code s) / 5)) as Hdiv
    by by apply Z.div_exact.
  erewrite bind_Ok; [|reflexivity].
  destruct (lookup_lt_is_Some_2 (visited (code s)) (Z.to_nat cur))
    as [flag Hflag]; [lia|].
  erewrite bind_Ok; [|apply array_get_Ok; [lia|exact Hflag]].
  assert (to_unsigned (cur * 5) = cur * 5) as Hchunk.
  { apply to_unsigned_id. unfold is_unsigned, UINT_MODULUS, INT_MAX in *.
    lia. }
  rewrite Hchunk.
  pose proof (sll_stack_safe_execute_chunk (cur * 5) flag s l Hrep) as Hsafe.
  pose proof (sll_faults_execute_slots (Z.to_nat 5) (cur * 5) flag 0 s l Hrep)
    as Hfault.
  pose proof (sll_execute_chunk_code (cur * 5) flag s) as Hcode.
  unfold execute_chunk, COMMANDS_PER_CHUNK in *. unfold bind at 1.
  change (Z.to_nat 5) with 5%nat in *.
  destruct (execute_slots _ _ _ _ s) as [[] s1| | |]; try done.
  - destruct Hsafe as [_ [l1 Hrep1]]. simpl in Hcode.
    erewrite bind_Ok; [|apply sll_mark_visited; rewrite Hcode; lia].
    destruct l1 as [|v l1].
    + by rewrite sll_next_chunk_empty.
    + erewrite sll_next_chunk by exact Hrep1.
      cbn [code set_code len commands visited].
      rewrite Hcode.
      rewrite (to_unsigned_id (len (code s)))
        by (unfold is_unsigned, UINT_MODULUS, INT_MAX in *; lia).
      unfold COMMANDS_PER_CHUNK.
      destruct (Z.leb_spec (len (code s) / 5) v); [done|].
      split; [by exists (v :: l1)|].
      cbn [code set_code len commands visited].
      destruct Hrep1 as (? & _ & _ & _ & _ & Hu).
      apply Forall_cons in Hu as [[Hv _] _].
      unfold whole_chunks, COMMANDS_PER_CHUNK.
      cbn [len commands visited]. rewrite length_insert.
      split_and!; auto; lia.
  - apply Hfault; lia.
Qed.

Lemma sll_execute_rounds_sound n : ∀ cur s l,
  rep (mem s) l → whole_chunks (code s) →
  0 <= cur < len (code s) / COMMANDS_PER_CHUNK →
  match execute_rounds n cur s with
  | Ok _ s' => (∃ l', rep (mem s') l') ∧ whole_chunks (code s')
  | Exit _ _ => True
  | Undefined u => Xrf.stack_fault Singly u
  | OutOfFuel => False
  end.
Proof.
  induction n as [|n IH]; intros cur s l Hrep Hcode Hcur; simpl.
  - split; [by exists l|done].
  - pose proof (sll_execute_round_sound cur s l Hrep Hcode Hcur) as Hround.
    unfold bind. destruct (execute_round cur s) as [next s1| | |]; try done.
    destruct Hround as ([l1 Hrep1] & Hcode1 & Hnext). by apply (IH _ _ l1).
Qed.

(** The run from the start of [main]'s work: loading, then the loop.
    The flag of chunk 0 is read before anything else of the code, also
    when the code has no chunk. *)
Lemma sll_run_sound filename file s n :
  match (read_xrf_file true filename file ;;;
         execute_code_init ;;;
         execute_rounds n 0) s with
  | Undefined u =>
      Xrf.stack_fault Singly u ∨
      u = OutOfBounds VisitedArray ∧
      ∃ s1, read_xrf_file true filename file s = Ok tt s1 ∧
            len (code s1) = 0
  | OutOfFuel => False
  | Ok _ s' => (∃ l, rep (mem s') l) ∧ whole_chunks (code s')
  | Exit _ _ => True
  end.
Proof.
  pose proof (read_xrf_file_safe true filename file s) as Hload.
  unfold bind at 1.
  destruct (read_xrf_file true filename file s) as [[] s1| | |] eqn:Hrun;
    try done.
  destruct Hload as [Hwhole Hmem].
  destruct (sll_execute_code_init s1) as (m' & Hinit & Hrep).
  rewrite (bind_Ok _ _ _ _ _ Hinit).
  destruct (decide (len (code s1) = 0)) as [Hnone|Hsome].
  - destruct n as [|n]; [simpl; split; [by exists [0]|done]|]. simpl.
    pose proof Hwhole as (_ & _ & _ & Hvis). rewrite Hnone in Hvis.
    assert (visited (code s1) = []) as Hnil.
    { destruct (visited (code s1)); [done|]. simpl in Hvis.
      change (0 / COMMANDS_PER_CHUNK) with 0 in Hvis. lia. }
    unfold execute_round. unfold bind at 1.
    erewrite bind_Ok; [|reflexivity].
    cbn [code set_mem]. rewrite Hnil. simpl. right. split; [done|].
    by exists s1.
  - pose proof (sll_execute_rounds_sound n 0 (set_mem m' s1) [0] Hrep)
      as Hrounds.
    cbn [code set_mem] in Hrounds. specialize (Hrounds Hwhole).
    destruct Hwhole as (Hlen & Hmod & _). unfold COMMANDS_PER_CHUNK in *.
    apply Z.div_exact in Hmod; [|done].
    destruct (execute_rounds n 0 (set_mem m' s1)); try done.
    + apply Hrounds. lia.
    + left. apply Hrounds. lia.
    + apply Hrounds. lia.
Qed.

End Rev2Faults.

Module Rev1Faults.
Import Rev1 Rev1Facts.

#[local] Hint Resolve dll_stack_safe_push_stack dll_stack_safe_pop_stack
  dll_stack_safe_swap_stack dll_stack_safe_dup_stack
  dll_stack_safe_send_top_to_bottom dll_stack_safe_randomize_stack
  dll_stack_safe_get_stack_size dll_stack_safe_get_top
  dll_stack_safe_load_val : stack.

Lemma dll_faults_get_top : faults_only rep (Xrf.stack_fault Doubly) get_top.
Proof. by apply faults_only_defined. Qed.

Lemma dll_faults_get_stack_size :
  faults_only rep (Xrf.stack_fault Doubly) get_stack_size.
Proof. by apply faults_only_defined. Qed.

Lemma dll_faults_push_stack v :
  faults_only rep (Xrf.stack_fault Doubly) (push_stack v).
Proof.
  intros s [|v0 l] Hrep.
  - rewrite dll_push_stack_empty by done. by left.
  - pose proof (dll_push_stack s v v0 l Hrep) as Hpush.
    destruct (decide _); [|rewrite Hpush; by right].
    by destruct Hpush as (m' & -> & _).
Qed.

Lemma dll_faults_pop_stack : faults_only rep (Xrf.stack_fault Doubly) pop_stack.
Proof.
  intros s [|v l] Hrep.
  - by rewrite dll_pop_stack_empty.
  - by destruct (dll_pop_stack s v l Hrep) as (m' & -> & _).
Qed.

Lemma dll_faults_swap_stack :
  faults_only rep (Xrf.stack_fault Doubly) swap_stack.
Proof.
  intros s l Hrep. destruct l as [|a [|b l]].
  - by erewrite dll_swap_stack_short; [|done|simpl; lia].
  - by erewrite dll_swap_stack_short; [|done|simpl; lia].
  - by destruct (dll_swap_stack s a b l Hrep) as (m' & -> & _).
Qed.

Lemma dll_faults_dup_stack : faults_only rep (Xrf.stack_fault Doubly) dup_stack.
Proof.
  intros s [|v l] Hrep.
  - by rewrite dll_dup_stack_empty.
  - pose proof (dll_dup_stack s v l Hrep) as Hdup.
    destruct (decide _); [|rewrite Hdup; by right].
    by destruct Hdup as (m' & -> & _).
Qed.

Lemma dll_faults_send_top_to_bottom :
  faults_only rep (Xrf.stack_fault Doubly) send_top_to_bottom.
Proof.
  intros s [|v l] Hrep.
  - by rewrite dll_send_top_to_bottom_empty.
  - by destruct (dll_rotate s v l Hrep) as (m' & -> & _).
Qed.

Lemma dll_faults_randomize_stack :
  faults_only rep (Xrf.stack_fault Doubly) randomize_stack.
Proof.
  intros s l Hrep.
  by destruct (dll_randomize_stack s l Hrep) as (m' & calls & l' & -> & _).
Qed.

#[local] Hint Resolve dll_faults_get_top dll_faults_get_stack_size
  dll_faults_push_stack
  dll_faults_pop_stack dll_faults_swap_stack dll_faults_dup_stack
  dll_faults_send_top_to_bottom dll_faults_randomize_stack : faults.

(** No command has undefined behaviour but [push_stack]'s. *)
Lemma dll_faults_command c flag i :
  faults_only rep (Xrf.stack_fault Doubly) (command c flag i).
Proof.
  destruct (ascii_dec c "5") as [->|H5].
  { intros s [|v l] Hrep.
    - by rewrite dll_command_increment_empty.
    - by destruct (dll_command_increment s flag i v l Hrep) as (m' & -> & _). }
  destruct (ascii_dec c "6") as [->|H6].
  { intros s [|v l] Hrep.
    - by rewrite dll_command_decrement_empty.
    - by destruct (dll_command_decrement s flag i v l Hrep) as (m' & -> & _). }
  destruct (ascii_dec c "7") as [->|H7].
  { intros s l Hrep. destruct l as [|a [|b l]].
    - by erewrite dll_command_add_short; [|done|simpl; lia].
    - by erewrite dll_command_add_short; [|done|simpl; lia].
    - by destruct (dll_command_add s flag i a b l Hrep) as (m' & -> & _). }
  destruct (ascii_dec c "E") as [->|HE].
  { intros s l Hrep. destruct l as [|a [|b l]].
    - by erewrite dll_command_diff_short; [|done|simpl; lia].
    - by erewrite dll_command_diff_short; [|done|simpl; lia].
    - by destruct (dll_command_diff s flag i a b l Hrep) as (m' & -> & _). }
  unfold command.
  destruct flag, c as [[] [] [] [] [] [] [] []]; try done; faults_only.
Qed.

(** A chunk whose five commands lie in [code.commands] runs without
    other undefined behaviour either. *)
Lemma dll_faults_execute_slots fuel : ∀ chunk flag i s l,
  rep (mem s) l → 0 <= chunk → 0 <= i →
  chunk + COMMANDS_PER_CHUNK <= Z.of_nat (length (commands (code s))) →
  match execute_slots fuel chunk flag i s with
  | Undefined u => Xrf.stack_fault Doubly u
  | _ => True
  end.
Proof.
  induction fuel as [|fuel IH]; intros chunk flag i s l Hrep Hchunk Hi Hlen;
    simpl; destruct (Z.ltb_spec i COMMANDS_PER_CHUNK); try done.
  erewrite bind_Ok; [|reflexivity].
  destruct (lookup_lt_is_Some_2 (commands (code s)) (Z.to_nat (chunk + i)))
    as [c Hc].
  { unfold COMMANDS_PER_CHUNK in *. lia. }
  erewrite bind_Ok; [|apply array_get_Ok; [lia|exact Hc]].
  pose proof (dll_stack_safe_command c flag i s l Hrep) as Hsafe.
  pose proof (dll_faults_command c flag i s l Hrep) as Hfault.
  pose proof (dll_code_safe_command c flag i s) as Hcode.
  unfold bind. destruct (command c flag i s) as [[k|] s1| | |]; try done.
  destruct Hsafe as [Hk [l1 Hrep1]].
  apply (IH _ _ _ s1 l1); try done.
  - apply to_unsigned_is_unsigned.
  - by rewrite Hcode.
Qed.

(** One round of the control loop, on a chunk that the code has: the
    round keeps the stack a stack and the code whole, and the chunk it
    goes on with is one that the code has. *)
Lemma dll_execute_round_sound cur s l :
  rep (mem s) l → whole_chunks (code s) →
  0 <= cur < len (code s) / COMMANDS_PER_CHUNK →
  match execute_round cur s with
  | Ok next s' =>
      (∃ l', rep (mem s') l') ∧ whole_chunks (code s') ∧
      0 <= next < len (code s') / COMMANDS_PER_CHUNK
  | Exit _ _ => True
  | Undefined u => Xrf.stack_fault Doubly u
  | OutOfFuel => False
  end.
Proof.
  intros Hrep (Hlen & Hmod & Hcmds & Hvis) Hcur.
  unfold execute_round, execute_chunk. unfold COMMANDS_PER_CHUNK in *.
  assert (len (code s) = 5 * (len (code s) / 5)) as Hdiv
    by by apply Z.div_exact.
  erewrite bind_Ok; [|reflexivity].
  destruct (lookup_lt_is_Some_2 (visited (code s)) (Z.to_nat cur))
    as [flag Hflag]; [lia|].
  erewrite bind_Ok; [|apply array_get_Ok; [lia|exact Hflag]].
  assert (to_unsigned (cur * 5) = cur * 5) as Hchunk.
  { apply to_unsigned_id. unfold is_unsigned, UINT_MODULUS, INT_MAX in *.
    lia. }
  rewrite Hchunk.
  pose proof (dll_stack_safe_execute_chunk (cur * 5) flag s l Hrep) as Hsafe.
  pose proof (dll_faults_execute_slots (Z.to_nat 5) (cur * 5) flag 0 s l Hrep)
    as Hfault.
  pose proof (dll_execute_chunk_code (cur * 5) flag s) as Hcode.
  unfold execute_chunk, COMMANDS_PER_CHUNK in *. unfold bind at 1.
  change (Z.to_nat 5) with 5%nat in *.
  destruct (execute_slots _ _ _ _ s) as [[] s1| | |]; try done.
  - destruct Hsafe as [_ [l1 Hrep1]]. simpl in Hcode.
    erewrite bind_Ok; [|apply dll_mark_visited; rewrite Hcode; lia].
    destruct l1 as [|v l1].
    + by rewrite dll_next_chunk_empty.
    + erewrite dll_next_chunk by exact Hrep1.
      cbn [code set_code len commands visited].
      rewrite Hcode.
      rewrite (to_unsigned_id (len (code s)))
        by (unfold is_unsigned, UINT_MODULUS, INT_MAX in *; lia).
      unfold COMMANDS_PER_CHUNK.
      destruct (Z.leb_spec (len (code s) / 5) v); [done|].
      split; [by exists (v :: l1)|].
      cbn [code set_code len commands visited].
      destruct Hrep1 as (_ & _ & Hu & _).
      apply Forall_cons in Hu as [[Hv _] _].
      unfold whole_chunks, COMMANDS_PER_CHUNK.
      cbn [len commands visited]. rewrite length_insert.
      split_and!; auto; lia.
  - apply Hfault; lia.
Qed.

Lemma dll_execute_rounds_sound n : ∀ cur s l,
  rep (mem s) l → whole_chunks (code s) →
  0 <= cur < len (code s) / COMMANDS_PER_CHUNK →
  match execute_rounds n cur s with
  | Ok _ s' => (∃ l', rep (mem s') l') ∧ whole_chunks (code s')
  | Exit _ _ => True
  | Undefined u => Xrf.stack_fault Doubly u
  | OutOfFuel => False
  end.
Proof.
  induction n as [|n IH]; intros cur s l Hrep Hcode Hcur; simpl.
  - split; [by exists l|done].
  - pose proof (dll_execute_round_sound cur s l Hrep Hcode Hcur) as Hround.
    unfold bind. destruct (execute_round cur s) as [next s1| | |]; try done.
    destruct Hround as ([l1 Hrep1] & Hcode1 & Hnext). by apply (IH _ _ l1).
Qed.

(** The run from the start of [main]'s work: loading, then the loop.
    The flag of chunk 0 is read before anything else of the code, also
    when the code has no chunk. *)
Lemma dll_run_sound filename file s n :
  stack_size (mem s) = 1 →
  match (read_xrf_file false filename file ;;;
         execute_code_init ;;;
         execute_rounds n 0) s with
  | Undefined u =>
      Xrf.stack_fault Doubly u ∨
      u = OutOfBounds VisitedArray ∧
      ∃ s1, read_xrf_file false filename file s = Ok tt s1 ∧
            len (code s1) = 0
  | OutOfFuel => False
  | Ok _ s' => (∃ l, rep (mem s') l) ∧ whole_chunks (code s')
  | Exit _ _ => True
  end.
Proof.
  intros Hsize.
  pose proof (read_xrf_file_safe false filename file s) as Hload.
  unfold bind at 1.
  destruct (read_xrf_file false filename file s) as [[] s1| | |] eqn:Hrun;
    try done.
  destruct Hload as [Hwhole Hmem].
  destruct (dll_execute_code_init s1) as (m' & Hinit & Hrep).
  { by rewrite Hmem. }
  rewrite (bind_Ok _ _ _ _ _ Hinit).
  destruct (decide (len (code s1) = 0)) as [Hnone|Hsome].
  - destruct n as [|n]; [simpl; split; [by exists [0]|done]|]. simpl.
    pose proof Hwhole as (_ & _ & _ & Hvis). rewrite Hnone in Hvis.
    assert (visited (code s1) = []) as Hnil.
    { destruct (visited (code s1)); [done|]. simpl in Hvis.
      change (0 / COMMANDS_PER_CHUNK) with 0 in Hvis. lia. }
    unfold execute_round. unfold bind at 1.
    erewrite bind_Ok; [|reflexivity].
    cbn [code set_mem]. rewrite Hnil. simpl. right. split; [done|].
    by exists s1.
  - pose proof (dll_execute_rounds_sound n 0 (set_mem m' s1) [0] Hrep)
      as Hrounds.
    cbn [code set_mem] in Hrounds. specialize (Hrounds Hwhole).
    destruct Hwhole as (Hlen & Hmod & _). unfold COMMANDS_PER_CHUNK in *.
    apply Z.div_exact in Hmod; [|done].
    destruct (execute_rounds n 0 (set_mem m' s1)); try done.
    + apply Hrounds. lia.
    + left. apply Hrounds. lia.
    + apply Hrounds. lia.
Qed.

End Rev1Faults.

(** ** [main] *)

(** The loop of [main] over its arguments: those that begin with [-]
    are passed over, and a second one that does not is fatal. *)
Lemma sll_find_filename args : ∀ filename s,
  Rev2.find_filename args filename s =
    match option_list filename
          ++ List.filter (λ a, negb (String.prefix "-" a)) args with
    | [] => Ok None s
    | [f] => Ok (Some f) s
    | _ => Exit 1 (set_stderr (stderr s ++ [OnlyOneFile]) s)
    end.
Proof.
  induction args as [|a args IH]; intros [f|] s; simpl; try done;
    destruct (String.prefix "-" a); simpl; try apply IH; try done.
  all: by rewrite IH.
Qed.

Lemma sll_main args fopen rounds s :
  Rev2.main args fopen rounds s =
    match List.filter (λ a, negb (String.prefix "-" a)) args with
    | [] => Exit 1 (set_stderr (stderr s ++ [NoFilename]) s)
    | [f] =>
        (read_xrf_file true f (fopen f) ;;; Rev2.execute_code rounds) s
    | _ => Exit 1 (set_stderr (stderr s ++ [OnlyOneFile]) s)
    end.
Proof.
  unfold Rev2.main, bind at 1. rewrite sll_find_filename. simpl.
  by destruct (List.filter _ args) as [|f [|g names]].
Qed.


(** X17.  The arguments of [main].  The second revision passes over the
    arguments that begin with [-]: with no other argument it prints
    "Error! No filename given!" and exits with status 1, with one it
    loads and runs that file, with more it prints "Only one file at a
    time please!" and exits with status 1, before any file is opened.
    The first revision runs its first argument, whatever it begins with
    and whatever follows, and its message for no argument has no newline
    at its end. *)
Theorem main_takes_one_file_name (args : list string)
    (fopen : string → option (list ascii)) (rounds : nat)
    (s : Xrf.state Singly) (s' : Xrf.state Doubly) :
  Xrf.main Singly args fopen rounds s =
    match List.filter (λ a, negb (String.prefix "-" a)) args with
    | [] => Exit 1 (set_stderr (stderr s ++ [NoFilename]) s)
    | [f] =>
        (Xrf.read_xrf_file Singly f (fopen f) ;;; Rev2.execute_code rounds) s
    | _ => Exit 1 (set_stderr (stderr s ++ [OnlyOneFile]) s)
    end ∧
  Xrf.main Doubly args fopen rounds s' =
    match args with
    | [] => Exit 1 (set_stderr (stderr s' ++ [NoFilename]) s')
    | f :: _ =>
        (Xrf.read_xrf_file Doubly f (fopen f) ;;; Rev1.execute_code rounds) s'
    end ∧
  Xrf.message Singly NoFilename
    = ("Error! No filename given!" ++ newline)%string ∧
  Xrf.message Singly OnlyOneFile
    = ("Only one file at a time please!" ++ newline)%string ∧
  Xrf.message Doubly NoFilename = "Error! No filename given!"%string.
Proof.
  split_and!; try done.
  - apply sll_main.
  - by destruct args.
Qed.



(** ** The end of a chunk *)

Lemma sll_execute_round_empty cur s flag s1 :
  0 <= cur → visited (code s) !! Z.to_nat cur = Some flag →
  Rev2.execute_chunk (to_unsigned (cur * COMMANDS_PER_CHUNK)) flag s
    = Ok tt s1 →
  Rev2.rep (mem s1) [] →
  Rev2.execute_round cur s =
    let s2 := set_code (mkCode (commands (code s1))
                          (<[Z.to_nat cur := true]> (visited (code s1)))
                          (len (code s1))) s1 in
    Exit 1 (set_stderr (stderr s2 ++ [EmptyAtChunkEnd]) s2).
Proof.
  intros Hcur Hflag Hchunk Hrep.
  pose proof (Rev2Facts.sll_execute_chunk_code
                (to_unsigned (cur * COMMANDS_PER_CHUNK)) flag s) as Hcode.
  rewrite Hchunk in Hcode. simpl in Hcode.
  unfold Rev2.execute_round. erewrite bind_Ok; [|reflexivity].
  erewrite bind_Ok; [|by apply array_get_Ok].
  rewrite (bind_Ok _ _ _ _ _ Hchunk).
  erewrite bind_Ok.
  2: { apply Rev2Facts.sll_mark_visited. rewrite Hcode.
       apply lookup_lt_Some in Hflag. lia. }
  by rewrite Rev2Facts.sll_next_chunk_empty.
Qed.

Lemma dll_execute_round_empty cur s flag s1 :
  0 <= cur → visited (code s) !! Z.to_nat cur = Some flag →
  Rev1.execute_chunk (to_unsigned (cur * COMMANDS_PER_CHUNK)) flag s
    = Ok tt s1 →
  Rev1.rep (mem s1) [] →
  Rev1.execute_round cur s =
    let s2 := set_code (mkCode (commands (code s1))
                          (<[Z.to_nat cur := true]> (visited (code s1)))
                          (len (code s1))) s1 in
    Exit 1 (set_stderr (stderr s2 ++ [EmptyAtChunkEnd]) s2).
Proof.
  intros Hcur Hflag Hchunk Hrep.
  pose proof (Rev1Facts.dll_execute_chunk_code
                (to_unsigned (cur * COMMANDS_PER_CHUNK)) flag s) as Hcode.
  rewrite Hchunk in Hcode. simpl in Hcode.
  unfold Rev1.execute_round. erewrite bind_Ok; [|reflexivity].
  erewrite bind_Ok; [|by apply array_get_Ok].
  rewrite (bind_Ok _ _ _ _ _ Hchunk).
  erewrite bind_Ok.
  2: { apply Rev1Facts.dll_mark_visited. rewrite Hcode.
       apply lookup_lt_Some in Hflag. lia. }
  by rewrite Rev1Facts.dll_next_chunk_empty.
Qed.

(** X19.  A chunk that leaves the stack empty ends the run: the round
    prints "Error! Can't have an empty stack upon reaching the end of a
    chunk!" and exits with status 1, the chunk's flag set and nothing
    else changed since the chunk returned.  Both revisions. *)
Theorem empty_stack_at_chunk_end_is_fatal (r : revision)
    (s s1 : Xrf.state r) (cur : Z) (flag : bool) :
  0 <= cur → visited (code s) !! Z.to_nat cur = Some flag →
  Xrf.execute_chunk r (to_unsigned (cur * COMMANDS_PER_CHUNK)) flag s =
    Ok tt s1 →
  Xrf.rep r (mem s1) [] →
  let s2 := set_code (mkCode (commands (code s1))
                        (<[Z.to_nat cur := true]> (visited (code s1)))
                        (len (code s1))) s1 in
  Xrf.execute_round r cur s =
    Exit 1 (set_stderr (stderr s2 ++ [EmptyAtChunkEnd]) s2) ∧
  (∀ n, Xrf.execute_rounds r (S n) cur s =
          Exit 1 (set_stderr (stderr s2 ++ [EmptyAtChunkEnd]) s2)) ∧
  Xrf.message r EmptyAtChunkEnd =
    ("Error! Can't have an empty stack upon reaching the end of a chunk!"
     ++ newline)%string.
Proof.
  intros Hcur Hflag Hchunk Hrep s2.
  assert (Xrf.execute_round r cur s =
            Exit 1 (set_stderr (stderr s2 ++ [EmptyAtChunkEnd]) s2))
    as Hround.
  { destruct r.
    - by apply (dll_execute_round_empty _ _ flag).
    - by apply (sll_execute_round_empty _ _ flag). }
  split_and!; [done| |by destruct r].
  intros n. destruct r; simpl in *; unfold bind; by rewrite Hround.
Qed.

Lemma empty_stack_at_chunk_end_is_fatal_witness :
  Xrf.execute_round Singly 0
    (Examples.holding Singly [4] (Examples.code_of "2AFFF" [false])) =
  Exit 1
    (set_stderr [EmptyAtChunkEnd]
       (Examples.holding Singly [] (Examples.code_of "2AFFF" [true]))) ∧
  Xrf.execute_round Doubly 0
    (Examples.holding Doubly [] (Examples.code_of "AAAAA" [false])) =
  Exit 1
    (set_stderr [EmptyAtChunkEnd]
       (Examples.holding Doubly [] (Examples.code_of "AAAAA" [true]))).
Proof.
  split.
  - apply (empty_stack_at_chunk_end_is_fatal Singly
             (Examples.holding Singly [4] (Examples.code_of "2AFFF" [false]))
             (Examples.holding Singly [] (Examples.code_of "2AFFF" [false]))
             0 false).
    + lia.
    + reflexivity.
    + by vm_compute.
    + example_rep (@nil loc).
  - apply (empty_stack_at_chunk_end_is_fatal Doubly
             (Examples.holding Doubly [] (Examples.code_of "AAAAA" [false]))
             (Examples.holding Doubly [] (Examples.code_of "AAAAA" [false]))
             0 false).
    + lia.
    + reflexivity.
    + reflexivity.
    + example_rep (@nil loc).
Defined.

(** ** Freeing the stack *)

(** X20.  [free_stack] frees every node of the list once and nothing
    else, and has no undefined behaviour on the way: in the second
    revision the nodes from [stack] on, in the first the nodes from
    [bottom] back, those kept for reuse among them.  The pointer it
    walks with is null at the end; [bottom] in the second revision and
    [top] in the first are left as they were, pointing to freed
    nodes. *)
Theorem free_stack_frees_each_node_once (s : Xrf.state Singly)
    (s' : Xrf.state Doubly) (addrs nodes : list loc) (l vals : list Z)
    (fuel : nat) :
  NoDup addrs → Rev2.seg (Rev2.heap (mem s)) addrs l None →
  Rev2.stack (mem s) = first_of addrs None →
  NoDup nodes → Rev1.seg (Rev1.heap (mem s')) None nodes vals None →
  Rev1.bottom (mem s') = last_of nodes None →
  (length addrs ≤ fuel)%nat → (length nodes ≤ fuel)%nat →
  (∃ h,
     Xrf.free_stack Singly fuel s =
       Ok tt (set_mem (Rev2.mkMemory h None (Rev2.bottom (mem s))) s) ∧
     (∀ a, a ∈ addrs → h !! a = None) ∧
     (∀ a, a ∉ addrs → h !! a = Rev2.heap (mem s) !! a)) ∧
  (∃ h,
     Xrf.free_stack Doubly fuel s' =
       Ok tt (set_mem (Rev1.mkMemory h (Rev1.top (mem s')) None
                         (Rev1.stack_size (mem s'))) s') ∧
     (∀ a, a ∈ nodes → h !! a = None) ∧
     (∀ a, a ∉ nodes → h !! a = Rev1.heap (mem s') !! a)).
Proof.
  intros Hnd Hseg Hst Hnd' Hseg' Hbot Hfuel Hfuel'. split.
  - by apply (Rev2More.sll_free_stack addrs l).
  - by apply (Rev1More.dll_free_stack nodes vals fuel s' None).
Qed.

Lemma free_stack_frees_each_node_once_witness :
  (∃ h,
     Xrf.free_stack Singly 3
       (Examples.holding Singly [7; 3] (Examples.code_of "22B22" [false])) =
       Ok tt
         (set_mem (Rev2.mkMemory h None (Some 2%positive))
            (Examples.holding Singly [7; 3]
               (Examples.code_of "22B22" [false]))) ∧
     (∀ a, a ∈ [1%positive; 2%positive] → h !! a = None) ∧
     (∀ a, a ∉ [1%positive; 2%positive] →
        h !! a =
        Rev2.heap
          (mem (Examples.holding Singly [7; 3]
                  (Examples.code_of "22B22" [false]))) !! a)) ∧
  (∃ h,
     Xrf.free_stack Doubly 3
       (Examples.holding Doubly [7; 3] (Examples.code_of "22B22" [false])) =
       Ok tt
         (set_mem (Rev1.mkMemory h (Some 2%positive) None 2)
            (Examples.holding Doubly [7; 3]
               (Examples.code_of "22B22" [false]))) ∧
     (∀ a, a ∈ [1%positive; 2%positive; 3%positive] → h !! a = None) ∧
     (∀ a, a ∉ [1%positive; 2%positive; 3%positive] →
        h !! a =
        Rev1.heap
          (mem (Examples.holding Doubly [7; 3]
                  (Examples.code_of "22B22" [false]))) !! a)).
Proof.
  apply (free_stack_frees_each_node_once
           (Examples.holding Singly [7; 3] (Examples.code_of "22B22" [false]))
           (Examples.holding Doubly [7; 3] (Examples.code_of "22B22" [false]))
           [1%positive; 2%positive] [1%positive; 2%positive; 3%positive]
           [7; 3] [9; 7; 3] 3).
  - decide_by_computation.
  - by split_and!.
  - reflexivity.
  - decide_by_computation.
  - by split_and!.
  - reflexivity.
  - simpl. lia.
  - simpl. lia.
Defined.

(** ** The streams and the exit status *)

Create HintDb io discriminated.

Section IoSafe.
Context {Mem : Type}.
Implicit Type s : machine Mem.

Lemma later_than_refl s : later_than s s.
Proof. by split_and!. Qed.

Lemma later_than_trans s1 s2 s3 :
  later_than s1 s2 → later_than s2 s3 → later_than s1 s3.
Proof.
  intros (? & ? & ? & ?) (? & ? & ? & ?).
  split_and!; [by etrans|by etrans|congruence|lia].
Qed.

Lemma io_safe_bind {A B} (m : M (machine Mem) A)
    (k : A → M (machine Mem) B) :
  io_safe m → (∀ a, io_safe (k a)) → io_safe (x <- m ;; k x).
Proof.
  intros Hm Hk s. unfold bind. specialize (Hm s).
  destruct (m s) as [a s1| | |]; try done.
  destruct Hm as [Hlater Herr]. specialize (Hk a s1).
  destruct (k a s1) as [b s2|st s2| |]; try done.
  - destruct Hk as [Hlater2 Herr2].
    split; [by eapply later_than_trans|congruence].
  - destruct Hk as [Hlater2 Herr2].
    split; [by eapply later_than_trans|]. by rewrite <- Herr.
Qed.

(** A step that returns, or is undefined, with the streams as they
    were. *)
Lemma io_safe_quiet {A} (m : M (machine Mem) A) :
  (∀ s, match m s with
        | Ok _ s' =>
            stdin s' = stdin s ∧ stdout s' = stdout s ∧
            stderr s' = stderr s ∧ rand_source s' = rand_source s ∧
            rand_calls s' = rand_calls s
        | Exit _ _ => False
        | Undefined _ | OutOfFuel => True
        end) →
  io_safe m.
Proof.
  intros Hm s. specialize (Hm s). destruct (m s) as [a s'| | |]; try done.
  destruct Hm as (Hin & Hout & Herr & Hsrc & Hcalls).
  split; [|done]. unfold later_than. by rewrite Hin, Hout, Hsrc, Hcalls.
Qed.

Lemma io_safe_ret {A} (a : A) : io_safe (Mem := Mem) (ret a).
Proof. by apply io_safe_quiet. Qed.

Lemma io_safe_get : io_safe (Mem := Mem) get.
Proof. by apply io_safe_quiet. Qed.

Lemma io_safe_get_mem : io_safe (Mem := Mem) get_mem.
Proof. by apply io_safe_quiet. Qed.

Lemma io_safe_put_mem m : io_safe (Mem := Mem) (put_mem m).
Proof. by apply io_safe_quiet. Qed.

Lemma io_safe_get_code : io_safe (Mem := Mem) get_code.
Proof. by apply io_safe_quiet. Qed.

Lemma io_safe_put_code c : io_safe (Mem := Mem) (put_code c).
Proof. by apply io_safe_quiet. Qed.

Lemma io_safe_undefined {A} u :
  io_safe (Mem := Mem) (A := A) (undefined_behaviour u).
Proof. by apply io_safe_quiet. Qed.

Lemma io_safe_out_of_fuel {A} :
  io_safe (Mem := Mem) (A := A) (λ _, OutOfFuel).
Proof. by apply io_safe_quiet. Qed.

Lemma io_safe_array_get {A} which (a : list A) i :
  io_safe (Mem := Mem) (array_get which a i).
Proof.
  apply io_safe_quiet. intros s. unfold array_get.
  destruct (i <? 0); [done|]. by destruct (a !! Z.to_nat i).
Qed.

Lemma io_safe_array_set {A} which (a : list A) i x :
  io_safe (Mem := Mem) (array_set which a i x).
Proof.
  apply io_safe_quiet. intros s. unfold array_set. by destruct (_ && _).
Qed.

Lemma io_safe_int_add x d : io_safe (Mem := Mem) (int_add x d).
Proof.
  apply io_safe_quiet. intros s. unfold int_add. by destruct (_ && _).
Qed.

(** [exit(0)], and a message with [exit(1)]. *)
Lemma io_safe_exit_0 {A} : io_safe (Mem := Mem) (A := A) (exit 0).
Proof. intros s. split; [apply later_than_refl|]. by left. Qed.

Lemma io_safe_fatal {A} d : io_safe (Mem := Mem) (A := A) (fatal d).
Proof.
  intros s. split; [by split_and!|]. right. split; [done|]. by exists d.
Qed.

Lemma io_safe_getchar : io_safe (Mem := Mem) getchar.
Proof.
  intros s. unfold getchar. destruct (stdin s) as [|c rest] eqn:Hin.
  - split; [apply later_than_refl|done].
  - split; [|done]. unfold later_than. simpl. rewrite Hin.
    split_and!; [done| |done|done]. by exists [c].
Qed.

Lemma io_safe_putchar c : io_safe (Mem := Mem) (putchar c).
Proof.
  intros s. split; [|done]. unfold later_than. simpl.
  split_and!; [|done..]. by eexists.
Qed.

Lemma io_safe_rand : io_safe (Mem := Mem) rand.
Proof.
  intros s. split; [|done]. unfold later_than. simpl.
  split_and!; [done..|lia].
Qed.

End IoSafe.

#[export] Hint Resolve io_safe_ret io_safe_get io_safe_get_mem
  io_safe_put_mem io_safe_get_code io_safe_put_code io_safe_undefined
  io_safe_out_of_fuel io_safe_array_get io_safe_array_set io_safe_int_add
  io_safe_exit_0 io_safe_fatal io_safe_getchar io_safe_putchar
  io_safe_rand : io.

(** Splits a computation into its steps, as [code_safe] does. *)
Ltac io_safe :=
  repeat first
    [ progress intros
    | solve [auto with io]
    | apply io_safe_bind
    | match goal with
      | |- io_safe (match ?x with _ => _ end) => destruct x
      end ].

Lemma io_safe_shuffle_values {Mem} fuel : ∀ i vals,
  io_safe (Mem := Mem) (shuffle_values fuel i vals).
Proof.
  induction fuel as [|fuel IH]; intros i vals; simpl; io_safe.
Qed.

Lemma io_safe_grow_code {Mem} : io_safe (Mem := Mem) grow_code.
Proof. unfold grow_code. io_safe. Qed.

#[export] Hint Resolve io_safe_shuffle_values io_safe_grow_code : io.

Lemma io_safe_read_commands {Mem} char_c file : ∀ cur_cmd,
  io_safe (Mem := Mem) (read_commands char_c file cur_cmd).
Proof. induction file as [|c rest IH]; intros cur_cmd; simpl; io_safe. Qed.

#[export] Hint Resolve io_safe_read_commands : io.

Lemma io_safe_read_xrf_file {Mem} char_c filename file :
  io_safe (Mem := Mem) (read_xrf_file char_c filename file).
Proof. unfold read_xrf_file. io_safe. Qed.

#[export] Hint Resolve io_safe_read_xrf_file : io.

Module Rev2Io.
Import Rev2 Rev2Facts.

Lemma sll_io_safe_deref p : io_safe (deref p).
Proof.
  apply io_safe_quiet. intros s. unfold deref. destruct p; [|done].
  by destruct (heap (mem s) !! _).
Qed.

#[local] Hint Resolve sll_io_safe_deref : io.

Lemma sll_io_safe_load_val p : io_safe (load_val p).
Proof. unfold load_val. io_safe. Qed.

Lemma sll_io_safe_load_next p : io_safe (load_next p).
Proof. unfold load_next. io_safe. Qed.

Lemma sll_io_safe_store a n : io_safe (store a n).
Proof. unfold store. io_safe. Qed.

#[local] Hint Resolve sll_io_safe_load_val sll_io_safe_load_next
  sll_io_safe_store : io.

Lemma sll_io_safe_store_val p v : io_safe (store_val p v).
Proof. unfold store_val. io_safe. Qed.

Lemma sll_io_safe_store_next p q : io_safe (store_next p q).
Proof. unfold store_next. io_safe. Qed.

Lemma sll_io_safe_get_stack : io_safe get_stack.
Proof. by apply io_safe_quiet. Qed.

Lemma sll_io_safe_get_bottom : io_safe get_bottom.
Proof. by apply io_safe_quiet. Qed.

Lemma sll_io_safe_set_stack p : io_safe (set_stack p).
Proof. unfold set_stack. io_safe. Qed.

Lemma sll_io_safe_set_bottom p : io_safe (set_bottom p).
Proof. unfold set_bottom. io_safe. Qed.

Lemma sll_io_safe_malloc : io_safe malloc.
Proof. unfold malloc. io_safe. Qed.

Lemma sll_io_safe_free p : io_safe (free p).
Proof. unfold free. io_safe. Qed.

#[local] Hint Resolve sll_io_safe_store_val sll_io_safe_store_next
  sll_io_safe_get_stack sll_io_safe_get_bottom sll_io_safe_set_stack
  sll_io_safe_set_bottom
  sll_io_safe_malloc sll_io_safe_free : io.

Lemma sll_io_safe_new_stack_node v : io_safe (new_stack_node v).
Proof. unfold new_stack_node. io_safe. Qed.

#[local] Hint Resolve sll_io_safe_new_stack_node : io.

Lemma sll_io_safe_push_stack v : io_safe (push_stack v).
Proof. unfold push_stack. io_safe. Qed.

Lemma sll_io_safe_pop_stack : io_safe pop_stack.
Proof. unfold pop_stack. io_safe. Qed.

#[local] Hint Resolve sll_io_safe_push_stack sll_io_safe_pop_stack : io.

Lemma sll_io_safe_swap_stack : io_safe swap_stack.
Proof. unfold swap_stack. io_safe. Qed.

Lemma sll_io_safe_dup_stack : io_safe dup_stack.
Proof. unfold dup_stack. io_safe. Qed.

Lemma sll_io_safe_send_top_to_bottom : io_safe send_top_to_bottom.
Proof. unfold send_top_to_bottom. io_safe. Qed.

Lemma sll_io_safe_gather_values fuel : ∀ node vals num_vals num_allocated,
  io_safe (gather_values fuel node vals num_vals num_allocated).
Proof.
  induction fuel as [|fuel IH]; intros [a|] ???; simpl; io_safe.
Qed.

Lemma sll_io_safe_assign_values fuel : ∀ node i vals,
  io_safe (assign_values fuel node i vals).
Proof.
  induction fuel as [|fuel IH]; intros [a|] ??; simpl; io_safe.
Qed.

#[local] Hint Resolve sll_io_safe_swap_stack sll_io_safe_dup_stack
  sll_io_safe_send_top_to_bottom sll_io_safe_gather_values
  sll_io_safe_assign_values : io.

Lemma sll_io_safe_randomize_stack : io_safe randomize_stack.
Proof. unfold randomize_stack. io_safe. Qed.

#[local] Hint Resolve sll_io_safe_randomize_stack : io.

Lemma sll_io_safe_command c flag i : io_safe (command c flag i).
Proof. unfold command. io_safe. Qed.

#[local] Hint Resolve sll_io_safe_command : io.

Lemma sll_io_safe_execute_slots fuel : ∀ chunk flag i,
  io_safe (execute_slots fuel chunk flag i).
Proof.
  induction fuel as [|fuel IH]; intros chunk flag i; simpl; io_safe.
Qed.

#[local] Hint Resolve sll_io_safe_execute_slots : io.

Lemma sll_io_safe_execute_round cur : io_safe (execute_round cur).
Proof.
  unfold execute_round, execute_chunk, mark_visited, next_chunk. io_safe.
Qed.

#[local] Hint Resolve sll_io_safe_execute_round : io.

Lemma sll_io_safe_execute_rounds n : ∀ cur, io_safe (execute_rounds n cur).
Proof. induction n as [|n IH]; intros cur; simpl; io_safe. Qed.

#[local] Hint Resolve sll_io_safe_execute_rounds : io.

Lemma sll_io_safe_execute_code rounds : io_safe (execute_code rounds).
Proof. unfold execute_code, execute_code_init. io_safe. Qed.

#[local] Hint Resolve sll_io_safe_execute_code : io.

Lemma sll_io_safe_find_filename args : ∀ filename,
  io_safe (find_filename args filename).
Proof. induction args as [|a args IH]; intros filename; simpl; io_safe. Qed.

#[local] Hint Resolve sll_io_safe_find_filename : io.

Lemma sll_io_safe_main args fopen rounds : io_safe (main args fopen rounds).
Proof. unfold main. io_safe. Qed.

End Rev2Io.

Module Rev1Io.
Import Rev1 Rev1Facts.

Lemma dll_io_safe_deref p : io_safe (deref p).
Proof.
  apply io_safe_quiet. intros s. unfold deref. destruct p; [|done].
  by destruct (heap (mem s) !! _).
Qed.

#[local] Hint Resolve dll_io_safe_deref : io.

Lemma dll_io_safe_load_val p : io_safe (load_val p).
Proof. unfold load_val. io_safe. Qed.

Lemma dll_io_safe_load_next p : io_safe (load_next p).
Proof. unfold load_next. io_safe. Qed.

Lemma dll_io_safe_load_prev p : io_safe (load_prev p).
Proof. unfold load_prev. io_safe. Qed.

Lemma dll_io_safe_store a n : io_safe (store a n).
Proof. unfold store. io_safe. Qed.

#[local] Hint Resolve dll_io_safe_load_val dll_io_safe_load_next
  dll_io_safe_load_prev dll_io_safe_store : io.

Lemma dll_io_safe_store_val p v : io_safe (store_val p v).
Proof. unfold store_val. io_safe. Qed.

Lemma dll_io_safe_store_next p q : io_safe (store_next p q).
Proof. unfold store_next. io_safe. Qed.

Lemma dll_io_safe_store_prev p q : io_safe (store_prev p q).
Proof. unfold store_prev. io_safe. Qed.

Lemma dll_io_safe_get_top : io_safe get_top.
Proof. by apply io_safe_quiet. Qed.

Lemma dll_io_safe_get_bottom : io_safe get_bottom.
Proof. by apply io_safe_quiet. Qed.

Lemma dll_io_safe_get_stack_size : io_safe get_stack_size.
Proof. by apply io_safe_quiet. Qed.

Lemma dll_io_safe_set_top p : io_safe (set_top p).
Proof. unfold set_top. io_safe. Qed.

Lemma dll_io_safe_set_bottom p : io_safe (set_bottom p).
Proof. unfold set_bottom. io_safe. Qed.

Lemma dll_io_safe_set_stack_size n : io_safe (set_stack_size n).
Proof. unfold set_stack_size. io_safe. Qed.

Lemma dll_io_safe_malloc : io_safe malloc.
Proof. unfold malloc. io_safe. Qed.

#[local] Hint Resolve dll_io_safe_store_val dll_io_safe_store_next
  dll_io_safe_store_prev dll_io_safe_get_top dll_io_safe_get_bottom
  dll_io_safe_get_stack_size dll_io_safe_set_top dll_io_safe_set_bottom
  dll_io_safe_set_stack_size
  dll_io_safe_malloc : io.

Lemma dll_io_safe_new_stack_node v : io_safe (new_stack_node v).
Proof. unfold new_stack_node. io_safe. Qed.

#[local] Hint Resolve dll_io_safe_new_stack_node : io.

Lemma dll_io_safe_push_stack v : io_safe (push_stack v).
Proof. unfold push_stack. io_safe. Qed.

Lemma dll_io_safe_pop_stack : io_safe pop_stack.
Proof. unfold pop_stack. io_safe. Qed.

#[local] Hint Resolve dll_io_safe_push_stack dll_io_safe_pop_stack : io.

Lemma dll_io_safe_swap_stack : io_safe swap_stack.
Proof. unfold swap_stack. io_safe. Qed.

Lemma dll_io_safe_dup_stack : io_safe dup_stack.
Proof. unfold dup_stack. io_safe. Qed.

Lemma dll_io_safe_send_top_to_bottom : io_safe send_top_to_bottom.
Proof. unfold send_top_to_bottom. io_safe. Qed.

Lemma dll_io_safe_gather_values fuel : ∀ node i vals,
  io_safe (gather_values fuel node i vals).
Proof.
  induction fuel as [|fuel IH]; intros [a|] ??; simpl; io_safe.
Qed.

Lemma dll_io_safe_assign_values fuel : ∀ node i vals,
  io_safe (assign_values fuel node i vals).
Proof.
  induction fuel as [|fuel IH]; intros [a|] ??; simpl; io_safe.
Qed.

#[local] Hint Resolve dll_io_safe_swap_stack dll_io_safe_dup_stack
  dll_io_safe_send_top_to_bottom dll_io_safe_gather_values
  dll_io_safe_assign_values : io.

Lemma dll_io_safe_randomize_stack : io_safe randomize_stack.
Proof. unfold randomize_stack. io_safe. Qed.

#[local] Hint Resolve dll_io_safe_randomize_stack : io.

Lemma dll_io_safe_command c flag i : io_safe (command c flag i).
Proof. unfold command. io_safe. Qed.

#[local] Hint Resolve dll_io_safe_command : io.

Lemma dll_io_safe_execute_slots fuel : ∀ chunk flag i,
  io_safe (execute_slots fuel chunk flag i).
Proof.
  induction fuel as [|fuel IH]; intros chunk flag i; simpl; io_safe.
Qed.

#[local] Hint Resolve dll_io_safe_execute_slots : io.

Lemma dll_io_safe_execute_round cur : io_safe (execute_round cur).
Proof.
  unfold execute_round, execute_chunk, mark_visited, next_chunk. io_safe.
Qed.

#[local] Hint Resolve dll_io_safe_execute_round : io.

Lemma dll_io_safe_execute_rounds n : ∀ cur, io_safe (execute_rounds n cur).
Proof. induction n as [|n IH]; intros cur; simpl; io_safe. Qed.

#[local] Hint Resolve dll_io_safe_execute_rounds : io.

Lemma dll_io_safe_execute_code rounds : io_safe (execute_code rounds).
Proof. unfold execute_code, execute_code_init. io_safe. Qed.

#[local] Hint Resolve dll_io_safe_execute_code : io.

Lemma dll_io_safe_main args fopen rounds : io_safe (main args fopen rounds).
Proof. unfold main. io_safe. Qed.

End Rev1Io.

(** ** The program and the streams over a run *)

Lemma sll_execute_round_program cur s :
  ends_in (λ s', commands (code s') = commands (code s) ∧
                 len (code s') = len (code s) ∧
                 length (visited (code s')) = length (visited (code s)))
    (Rev2.execute_round cur s).
Proof.
  unfold Rev2.execute_round. erewrite bind_Ok; [|reflexivity].
  pose proof (array_get_ends VisitedArray (visited (code s)) cur s) as Hget.
  unfold bind at 1.
  destruct (array_get VisitedArray (visited (code s)) cur s)
    as [flag s0| | |];
    try done.
  destruct Hget as (-> & Hpos & Hflag).
  assert (0 <= cur < Z.of_nat (length (visited (code s)))) as Hcur.
  { apply lookup_lt_Some in Hflag. lia. }
  eapply (ends_in_bind _ _ _ _ (λ s1, code s1 = code s)).
  - apply Rev2Facts.sll_execute_chunk_code.
  - by intros s1 ->.
  - intros [] s1 Hcode.
    rewrite (bind_Ok _ _ _ _ _ (Rev2Facts.sll_mark_visited _ _
               ltac:(by rewrite Hcode))).
    eapply ends_in_weaken;
      [|apply code_safe_ends, Rev2Facts.sll_code_safe_next_chunk].
    intros s' ->. simpl. by rewrite Hcode, length_insert.
Qed.

Lemma sll_execute_rounds_program n : ∀ cur s,
  ends_in (λ s', commands (code s') = commands (code s) ∧
                 len (code s') = len (code s) ∧
                 length (visited (code s')) = length (visited (code s)))
    (Rev2.execute_rounds n cur s).
Proof.
  induction n as [|n IH]; intros cur s; simpl; [done|].
  eapply ends_in_bind.
  - apply sll_execute_round_program.
  - done.
  - intros next s1 (Hcmds & Hlen & Hvis).
    eapply ends_in_weaken; [|apply IH].
    intros s'. simpl. intros (-> & -> & ->). done.
Qed.

Lemma dll_execute_round_program cur s :
  ends_in (λ s', commands (code s') = commands (code s) ∧
                 len (code s') = len (code s) ∧
                 length (visited (code s')) = length (visited (code s)))
    (Rev1.execute_round cur s).
Proof.
  unfold Rev1.execute_round. erewrite bind_Ok; [|reflexivity].
  pose proof (array_get_ends VisitedArray (visited (code s)) cur s) as Hget.
  unfold bind at 1.
  destruct (array_get VisitedArray (visited (code s)) cur s)
    as [flag s0| | |];
    try done.
  destruct Hget as (-> & Hpos & Hflag).
  assert (0 <= cur < Z.of_nat (length (visited (code s)))) as Hcur.
  { apply lookup_lt_Some in Hflag. lia. }
  eapply (ends_in_bind _ _ _ _ (λ s1, code s1 = code s)).
  - apply Rev1Facts.dll_execute_chunk_code.
  - by intros s1 ->.
  - intros [] s1 Hcode.
    rewrite (bind_Ok _ _ _ _ _ (Rev1Facts.dll_mark_visited _ _
               ltac:(by rewrite Hcode))).
    eapply ends_in_weaken;
      [|apply code_safe_ends, Rev1Facts.dll_code_safe_next_chunk].
    intros s' ->. simpl. by rewrite Hcode, length_insert.
Qed.

Lemma dll_execute_rounds_program n : ∀ cur s,
  ends_in (λ s', commands (code s') = commands (code s) ∧
                 len (code s') = len (code s) ∧
                 length (visited (code s')) = length (visited (code s)))
    (Rev1.execute_rounds n cur s).
Proof.
  induction n as [|n IH]; intros cur s; simpl; [done|].
  eapply ends_in_bind.
  - apply dll_execute_round_program.
  - done.
  - intros next s1 (Hcmds & Hlen & Hvis).
    eapply ends_in_weaken; [|apply IH].
    intros s'. simpl. intros (-> & -> & ->). done.
Qed.

(** X21.  Running does not change the program: however a round of the
    control loop, or any number of rounds, returns or exits, the
    commands, [code.len] and the number of flags are what they were
    (the flags themselves only get set).  Both revisions. *)
Theorem running_leaves_the_commands (r : revision) (n : nat) (cur : Z)
    (s : Xrf.state r) :
  match Xrf.execute_rounds r n cur s with
  | Ok _ s' | Exit _ s' =>
      commands (code s') = commands (code s) ∧
      len (code s') = len (code s) ∧
      length (visited (code s')) = length (visited (code s))
  | Undefined _ | OutOfFuel => True
  end.
Proof.
  destruct r.
  - apply (dll_execute_rounds_program n cur s).
  - apply (sll_execute_rounds_program n cur s).
Qed.

(** X22.  The streams of a run.  A process that exits with status 0
    (opcode B) has written nothing on [stderr]; one that exits with
    status 1 has written one message, and that was the last it did; what
    it leaves of the input is an end of the input.  Across any number
    of rounds of the control loop the output is added to at its end,
    the input read from its front, the draws taken in their order, and
    [stderr] is written only to exit.  Both revisions; allocation is
    taken to succeed, and in the revision that reads into a [char] the
    files hold bytes below 128. *)
Theorem exit_status_tells_of_the_message (r : revision)
    (args : list string) (fopen : string → option (list ascii))
    (rounds : nat) (input : list ascii) (draws : nat → Z) :
  (r = Singly →
   ∀ f bytes, fopen f = Some bytes →
     Forall (λ c, (N_of_ascii c < 128)%N) bytes) →
  match Xrf.main r args fopen rounds (Xrf.initial_state r input draws) with
  | Exit st s' =>
      (st = 0 ∧ stderr s' = [] ∨ st = 1 ∧ ∃ d, stderr s' = [d]) ∧
      stdin s' `suffix_of` input
  | Ok _ _ | Undefined _ | OutOfFuel => True
  end ∧
  ∀ n cur, io_safe (Xrf.execute_rounds r n cur).
Proof.
  intros _. split.
  - assert (io_safe (Xrf.main r args fopen rounds)) as Hmain.
    { destruct r; [apply Rev1Io.dll_io_safe_main
                  |apply Rev2Io.sll_io_safe_main]. }
    specialize (Hmain (Xrf.initial_state r input draws)).
    destruct (Xrf.main r args fopen rounds _) as [|st s'| |]; try done.
    destruct Hmain as [(_ & Hin & _) Herr].
    split; by destruct r.
  - intros n cur.
    destruct r; [apply Rev1Io.dll_io_safe_execute_rounds
                |apply Rev2Io.sll_io_safe_execute_rounds].
Qed.

Lemma exit_status_tells_of_the_message_witness :
  match Xrf.main Singly ["prog"%string]
          (λ _, Some (list_ascii_of_string "01BFF")) 1
          (Xrf.initial_state Singly (list_ascii_of_string "xy")
             Examples.draws) with
  | Exit st s' =>
      (st = 0 ∧ stderr s' = [] ∨ st = 1 ∧ ∃ d, stderr s' = [d]) ∧
      stdin s' `suffix_of` list_ascii_of_string "xy"
  | Ok _ _ | Undefined _ | OutOfFuel => True
  end ∧
  ∀ n cur, io_safe (Xrf.execute_rounds Singly n cur).
Proof.
  apply (exit_status_tells_of_the_message Singly ["prog"%string]
           (λ _, Some (list_ascii_of_string "01BFF")) 1
           (list_ascii_of_string "xy") Examples.draws).
  intros _ f bytes [= <-]. repeat (constructor; [reflexivity|]).
  constructor.
Defined.

(** A run that is out of rounds has gone through all of them. *)
Lemma out_of_fuel_after_the_rounds {S A B C D} (m1 : M S A) (m2 : M S B)
    (m3 : M S C) (s : S) :
  (m1 ;;; m2 ;;; m3 ;;; (λ _, OutOfFuel : outcome S D)) s = OutOfFuel →
  (m1 ;;; m2 ;;; m3) s = OutOfFuel ∨
  ∃ c s', (m1 ;;; m2 ;;; m3) s = Ok c s'.
Proof.
  unfold bind.
  destruct (m1 s) as [? s1| | |]; try done; [|by left].
  destruct (m2 s1) as [? s2| | |]; try done; [|by left].
  destruct (m3 s2) as [c s3| | |]; try done; [|by left].
  right. by exists c, s3.
Qed.

(** X23.  The loop of [execute_code] is the only loop of the program
    that may go on for ever.  The others end, whatever the file, the
    input and the draws: the loop over the file, the loop over the slots
    of a chunk, the loops over the nodes of the stack.  So a run that is
    still going after [rounds] rounds of the control loop has completed
    every one of them, and stands before the next round with a stack and
    with the code in whole chunks.  Allocation is taken to succeed, and
    in the revision that reads into a [char] the files hold bytes below
    128. *)
Theorem every_round_ends (r : revision) (args : list string)
    (fopen : string → option (list ascii)) (rounds : nat)
    (input : list ascii) (draws : nat → Z) :
  (r = Singly →
   ∀ f bytes, fopen f = Some bytes →
     Forall (λ c, (N_of_ascii c < 128)%N) bytes) →
  Xrf.main r args fopen rounds (Xrf.initial_state r input draws)
    = OutOfFuel →
  ∃ f next s,
    (Xrf.read_xrf_file r f (fopen f) ;;;
     Xrf.execute_code_init r ;;;
     Xrf.execute_rounds r rounds 0) (Xrf.initial_state r input draws)
      = Ok next s ∧
    (∃ l, Xrf.rep r (mem s) l) ∧ whole_chunks (code s).
Proof.
  intros _ Hrun. destruct r.
  - unfold Xrf.main, Xrf.initial_state, Rev1.main in Hrun.
    destruct args as [|f rest]; [done|].
    apply out_of_fuel_after_the_rounds in Hrun.
    pose proof (Rev1Faults.dll_run_sound f (fopen f)
                  (Rev1.initial_state input draws) rounds eq_refl) as Hsound.
    destruct Hrun as [Hrun|(next & s & Hrun)].
    + match type of Hsound with
      | match ?run with _ => _ end =>
          assert (run = OutOfFuel) as Hrun' by exact Hrun;
          rewrite Hrun' in Hsound
      end.
      done.
    + match type of Hsound with
      | match ?run with _ => _ end =>
          assert (run = Ok next s) as Hrun' by exact Hrun;
          rewrite Hrun' in Hsound
      end.
      exists f, next, s. split; [exact Hrun|exact Hsound].
  - unfold Xrf.main, Xrf.initial_state in Hrun. rewrite sll_main in Hrun.
    destruct (List.filter _ args) as [|f [|g names]]; try done.
    apply out_of_fuel_after_the_rounds in Hrun.
    pose proof (Rev2Faults.sll_run_sound f (fopen f)
                  (Rev2.initial_state input draws) rounds) as Hsound.
    destruct Hrun as [Hrun|(next & s & Hrun)].
    + match type of Hsound with
      | match ?run with _ => _ end =>
          assert (run = OutOfFuel) as Hrun' by exact Hrun;
          rewrite Hrun' in Hsound
      end.
      done.
    + match type of Hsound with
      | match ?run with _ => _ end =>
          assert (run = Ok next s) as Hrun' by exact Hrun;
          rewrite Hrun' in Hsound
      end.
      exists f, next, s. split; [exact Hrun|exact Hsound].
Qed.

Lemma every_round_ends_witness :
  ∃ f next s,
    (Xrf.read_xrf_file Singly f (Some (list_ascii_of_string "3AFFF")) ;;;
     Xrf.execute_code_init Singly ;;;
     Xrf.execute_rounds Singly 3 0)
      (Xrf.initial_state Singly [] Examples.draws) = Ok next s ∧
    (∃ l, Xrf.rep Singly (mem s) l) ∧ whole_chunks (code s).
Proof.
  apply (every_round_ends Singly ["prog"%string]
           (λ _, Some (list_ascii_of_string "3AFFF")) 3 [] Examples.draws).
  - intros _ f bytes [= <-]. repeat (constructor; [reflexivity|]).
    constructor.
  - vm_compute. reflexivity.
Defined.

(** X24.  Opcode D leaves the values of the stack in some other order:
    the stack after it holds a permutation of the values before, and
    nothing of the process changes but the nodes' values and the number
    of draws taken.  A stack of one value is left as it is.  The first
    revision does so on every stack, and on the empty stack does
    nothing at all; the second on a stack that is not empty and has at
    most 2^31 values. *)
Theorem opcode_D_keeps_the_values (r : revision) (s : Xrf.state r)
    (flag : bool) (i : Z) (l : list Z) :
  Xrf.rep r (mem s) l →
  (r = Singly → l ≠ [] ∧ Z.of_nat (length l) <= 2 ^ 31) →
  (∃ m' calls l',
     Xrf.command r "D" flag i s =
       Ok (Break i) (set_mem m' (set_rand_calls calls s)) ∧
     Xrf.rep r m' l' ∧ l' ≡ₚ l ∧ (length l = 1%nat → l' = l)) ∧
  (r = Doubly → l = [] → Xrf.command r "D" flag i s = Ok (Break i) s).
Proof.
  intros Hrep Hsingly. split.
  - assert (∃ m' calls l',
              Xrf.randomize_stack r s =
                Ok tt (set_mem m' (set_rand_calls calls s)) ∧
              Xrf.rep r m' l' ∧ l' ≡ₚ l)
      as (m' & calls & l' & Hrun & Hrep' & Hperm).
    { destruct r.
      - by apply Rev1Facts.dll_randomize_stack.
      - destruct Hsingly as [Hne Hmax]; [done|].
        by apply Rev2Facts.sll_randomize_stack. }
    exists m', calls, l'. split_and!; [|done|done|].
    + destruct r; simpl in *; by rewrite (bind_Ok _ _ _ _ _ Hrun).
    + intros Hone. destruct l as [|v [|w l]]; try done.
      by apply Permutation_singleton_r in Hperm.
  - intros -> ->. simpl in *.
    by rewrite (bind_Ok _ _ _ _ _ (Rev1Facts.dll_randomize_stack_empty s Hrep)).
Qed.

Lemma opcode_D_keeps_the_values_witness :
  ∃ m' calls l',
    Xrf.command Singly "D" false 0
      (Examples.holding Singly [7; 3; 5] (Examples.code_of "DDDDB" [false])) =
      Ok (Break 0)
        (set_mem m'
           (set_rand_calls calls
              (Examples.holding Singly [7; 3; 5]
                 (Examples.code_of "DDDDB" [false])))) ∧
    Xrf.rep Singly m' l' ∧ l' ≡ₚ [7; 3; 5] ∧
    (length [7; 3; 5] = 1%nat → l' = [7; 3; 5]).
Proof.
  apply (opcode_D_keeps_the_values Singly
           (Examples.holding Singly [7; 3; 5]
              (Examples.code_of "DDDDB" [false])) false 0 [7; 3; 5]).
  - example_rep [1%positive; 2%positive; 3%positive].
  - intros _. split; [done|]. simpl. lia.
Defined.
